(** * Sticky states: the decorated [$state.transitionTo] of src/sticky.js

    A shallow embedding of the transition coordinator of ui-router-extras'
    sticky-state module.  JavaScript objects live in an explicit store and
    are named by their address, so that reference identity ([===]), the
    sharing of [state.self] between a state and its surrogates, and the
    in-place replacement of [state.path] are all visible in the model.

    What is not in src/sticky.js is kept at its boundary:
    - the registry service [_StickyState] ([processTransition],
      [getInactiveStates], [stateInactivated], ...): its results are inputs
      of a request, its notifications are recorded as events carrying the
      arguments of the call;
    - the host engine ([$state.get], the real [$state.transitionTo], the
      promise it returns): lookups are tables of the configuration, the
      delegated call is an event, and the two promise handlers are separate
      operations taking the value the promise settled with;
    - [$log]: debug output is recorded as events. *)

From Stdlib Require Import String Ascii List Lia Sorted.
From stdpp Require Import base option list gmap strings.

Local Open Scope string_scope.

(** ** Data model *)

(** Addresses of JavaScript objects. *)
Abbreviation loc := nat.

(** A function value stored in an [onEnter]/[onExit] slot: either a function
    of the application, or one of the closures that sticky.js creates. *)
Inductive hook : Type :=
| HUndefined
| HUser (f : nat)
| HReactivated (surrogate state : loc)   (* phase-2 onEnter, l.203 *)
| HInactivated (state : loc)             (* l.219 *)
| HEntering (state : loc) (oldOnEnter : hook) (updateParams : bool) (* l.230, l.243 *)
| HExiting (state : loc) (tid : nat) (oldOnExit : hook).  (* l.255; [tid] names the
     invocation whose variable [exited] the closure captured *)

(** [state.self]: the public state declaration. *)
Record selfObj : Type := {
  self_name : option string;
  self_onEnter : hook;
  self_onExit : hook;
  self_status : option string;
  self_state : option loc   (* [self.$$state()] *)
}.

(** An internal state object, or a surrogate ([surrogateType] present). *)
Record stateObj : Type := {
  st_self : loc;
  st_path : option loc;
  st_locals : option loc;     (* [None]: undefined or null *)
  st_resolve : option loc;
  st_views : option loc;
  st_params : option loc;
  st_ownParams : option loc;
  st_surrogateType : option string
}.

(** Values held in plain objects (locals, resolve and views maps). *)
Inductive val : Type :=
| VUndefined
| VRef (r : nat).

(** A plain object: own properties and prototype. *)
Record pobj : Type := {
  own : gmap string val;
  proto : option loc
}.

(** An undo action registered with [restore.addRestoreFunction] or pushed on
    [restore.restoreFunctions]. *)
Inductive undo : Type :=
| URestoreOnEnter (state : loc) (oldOnEnter : hook)   (* l.209, l.233, l.246 *)
| URestoreOnExit (state : loc) (oldOnExit : hook)     (* l.222, l.258 *)
| UDeleteParam (params ownParams : loc)               (* l.305 *)
| UPopParam (params ownParams : loc).                 (* l.312 *)

(** [currentTransition]; [tr_id] stands for the identity of the record. *)
Record transitionRec : Type := {
  tr_id : nat;
  tr_toState : loc;
  tr_toParams : loc;
  tr_fromState : loc;
  tr_reloadStateTree : option loc
}.

(** The variables closed over by one invocation of the decorated
    [transitionTo]: they outlive the call, inside [restore], the hooks and
    the promise handlers. *)
Record closure : Type := {
  c_idx : nat;
  c_toState : option loc;
  c_fromState : loc;
  c_savedToStatePath : option loc;
  c_savedFromStatePath : option loc;
  c_restoreIsNoop : bool;            (* the variable [restore] holds [noop] *)
  c_restoreFunctions : list undo;    (* of the original [restore] function *)
  c_exited : list loc;
  c_DEBUG : bool
}.

Inductive event : Type :=
| EvCallUser (f : nat)
| EvStateReactivated (state : loc)
| EvStateInactivated (state : loc)
| EvStateEntering (state : loc) (oldOnEnter : hook) (updateParams : bool)
| EvStateExiting (state : loc) (exited : list loc) (oldOnExit : hook)
| EvDelegate (tid : nat)
| EvLogDebug (msg : string)
| EvLogTransitionFailed (err : nat)
| EvDebugTransition (tid : nat)
| EvDebugViews (state : loc).

(** The store together with the module-level variables of sticky.js. *)
Record world : Type := {
  objs : gmap loc stateObj;
  selfs : gmap loc selfObj;
  arrays : gmap loc (list loc);
  pobjs : gmap loc pobj;
  paramsH : gmap loc (list string);
  pendingTransitions : list transitionRec;
  pendingRestore : option nat;
  closures : gmap nat closure;
  trace : list event
}.

(** What a call reads but never writes. *)
Record config : Type := {
  root : loc;
  inactivePseudoState : loc;
  hasParamSet : bool;                  (* versionHeuristics.hasParamSet *)
  internalStates : gmap string loc;
  stateGet : gmap string loc           (* [$state.get(name, rel)], a [self] *)
}.

Inductive reloadOpt : Type :=
| ReloadFalse
| ReloadTrue
| ReloadState (name : string).

(** The result of [_StickyState.processTransition]. [enter] and [exit] are
    sparse arrays: [None] is a hole. *)
Record stickyTransitions : Type := {
  keep : nat;
  enter : list (option string);
  exit : list (option string);
  inactives : list loc
}.

Record request : Type := {
  to : string;
  toParams : option loc;
  options : option loc;                (* the [options] argument, when it is an object *)
  reload : reloadOpt;                  (* [options && options.reload || false] as read
                                          at l.275: [ReloadFalse] without [options] *)
  current : loc;                       (* $state.$current *)
  plan : stickyTransitions;
  inactiveStates : list loc;           (* _StickyState.getInactiveStates() *)
  DEBUG : bool;
  random : nat                         (* Math.random() *)
}.

(** ** Store updates *)

Definition set_objs (f : gmap loc stateObj → gmap loc stateObj) (w : world) : world :=
  {| objs := f (objs w); selfs := selfs w; arrays := arrays w; pobjs := pobjs w;
     paramsH := paramsH w;
     pendingTransitions := pendingTransitions w; pendingRestore := pendingRestore w;
     closures := closures w; trace := trace w |}.

Definition set_selfs (f : gmap loc selfObj → gmap loc selfObj) (w : world) : world :=
  {| objs := objs w; selfs := f (selfs w); arrays := arrays w; pobjs := pobjs w;
     paramsH := paramsH w;
     pendingTransitions := pendingTransitions w; pendingRestore := pendingRestore w;
     closures := closures w; trace := trace w |}.

Definition set_arrays (f : gmap loc (list loc) → gmap loc (list loc)) (w : world) : world :=
  {| objs := objs w; selfs := selfs w; arrays := f (arrays w); pobjs := pobjs w;
     paramsH := paramsH w;
     pendingTransitions := pendingTransitions w; pendingRestore := pendingRestore w;
     closures := closures w; trace := trace w |}.

Definition set_pobjs (f : gmap loc pobj → gmap loc pobj) (w : world) : world :=
  {| objs := objs w; selfs := selfs w; arrays := arrays w; pobjs := f (pobjs w);
     paramsH := paramsH w;
     pendingTransitions := pendingTransitions w; pendingRestore := pendingRestore w;
     closures := closures w; trace := trace w |}.

Definition set_paramsH (f : gmap loc (list string) → gmap loc (list string)) (w : world) : world :=
  {| objs := objs w; selfs := selfs w; arrays := arrays w; pobjs := pobjs w;
     paramsH := f (paramsH w);
     pendingTransitions := pendingTransitions w; pendingRestore := pendingRestore w;
     closures := closures w; trace := trace w |}.

Definition set_pendingTransitions (f : list transitionRec → list transitionRec) (w : world) : world :=
  {| objs := objs w; selfs := selfs w; arrays := arrays w; pobjs := pobjs w;
     paramsH := paramsH w;
     pendingTransitions := f (pendingTransitions w); pendingRestore := pendingRestore w;
     closures := closures w; trace := trace w |}.

Definition set_pendingRestore (r : option nat) (w : world) : world :=
  {| objs := objs w; selfs := selfs w; arrays := arrays w; pobjs := pobjs w;
     paramsH := paramsH w;
     pendingTransitions := pendingTransitions w; pendingRestore := r;
     closures := closures w; trace := trace w |}.

Definition set_closures (f : gmap nat closure → gmap nat closure) (w : world) : world :=
  {| objs := objs w; selfs := selfs w; arrays := arrays w; pobjs := pobjs w;
     paramsH := paramsH w;
     pendingTransitions := pendingTransitions w; pendingRestore := pendingRestore w;
     closures := f (closures w); trace := trace w |}.

Definition emit (e : event) (w : world) : world :=
  {| objs := objs w; selfs := selfs w; arrays := arrays w; pobjs := pobjs w;
     paramsH := paramsH w;
     pendingTransitions := pendingTransitions w; pendingRestore := pendingRestore w;
     closures := closures w; trace := trace w ++ [e] |}.

(** ** A state-and-exception monad

    [None] stands for a thrown JavaScript exception (a [TypeError] on a
    property read of [undefined], a [RangeError]). *)

Definition M (A : Type) : Type := world → option (A * world).

Definition ret {A} (a : A) : M A := λ w, Some (a, w).

Definition bind {A B} (m : M A) (k : A → M B) : M B :=
  λ w, match m w with
       | Some (a, w') => k a w'
       | None => None
       end.

Definition throw {A} : M A := λ _, None.

Definition gets {A} (f : world → A) : M A := λ w, Some (f w, w).

Definition modify (f : world → world) : M unit := λ w, Some (tt, f w).

(** A property read on a value that may be [undefined]. *)
Definition deref {A} (o : option A) : M A :=
  λ w, match o with
       | Some a => Some (a, w)
       | None => None
       end.

Notation "'let!' x ':=' m 'in' k" := (bind m (λ x, k))
  (at level 10, x name, m at level 100, k at level 200,
   format "'[v' 'let!'  x  ':='  m  'in' '/' k ']'").
Notation "m ';;' k" := (bind m (λ _, k))
  (at level 100, k at level 200, right associativity).

(** [angular.forEach] over an array of present elements. *)
Fixpoint forEach {A} (f : A → M unit) (l : list A) : M unit :=
  match l with
  | [] => ret tt
  | x :: l' => f x ;; forEach f l'
  end.

(** Allocation: a new object gets an address at which its store holds
    nothing. *)
Definition new_obj (o : stateObj) : M loc :=
  λ w, let l := fresh (dom (objs w)) in Some (l, set_objs <[l := o]> w).
Definition new_self (s : selfObj) : M loc :=
  λ w, let l := fresh (dom (selfs w)) in Some (l, set_selfs <[l := s]> w).
Definition new_array (a : list loc) : M loc :=
  λ w, let l := fresh (dom (arrays w)) in Some (l, set_arrays <[l := a]> w).
Definition new_pobj (p : pobj) : M loc :=
  λ w, let l := fresh (dom (pobjs w)) in Some (l, set_pobjs <[l := p]> w).
Definition new_params (p : list string) : M loc :=
  λ w, let l := fresh (dom (paramsH w)) in Some (l, set_paramsH <[l := p]> w).
Definition new_closure (c : closure) : M nat :=
  λ w, let k := fresh (dom (closures w)) in Some (k, set_closures <[k := c]> w).

Definition read_obj (l : loc) : M stateObj := λ w, deref (objs w !! l) w.
Definition read_self (l : loc) : M selfObj := λ w, deref (selfs w !! l) w.
Definition read_array (l : loc) : M (list loc) := λ w, deref (arrays w !! l) w.
Definition read_pobj (l : loc) : M pobj := λ w, deref (pobjs w !! l) w.
Definition read_params (l : loc) : M (list string) := λ w, deref (paramsH w !! l) w.
Definition read_closure (k : nat) : M closure := λ w, deref (closures w !! k) w.

Definition write_obj (l : loc) (o : stateObj) : M unit := modify (set_objs <[l := o]>).
Definition write_self (l : loc) (s : selfObj) : M unit := modify (set_selfs <[l := s]>).
Definition write_pobj (l : loc) (p : pobj) : M unit := modify (set_pobjs <[l := p]>).
Definition write_params (l : loc) (p : list string) : M unit := modify (set_paramsH <[l := p]>).
Definition write_closure (k : nat) (c : closure) : M unit := modify (set_closures <[k := c]>).

(** Field assignments. *)
Definition with_path (p : option loc) (o : stateObj) : stateObj :=
  {| st_self := st_self o; st_path := p; st_locals := st_locals o;
     st_resolve := st_resolve o; st_views := st_views o; st_params := st_params o;
     st_ownParams := st_ownParams o; st_surrogateType := st_surrogateType o |}.

Definition with_locals (l : option loc) (o : stateObj) : stateObj :=
  {| st_self := st_self o; st_path := st_path o; st_locals := l;
     st_resolve := st_resolve o; st_views := st_views o; st_params := st_params o;
     st_ownParams := st_ownParams o; st_surrogateType := st_surrogateType o |}.

Definition with_onEnter (h : hook) (s : selfObj) : selfObj :=
  {| self_name := self_name s; self_onEnter := h; self_onExit := self_onExit s;
     self_status := self_status s; self_state := self_state s |}.

Definition with_onExit (h : hook) (s : selfObj) : selfObj :=
  {| self_name := self_name s; self_onEnter := self_onEnter s; self_onExit := h;
     self_status := self_status s; self_state := self_state s |}.

Definition with_status (v : option string) (s : selfObj) : selfObj :=
  {| self_name := self_name s; self_onEnter := self_onEnter s; self_onExit := self_onExit s;
     self_status := v; self_state := self_state s |}.

(** [state.path = p] *)
Definition assign_path (state : loc) (p : loc) : M unit :=
  let! o := read_obj state in
  write_obj state (with_path (Some p) o).

(** [state.self.onEnter = h] and [state.self.onExit = h] *)
Definition assign_onEnter (state : loc) (h : hook) : M unit :=
  let! o := read_obj state in
  let! s := read_self (st_self o) in
  write_self (st_self o) (with_onEnter h s).

Definition assign_onExit (state : loc) (h : hook) : M unit :=
  let! o := read_obj state in
  let! s := read_self (st_self o) in
  write_self (st_self o) (with_onExit h s).

(** ** [restore] (l.151-173) *)

Definition reloadKey : string := "$$uirouterextrasreload".

(** [delete params.$$uirouterextrasreload] on a parameter set, modelled by the
    list of its keys. *)
Definition delete_key (k : string) (keys : list string) : list string :=
  filter (λ x, x ≠ k) keys.

(** [params.length = params.length - 1]: a [RangeError] on an empty array. *)
Definition pop_length (keys : list string) : option (list string) :=
  match keys with
  | [] => None
  | _ => Some (removelast keys)
  end.

Definition run_undo (u : undo) : M unit :=
  match u with
  | URestoreOnEnter state oldOnEnter => assign_onEnter state oldOnEnter
  | URestoreOnExit state oldOnExit => assign_onExit state oldOnExit
  | UDeleteParam params ownParams =>
      let! p := read_params params in
      write_params params (delete_key reloadKey p) ;;
      let! op := read_params ownParams in
      write_params ownParams (delete_key reloadKey op)
  | UPopParam params ownParams =>
      let! p := read_params params in
      let! p' := deref (pop_length p) in
      write_params params p' ;;
      let! op := read_params ownParams in
      let! op' := deref (pop_length op) in
      write_params ownParams op'
  end.

Definition closure_restored (c : closure) : closure :=
  {| c_idx := c_idx c; c_toState := c_toState c; c_fromState := c_fromState c;
     c_savedToStatePath := None; c_savedFromStatePath := None;
     c_restoreIsNoop := true; c_restoreFunctions := c_restoreFunctions c;
     c_exited := c_exited c; c_DEBUG := c_DEBUG c |}.

(** The body of the function first bound to [restore] by invocation [k].
    [restore.restoreFunctions] is read through the variable [restore], so it
    is [undefined] once the variable holds [noop]. *)
Definition restore_body (k : nat) : M unit :=
  let! c := read_closure k in
  match c_savedToStatePath c with
  | Some p => let! toState := deref (c_toState c) in assign_path toState p
  | None => ret tt
  end ;;
  match c_savedFromStatePath c with
  | Some p => assign_path (c_fromState c) p
  | None => ret tt
  end ;;
  forEach run_undo (if c_restoreIsNoop c then [] else c_restoreFunctions c) ;;
  write_closure k (closure_restored c) ;;
  modify (set_pendingRestore None) ;;
  modify (set_pendingTransitions (delete (c_idx c))).

(** The call [restore()] made by the promise handlers: it goes through the
    variable. *)
Definition call_restore (k : nat) : M unit :=
  let! c := read_closure k in
  if c_restoreIsNoop c then ret tt else restore_body k.

(** [if (pendingRestore) pendingRestore()] (l.132): the slot holds the
    function object itself. *)
Definition call_pendingRestore (debug : bool) : M unit :=
  let! pr := gets pendingRestore in
  match pr with
  | Some k =>
      restore_body k ;;
      if debug then modify (emit (EvLogDebug "Restored paths from pending transition"))
      else ret tt
  | None => ret tt
  end.

(** ** Strings *)

(** [name.indexOf("@") != -1] *)
Fixpoint has_at (s : string) : bool :=
  match s with
  | EmptyString => false
  | String c s' => if Ascii.eqb c "@"%char then true else has_at s'
  end.

(** [name.indexOf(prefix) === 0] *)
Fixpoint starts_with (prefix s : string) : bool :=
  match prefix, s with
  | EmptyString, _ => true
  | String _ _, EmptyString => false
  | String a p', String b s' => if Ascii.eqb a b then starts_with p' s' else false
  end.

(** ** The order of strings

    A string of the model holds the UTF-8 encoding of the JavaScript string.
    JavaScript compares strings by their UTF-16 code units, which is not the
    order of the bytes: a character outside the basic plane is a surrogate
    pair and so comes before the characters from U+E000 on. *)

(** The payload of a continuation byte [10xxxxxx]. *)
Definition utf8_cont (b : ascii) : option N :=
  let n := N_of_ascii b in
  if ((128 <=? n) && (n <? 192))%N then Some (n - 128)%N else None.

(** The code points of a UTF-8 string; a byte that starts no well-formed
    sequence stands for itself. *)
Fixpoint code_points (s : string) : list N :=
  match s with
  | EmptyString => []
  | String b s1 =>
      let n := N_of_ascii b in
      if (n <? 192)%N then n :: code_points s1
      else if (n <? 224)%N then
        match s1 with
        | String b2 s2 =>
            match utf8_cont b2 with
            | Some c2 => ((n - 192) * 64 + c2)%N :: code_points s2
            | None => n :: code_points s1
            end
        | _ => n :: code_points s1
        end
      else if (n <? 240)%N then
        match s1 with
        | String b2 (String b3 s3) =>
            match utf8_cont b2, utf8_cont b3 with
            | Some c2, Some c3 =>
                ((n - 224) * 4096 + c2 * 64 + c3)%N :: code_points s3
            | _, _ => n :: code_points s1
            end
        | _ => n :: code_points s1
        end
      else if (n <? 248)%N then
        match s1 with
        | String b2 (String b3 (String b4 s4)) =>
            match utf8_cont b2, utf8_cont b3, utf8_cont b4 with
            | Some c2, Some c3, Some c4 =>
                ((n - 240) * 262144 + c2 * 4096 + c3 * 64 + c4)%N :: code_points s4
            | _, _, _ => n :: code_points s1
            end
        | _ => n :: code_points s1
        end
      else n :: code_points s1
  end.

(** The UTF-16 code units of a code point: itself, or a surrogate pair. *)
Definition utf16_units (c : N) : list N :=
  if (c <? 65536)%N then [c]
  else [(55296 + (c - 65536) / 1024)%N; (56320 + (c - 65536) mod 1024)%N].

Definition code_units (s : string) : list N :=
  concat (utf16_units <$> code_points s).

(** Lexicographic order of code-unit sequences. *)
Fixpoint units_leb (a b : list N) : bool :=
  match a, b with
  | [], _ => true
  | _ :: _, [] => false
  | x :: a', y :: b' =>
      if (x <? y)%N then true
      else if (y <? x)%N then false
      else units_leb a' b'
  end.

(** [s1 <= s2] on JavaScript strings. *)
Definition js_leb (s1 s2 : string) : bool :=
  units_leb (code_units s1) (code_units s2).

(** ** Plain objects *)

(** Property lookup along the prototype chain; the chain of a JavaScript
    object is acyclic, so it is no longer than the store is large. *)
Fixpoint pget_fuel (fuel : nat) (pm : gmap loc pobj) (l : loc) (k : string) : val :=
  match fuel with
  | 0 => VUndefined
  | S fuel' =>
      match pm !! l with
      | None => VUndefined
      | Some p =>
          match own p !! k with
          | Some v => v
          | None =>
              match proto p with
              | Some l' => pget_fuel fuel' pm l' k
              | None => VUndefined
              end
          end
      end
  end.

Definition pget (pm : gmap loc pobj) (l : loc) (k : string) : val :=
  pget_fuel (S (size pm)) pm l k.

Definition empty_pobj : pobj := {| own := ∅; proto := None |}.

Definition empty_self : selfObj :=
  {| self_name := None; self_onEnter := HUndefined; self_onExit := HUndefined;
     self_status := None; self_state := None |}.

(** ** [SurrogateState] (l.70-82) *)

(** [root && root.locals && root.locals.globals] *)
Definition root_globals (cfg : config) (w : world) : val :=
  match objs w !! root cfg with
  | Some r =>
      match st_locals r with
      | Some l => pget (pobjs w) l "globals"
      | None => VUndefined
      end
  | None => VUndefined
  end.

Definition SurrogateState (cfg : config) (type : string) : M loc :=
  let! resolve := new_pobj empty_pobj in
  let! g := gets (root_globals cfg) in
  let! locals := new_pobj {| own := {[ "globals" := g ]}; proto := None |} in
  let! views := new_pobj empty_pobj in
  let! self := new_self empty_self in
  let! params := new_params [] in
  let! ownParams := new_params (if hasParamSet cfg then ["$$equals"] else []) in
  new_obj
    {| st_self := self; st_path := None; st_locals := Some locals;
       st_resolve := Some resolve; st_views := Some views;
       st_params := Some params; st_ownParams := Some ownParams;
       st_surrogateType := Some type |}.

(** ** Surrogate factory functions (l.191-263)

    [k] is the invocation: [restore.addRestoreFunction] pushes on its
    [restoreFunctions]. *)

Definition push_fn (fn : undo) (c : closure) : closure :=
  {| c_idx := c_idx c; c_toState := c_toState c; c_fromState := c_fromState c;
     c_savedToStatePath := c_savedToStatePath c;
     c_savedFromStatePath := c_savedFromStatePath c;
     c_restoreIsNoop := c_restoreIsNoop c;
     c_restoreFunctions := c_restoreFunctions c ++ [fn];
     c_exited := c_exited c; c_DEBUG := c_DEBUG c |}.

Definition addRestoreFunction (k : nat) (fn : undo) : M unit :=
  let! c := read_closure k in
  write_closure k (push_fn fn c).

(** A JavaScript reference always denotes a live object: a builder is
    called on a state object of the store whose [self] is in the store. *)
Definition check_state (state : loc) : M unit :=
  let! o := read_obj state in
  let! sf := read_self (st_self o) in
  ret tt.

Definition stateReactivatedSurrogatePhase1 (cfg : config) (state : loc) : M loc :=
  check_state state ;;
  let! surrogate := SurrogateState cfg "reactivate_phase1" in
  let! st := read_obj state in
  let! so := read_obj surrogate in
  let! sf := read_self (st_self st) in
  let! copy := new_self sf in
  write_obj surrogate
    {| st_self := copy; st_path := st_path so; st_locals := st_locals st;
       st_resolve := st_resolve so; st_views := st_views so;
       st_params := st_params so; st_ownParams := st_ownParams so;
       st_surrogateType := st_surrogateType so |} ;;
  ret surrogate.

(** [angular.extend(surrogate, state)] copies every own property of the
    state; a real state has no [surrogateType], which is then kept. *)
Definition stateReactivatedSurrogatePhase2 (cfg : config) (k : nat) (state : loc) : M loc :=
  check_state state ;;
  let! surrogate := SurrogateState cfg "reactivate_phase2" in
  let! st := read_obj state in
  let! so := read_obj surrogate in
  let! sf := read_self (st_self st) in
  let oldOnEnter := self_onEnter sf in
  let! resolve := new_pobj empty_pobj in
  let! views := new_pobj empty_pobj in
  write_obj surrogate
    {| st_self := st_self st; st_path := st_path st; st_locals := st_locals st;
       st_resolve := Some resolve; st_views := Some views;
       st_params := st_params st; st_ownParams := st_ownParams st;
       st_surrogateType :=
         match st_surrogateType st with
         | Some t => Some t
         | None => st_surrogateType so
         end |} ;;
  assign_onEnter surrogate (HReactivated surrogate state) ;;
  addRestoreFunction k (URestoreOnEnter state oldOnEnter) ;;
  ret surrogate.

Definition stateInactivatedSurrogate (cfg : config) (k : nat) (state : loc) : M loc :=
  check_state state ;;
  let! surrogate := SurrogateState cfg "inactivate" in
  let! st := read_obj state in
  let! so := read_obj surrogate in
  write_obj surrogate
    {| st_self := st_self st; st_path := st_path so; st_locals := st_locals so;
       st_resolve := st_resolve so; st_views := st_views so;
       st_params := st_params so; st_ownParams := st_ownParams so;
       st_surrogateType := st_surrogateType so |} ;;
  let! sf := read_self (st_self st) in
  let oldOnExit := self_onExit sf in
  assign_onExit surrogate (HInactivated state) ;;
  addRestoreFunction k (URestoreOnExit state oldOnExit) ;;
  ret surrogate.

(** Both callers pass one argument, so the [toParams] of the closure is
    [undefined] and is left out of [HEntering]. *)
Definition stateEnteredSurrogate (k : nat) (state : loc) : M loc :=
  let! st := read_obj state in
  let! sf := read_self (st_self st) in
  let oldOnEnter := self_onEnter sf in
  assign_onEnter state (HEntering state oldOnEnter false) ;;
  addRestoreFunction k (URestoreOnEnter state oldOnEnter) ;;
  ret state.

Definition stateUpdateParamsSurrogate (k : nat) (state : loc) : M loc :=
  let! st := read_obj state in
  let! sf := read_self (st_self st) in
  let oldOnEnter := self_onEnter sf in
  assign_onEnter state (HEntering state oldOnEnter true) ;;
  addRestoreFunction k (URestoreOnEnter state oldOnEnter) ;;
  ret state.

Definition stateExitedSurrogate (k : nat) (state : loc) : M loc :=
  let! st := read_obj state in
  let! sf := read_self (st_self st) in
  let oldOnExit := self_onExit sf in
  assign_onExit state (HExiting state k oldOnExit) ;;
  addRestoreFunction k (URestoreOnExit state oldOnExit) ;;
  ret state.

(** ** The inactive pseudo-state's locals (l.333-348) *)

Definition clear_views (p : pobj) : pobj :=
  {| own := filter (λ kv, has_at kv.1 = false) (own p); proto := proto p |}.

Definition view_entries (m : gmap string val) : gmap string val :=
  filter (λ kv, has_at kv.1 = true) m.

Definition add_views (views : gmap string val) (p : pobj) : pobj :=
  {| own := views ∪ own p; proto := proto p |}.

(** l.334-336 *)
Definition clear_inactive_locals (cfg : config) : M unit :=
  let! ips := read_obj (inactivePseudoState cfg) in
  match st_locals ips with
  | None => ret tt
  | Some l => let! p := read_pobj l in write_pobj l (clear_views p)
  end.

(** l.342-347, for one element of [stickyTransitions.inactives] *)
Definition load_inactive_locals (cfg : config) (i : loc) : M unit :=
  let! io := read_obj i in
  match st_locals io with
  | None => ret tt
  | Some il =>
      let! ip := read_pobj il in
      let views := view_entries (own ip) in
      if decide (size views = 0) then ret tt
      else
        let! ips := read_obj (inactivePseudoState cfg) in
        let! l := deref (st_locals ips) in
        let! p := read_pobj l in
        write_pobj l (add_views views p)
  end.

(** ** The two classification loops (l.352-389) *)

(** The local array variables of one invocation. *)
Record pathVars : Type := {
  surrogateToPath : list loc;
  surrogateFromPath : list loc;
  reactivated : list loc;
  terminalReactivatedState : option loc
}.

(** [state.path[idx]] *)
Definition path_elem (state : loc) (idx : nat) : M (option loc) :=
  let! o := read_obj state in
  let! p := deref (st_path o) in
  let! a := read_array p in
  ret (a !! idx).

(** [exited.push(state)] and [exited = exited.concat(states)] on the
    variable of invocation [k]. *)
Definition push_exits (states : list loc) (c : closure) : closure :=
  {| c_idx := c_idx c; c_toState := c_toState c; c_fromState := c_fromState c;
     c_savedToStatePath := c_savedToStatePath c;
     c_savedFromStatePath := c_savedFromStatePath c;
     c_restoreIsNoop := c_restoreIsNoop c;
     c_restoreFunctions := c_restoreFunctions c;
     c_exited := c_exited c ++ states; c_DEBUG := c_DEBUG c |}.

Definition push_exited (k : nat) (states : list loc) : M unit :=
  let! c := read_closure k in
  write_closure k (push_exits states c).

(** [angular.forEach] over a sparse array, holes skipped. *)
Fixpoint forEachIdx {V} (f : nat → string → V → M V) (idx : nat)
    (l : list (option string)) (v : V) : M V :=
  match l with
  | [] => ret v
  | x :: l' =>
      let! v' := match x with
                 | Some value => f idx value v
                 | None => ret v
                 end in
      forEachIdx f (S idx) l' v'
  end.

Definition enter_step (cfg : config) (k : nat) (toState : loc)
    (idx : nat) (value : string) (v : pathVars) : M pathVars :=
  let! enteringState := path_elem toState idx in
  if String.eqb value "reactivate" then
    let! state := deref enteringState in
    let! surrogate := stateReactivatedSurrogatePhase1 cfg state in
    let! phase2 := stateReactivatedSurrogatePhase2 cfg k state in
    ret {| surrogateToPath := surrogateToPath v ++ [surrogate];
           surrogateFromPath := surrogateFromPath v ++ [surrogate];
           reactivated := reactivated v ++ [phase2];
           terminalReactivatedState := Some state |}
  else if String.eqb value "updateStateParams" then
    let! state := deref enteringState in
    let! surrogate := stateUpdateParamsSurrogate k state in
    ret {| surrogateToPath := surrogateToPath v ++ [surrogate];
           surrogateFromPath := surrogateFromPath v;
           reactivated := reactivated v;
           terminalReactivatedState := Some state |}
  else if String.eqb value "enter" then
    let! state := deref enteringState in
    let! surrogate := stateEnteredSurrogate k state in
    ret {| surrogateToPath := surrogateToPath v ++ [surrogate];
           surrogateFromPath := surrogateFromPath v;
           reactivated := reactivated v;
           terminalReactivatedState := terminalReactivatedState v |}
  else ret v.

Definition exit_step (cfg : config) (k : nat) (fromState : loc)
    (idx : nat) (value : string) (v : pathVars) : M pathVars :=
  let! exiting := path_elem fromState idx in
  if String.eqb value "inactivate" then
    let! state := deref exiting in
    let! surrogate := stateInactivatedSurrogate cfg k state in
    push_exited k [state] ;;
    ret {| surrogateToPath := surrogateToPath v;
           surrogateFromPath := surrogateFromPath v ++ [surrogate];
           reactivated := reactivated v;
           terminalReactivatedState := terminalReactivatedState v |}
  else if String.eqb value "exit" then
    let! state := deref exiting in
    let! surrogate := stateExitedSurrogate k state in
    push_exited k [state] ;;
    ret {| surrogateToPath := surrogateToPath v;
           surrogateFromPath := surrogateFromPath v ++ [surrogate];
           reactivated := reactivated v;
           terminalReactivatedState := terminalReactivatedState v |}
  else ret v.

(** ** Orphaned inactive descendants (l.401-417) *)

(** [exiting.self.name] *)
Definition state_name (state : loc) : M string :=
  let! o := read_obj state in
  let! sf := read_self (st_self o) in
  deref (self_name sf).

(** The states of [inactiveStates] whose name starts with [prefix], each
    with the string it converts to. *)
Fixpoint orphans_of (prefix : string) (inactiveStates : list loc) : M (list (string * loc)) :=
  match inactiveStates with
  | [] => ret []
  | exiting :: rest =>
      let! n := state_name exiting in
      let! more := orphans_of prefix rest in
      ret (if starts_with prefix n then (n, exiting) :: more else more)
  end.

(** [Array.prototype.sort] without a comparator orders the elements by the
    string they convert to.

    Modelled from the spec: the host engine's [toString] of an internal
    state object is not in src/; section 4.2 of the specification says that
    the orphans are sorted by name, so a state converts to its name. *)
Fixpoint insert_sorted (x : string * loc) (l : list (string * loc)) : list (string * loc) :=
  match l with
  | [] => [x]
  | y :: l' => if js_leb x.1 y.1 then x :: y :: l' else y :: insert_sorted x l'
  end.

Definition js_sort (l : list (string * loc)) : list (string * loc) :=
  foldr insert_sorted [] l.

(** [map(inactiveOrphans, stateExitedSurrogate)] *)
Fixpoint map_exited (k : nat) (l : list loc) : M (list loc) :=
  match l with
  | [] => ret []
  | x :: l' =>
      let! y := stateExitedSurrogate k x in
      let! ys := map_exited k l' in
      ret (y :: ys)
  end.

Definition exit_orphans (k : nat) (toState : loc) (inactiveStates : list loc)
    (v : pathVars) : M pathVars :=
  if decide (terminalReactivatedState v = Some toState) then
    let! o := read_obj toState in
    let! sf := read_self (st_self o) in
    let prefix := default "undefined" (self_name sf) ++ "." in
    let! found := orphans_of prefix inactiveStates in
    let inactiveOrphans := (reverse (js_sort found)).*2 in
    let! surrogates := map_exited k inactiveOrphans in
    push_exited k inactiveOrphans ;;
    ret {| surrogateToPath := surrogateToPath v;
           surrogateFromPath := surrogateFromPath v ++ surrogates;
           reactivated := reactivated v;
           terminalReactivatedState := terminalReactivatedState v |}
  else ret v.

(** ** Partial reload (l.275-317) *)

(** [reload && (reload === true ? savedToStatePath[0].self : $state.get(reload, rel))] *)
Definition reloadStateTree_of (cfg : config) (req : request) (savedToStatePath : loc)
    : M (option loc) :=
  match reload req with
  | ReloadFalse => ret None
  | ReloadTrue =>
      let! a := read_array savedToStatePath in
      let! first := deref (a !! 0) in
      let! o := read_obj first in
      ret (Some (st_self o))
  | ReloadState n => ret (stateGet cfg !! n)
  end.

(** [params.$$uirouterextrasreload = tempParam] on a parameter set. *)
Definition set_key (k : string) (keys : list string) : list string :=
  if bool_decide (k ∈ keys) then keys else keys ++ [k].

Definition pushRestoreFunction := addRestoreFunction.

Definition add_reload_param (cfg : config) (req : request) (k : nat)
    (toParams : loc) (reloadStateTree : loc) : M unit :=
  let! tp := read_pobj toParams in
  write_pobj toParams
    {| own := <[reloadKey := VRef (random req)]> (own tp); proto := proto tp |} ;;
  let! rs := read_self reloadStateTree in
  let! state := deref (self_state rs) in
  let! o := read_obj state in
  let! params := deref (st_params o) in
  let! ownParams := deref (st_ownParams o) in
  if hasParamSet cfg then
    let! op := read_params ownParams in
    write_params ownParams (set_key reloadKey op) ;;
    let! p := read_params params in
    write_params params (set_key reloadKey p) ;;
    pushRestoreFunction k (UDeleteParam params ownParams)
  else
    let! p := read_params params in
    write_params params (p ++ [reloadKey]) ;;
    let! op := read_params ownParams in
    write_params ownParams (op ++ [reloadKey]) ;;
    pushRestoreFunction k (UPopParam params ownParams).

(** [if (options && reload && reload !== true) delete options.reload]
    (l.279-280): the own property is removed from the caller's object. *)
Definition delete_options_reload (req : request) : M unit :=
  match options req, reload req with
  | Some o, ReloadState _ =>
      let! p := read_pobj o in
      write_pobj o {| own := delete "reload" (own p); proto := proto p |}
  | _, _ => ret tt
  end.

(** ** The decorated [transitionTo] (l.124-432) *)

(** [savedToStatePath = toState.path; savedFromStatePath = fromState.path] *)
Definition save_paths (savedTo savedFrom : loc) (c : closure) : closure :=
  {| c_idx := c_idx c; c_toState := c_toState c; c_fromState := c_fromState c;
     c_savedToStatePath := Some savedTo;
     c_savedFromStatePath := Some savedFrom;
     c_restoreIsNoop := c_restoreIsNoop c;
     c_restoreFunctions := c_restoreFunctions c;
     c_exited := c_exited c; c_DEBUG := c_DEBUG c |}.

(** The block guarded by [if (toState)] (l.270-428), in four stages.  The
    two substitute arrays are local variables until they are installed, so
    they are lists here and enter the store when they are assigned to
    [.path]. *)

(** l.271-331: the paths are saved, the transition is recorded and becomes
    the pending one, and the kept prefixes are sliced off. *)
Definition register_transition (cfg : config) (req : request) (k : nat)
    (toState toParams : loc) : M pathVars :=
  let fromState := current req in
  let! tso := read_obj toState in
  let! fso := read_obj fromState in
  let! savedToStatePath := deref (st_path tso) in
  let! savedFromStatePath := deref (st_path fso) in
  let! c := read_closure k in
  write_closure k (save_paths savedToStatePath savedFromStatePath c) ;;
  let! reloadStateTree := reloadStateTree_of cfg req savedToStatePath in
  delete_options_reload req ;;
  let currentTransition :=
    {| tr_id := k; tr_toState := toState; tr_toParams := toParams;
       tr_fromState := fromState; tr_reloadStateTree := reloadStateTree |} in
  modify (set_pendingTransitions (λ l, (l ++ [currentTransition])%list)) ;;
  modify (set_pendingRestore (Some k)) ;;
  match reloadStateTree with
  | Some r => add_reload_param cfg req k toParams r
  | None => ret tt
  end ;;
  let stickyTransitions := plan req in
  (if DEBUG req then modify (emit (EvDebugTransition k)) else ret tt) ;;
  let! toPath := read_array savedToStatePath in
  let! fromPath := read_array savedFromStatePath in
  ret {| surrogateToPath := take (keep stickyTransitions) toPath;
         surrogateFromPath := take (keep stickyTransitions) fromPath;
         reactivated := [];
         terminalReactivatedState := None |}.

(** l.334-348 *)
Definition refresh_inactive_locals (cfg : config) (req : request) : M unit :=
  clear_inactive_locals cfg ;;
  forEach (load_inactive_locals cfg) (inactives (plan req)).

(** l.393-397: the phase-2 surrogates go to the end of the to-path. *)
Definition append_reactivated (v : pathVars) : pathVars :=
  {| surrogateToPath := surrogateToPath v ++ reactivated v;
     surrogateFromPath := surrogateFromPath v;
     reactivated := reactivated v;
     terminalReactivatedState := terminalReactivatedState v |}.

(** l.352-417 *)
Definition build_paths (cfg : config) (req : request) (k : nat) (toState : loc)
    (v0 : pathVars) : M pathVars :=
  let fromState := current req in
  let stickyTransitions := plan req in
  let! v1 := forEachIdx (enter_step cfg k toState) 0 (enter stickyTransitions) v0 in
  let! v2 := forEachIdx (exit_step cfg k fromState) 0 (exit stickyTransitions) v1 in
  exit_orphans k toState (inactiveStates req) (append_reactivated v2).

(** l.420-427 *)
Definition install_paths (req : request) (toState : loc) (v : pathVars) : M unit :=
  let! pto := new_array (surrogateToPath v) in
  assign_path toState pto ;;
  let! pfrom := new_array (surrogateFromPath v) in
  assign_path (current req) pfrom ;;
  if DEBUG req then
    modify (emit (EvLogDebug "SurrogateFromPath: ")) ;;
    modify (emit (EvLogDebug "SurrogateToPath:   "))
  else ret tt.

Definition substitute (cfg : config) (req : request) (k : nat)
    (toState toParams : loc) : M unit :=
  let! v0 := register_transition cfg req k toState toParams in
  refresh_inactive_locals cfg req ;;
  let! v := build_paths cfg req k toState v0 in
  install_paths req toState v.

(** [internalStates[toStateSelf.name]] for [toStateSelf = $state.get(to, rel)] *)
Definition resolve_target (cfg : config) (req : request) (w : world) : option loc :=
  match stateGet cfg !! to req with
  | Some toStateSelf =>
      match selfs w !! toStateSelf with
      | Some sf =>
          match self_name sf with
          | Some n => internalStates cfg !! n
          | None => None
          end
      | None => None
      end
  | None => None
  end.

(** The opening of the decorated [transitionTo] (l.129-148): a pending
    restore is run, the target is looked up and the variables of the
    invocation are created.  The result is the invocation with its [toState]
    and [toParams]. *)
Definition accept (cfg : config) (req : request) : M (nat * option loc * loc) :=
  let! ips := read_obj (inactivePseudoState cfg) in
  match st_locals ips with
  | Some _ => ret tt
  | None =>
      let! r := read_obj (root cfg) in
      write_obj (inactivePseudoState cfg) (with_locals (st_locals r) ips)
  end ;;
  let! idx := gets (λ w, length (pendingTransitions w)) in
  call_pendingRestore (DEBUG req) ;;
  let! toState := gets (resolve_target cfg req) in
  let! toParams := match toParams req with
                   | Some p => ret p
                   | None => new_pobj empty_pobj
                   end in
  let! k := new_closure
    {| c_idx := idx; c_toState := toState; c_fromState := current req;
       c_savedToStatePath := None; c_savedFromStatePath := None;
       c_restoreIsNoop := false; c_restoreFunctions := [];
       c_exited := []; c_DEBUG := DEBUG req |} in
  ret (k, toState, toParams).

(** The synchronous part of the decorated [transitionTo], up to and
    including the delegated call; the result names the invocation, whose
    promise handlers are [transitionSuccess] and [transitionFailed]. *)
Definition transitionTo (cfg : config) (req : request) : M nat :=
  let! a := accept cfg req in
  match a.1.2 with
  | Some toState => substitute cfg req a.1.1 toState a.2
  | None => ret tt
  end ;;
  modify (emit (EvDelegate a.1.1)) ;;
  ret a.1.1.

(** ** Promise handlers (l.435-453) *)

(** A rejection reason on which properties can be read: an object (or a
    primitive), with the identity [err_id] and the [message] it has, if any. *)
Record error : Type := {
  err_id : nat;
  message : option string
}.

(** What a promise is rejected with: [None] is [null] or [undefined]. *)
Abbreviation reason := (option error).

Inductive outcome : Type :=
| Resolved (state : loc)
| Rejected (err : reason).

Definition transitionSuccess (k : nat) (state : loc) : M outcome :=
  call_restore k ;;
  let! c := read_closure k in
  (if c_DEBUG c then modify (emit (EvDebugViews state)) else ret tt) ;;
  let! sf := read_self state in
  write_self state (with_status (Some "active") sf) ;;
  ret (Resolved state).

Definition is_sentinel (m : option string) : bool :=
  match m with
  | Some s =>
      String.eqb s "transition prevented" || String.eqb s "transition aborted"
      || String.eqb s "transition superseded"
  | None => false
  end.

(** [DEBUG && err.message !== ...] reads [err.message] in debug mode only,
    and that read throws a [TypeError] when [err] is [null] or
    [undefined]. *)
Definition transitionFailed (k : nat) (err : reason) : M outcome :=
  call_restore k ;;
  let! c := read_closure k in
  (if c_DEBUG c then
     let! e := deref err in
     if negb (is_sentinel (message e))
     then modify (emit (EvLogTransitionFailed (err_id e)))
     else ret tt
   else ret tt) ;;
  ret (Rejected err).

(** ** Running a hook

    What the body of a function stored in [onEnter]/[onExit] does when the
    engine calls it. *)
Definition run_hook (h : hook) : M unit :=
  match h with
  | HUndefined => throw
  | HUser f => modify (emit (EvCallUser f))
  | HReactivated surrogate state =>
      let! st := read_obj state in
      let! so := read_obj surrogate in
      write_obj surrogate (with_locals (st_locals st) so) ;;
      modify (emit (EvStateReactivated state))
  | HInactivated state => modify (emit (EvStateInactivated state))
  | HEntering state oldOnEnter updateParams =>
      modify (emit (EvStateEntering state oldOnEnter updateParams))
  | HExiting state k oldOnExit =>
      let! c := read_closure k in
      modify (emit (EvStateExiting state (c_exited c) oldOnExit))
  end.

(** The promise of the delegated call settles one way or the other, and the
    matching handler of invocation [k] runs. *)
Inductive settlement : Type :=
| Fulfilled (state : loc)
| Failed (err : reason).

Definition settle (k : nat) (s : settlement) : M outcome :=
  match s with
  | Fulfilled state => transitionSuccess k state
  | Failed err => transitionFailed k err
  end.

(** What the engine settled with, as an outcome. *)
Definition engine_outcome (s : settlement) : outcome :=
  match s with
  | Fulfilled state => Resolved state
  | Failed err => Rejected err
  end.

(** * A small state tree used in the examples

    [root -> A -> A.B -> A.B.C] and [root -> X], every state with its own
    [self], path array and locals object.  State objects are at addresses
    0-5 (0 is the [__inactives] pseudo-state), their [self] at 10-15, their
    locals at 20-25 and their paths at 30-34. *)

Definition ex_self (n : string) (st : loc) (f : nat) : selfObj :=
  {| self_name := Some n; self_onEnter := HUser f; self_onExit := HUser (S f);
     self_status := None; self_state := Some st |}.

Definition ex_state (self path locals : loc) : stateObj :=
  {| st_self := self; st_path := Some path; st_locals := Some locals;
     st_resolve := None; st_views := None; st_params := Some (self + 30);
     st_ownParams := Some (self + 40); st_surrogateType := None |}.

Definition ex_inactives : stateObj :=
  {| st_self := 10; st_path := None; st_locals := Some 20;
     st_resolve := None; st_views := None; st_params := None;
     st_ownParams := None; st_surrogateType := Some "__inactives" |}.

Definition ex_world : world :=
  {| objs := list_to_map
       [(0, ex_inactives);
        (1, ex_state 11 30 21); (2, ex_state 12 31 22); (3, ex_state 13 32 23);
        (4, ex_state 14 33 24); (5, ex_state 15 34 25)];
     selfs := list_to_map
       [(10, ex_self "__inactives" 0 100); (11, ex_self "" 1 102);
        (12, ex_self "A" 2 104); (13, ex_self "A.B" 3 106);
        (14, ex_self "A.B.C" 4 108); (15, ex_self "X" 5 110)];
     arrays := list_to_map
       [(30, [1]); (31, [1; 2]); (32, [1; 2; 3]); (33, [1; 2; 3; 4]); (34, [1; 5])];
     pobjs := list_to_map
       [(20, {| own := {[ "old@X" := VRef 7 ]}; proto := None |});
        (21, {| own := {[ "globals" := VRef 1 ]}; proto := Some 20 |});
        (22, {| own := {[ "a@" := VRef 2 ]}; proto := Some 21 |});
        (23, {| own := {[ "b@A" := VRef 3 ]}; proto := Some 22 |});
        (24, {| own := {[ "c@A.B" := VRef 4 ]}; proto := Some 23 |});
        (25, {| own := {[ "x@" := VRef 5 ]}; proto := Some 21 |})];
     paramsH := list_to_map
       [(41, []); (42, []); (43, []); (44, []); (45, []);
        (51, []); (52, []); (53, []); (54, []); (55, [])];
     pendingTransitions := []; pendingRestore := None; closures := ∅; trace := [] |}.

Definition ex_cfg : config :=
  {| root := 1; inactivePseudoState := 0; hasParamSet := false;
     internalStates := list_to_map [("", 1); ("A", 2); ("A.B", 3); ("A.B.C", 4); ("X", 5)];
     stateGet := list_to_map [("", 11); ("A", 12); ("A.B", 13); ("A.B.C", 14); ("X", 15)] |}.

(** From [X] to the inactive [A], whose descendants [A.B] and [A.B.C] are
    inactive too: [A] is reactivated, [X] inactivated. *)
Definition ex_reactivate_A : request :=
  {| to := "A"; toParams := None; options := None; reload := ReloadFalse; current := 5;
     plan := {| keep := 1; enter := [None; Some "reactivate"];
                exit := [None; Some "inactivate"]; inactives := [5; 3] |};
     inactiveStates := [2; 3; 4]; DEBUG := false; random := 0 |}.

(** From the root to [X]: a plain entry. *)
Definition ex_enter_X : request :=
  {| to := "X"; toParams := None; options := None; reload := ReloadFalse; current := 1;
     plan := {| keep := 1; enter := [None; Some "enter"]; exit := []; inactives := [] |};
     inactiveStates := []; DEBUG := true; random := 0 |}.

(** From the root to [A]: a plain entry. *)
Definition ex_enter_A : request :=
  {| to := "A"; toParams := None; options := None; reload := ReloadFalse; current := 1;
     plan := {| keep := 1; enter := [None; Some "enter"]; exit := []; inactives := [] |};
     inactiveStates := []; DEBUG := false; random := 0 |}.

(** From [X] to [A.B] below the inactive [A]: [A] is reactivated, [A.B]
    entered, [X] inactivated. *)
Definition ex_enter_AB : request :=
  {| to := "A.B"; toParams := None; options := None; reload := ReloadFalse; current := 5;
     plan := {| keep := 1; enter := [None; Some "reactivate"; Some "enter"];
                exit := [None; Some "inactivate"]; inactives := [5] |};
     inactiveStates := [2]; DEBUG := false; random := 0 |}.

(** A target that [$state.get] does not know. *)
Definition ex_ghost : request :=
  {| to := "ghost"; toParams := None; options := None; reload := ReloadFalse; current := 1;
     plan := {| keep := 0; enter := []; exit := []; inactives := [] |};
     inactiveStates := []; DEBUG := false; random := 0 |}.

(** The world and the result of a run, with the starting world when the run
    threw. *)
Definition world_of {A} (w : world) (r : option (A * world)) : world :=
  match r with
  | Some (_, w') => w'
  | None => w
  end.

Definition result_of {A} (d : A) (r : option (A * world)) : A :=
  match r with
  | Some (a, _) => a
  | None => d
  end.

(** The first example request, run on the example world. *)
Definition ex_run1 : option (nat * world) := transitionTo ex_cfg ex_reactivate_A ex_world.
Definition ex_k1 : nat := result_of 0 ex_run1.
Definition ex_w1 : world := world_of ex_world ex_run1.
Definition ex_w1_restored : world := world_of ex_w1 (call_restore ex_k1 ex_w1).

Definition ex_superseded : error :=
  {| err_id := 9; message := Some "transition superseded" |}.

Definition ex_aborted : error :=
  {| err_id := 8; message := Some "transition aborted" |}.

(** Two overlapping requests: [A] is requested, then [X] before the first
    promise settles; the first is rejected as superseded, the second
    succeeds. *)
Definition ex_ov_a : option (nat * world) := transitionTo ex_cfg ex_enter_A ex_world.
Definition ex_ov_ka : nat := result_of 0 ex_ov_a.
Definition ex_ov_wa : world := world_of ex_world ex_ov_a.
Definition ex_ov_x : option (nat * world) := transitionTo ex_cfg ex_enter_X ex_ov_wa.
Definition ex_ov_kx : nat := result_of 0 ex_ov_x.
Definition ex_ov_wx : world := world_of ex_ov_wa ex_ov_x.
Definition ex_ov_w3 : world :=
  world_of ex_ov_wx (settle ex_ov_ka (Failed (Some ex_superseded)) ex_ov_wx).
Definition ex_ov_w4 : world :=
  world_of ex_ov_w3 (settle ex_ov_kx (Fulfilled 15) ex_ov_w3).

(** A request for an unknown state, then one for [A]; the promise of the
    first is rejected while the second is in flight; then [A.B] is
    requested. *)
Definition ex_gh_g : option (nat * world) := transitionTo ex_cfg ex_ghost ex_world.
Definition ex_gh_kg : nat := result_of 0 ex_gh_g.
Definition ex_gh_wg : world := world_of ex_world ex_gh_g.
Definition ex_gh_a : option (nat * world) := transitionTo ex_cfg ex_reactivate_A ex_gh_wg.
Definition ex_gh_ka : nat := result_of 0 ex_gh_a.
Definition ex_gh_wa : world := world_of ex_gh_wg ex_gh_a.
Definition ex_gh_w3 : world :=
  world_of ex_gh_wa (settle ex_gh_kg (Failed (Some ex_aborted)) ex_gh_wa).
Definition ex_gh_x : option (nat * world) := transitionTo ex_cfg ex_enter_AB ex_gh_w3.
Definition ex_gh_kx : nat := result_of 0 ex_gh_x.
Definition ex_gh_wx : world := world_of ex_gh_w3 ex_gh_x.

(** The example world once the first example request has been accepted:
    the variables of invocation 0 exist, nothing is substituted yet. *)
Definition ex_wc : world := world_of ex_world (accept ex_cfg ex_reactivate_A ex_world).

Definition ex_v0 : pathVars :=
  {| surrogateToPath := [1]; surrogateFromPath := [1]; reactivated := [];
     terminalReactivatedState := None |}.

Definition ex_exit_X : option (pathVars * world) :=
  exit_step ex_cfg 0 5 1 "inactivate" ex_v0 ex_wc.

(** From [X] to [A.B] when both [A] and [A.B] are inactive and only the
    parameters of [A] have changed. *)
Definition ex_update_then_reactivate : request :=
  {| to := "A.B"; toParams := None; options := None; reload := ReloadFalse; current := 5;
     plan := {| keep := 1;
                enter := [None; Some "updateStateParams"; Some "reactivate"];
                exit := [None; Some "inactivate"]; inactives := [5; 4] |};
     inactiveStates := [2; 3; 4]; DEBUG := false; random := 0 |}.

Definition ex_w_ur : world :=
  world_of ex_world (transitionTo ex_cfg ex_update_then_reactivate ex_world).

Local Open Scope list_scope.

(** * Reading a plan *)

(** The classifications that the enter loop and the exit loop act on. *)
Definition enter_kind (value : string) : bool :=
  String.eqb value "reactivate" || String.eqb value "updateStateParams"
  || String.eqb value "enter".

Definition exit_kind (value : string) : bool :=
  String.eqb value "inactivate" || String.eqb value "exit".

(** The elements of [path] at the indices, from [idx] on, that [plan]
    classifies with a value satisfying [kind]. *)
Fixpoint classified (kind : string → bool) (path : list loc) (idx : nat)
    (plan : list (option string)) : list loc :=
  match plan with
  | [] => []
  | x :: rest =>
      match x with
      | Some value =>
          if kind value then
            match path !! idx with
            | Some state => [state]
            | None => []
            end
          else []
      | None => []
      end ++ classified kind path (S idx) rest
  end.

(** [state.path], as a list. *)
Definition path_of (w : world) (state : loc) : option (list loc) :=
  match objs w !! state with
  | Some o =>
      match st_path o with
      | Some p => arrays w !! p
      | None => None
      end
  | None => None
  end.

(** [state.self] *)
Definition self_of (w : world) (state : loc) : option loc :=
  st_self <$> objs w !! state.

(** Two [self] objects that differ at most in their hook slots. *)
Definition hooks_only (s s' : selfObj) : Prop :=
  self_name s' = self_name s ∧ self_status s' = self_status s
  ∧ self_state s' = self_state s.

(** Two closures that differ at most in the undo list and in [exited]. *)
Definition same_paths (c c' : closure) : Prop :=
  c_idx c' = c_idx c ∧ c_toState c' = c_toState c ∧ c_fromState c' = c_fromState c
  ∧ c_savedToStatePath c' = c_savedToStatePath c
  ∧ c_savedFromStatePath c' = c_savedFromStatePath c
  ∧ c_restoreIsNoop c' = c_restoreIsNoop c ∧ c_DEBUG c' = c_DEBUG c.

(** Two closures that differ at most in the undo list. *)
Definition same_saved (c c' : closure) : Prop :=
  same_paths c c' ∧ c_exited c' = c_exited c.

(** The footprint of the code that builds the substitute paths for
    invocation [k]: existing state objects and arrays are not written,
    existing [self] objects change in their hook slots only, and the only
    closure written is the one of [k]. *)
Record frame_gen (R : closure → closure → Prop) (k : nat) (w w' : world) : Prop := {
  fr_objs : objs w ⊆ objs w';
  fr_arrays : arrays w' = arrays w;
  fr_selfs : ∀ l s, selfs w !! l = Some s →
               ∃ s', selfs w' !! l = Some s' ∧ hooks_only s s';
  fr_pobjs : pobjs w ⊆ pobjs w';
  fr_params : paramsH w ⊆ paramsH w';
  fr_pending : pendingTransitions w' = pendingTransitions w;
  fr_slot : pendingRestore w' = pendingRestore w;
  fr_trace : trace w' = trace w;
  fr_closures : ∀ j, j ≠ k → closures w' !! j = closures w !! j;
  fr_closure : ∀ c, closures w !! k = Some c →
                 ∃ c', closures w' !! k = Some c' ∧ R c c'
}.

(** The builders leave [exited] alone; the loops that call them do not. *)
Abbreviation frame := (frame_gen same_saved).
Abbreviation wframe := (frame_gen same_paths).

Inductive slot : Type := OnEnter | OnExit.

Definition slot_of (sl : slot) (s : selfObj) : hook :=
  match sl with
  | OnEnter => self_onEnter s
  | OnExit => self_onExit s
  end.

Definition with_slot (sl : slot) (h : hook) (s : selfObj) : selfObj :=
  match sl with
  | OnEnter => with_onEnter h s
  | OnExit => with_onExit h s
  end.

Definition undo_of (sl : slot) (state : loc) (old : hook) : undo :=
  match sl with
  | OnEnter => URestoreOnEnter state old
  | OnExit => URestoreOnExit state old
  end.

(** One builder call on [state]: the hook slot [sl] of [state.self] now
    holds [h old], where [old] is what it held; exactly one undo action,
    which puts [old] back, has been added for invocation [k]; every other
    [self] object is as it was. *)
Definition wraps (sl : slot) (k : nat) (state : loc) (h : hook → hook)
    (w w' : world) : Prop :=
  frame k w w'
  ∧ ∃ o sf c, objs w !! state = Some o ∧ selfs w !! st_self o = Some sf
      ∧ closures w !! k = Some c
      ∧ closures w' !! k = Some (push_fn (undo_of sl state (slot_of sl sf)) c)
      ∧ selfs w' !! st_self o = Some (with_slot sl (h (slot_of sl sf)) sf)
      ∧ ∀ l, l ≠ st_self o → is_Some (selfs w !! l) → selfs w' !! l = selfs w !! l.

(** A state object of the store whose [self] is in the store too. *)
Definition valid_state (w : world) (state : loc) : Prop :=
  ∃ o sf, objs w !! state = Some o ∧ selfs w !! st_self o = Some sf.

Definition push_to (x : loc) (v : pathVars) : pathVars :=
  {| surrogateToPath := surrogateToPath v ++ [x];
     surrogateFromPath := surrogateFromPath v;
     reactivated := reactivated v;
     terminalReactivatedState := terminalReactivatedState v |}.

Definition push_from (x : loc) (v : pathVars) : pathVars :=
  {| surrogateToPath := surrogateToPath v;
     surrogateFromPath := surrogateFromPath v ++ [x];
     reactivated := reactivated v;
     terminalReactivatedState := terminalReactivatedState v |}.

(** What a handler does after the rollback: on success it marks the value
    the engine resolved with as active, on failure it only reports. *)
Definition after_restore (s : settlement) (c : closure) (w1 w' : world) : Prop :=
  match s with
  | Fulfilled state =>
      ∃ sf, selfs w1 !! state = Some sf
            ∧ w' = set_selfs <[state := with_status (Some "active") sf]>
                     (if c_DEBUG c then emit (EvDebugViews state) w1 else w1)
  | Failed (Some e) =>
      w' = if c_DEBUG c && negb (is_sentinel (message e))
           then emit (EvLogTransitionFailed (err_id e)) w1
           else w1
  | Failed None => c_DEBUG c = false ∧ w' = w1
  end.

(** A hook [h] wraps [orig] for the registry call [ev]: firing [h] first
    fires [orig] and then makes that call. *)
Definition fires_then (orig : hook) (ev : event) (h : hook) : Prop :=
  ∀ w w', run_hook h w = Some (tt, w') →
    ∃ w1, run_hook orig w = Some (tt, w1) ∧ w' = emit ev w1.

(** * The builder calls of one invocation, in order

    The loops of [build_paths] do nothing but call the surrogate builders
    and push on the local arrays.  A [bstep] names one such call together
    with what it returned; a list of them is the trace of a run. *)
Inductive bstep : Type :=
| BReactivate (state phase1 phase2 : loc)
| BUpdateParams (state : loc)
| BEnter (state : loc)
| BInactivate (state surrogate : loc)
| BExit (state : loc)
| BOrphan (state : loc)
| BPushExited (states : list loc).

(** The run of the model code that a [bstep] stands for. *)
Definition does (cfg : config) (k : nat) (b : bstep) (w w' : world) : Prop :=
  match b with
  | BReactivate state phase1 phase2 =>
      ∃ wa, stateReactivatedSurrogatePhase1 cfg state w = Some (phase1, wa)
            ∧ stateReactivatedSurrogatePhase2 cfg k state wa = Some (phase2, w')
  | BUpdateParams state => stateUpdateParamsSurrogate k state w = Some (state, w')
  | BEnter state => stateEnteredSurrogate k state w = Some (state, w')
  | BInactivate state surrogate =>
      ∃ wa, stateInactivatedSurrogate cfg k state w = Some (surrogate, wa)
            ∧ push_exited k [state] wa = Some (tt, w')
  | BExit state =>
      ∃ wa, stateExitedSurrogate k state w = Some (state, wa)
            ∧ push_exited k [state] wa = Some (tt, w')
  | BOrphan state => stateExitedSurrogate k state w = Some (state, w')
  | BPushExited states => push_exited k states w = Some (tt, w')
  end.

Inductive built (cfg : config) (k : nat) : list bstep → world → world → Prop :=
| built_nil (w : world) : built cfg k [] w w
| built_cons (b : bstep) (bs : list bstep) (w w1 w2 : world) :
    does cfg k b w w1 → built cfg k bs w1 w2 → built cfg k (b :: bs) w w2.

(** What a call pushes on [surrogateToPath], [surrogateFromPath],
    [reactivated] and [exited], which state becomes
    [terminalReactivatedState], and which hook slot of which state it
    replaces. *)
Definition to_push (b : bstep) : list loc :=
  match b with
  | BReactivate _ phase1 _ => [phase1]
  | BUpdateParams state | BEnter state => [state]
  | _ => []
  end.

Definition from_push (b : bstep) : list loc :=
  match b with
  | BReactivate _ phase1 _ => [phase1]
  | BInactivate _ surrogate => [surrogate]
  | BExit state | BOrphan state => [state]
  | _ => []
  end.

Definition react_push (b : bstep) : list loc :=
  match b with
  | BReactivate _ _ phase2 => [phase2]
  | _ => []
  end.

Definition exited_push (b : bstep) : list loc :=
  match b with
  | BInactivate state _ | BExit state => [state]
  | BPushExited states => states
  | _ => []
  end.

Definition terminal_of (b : bstep) : option loc :=
  match b with
  | BReactivate state _ _ | BUpdateParams state => Some state
  | _ => None
  end.

Definition wrap_of (b : bstep) : option (slot * loc) :=
  match b with
  | BReactivate state _ _ | BUpdateParams state | BEnter state => Some (OnEnter, state)
  | BInactivate state _ | BExit state | BOrphan state => Some (OnExit, state)
  | BPushExited _ => None
  end.

Definition push_step (v : pathVars) (b : bstep) : pathVars :=
  {| surrogateToPath := surrogateToPath v ++ to_push b;
     surrogateFromPath := surrogateFromPath v ++ from_push b;
     reactivated := reactivated v ++ react_push b;
     terminalReactivatedState :=
       match terminal_of b with
       | Some state => Some state
       | None => terminalReactivatedState v
       end |}.

Definition push_steps (v : pathVars) (bs : list bstep) : pathVars :=
  foldl push_step v bs.

(** How the calls of the enter loop follow the plan: one call for each
    index, from [idx] on, that the plan classifies. *)
Inductive enter_steps (path : list loc) : nat → list (option string) → list bstep → Prop :=
| enter_steps_nil (idx : nat) : enter_steps path idx [] []
| enter_steps_skip (idx : nat) (x : option string) (rest : list (option string))
    (bs : list bstep) :
    (∀ value, x = Some value → enter_kind value = false) →
    enter_steps path (S idx) rest bs →
    enter_steps path idx (x :: rest) bs
| enter_steps_reactivate (idx : nat) (rest : list (option string)) (bs : list bstep)
    (state phase1 phase2 : loc) :
    path !! idx = Some state →
    enter_steps path (S idx) rest bs →
    enter_steps path idx (Some "reactivate" :: rest) (BReactivate state phase1 phase2 :: bs)
| enter_steps_update (idx : nat) (rest : list (option string)) (bs : list bstep)
    (state : loc) :
    path !! idx = Some state →
    enter_steps path (S idx) rest bs →
    enter_steps path idx (Some "updateStateParams" :: rest) (BUpdateParams state :: bs)
| enter_steps_enter (idx : nat) (rest : list (option string)) (bs : list bstep)
    (state : loc) :
    path !! idx = Some state →
    enter_steps path (S idx) rest bs →
    enter_steps path idx (Some "enter" :: rest) (BEnter state :: bs).

Inductive exit_steps (path : list loc) : nat → list (option string) → list bstep → Prop :=
| exit_steps_nil (idx : nat) : exit_steps path idx [] []
| exit_steps_skip (idx : nat) (x : option string) (rest : list (option string))
    (bs : list bstep) :
    (∀ value, x = Some value → exit_kind value = false) →
    exit_steps path (S idx) rest bs →
    exit_steps path idx (x :: rest) bs
| exit_steps_inactivate (idx : nat) (rest : list (option string)) (bs : list bstep)
    (state surrogate : loc) :
    path !! idx = Some state →
    exit_steps path (S idx) rest bs →
    exit_steps path idx (Some "inactivate" :: rest) (BInactivate state surrogate :: bs)
| exit_steps_exit (idx : nat) (rest : list (option string)) (bs : list bstep)
    (state : loc) :
    path !! idx = Some state →
    exit_steps path (S idx) rest bs →
    exit_steps path idx (Some "exit" :: rest) (BExit state :: bs).

(** * The views of the states that will be inactive *)

(** The own view entries (keys with an "@") of the locals of a state. *)
Definition views_of (w : world) (state : loc) : gmap string val :=
  match objs w !! state with
  | Some o =>
      match st_locals o with
      | Some l =>
          match pobjs w !! l with
          | Some p => view_entries (own p)
          | None => ∅
          end
      | None => ∅
      end
  | None => ∅
  end.

(** The view entries of a list of states, a later state overriding an
    earlier one on a common key. *)
Definition expected_views (w : world) (inactives : list loc) : gmap string val :=
  foldl (λ acc i, views_of w i ∪ acc) ∅ inactives.

(** No listed state has the object [l] as its locals. *)
Definition locals_apart (w : world) (l : loc) (states : list loc) : Prop :=
  Forall (λ i, ∀ o, objs w !! i = Some o → st_locals o ≠ Some l) states.

(** * Registering a transition *)

(** The undo actions of a partial reload. *)
Definition is_reload_undo (u : undo) : Prop :=
  match u with
  | UDeleteParam _ _ | UPopParam _ _ => True
  | _ => False
  end.

(** Two stores whose plain objects have the same prototypes and the same
    view entries. *)
Definition same_views (w w' : world) : Prop :=
  ∀ l, match pobjs w !! l, pobjs w' !! l with
       | Some p, Some p' =>
           view_entries (own p') = view_entries (own p) ∧ proto p' = proto p
       | None, None => True
       | _, _ => False
       end.

(** [v0] holds the kept prefixes of the two paths. *)
Definition sliced (req : request) (toPath fromPath : list loc) : pathVars :=
  {| surrogateToPath := take (keep (plan req)) toPath;
     surrogateFromPath := take (keep (plan req)) fromPath;
     reactivated := [];
     terminalReactivatedState := None |}.

(** What [register_transition] has done when it returns: [wr] is the world
    it leaves, [sTo] and [sFrom] are the saved path arrays, [toPath] and
    [fromPath] their contents. *)
Record registered (req : request) (k toState toParams : nat) (w wr : world)
    (sTo sFrom : loc) (toPath fromPath : list loc) : Prop := {
  rg_toState : ∃ o, objs w !! toState = Some o ∧ st_path o = Some sTo;
  rg_fromState : ∃ o, objs w !! current req = Some o ∧ st_path o = Some sFrom;
  rg_toPath : arrays w !! sTo = Some toPath;
  rg_fromPath : arrays w !! sFrom = Some fromPath;
  rg_objs : objs wr = objs w;
  rg_selfs : selfs wr = selfs w;
  rg_arrays : arrays wr = arrays w;
  rg_views : same_views w wr;
  rg_slot : pendingRestore wr = Some k;
  rg_pending : ∃ rt, pendingTransitions wr
                     = (pendingTransitions w
                        ++ [{| tr_id := k; tr_toState := toState;
                               tr_toParams := toParams;
                               tr_fromState := current req;
                               tr_reloadStateTree := rt |}])%list;
  rg_closures : ∀ j, j ≠ k → closures wr !! j = closures w !! j;
  rg_closure : ∃ c r, closures w !! k = Some c ∧ Forall is_reload_undo r
                 ∧ closures wr !! k
                   = Some (foldl (λ c u, push_fn u c) (save_paths sTo sFrom c) r)
}.

(** The orphans in the order in which they are appended. *)
Definition sorted_orphans (found : list (string * loc)) : list loc :=
  (reverse (js_sort found)).*2.

Definition push_orphans (orphans : list loc) (v : pathVars) : pathVars :=
  {| surrogateToPath := surrogateToPath v;
     surrogateFromPath := surrogateFromPath v ++ orphans;
     reactivated := reactivated v;
     terminalReactivatedState := terminalReactivatedState v |}.

(** What [build_paths] has done when it returns [v]: the enter loop made the
    calls [be], the exit loop the calls [bx], the orphan branch the calls
    [bo]. *)
Record paths_built (cfg : config) (req : request) (k toState : nat)
    (toPath fromPath : list loc) (v0 v : pathVars) (w w' : world)
    (be bx bo : list bstep) : Prop := {
  pb_enter : enter_steps toPath 0 (enter (plan req)) be;
  pb_exit : exit_steps fromPath 0 (exit (plan req)) bx;
  pb_built : built cfg k (be ++ bx ++ bo) w w';
  pb_orphans :
    let v3 := append_reactivated (push_steps (push_steps v0 be) bx) in
    (terminalReactivatedState v3 = Some toState
     ∧ ∃ o sf found,
         objs w' !! toState = Some o ∧ selfs w' !! st_self o = Some sf
         ∧ orphans_of (default "undefined" (self_name sf) ++ ".")%string
             (inactiveStates req) w' = Some (found, w')
         ∧ bo = (BOrphan <$> sorted_orphans found) ++ [BPushExited (sorted_orphans found)]
         ∧ v = push_orphans (sorted_orphans found) v3)
    ∨ (terminalReactivatedState v3 ≠ Some toState ∧ bo = [] ∧ v = v3)
}.

(** A step that writes nothing but the plain object [l]. *)
Definition writes_only (l : loc) (w w' : world) : Prop :=
  objs w' = objs w ∧ selfs w' = selfs w ∧ arrays w' = arrays w
  ∧ paramsH w' = paramsH w ∧ closures w' = closures w
  ∧ pendingTransitions w' = pendingTransitions w
  ∧ pendingRestore w' = pendingRestore w ∧ trace w' = trace w
  ∧ ∀ l', l' ≠ l → pobjs w' !! l' = pobjs w !! l'.


(** What [install_paths] has done: two new arrays [pto] and [pfrom] hold
    the substitute paths and are assigned to [toState.path] and to
    [fromState.path], in this order. *)
Record installed (req : request) (toState : nat) (v : pathVars) (w w' : world)
    (pto pfrom : loc) : Prop := {
  in_fresh_to : arrays w !! pto = None;
  in_fresh_from : arrays w !! pfrom = None;
  in_distinct : pfrom ≠ pto;
  in_arrays : arrays w' = <[pfrom := surrogateFromPath v]>
                            (<[pto := surrogateToPath v]> (arrays w));
  in_objs : ∃ o1 o2, objs w !! toState = Some o1
              ∧ <[toState := with_path (Some pto) o1]> (objs w) !! current req = Some o2
              ∧ objs w' = <[current req := with_path (Some pfrom) o2]>
                            (<[toState := with_path (Some pto) o1]> (objs w));
  in_selfs : selfs w' = selfs w;
  in_pobjs : pobjs w' = pobjs w;
  in_closures : closures w' = closures w;
  in_pending : pendingTransitions w' = pendingTransitions w;
  in_slot : pendingRestore w' = pendingRestore w
}.

(** The closure that [accept] creates. *)
Definition new_invocation (req : request) (idx : nat) (toState : option loc) : closure :=
  {| c_idx := idx; c_toState := toState; c_fromState := current req;
     c_savedToStatePath := None; c_savedFromStatePath := None;
     c_restoreIsNoop := false; c_restoreFunctions := [];
     c_exited := []; c_DEBUG := DEBUG req |}.

(** A step that writes plain objects only. *)
Definition only_pobjs (w w' : world) : Prop :=
  objs w' = objs w ∧ selfs w' = selfs w ∧ arrays w' = arrays w
  ∧ paramsH w' = paramsH w ∧ closures w' = closures w
  ∧ pendingTransitions w' = pendingTransitions w
  ∧ pendingRestore w' = pendingRestore w ∧ trace w' = trace w.

(** A successful call of the decorated [transitionTo] that substituted
    paths, stage by stage: [w0] is the world when the request is accepted,
    [wl] the world when the loops start, [wb] the world when they end. *)
Record substituted (cfg : config) (req : request) (k toState toParams : nat)
    (w0 w' : world) (sTo sFrom : loc) (toPath fromPath : list loc)
    (wl wb : world) (v : pathVars) (be bx bo : list bstep) (pto pfrom : loc) : Prop := {
  sb_closure : ∃ idx, closures w0 !! k = Some (new_invocation req idx (Some toState));
  sb_registered : ∃ wr, registered req k toState toParams w0 wr sTo sFrom toPath fromPath
                        ∧ refresh_inactive_locals cfg req wr = Some (tt, wl);
  sb_refreshed : objs wl = objs w0 ∧ selfs wl = selfs w0 ∧ arrays wl = arrays w0;
  sb_built : paths_built cfg req k toState toPath fromPath
               (sliced req toPath fromPath) v wl wb be bx bo;
  sb_installed : ∃ w1, installed req toState v wb w1 pto pfrom
                       ∧ w' = emit (EvDelegate k) w1
}.

(** Every state that has a name in [w] has the same name in [w']. *)
Definition names_kept (w w' : world) : Prop :=
  ∀ state n, state_name state w = Some (n, w) → state_name state w' = Some (n, w').

(** [orphans] are the inactive states below [toState], in the order in
    which the orphan branch appends them. *)
Definition is_orphan_list (req : request) (toState : nat) (w : world)
    (orphans : list loc) : Prop :=
  ∃ o sf found,
    objs w !! toState = Some o ∧ selfs w !! st_self o = Some sf
    ∧ orphans_of (default "undefined" (self_name sf) ++ ".")%string
        (inactiveStates req) w = Some (found, w)
    ∧ orphans = sorted_orphans found.

(** [terminalReactivatedState] after the enter loop: the state of the last
    index, from [idx] on, that the plan classifies [reactivate] or
    [updateStateParams]. *)
Fixpoint last_terminal (path : list loc) (idx : nat) (plan : list (option string))
    (acc : option loc) : option loc :=
  match plan with
  | [] => acc
  | x :: rest =>
      last_terminal path (S idx) rest
        match x with
        | Some value =>
            if String.eqb value "reactivate" || String.eqb value "updateStateParams"
            then path !! idx
            else acc
        | None => acc
        end
  end.

(** Modelled from the spec: the host engine is not in src/.  Section 6 of
    the specification says that it keeps the common prefix of the two paths
    and runs the exit hooks of the remaining from-path elements in
    leaf-to-root order, that is from the last element of the from-path
    backwards. *)
Fixpoint engine_keep (toPath fromPath : list loc) : nat :=
  match toPath, fromPath with
  | a :: toPath', b :: fromPath' =>
      if decide (a = b) then S (engine_keep toPath' fromPath') else 0
  | _, _ => 0
  end.

Definition engine_exits (toPath fromPath : list loc) : list loc :=
  reverse (drop (engine_keep toPath fromPath) fromPath).

(** [a] is exited before [b]. *)
Definition exits_before (order : list loc) (a b : loc) : Prop :=
  ∃ i j, order !! i = Some a ∧ order !! j = Some b ∧ i < j.

(** The [onExit] slot of [state] holds an exit wrapper of invocation [k]:
    the state is handled as an exited state. *)
Definition exit_wrapped (k : nat) (w : world) (state : loc) : Prop :=
  ∃ o sf s' old, objs w !! state = Some o ∧ selfs w !! st_self o = Some sf
                 ∧ self_onExit sf = HExiting s' k old.

(** * Hooks and their undo actions *)

(** The address of [state.self] in [w] (0 when [state] is no object). *)
Definition self_at (w : world) (state : loc) : loc :=
  default 0 (self_of w state).

(** The listed states are objects of the store, each with its own [self]. *)
Definition distinct_selfs (w : world) (states : list loc) : Prop :=
  Forall (valid_state w) states ∧ NoDup (self_at w <$> states).

(** The hook slot that an undo action writes, by the [self] it belongs to
    in [w0]. *)
Definition undo_target (w0 : world) (u : undo) : option (slot * loc) :=
  match u with
  | URestoreOnEnter state _ => Some (OnEnter, self_at w0 state)
  | URestoreOnExit state _ => Some (OnExit, self_at w0 state)
  | _ => None
  end.

(** An undo action that puts back what the slot held in [w0]. *)
Definition undo_ok (w0 : world) (u : undo) : Prop :=
  match u with
  | URestoreOnEnter state old =>
      ∃ o s0, objs w0 !! state = Some o ∧ selfs w0 !! st_self o = Some s0
              ∧ old = self_onEnter s0
  | URestoreOnExit state old =>
      ∃ o s0, objs w0 !! state = Some o ∧ selfs w0 !! st_self o = Some s0
              ∧ old = self_onExit s0
  | _ => True
  end.

(** The ledger [fns] accounts for every difference between the hooks of
    [w0] and those of [w]: a slot either holds what it held in [w0] or is
    the target of an undo action, and every undo action puts back what its
    slot held in [w0]. *)
Definition hook_inv (w0 : world) (fns : list undo) (w : world) : Prop :=
  (∀ s o, objs w0 !! s = Some o →
          ∃ o', objs w !! s = Some o' ∧ st_self o' = st_self o)
  ∧ (∀ l s0, selfs w0 !! l = Some s0 →
       ∃ s, selfs w !! l = Some s ∧ hooks_only s0 s
            ∧ (self_onEnter s = self_onEnter s0
               ∨ (OnEnter, l) ∈ omap (undo_target w0) fns)
            ∧ (self_onExit s = self_onExit s0
               ∨ (OnExit, l) ∈ omap (undo_target w0) fns))
  ∧ Forall (undo_ok w0) fns.

(** The slot that a builder call replaces, by the [self] it belongs to in
    [w0]. *)
Definition wrap_target (w0 : world) (p : slot * loc) : slot * loc :=
  (p.1, self_at w0 p.2).

(** * Where the surrogates of a reactivated state go *)

(** How many entries of [plan] hold a value satisfying [kind]. *)
Fixpoint count_kind (kind : string → bool) (plan : list (option string)) : nat :=
  match plan with
  | [] => 0
  | Some value :: rest => (if kind value then 1 else 0) + count_kind kind rest
  | None :: rest => count_kind kind rest
  end.

Definition is_reactivate (value : string) : bool := String.eqb value "reactivate".

(** The states that a call pushes on [surrogateFromPath] as they are. *)
Definition olds_from (b : bstep) : list loc :=
  match b with
  | BExit state | BOrphan state => [state]
  | _ => []
  end.

(** What a successful call of the decorated [transitionTo] has done for the
    state at index [i] of the to-path when the plan classifies it as
    [reactivate]: [w0] is the world when the request is accepted, [w'] the
    world when the call returns.

    - Two new objects [phase1] and [phase2] exist.
    - Two new arrays hold the substitute paths [PT] and [PF], and the state
      objects refer to them.
    - [phase1] is on [PT] after the kept prefix and one element for each
      classified entry before [i]; it is on [PF] after the kept prefix and
      one element for each [reactivate] entry before [i].  [phase2] is on
      [PT] in the block of phase-2 surrogates that ends it, at the rank of
      the entry among the [reactivate] entries, and it is not on [PF].
      When the kept prefixes are equally long and every classified entry
      before [i] is a [reactivate] entry, [phase1] has the same index on
      [PT] and on [PF].
    - [phase2] shares the [self] of the state and refers to the same
      [locals]; its [resolve] and [views] are empty objects; the state keeps
      its [locals].
    - [state.self.onEnter] is the hook that assigns [state.locals] to
      [phase2.locals] and then calls [stateReactivated]. *)
Definition two_surrogates (req : request) (w0 w' : world) (toState : loc)
    (toPath fromPath : list loc) (i : nat) (state : loc) : Prop :=
  ∃ phase1 phase2 so1 so2 o r vw pto pfrom PT PF,
    (objs w0 !! phase1 = None ∧ objs w0 !! phase2 = None ∧ phase1 ≠ phase2
     ∧ objs w' !! phase1 = Some so1
     ∧ st_surrogateType so1 = Some "reactivate_phase1"
     ∧ objs w' !! phase2 = Some so2)
    ∧ (arrays w0 !! pto = None ∧ arrays w0 !! pfrom = None
       ∧ arrays w' !! pto = Some PT ∧ arrays w' !! pfrom = Some PF
       ∧ (current req ≠ toState → st_path <$> objs w' !! toState = Some (Some pto))
       ∧ st_path <$> objs w' !! current req = Some (Some pfrom))
    ∧ (PT !! (length (take (keep (plan req)) toPath)
              + count_kind enter_kind (take i (enter (plan req)))) = Some phase1
       ∧ PF !! (length (take (keep (plan req)) fromPath)
                + count_kind is_reactivate (take i (enter (plan req)))) = Some phase1
       ∧ PT !! (length (take (keep (plan req)) toPath)
                + count_kind enter_kind (enter (plan req))
                + count_kind is_reactivate (take i (enter (plan req)))) = Some phase2
       ∧ length PT = length (take (keep (plan req)) toPath)
                     + count_kind enter_kind (enter (plan req))
                     + count_kind is_reactivate (enter (plan req))
       ∧ (phase2 ∉ PF)
       ∧ (length (take (keep (plan req)) toPath)
          = length (take (keep (plan req)) fromPath) →
          count_kind enter_kind (take i (enter (plan req)))
          = count_kind is_reactivate (take i (enter (plan req))) →
          ∃ n, PT !! n = Some phase1 ∧ PF !! n = Some phase1))
    ∧ (objs w0 !! state = Some o
       ∧ st_locals <$> objs w' !! state = Some (st_locals o)
       ∧ st_locals so1 = st_locals o ∧ st_locals so2 = st_locals o
       ∧ st_self so2 = st_self o
       ∧ st_resolve so2 = Some r ∧ st_views so2 = Some vw
       ∧ pobjs w' !! r = Some empty_pobj ∧ pobjs w' !! vw = Some empty_pobj)
    ∧ (∃ sf, selfs w' !! st_self o = Some sf
             ∧ self_onEnter sf = HReactivated phase2 state)
    ∧ (∀ w3 st3 so3, objs w3 !! state = Some st3 → objs w3 !! phase2 = Some so3 →
         run_hook (HReactivated phase2 state) w3
         = Some (tt, emit (EvStateReactivated state)
                       (set_objs <[phase2 := with_locals (st_locals st3) so3]> w3))).

(** The order of the sort: by the string an element converts to. *)
Definition key_le (a b : string * loc) : Prop := js_leb a.1 b.1 = true.


(** * The hooks that the builders install *)

(** What a builder call of invocation [k] puts in the slot it replaces,
    given what the slot held. *)
Definition wrapper_of (k : nat) (b : bstep) (old : hook) : hook :=
  match b with
  | BReactivate state _ phase2 => HReactivated phase2 state
  | BUpdateParams state => HEntering state old true
  | BEnter state => HEntering state old false
  | BInactivate state _ => HInactivated state
  | BExit state | BOrphan state => HExiting state k old
  | BPushExited _ => old
  end.

(** The call that the enter loop makes for [state] under the value [v]. *)
Definition enter_call (v : string) (state : loc) (b : bstep) : Prop :=
  (v = "reactivate" ∧ ∃ phase1 phase2, b = BReactivate state phase1 phase2)
  ∨ (v = "updateStateParams" ∧ b = BUpdateParams state)
  ∨ (v = "enter" ∧ b = BEnter state).

(** The call that the exit loop makes for [state] under the value [v]. *)
Definition exit_call (v : string) (state : loc) (b : bstep) : Prop :=
  (v = "inactivate" ∧ ∃ surrogate, b = BInactivate state surrogate)
  ∨ (v = "exit" ∧ b = BExit state).

(** Every [self] of [w] is a [self] of [w']. *)
Definition selfs_kept (w w' : world) : Prop :=
  ∀ l, is_Some (selfs w !! l) → is_Some (selfs w' !! l).

(** * Accepting a request *)

(** [if (!inactivePseudoState.locals) inactivePseudoState.locals = root.locals]
    (l.129-130) leads from [w] to [wl]. *)
Definition locals_linked (cfg : config) (w wl : world) : Prop :=
  ∃ ips, objs w !! inactivePseudoState cfg = Some ips
         ∧ match st_locals ips with
           | Some _ => wl = w
           | None => ∃ r, objs w !! root cfg = Some r
                          ∧ wl = set_objs <[inactivePseudoState cfg
                                            := with_locals (st_locals r) ips]> w
           end.

(** [toParams = toParams || {}] (l.142) leads from [wr] to [wp]. *)
Definition toParams_given (req : request) (tp : loc) (wr wp : world) : Prop :=
  match toParams req with
  | Some p => tp = p ∧ wp = wr
  | None => tp = fresh (dom (pobjs wr))
            ∧ wp = set_pobjs <[tp := empty_pobj]> wr
  end.

(** * Further example requests *)

(** The example world once the request for [A.B] has been accepted. *)
Definition ex_wc_AB : world := world_of ex_world (accept ex_cfg ex_enter_AB ex_world).
Definition ex_k_AB : nat := result_of 0 (transitionTo ex_cfg ex_enter_AB ex_world).
Definition ex_w_AB : world := world_of ex_world (transitionTo ex_cfg ex_enter_AB ex_world).

(** A plan with one entry more than the path of [X] has states. *)
Definition ex_long_plan : request :=
  {| to := "X"; toParams := None; options := None; reload := ReloadFalse; current := 1;
     plan := {| keep := 1; enter := [None; Some "enter"; Some "enter"];
                exit := []; inactives := [] |};
     inactiveStates := []; DEBUG := false; random := 0 |}.

Definition ex_wc_long : world := world_of ex_world (accept ex_cfg ex_long_plan ex_world).

Definition ex_ov_wcx : world := world_of ex_ov_wa (accept ex_cfg ex_enter_X ex_ov_wa).

(** The reload marker set for the tree below [A], on the variables of the
    first example request. *)
Definition ex_c1 : closure := new_invocation ex_reactivate_A 0 (Some 2).
Definition ex_w_marked : world :=
  world_of ex_wc (add_reload_param ex_cfg ex_reactivate_A ex_k1 26 12 ex_wc).

(** The example world with the caller's options object [{reload: A}] at
    address 19, [A] being the state declaration at address 12. *)
Definition ex_world_opts : world :=
  set_pobjs <[19 := {| own := {[ "reload" := VRef 12 ]}; proto := None |}]> ex_world.

(** The first example request again, reloading the tree below [A]. *)
Definition ex_reload_A : request :=
  {| to := "A"; toParams := None; options := Some 19; reload := ReloadState "A";
     current := 5;
     plan := {| keep := 1; enter := [None; Some "reactivate"];
                exit := [None; Some "inactivate"]; inactives := [5; 3] |};
     inactiveStates := [2; 3; 4]; DEBUG := false; random := 7 |}.

Definition ex_wc_rl : world :=
  world_of ex_world_opts (accept ex_cfg ex_reload_A ex_world_opts).
Definition ex_k_rl : nat := result_of 0 (transitionTo ex_cfg ex_reload_A ex_world_opts).
Definition ex_w_rl : world :=
  world_of ex_world_opts (transitionTo ex_cfg ex_reload_A ex_world_opts).
Definition ex_w_rl_restored : world := world_of ex_w_rl (call_restore ex_k_rl ex_w_rl).

(** A request made in debug mode, in flight: from the root to [X]. *)
Definition ex_dbg : option (nat * world) := transitionTo ex_cfg ex_enter_X ex_world.
Definition ex_dbg_k : nat := result_of 0 ex_dbg.
Definition ex_dbg_w : world := world_of ex_world ex_dbg.
Definition ex_dbg_restored : world := world_of ex_dbg_w (call_restore ex_dbg_k ex_dbg_w).
Definition ex_dbg_c : closure :=
  default (new_invocation ex_enter_X 0 None) (closures ex_dbg_restored !! ex_dbg_k).

(** From [X] to the inactive [A] as in the first example, [X] being exited
    for good: the inactive [A.B] and [A.B.C] are orphans. *)
Definition ex_reactivate_A_exit_X : request :=
  {| to := "A"; toParams := None; options := None; reload := ReloadFalse; current := 5;
     plan := {| keep := 1; enter := [None; Some "reactivate"];
                exit := [None; Some "exit"]; inactives := [3] |};
     inactiveStates := [2; 3; 4]; DEBUG := false; random := 0 |}.

Definition ex_wc_ax : world :=
  world_of ex_world (accept ex_cfg ex_reactivate_A_exit_X ex_world).
Definition ex_k_ax : nat :=
  result_of 0 (transitionTo ex_cfg ex_reactivate_A_exit_X ex_world).
Definition ex_w_ax : world :=
  world_of ex_world (transitionTo ex_cfg ex_reactivate_A_exit_X ex_world).

(** The scenario of the unknown target, continued: the restore of the
    request for [A.B] runs at once ([ex_gh_w5]); or the promise of the
    request for [A] is rejected as superseded and then the promise of the
    request for [A.B] is fulfilled ([ex_gh_w6], [ex_gh_w7]). *)
Definition ex_gh_w5 : world := world_of ex_gh_wx (call_restore ex_gh_kx ex_gh_wx).
Definition ex_gh_w6 : world :=
  world_of ex_gh_wx (settle ex_gh_ka (Failed (Some ex_superseded)) ex_gh_wx).
Definition ex_gh_w7 : world :=
  world_of ex_gh_w6 (settle ex_gh_kx (Fulfilled 13) ex_gh_w6).

(** * Reasoning about monadic code *)

Lemma bind_Some {A B} (m : M A) (k : A → M B) (w : world) (r : B * world) :
  bind m k w = Some r ↔ ∃ a w1, m w = Some (a, w1) ∧ k a w1 = Some r.
Proof.
  unfold bind. split.
  - destruct (m w) as [[a w1]|]; [eauto | discriminate].
  - intros (a & w1 & -> & H). exact H.
Qed.

Lemma deref_Some {A} (o : option A) (w : world) (a : A) (w' : world) :
  deref o w = Some (a, w') ↔ o = Some a ∧ w' = w.
Proof.
  unfold deref. destruct o; split; intros H; try discriminate.
  - by inversion H.
  - destruct H as [H ->]. by inversion H.
  - destruct H; discriminate.
Qed.

(** Inversion of a successful run, one monadic step at a time. *)
Ltac minv1 :=
  match goal with
  | H : bind _ _ _ = Some _ |- _ =>
      apply bind_Some in H; destruct H as (? & ? & ? & H)
  | H : ret _ _ = Some _ |- _ => unfold ret in H; inversion H; subst; clear H
  | H : gets _ _ = Some _ |- _ => unfold gets in H; inversion H; subst; clear H
  | H : modify _ _ = Some _ |- _ => unfold modify in H; inversion H; subst; clear H
  | H : throw _ = Some _ |- _ => discriminate H
  | H : deref _ _ = Some _ |- _ => apply deref_Some in H; destruct H as [H ?]; subst
  | H : read_obj _ _ = Some _ |- _ => unfold read_obj in H
  | H : read_self _ _ = Some _ |- _ => unfold read_self in H
  | H : read_array _ _ = Some _ |- _ => unfold read_array in H
  | H : read_pobj _ _ = Some _ |- _ => unfold read_pobj in H
  | H : read_params _ _ = Some _ |- _ => unfold read_params in H
  | H : read_closure _ _ = Some _ |- _ => unfold read_closure in H
  | H : write_obj _ _ _ = Some _ |- _ => unfold write_obj in H
  | H : write_self _ _ _ = Some _ |- _ => unfold write_self in H
  | H : write_pobj _ _ _ = Some _ |- _ => unfold write_pobj in H
  | H : write_params _ _ _ = Some _ |- _ => unfold write_params in H
  | H : write_closure _ _ _ = Some _ |- _ => unfold write_closure in H
  | H : new_obj _ _ = Some _ |- _ => unfold new_obj in H; inversion H; subst; clear H
  | H : new_self _ _ = Some _ |- _ => unfold new_self in H; inversion H; subst; clear H
  | H : new_array _ _ = Some _ |- _ => unfold new_array in H; inversion H; subst; clear H
  | H : new_pobj _ _ = Some _ |- _ => unfold new_pobj in H; inversion H; subst; clear H
  | H : new_params _ _ = Some _ |- _ => unfold new_params in H; inversion H; subst; clear H
  | H : new_closure _ _ = Some _ |- _ => unfold new_closure in H; inversion H; subst; clear H
  end.

Ltac minv := repeat minv1.

Lemma fresh_lookup_None {V} (m : gmap nat V) : m !! fresh (dom m) = None.
Proof. apply not_elem_of_dom, is_fresh. Qed.

Lemma insert_fresh_subseteq {V} (m : gmap nat V) (v : V) :
  m ⊆ <[fresh (dom m) := v]> m.
Proof. apply insert_subseteq, fresh_lookup_None. Qed.

(** * What the surrogate builders leave alone *)

Lemma hooks_only_refl (s : selfObj) : hooks_only s s.
Proof. by unfold hooks_only. Qed.

Lemma hooks_only_trans (s1 s2 s3 : selfObj) :
  hooks_only s1 s2 → hooks_only s2 s3 → hooks_only s1 s3.
Proof. unfold hooks_only. intros (? & ? & ?) (? & ? & ?). split_and!; congruence. Qed.

Lemma same_paths_refl (c : closure) : same_paths c c.
Proof. by unfold same_paths. Qed.

Lemma same_paths_trans (c1 c2 c3 : closure) :
  same_paths c1 c2 → same_paths c2 c3 → same_paths c1 c3.
Proof.
  unfold same_paths. intros (? & ? & ? & ? & ? & ? & ?) (? & ? & ? & ? & ? & ? & ?).
  split_and!; congruence.
Qed.

Lemma same_saved_refl (c : closure) : same_saved c c.
Proof. by unfold same_saved, same_paths. Qed.

Lemma same_saved_trans (c1 c2 c3 : closure) :
  same_saved c1 c2 → same_saved c2 c3 → same_saved c1 c3.
Proof.
  unfold same_saved. intros [? ?] [? ?].
  split; [by eapply same_paths_trans | congruence].
Qed.

Lemma frame_gen_refl (R : closure → closure → Prop) (k : nat) (w : world) :
  (∀ c, R c c) → frame_gen R k w w.
Proof.
  intros HR. split; try done.
  - intros l s H. exists s. split; [done | apply hooks_only_refl].
  - intros c H. exists c. split; [done | apply HR].
Qed.

Lemma frame_gen_trans (R : closure → closure → Prop) (k : nat) (w1 w2 w3 : world) :
  (∀ c1 c2 c3, R c1 c2 → R c2 c3 → R c1 c3) →
  frame_gen R k w1 w2 → frame_gen R k w2 w3 → frame_gen R k w1 w3.
Proof.
  intros HR [] []. split.
  - by etrans.
  - congruence.
  - intros l s H. destruct (fr_selfs0 l s H) as (s2 & H2 & Hh2).
    destruct (fr_selfs1 l s2 H2) as (s3 & H3 & Hh3).
    exists s3. split; [done | by eapply hooks_only_trans].
  - by etrans.
  - by etrans.
  - congruence.
  - congruence.
  - congruence.
  - intros j Hj. rewrite fr_closures1, fr_closures0; done.
  - intros c H. destruct (fr_closure0 c H) as (c2 & H2 & Hs2).
    destruct (fr_closure1 c2 H2) as (c3 & H3 & Hs3).
    exists c3. split; [done | by eapply HR].
Qed.

Lemma frame_gen_mono (R R' : closure → closure → Prop) (k : nat) (w w' : world) :
  (∀ c c', R c c' → R' c c') → frame_gen R k w w' → frame_gen R' k w w'.
Proof.
  intros HR []. split; try done.
  intros c H. destruct (fr_closure0 c H) as (c' & H' & Hs). eauto.
Qed.

Lemma frame_refl (k : nat) (w : world) : frame k w w.
Proof. apply frame_gen_refl, same_saved_refl. Qed.

Lemma frame_trans (k : nat) (w1 w2 w3 : world) :
  frame k w1 w2 → frame k w2 w3 → frame k w1 w3.
Proof. apply frame_gen_trans, same_saved_trans. Qed.

Lemma wframe_refl (k : nat) (w : world) : wframe k w w.
Proof. apply frame_gen_refl, same_paths_refl. Qed.

Lemma wframe_trans (k : nat) (w1 w2 w3 : world) :
  wframe k w1 w2 → wframe k w2 w3 → wframe k w1 w3.
Proof. apply frame_gen_trans, same_paths_trans. Qed.

Lemma frame_wframe (k : nat) (w w' : world) : frame k w w' → wframe k w w'.
Proof. apply frame_gen_mono. by intros c c' [? ?]. Qed.

(** Elementary steps. *)
Lemma frame_new_obj (k : nat) (o : stateObj) (w w' : world) (l : loc) :
  new_obj o w = Some (l, w') → frame k w w'.
Proof.
  intros H. minv. split; simpl; try done.
  - apply insert_fresh_subseteq.
  - intros l s H. exists s. split; [done | apply hooks_only_refl].
  - intros c H. exists c. split; [done | apply same_saved_refl].
Qed.

Lemma frame_new_self (k : nat) (s0 : selfObj) (w w' : world) (l : loc) :
  new_self s0 w = Some (l, w') → frame k w w'.
Proof.
  intros H. minv. split; simpl; try done.
  - intros l s H. exists s. split; [|apply hooks_only_refl].
    rewrite lookup_insert_ne; [done|]. intros <-.
    by rewrite fresh_lookup_None in H.
  - intros c H. exists c. split; [done | apply same_saved_refl].
Qed.

Lemma frame_new_pobj (k : nat) (p : pobj) (w w' : world) (l : loc) :
  new_pobj p w = Some (l, w') → frame k w w'.
Proof.
  intros H. minv. split; simpl; try done.
  - intros l s H. exists s. split; [done | apply hooks_only_refl].
  - apply insert_fresh_subseteq.
  - intros c H. exists c. split; [done | apply same_saved_refl].
Qed.

Lemma frame_new_params (k : nat) (p : list string) (w w' : world) (l : loc) :
  new_params p w = Some (l, w') → frame k w w'.
Proof.
  intros H. minv. split; simpl; try done.
  - intros l s H. exists s. split; [done | apply hooks_only_refl].
  - apply insert_fresh_subseteq.
  - intros c H. exists c. split; [done | apply same_saved_refl].
Qed.

Lemma frame_assign_onEnter (k : nat) (state : loc) (h : hook) (w w' : world) (u : unit) :
  assign_onEnter state h w = Some (u, w') → frame k w w'.
Proof.
  unfold assign_onEnter. intros H. minv. split; simpl; try done.
  - intros l s Hl. destruct (decide (l = st_self x)) as [->|Hne].
    + rewrite lookup_insert_eq. eexists. split; [done|]. 
      assert (s = x1) as -> by congruence. by unfold hooks_only.
    + rewrite lookup_insert_ne by done. exists s. split; [done | apply hooks_only_refl].
  - intros c Hc. exists c. split; [done | apply same_saved_refl].
Qed.

Lemma frame_assign_onExit (k : nat) (state : loc) (h : hook) (w w' : world) (u : unit) :
  assign_onExit state h w = Some (u, w') → frame k w w'.
Proof.
  unfold assign_onExit. intros H. minv. split; simpl; try done.
  - intros l s Hl. destruct (decide (l = st_self x)) as [->|Hne].
    + rewrite lookup_insert_eq. eexists. split; [done|]. 
      assert (s = x1) as -> by congruence. by unfold hooks_only.
    + rewrite lookup_insert_ne by done. exists s. split; [done | apply hooks_only_refl].
  - intros c Hc. exists c. split; [done | apply same_saved_refl].
Qed.

Lemma frame_addRestoreFunction (k : nat) (fn : undo) (w w' : world) (u : unit) :
  addRestoreFunction k fn w = Some (u, w') → frame k w w'.
Proof.
  unfold addRestoreFunction. intros H. minv. split; simpl; try done.
  - intros l s Hl. exists s. split; [done | apply hooks_only_refl].
  - intros j Hj. by rewrite lookup_insert_ne.
  - intros c Hc. rewrite lookup_insert_eq. eexists. split; [done|].
    assert (c = x) as -> by congruence. by unfold same_saved, same_paths.
Qed.

Lemma wframe_push_exited (k : nat) (l : list loc) (w w' : world) (u : unit) :
  push_exited k l w = Some (u, w') → wframe k w w'.
Proof.
  unfold push_exited. intros H. minv. split; simpl; try done.
  - intros l' s Hl. exists s. split; [done | apply hooks_only_refl].
  - intros j Hj. by rewrite lookup_insert_ne.
  - intros c Hc. rewrite lookup_insert_eq. eexists. split; [done|].
    assert (c = x) as -> by congruence. by unfold same_saved, same_paths.
Qed.

Lemma frame_write_fresh_obj (k : nat) (w w1 w2 : world) (l : loc) (o : stateObj) (u : unit) :
  frame k w w1 → objs w !! l = None → write_obj l o w1 = Some (u, w2) → frame k w w2.
Proof.
  intros [] Hl H. unfold write_obj, modify in H. inversion H; subst; clear H.
  split; simpl; try done.
  apply insert_subseteq_r; [exact Hl | exact fr_objs0].
Qed.

Tactic Notation "mstep" hyp(H) "as" simple_intropattern(x) ident(w) ident(Hx) :=
  apply bind_Some in H as (x & w & Hx & H).

Lemma SurrogateState_spec (cfg : config) (k : nat) (type : string)
    (w w' : world) (sur : loc) :
  SurrogateState cfg type w = Some (sur, w') →
  frame k w w' ∧ objs w !! sur = None
  ∧ selfs w' = <[fresh (dom (selfs w)) := empty_self]> (selfs w)
  ∧ closures w' = closures w
  ∧ ∃ so, objs w' = <[sur := so]> (objs w)
          ∧ st_self so = fresh (dom (selfs w))
          ∧ st_surrogateType so = Some type ∧ st_path so = None.
Proof.
  unfold SurrogateState. intros H.
  mstep H as resolve w1 H1. mstep H as g w2 H2. mstep H as locals w3 H3.
  mstep H as views w4 H4. mstep H as self w5 H5. mstep H as params w6 H6.
  mstep H as ownParams w7 H7.
  pose proof (frame_new_pobj k _ _ _ _ H1) as F1.
  unfold gets in H2. inversion H2; subst w2; clear H2.
  pose proof (frame_new_pobj k _ _ _ _ H3) as F3.
  pose proof (frame_new_pobj k _ _ _ _ H4) as F4.
  pose proof (frame_new_self k _ _ _ _ H5) as F5.
  pose proof (frame_new_params k _ _ _ _ H6) as F6.
  pose proof (frame_new_params k _ _ _ _ H7) as F7.
  pose proof (frame_new_obj k _ _ _ _ H) as F8.
  split; [repeat (eapply frame_trans; [eassumption|]); apply frame_refl|].
  unfold new_pobj, new_self, new_params, new_obj in *.
  inversion H1; subst; clear H1. inversion H3; subst; clear H3.
  inversion H4; subst; clear H4. inversion H5; subst; clear H5.
  inversion H6; subst; clear H6. inversion H7; subst; clear H7.
  inversion H; subst; clear H. simpl.
  split; [apply fresh_lookup_None|].
  split; [done|]. split; [done|].
  eexists. split; [done|]. done.
Qed.

(** * The surrogate builders *)

Lemma wrap_in_place (sl : slot) (k : nat) (state : loc) (h : hook)
    (w w' : world) (u : unit) :
  (let! st := read_obj state in
   let! sf := read_self (st_self st) in
   match sl with
   | OnEnter => assign_onEnter state h
   | OnExit => assign_onExit state h
   end ;;
   addRestoreFunction k (undo_of sl state (slot_of sl sf))) w = Some (u, w') →
  ∃ o sf c, objs w !! state = Some o ∧ selfs w !! st_self o = Some sf
    ∧ closures w !! k = Some c
    ∧ w' = set_closures <[k := push_fn (undo_of sl state (slot_of sl sf)) c]>
             (set_selfs <[st_self o := with_slot sl h sf]> w).
Proof.
  intros H. mstep H as o w1 Ho.
  unfold read_obj in Ho. apply deref_Some in Ho as [Ho ->].
  mstep H as sf w1 Hsf.
  unfold read_self in Hsf. apply deref_Some in Hsf as [Hsf ->].
  mstep H as ? w1 Ha. unfold addRestoreFunction in H.
  mstep H as c w2 Hc.
  unfold read_closure in Hc. apply deref_Some in Hc as [Hc ->].
  unfold write_closure, modify in H. inversion H; subst; clear H.
  exists o, sf, c.
  assert (w1 = set_selfs <[st_self o := with_slot sl h sf]> w) as ->.
  { destruct sl; unfold assign_onEnter, assign_onExit in Ha;
      mstep Ha as o' w3 Ho'; unfold read_obj in Ho';
      apply deref_Some in Ho' as [Ho' ->];
      mstep Ha as sf' w3 Hsf'; unfold read_self in Hsf';
      apply deref_Some in Hsf' as [Hsf' ->];
      unfold write_self, modify in Ha; inversion Ha; subst; clear Ha;
      assert (o' = o) as -> by congruence;
      assert (sf' = sf) as -> by congruence; done. }
  done.
Qed.

Lemma wraps_in_place (sl : slot) (k : nat) (state : loc) (h : hook → hook)
    (w : world) (o : stateObj) (sf : selfObj) (c : closure) :
  objs w !! state = Some o → selfs w !! st_self o = Some sf →
  closures w !! k = Some c →
  wraps sl k state h w
    (set_closures <[k := push_fn (undo_of sl state (slot_of sl sf)) c]>
       (set_selfs <[st_self o := with_slot sl (h (slot_of sl sf)) sf]> w)).
Proof.
  intros Ho Hsf Hc. split.
  - split; simpl; try done.
    + intros l s Hl. destruct (decide (l = st_self o)) as [->|Hne].
      * rewrite lookup_insert_eq. eexists. split; [done|].
        assert (s = sf) as -> by congruence. by destruct sl.
      * rewrite lookup_insert_ne by congruence. exists s. split; [done | apply hooks_only_refl].
    + intros j Hj. by rewrite lookup_insert_ne.
    + intros c' Hc'. rewrite lookup_insert_eq. eexists. split; [done|].
      assert (c' = c) as -> by congruence. by unfold same_saved, same_paths.
  - exists o, sf, c. simpl. rewrite !lookup_insert_eq. split_and!; try done.
    intros l Hne _. by rewrite lookup_insert_ne.
Qed.

Lemma stateEnteredSurrogate_spec (k : nat) (state : loc) (w w' : world) (r : loc) :
  stateEnteredSurrogate k state w = Some (r, w') →
  r = state ∧ wraps OnEnter k state (λ old, HEntering state old false) w w'.
Proof.
  unfold stateEnteredSurrogate. intros H.
  mstep H as o w1 Ho. unfold read_obj in Ho. apply deref_Some in Ho as [Ho ->].
  mstep H as sf w1 Hsf. unfold read_self in Hsf. apply deref_Some in Hsf as [Hsf ->].
  mstep H as [] w1 Ha. mstep H as [] w2 Hb.
  unfold ret in H. injection H as <- <-. split; [done|].
  destruct (wrap_in_place OnEnter k state (HEntering state (self_onEnter sf) false) w w2 tt)
    as (o' & sf' & c & Ho' & Hsf' & Hc & ->).
  { apply bind_Some. exists o, w. split; [by unfold read_obj; rewrite Ho|].
    apply bind_Some. exists sf, w. split; [by unfold read_self; rewrite Hsf|].
    apply bind_Some. exists tt, w1. split; [done|]. done. }
  assert (o' = o) as -> by congruence. assert (sf' = sf) as -> by congruence.
  by apply (wraps_in_place OnEnter k state (λ old, HEntering state old false)).
Qed.

Lemma stateUpdateParamsSurrogate_spec (k : nat) (state : loc) (w w' : world) (r : loc) :
  stateUpdateParamsSurrogate k state w = Some (r, w') →
  r = state ∧ wraps OnEnter k state (λ old, HEntering state old true) w w'.
Proof.
  unfold stateUpdateParamsSurrogate. intros H.
  mstep H as o w1 Ho. unfold read_obj in Ho. apply deref_Some in Ho as [Ho ->].
  mstep H as sf w1 Hsf. unfold read_self in Hsf. apply deref_Some in Hsf as [Hsf ->].
  mstep H as [] w1 Ha. mstep H as [] w2 Hb.
  unfold ret in H. injection H as <- <-. split; [done|].
  destruct (wrap_in_place OnEnter k state (HEntering state (self_onEnter sf) true) w w2 tt)
    as (o' & sf' & c & Ho' & Hsf' & Hc & ->).
  { apply bind_Some. exists o, w. split; [by unfold read_obj; rewrite Ho|].
    apply bind_Some. exists sf, w. split; [by unfold read_self; rewrite Hsf|].
    apply bind_Some. exists tt, w1. split; [done|]. done. }
  assert (o' = o) as -> by congruence. assert (sf' = sf) as -> by congruence.
  by apply (wraps_in_place OnEnter k state (λ old, HEntering state old true)).
Qed.

Lemma stateExitedSurrogate_spec (k : nat) (state : loc) (w w' : world) (r : loc) :
  stateExitedSurrogate k state w = Some (r, w') →
  r = state ∧ wraps OnExit k state (λ old, HExiting state k old) w w'.
Proof.
  unfold stateExitedSurrogate. intros H.
  mstep H as o w1 Ho. unfold read_obj in Ho. apply deref_Some in Ho as [Ho ->].
  mstep H as sf w1 Hsf. unfold read_self in Hsf. apply deref_Some in Hsf as [Hsf ->].
  mstep H as [] w1 Ha. mstep H as [] w2 Hb.
  unfold ret in H. injection H as <- <-. split; [done|].
  destruct (wrap_in_place OnExit k state (HExiting state k (self_onExit sf)) w w2 tt)
    as (o' & sf' & c & Ho' & Hsf' & Hc & ->).
  { apply bind_Some. exists o, w. split; [by unfold read_obj; rewrite Ho|].
    apply bind_Some. exists sf, w. split; [by unfold read_self; rewrite Hsf|].
    apply bind_Some. exists tt, w1. split; [done|]. done. }
  assert (o' = o) as -> by congruence. assert (sf' = sf) as -> by congruence.
  by apply (wraps_in_place OnExit k state (λ old, HExiting state k old)).
Qed.

Lemma stateReactivatedSurrogatePhase2_spec (cfg : config) (k : nat) (state : loc)
    (w w' : world) (sur : loc) :
  stateReactivatedSurrogatePhase2 cfg k state w = Some (sur, w') →
  frame k w w' ∧ objs w !! sur = None
  ∧ (wraps OnEnter k state (λ _, HReactivated sur state) w w'
     ∧ ∃ o so r v, objs w !! state = Some o ∧ objs w' !! sur = Some so
         ∧ st_self so = st_self o ∧ st_locals so = st_locals o
         ∧ st_path so = st_path o
         ∧ st_resolve so = Some r ∧ st_views so = Some v
         ∧ pobjs w !! r = None ∧ pobjs w !! v = None
         ∧ pobjs w' !! r = Some empty_pobj ∧ pobjs w' !! v = Some empty_pobj
         ∧ st_surrogateType so
           = Some (default "reactivate_phase2" (st_surrogateType o))).
Proof.
  unfold stateReactivatedSurrogatePhase2. intros H.
  mstep H as [] wchk Hchk. unfold check_state in Hchk.
  mstep Hchk as o wc1 Ho. unfold read_obj in Ho. apply deref_Some in Ho as [Ho ->].
  mstep Hchk as sf0 wc1 Hsf0. unfold read_self in Hsf0.
  apply deref_Some in Hsf0 as [Hsf0 ->].
  unfold ret in Hchk. injection Hchk as <-.
  mstep H as sur0 ws Hs.
  destruct (SurrogateState_spec cfg k _ _ _ _ Hs)
    as (Fs & Hfresh & Hselfs & Hclos & so0 & Hobjs & Hself0 & Htype0 & Hpath0).
  mstep H as st w1 Hst. unfold read_obj in Hst. apply deref_Some in Hst as [Hst ->].
  mstep H as so w1 Hso. unfold read_obj in Hso. apply deref_Some in Hso as [Hso ->].
  mstep H as sf w1 Hsf. unfold read_self in Hsf. apply deref_Some in Hsf as [Hsf ->].
  mstep H as r w5 Hr. mstep H as v w6 Hv. mstep H as [] w7 Hw.
  mstep H as [] w8 Ha. mstep H as [] w9 Hf.
  unfold ret in H. injection H as <- <-.
  pose proof (frame_new_pobj k _ _ _ _ Hr) as F5.
  pose proof (frame_new_pobj k _ _ _ _ Hv) as F6.
  assert (F7 : frame k w w7).
  { eapply frame_write_fresh_obj; [|exact Hfresh|exact Hw].
    eapply frame_trans; [exact Fs|]. eapply frame_trans; [exact F5|exact F6]. }
  pose proof (frame_assign_onEnter k _ _ _ _ _ Ha) as F8.
  pose proof (frame_addRestoreFunction k _ _ _ _ Hf) as F9.
  assert (F : frame k w w9).
  { eapply frame_trans; [exact F7|]. eapply frame_trans; [exact F8|exact F9]. }
  split; [exact F|]. split; [exact Hfresh|].
  assert (Hne : state ≠ sur0) by (intros ->; congruence).
  assert (st = o) as ->.
  { rewrite Hobjs, lookup_insert_ne in Hst by congruence. congruence. }
  assert (so = so0) as ->.
  { rewrite Hobjs, lookup_insert_eq in Hso. congruence. }
  assert (Hnes : st_self o ≠ fresh (dom (selfs w))).
  { intros Heq. rewrite Heq, fresh_lookup_None in Hsf0. discriminate. }
  assert (sf = sf0) as ->.
  { rewrite Hselfs, lookup_insert_ne in Hsf by congruence. congruence. }
  unfold new_pobj in Hr, Hv. injection Hr as <- <-. injection Hv as <- <-.
  unfold write_obj, modify in Hw. injection Hw as <-.
  unfold assign_onEnter in Ha.
  mstep Ha as o1 wa Ho1. unfold read_obj in Ho1. apply deref_Some in Ho1 as [Ho1 ->].
  simpl in Ho1. rewrite lookup_insert_eq in Ho1. injection Ho1 as <-. simpl in Ha.
  mstep Ha as sf1 wa Hsf1. unfold read_self in Hsf1.
  apply deref_Some in Hsf1 as [Hsf1 ->]. simpl in Hsf1.
  assert (sf1 = sf0) as -> by congruence.
  unfold write_self, modify in Ha. injection Ha as <-.
  unfold addRestoreFunction in Hf.
  mstep Hf as c wa Hc. unfold read_closure in Hc. apply deref_Some in Hc as [Hc ->].
  simpl in Hc. unfold write_closure, modify in Hf. injection Hf as <-.
  split.
  - split; [exact F|]. exists o, sf0, c. simpl.
    rewrite Hclos in Hc. rewrite !lookup_insert_eq. split_and!; try done.
    intros l Hl [s Hs']. rewrite lookup_insert_ne by congruence.
    rewrite Hselfs, lookup_insert_ne; [done|].
    intros <-. rewrite fresh_lookup_None in Hs'. discriminate.
  - set (r := fresh (dom (pobjs ws))).
    set (v := fresh (dom (<[r := empty_pobj]> (pobjs ws)))).
    assert (Hsub : pobjs w ⊆ pobjs ws) by (by destruct Fs).
    assert (Hr1 : pobjs w !! r = None).
    { apply eq_None_ne_Some_2. intros p Hp.
      pose proof (lookup_weaken _ _ _ _ Hp Hsub) as Hp'.
      unfold r in Hp'. rewrite fresh_lookup_None in Hp'. discriminate. }
    assert (Hv1 : pobjs w !! v = None).
    { apply eq_None_ne_Some_2. intros p Hp.
      pose proof (lookup_weaken _ _ _ _ Hp Hsub) as Hp'.
      assert (Hp2 : (<[r := empty_pobj]> (pobjs ws)) !! v = Some p).
      { eapply lookup_weaken; [exact Hp'|apply insert_fresh_subseteq]. }
      unfold v in Hp2. rewrite fresh_lookup_None in Hp2. discriminate. }
    assert (Hrv : v ≠ r).
    { intros Heq.
      assert (Hn : (<[r := empty_pobj]> (pobjs ws)) !! v = None)
        by apply fresh_lookup_None.
      rewrite Heq, lookup_insert_eq in Hn. discriminate. }
    eexists o, _, r, v. split; [done|].
    split; [simpl; by rewrite lookup_insert_eq|]. simpl.
    rewrite lookup_insert_eq, lookup_insert_ne, lookup_insert_eq by congruence.
    split_and!; try done.
    rewrite Htype0. by destruct (st_surrogateType o).
Qed.

Lemma stateInactivatedSurrogate_spec (cfg : config) (k : nat) (state : loc)
    (w w' : world) (sur : loc) :
  stateInactivatedSurrogate cfg k state w = Some (sur, w') →
  frame k w w' ∧ objs w !! sur = None
  ∧ (wraps OnExit k state (λ _, HInactivated state) w w'
     ∧ ∃ o so, objs w !! state = Some o ∧ objs w' !! sur = Some so
         ∧ st_self so = st_self o
         ∧ st_surrogateType so = Some "inactivate").
Proof.
  unfold stateInactivatedSurrogate. intros H.
  mstep H as [] wchk Hchk. unfold check_state in Hchk.
  mstep Hchk as o wc1 Ho. unfold read_obj in Ho. apply deref_Some in Ho as [Ho ->].
  mstep Hchk as sf0 wc1 Hsf0. unfold read_self in Hsf0.
  apply deref_Some in Hsf0 as [Hsf0 ->].
  unfold ret in Hchk. injection Hchk as <-.
  mstep H as sur0 ws Hs.
  destruct (SurrogateState_spec cfg k _ _ _ _ Hs)
    as (Fs & Hfresh & Hselfs & Hclos & so0 & Hobjs & Hself0 & Htype0 & Hpath0).
  mstep H as st w1 Hst. unfold read_obj in Hst. apply deref_Some in Hst as [Hst ->].
  mstep H as so w1 Hso. unfold read_obj in Hso. apply deref_Some in Hso as [Hso ->].
  mstep H as [] w4 Hw.
  mstep H as sf w1 Hsf. unfold read_self in Hsf. apply deref_Some in Hsf as [Hsf ->].
  mstep H as [] w6 Ha. mstep H as [] w7 Hf.
  unfold ret in H. injection H as <- <-.
  assert (F4 : frame k w w4).
  { eapply frame_write_fresh_obj; [exact Fs|exact Hfresh|exact Hw]. }
  pose proof (frame_assign_onExit k _ _ _ _ _ Ha) as F6.
  pose proof (frame_addRestoreFunction k _ _ _ _ Hf) as F7.
  assert (F : frame k w w7).
  { eapply frame_trans; [exact F4|]. eapply frame_trans; [exact F6|exact F7]. }
  split; [exact F|]. split; [exact Hfresh|].
  assert (Hne : state ≠ sur0) by (intros ->; congruence).
  assert (st = o) as ->.
  { rewrite Hobjs, lookup_insert_ne in Hst by congruence. congruence. }
  assert (so = so0) as ->.
  { rewrite Hobjs, lookup_insert_eq in Hso. congruence. }
  assert (Hnes : st_self o ≠ fresh (dom (selfs w))).
  { intros Heq. rewrite Heq, fresh_lookup_None in Hsf0. discriminate. }
  unfold write_obj, modify in Hw. injection Hw as <-. simpl in Hsf.
  assert (sf = sf0) as ->.
  { rewrite Hselfs, lookup_insert_ne in Hsf by congruence. congruence. }
  unfold assign_onExit in Ha.
  mstep Ha as o1 wa Ho1. unfold read_obj in Ho1. apply deref_Some in Ho1 as [Ho1 ->].
  simpl in Ho1. rewrite lookup_insert_eq in Ho1. injection Ho1 as <-. simpl in Ha.
  mstep Ha as sf1 wa Hsf1. unfold read_self in Hsf1.
  apply deref_Some in Hsf1 as [Hsf1 ->]. simpl in Hsf1.
  assert (sf1 = sf0) as ->.
  { rewrite Hselfs, lookup_insert_ne in Hsf1 by congruence. congruence. }
  unfold write_self, modify in Ha. injection Ha as <-.
  unfold addRestoreFunction in Hf.
  mstep Hf as c wa Hc. unfold read_closure in Hc. apply deref_Some in Hc as [Hc ->].
  simpl in Hc. unfold write_closure, modify in Hf. injection Hf as <-.
  split.
  - split; [exact F|]. exists o, sf0, c. simpl.
    rewrite Hclos in Hc. rewrite !lookup_insert_eq. split_and!; try done.
    intros l Hl [s Hs']. rewrite lookup_insert_ne by congruence.
    rewrite Hselfs, lookup_insert_ne; [done|].
    intros <-. rewrite fresh_lookup_None in Hs'. discriminate.
  - eexists o, _. split; [done|].
    split; [simpl; by rewrite lookup_insert_eq|]. simpl. done.
Qed.

Lemma stateReactivatedSurrogatePhase1_spec (cfg : config) (k : nat) (state : loc)
    (w w' : world) (sur : loc) :
  stateReactivatedSurrogatePhase1 cfg state w = Some (sur, w') →
  frame k w w' ∧ objs w !! sur = None
  ∧ closures w' = closures w
  ∧ (∀ l, is_Some (selfs w !! l) → selfs w' !! l = selfs w !! l)
  ∧ (∃ o sf so, objs w !! state = Some o ∧ selfs w !! st_self o = Some sf
       ∧ objs w' !! sur = Some so
       ∧ st_locals so = st_locals o
       ∧ st_surrogateType so = Some "reactivate_phase1"
       ∧ selfs w !! st_self so = None ∧ selfs w' !! st_self so = Some sf).
Proof.
  unfold stateReactivatedSurrogatePhase1. intros H.
  mstep H as [] wchk Hchk. unfold check_state in Hchk.
  mstep Hchk as o wc1 Ho. unfold read_obj in Ho. apply deref_Some in Ho as [Ho ->].
  mstep Hchk as sf0 wc1 Hsf0. unfold read_self in Hsf0.
  apply deref_Some in Hsf0 as [Hsf0 ->].
  unfold ret in Hchk. injection Hchk as <-.
  mstep H as sur0 ws Hs.
  destruct (SurrogateState_spec cfg k _ _ _ _ Hs)
    as (Fs & Hfresh & Hselfs & Hclos & so0 & Hobjs & Hself0 & Htype0 & Hpath0).
  mstep H as st w1 Hst. unfold read_obj in Hst. apply deref_Some in Hst as [Hst ->].
  mstep H as so w1 Hso. unfold read_obj in Hso. apply deref_Some in Hso as [Hso ->].
  mstep H as sf w1 Hsf. unfold read_self in Hsf. apply deref_Some in Hsf as [Hsf ->].
  mstep H as copy w5 Hn. mstep H as [] w6 Hw.
  unfold ret in H. injection H as <- <-.
  pose proof (frame_new_self k _ _ _ _ Hn) as F5.
  assert (F : frame k w w6).
  { eapply frame_write_fresh_obj; [|exact Hfresh|exact Hw].
    eapply frame_trans; [exact Fs|exact F5]. }
  unfold new_self in Hn. injection Hn as <- <-.
  unfold write_obj, modify in Hw. injection Hw as <-. simpl.
  assert (Hcopy : fresh (dom (selfs ws)) ≠ fresh (dom (selfs w))).
  { intros Heq. pose proof (fresh_lookup_None (selfs ws)) as Hn.
    rewrite Heq, Hselfs, lookup_insert_eq in Hn. discriminate. }
  split; [exact F|]. split; [exact Hfresh|]. split; [exact Hclos|].
  split.
  - intros l [s Hl].
    assert (Hl1 : l ≠ fresh (dom (selfs w))).
    { intros ->. rewrite fresh_lookup_None in Hl. discriminate. }
    assert (Hl2 : selfs ws !! l = Some s).
    { rewrite Hselfs, lookup_insert_ne by congruence. done. }
    assert (Hl3 : l ≠ fresh (dom (selfs ws))).
    { intros ->. rewrite fresh_lookup_None in Hl2. discriminate. }
    rewrite lookup_insert_ne by congruence. congruence.
  -     assert (Hne : state ≠ sur0) by (intros ->; congruence).
    assert (st = o) as ->.
    { rewrite Hobjs, lookup_insert_ne in Hst by congruence. congruence. }
    assert (so = so0) as ->.
    { rewrite Hobjs, lookup_insert_eq in Hso. congruence. }
    assert (Hnes : st_self o ≠ fresh (dom (selfs w))).
    { intros Heq. rewrite Heq, fresh_lookup_None in Hsf0. discriminate. }
    assert (sf = sf0) as ->.
    { rewrite Hselfs, lookup_insert_ne in Hsf by congruence. congruence. }
    eexists o, sf0, _. split; [done|]. split; [done|].
    split; [by rewrite lookup_insert_eq|]. simpl.
    split; [done|]. split; [done|].
    split; [|by rewrite lookup_insert_eq].
    apply eq_None_ne_Some_2. intros s Hs'.
    pose proof (fresh_lookup_None (selfs ws)) as Hn.
    rewrite Hselfs, lookup_insert_ne in Hn by congruence. congruence.
Qed.

Lemma push_exited_spec (k : nat) (l : list loc) (w w' : world) (u : unit) :
  push_exited k l w = Some (u, w') →
  ∃ c, closures w !! k = Some c ∧ w' = set_closures <[k := push_exits l c]> w.
Proof.
  unfold push_exited. intros H.
  mstep H as c w1 Hc. unfold read_closure in Hc. apply deref_Some in Hc as [Hc ->].
  unfold write_closure, modify in H. injection H as <-. eauto.
Qed.

Lemma with_onExit_undo (h : hook) (sf : selfObj) :
  with_onExit (self_onExit sf) (with_onExit h sf) = sf.
Proof. by destruct sf. Qed.


(** * One iteration of the classification loops *)

Lemma path_elem_spec (state idx : nat) (w w' : world) (r : option loc) :
  path_elem state idx w = Some (r, w') →
  w' = w ∧ ∃ path, path_of w state = Some path ∧ r = path !! idx.
Proof.
  unfold path_elem, path_of. intros H.
  mstep H as o w1 Ho. unfold read_obj in Ho. apply deref_Some in Ho as [Ho ->].
  mstep H as p w1 Hp. apply deref_Some in Hp as [Hp ->].
  mstep H as a w1 Ha. unfold read_array in Ha. apply deref_Some in Ha as [Ha ->].
  unfold ret in H. injection H as <- <-.
  split; [done|]. exists a. by rewrite Ho, Hp.
Qed.

(** What one iteration of the exit loop (l.380-389) does, case by case. *)
Lemma exit_step_inv (cfg : config) (k : nat) (fromState idx : nat) (value : string)
    (v v' : pathVars) (w w' : world) :
  exit_step cfg k fromState idx value v w = Some (v', w') →
  ∃ path, path_of w fromState = Some path
  ∧ ((value = "inactivate"
      ∧ ∃ state sur wa, path !! idx = Some state
          ∧ stateInactivatedSurrogate cfg k state w = Some (sur, wa)
          ∧ push_exited k [state] wa = Some (tt, w')
          ∧ v' = push_from sur v)
     ∨ (value = "exit"
        ∧ ∃ state sur wa, path !! idx = Some state
            ∧ stateExitedSurrogate k state w = Some (sur, wa)
            ∧ push_exited k [state] wa = Some (tt, w')
            ∧ v' = push_from sur v)
     ∨ (exit_kind value = false ∧ v' = v ∧ w' = w)).
Proof.
  unfold exit_step. intros H.
  mstep H as exiting w1 He.
  apply path_elem_spec in He as (-> & path & Hpath & ->).
  exists path. split; [done|].
  destruct (String.eqb value "inactivate") eqn:E1.
  - apply String.eqb_eq in E1 as ->. left. split; [done|].
    mstep H as state w1 Hs. apply deref_Some in Hs as [Hs ->].
    mstep H as sur wa Hb. mstep H as [] wb Hp.
    unfold ret in H. injection H as <- <-. by exists state, sur, wa.
  - destruct (String.eqb value "exit") eqn:E2.
    + apply String.eqb_eq in E2 as ->. right. left. split; [done|].
      mstep H as state w1 Hs. apply deref_Some in Hs as [Hs ->].
      mstep H as sur wa Hb. mstep H as [] wb Hp.
      unfold ret in H. injection H as <- <-. by exists state, sur, wa.
    + right. right. unfold ret in H. injection H as <- <-.
      unfold exit_kind. by rewrite E1, E2.
Qed.

(** What one iteration of the enter loop (l.352-376) does, case by case. *)
Lemma enter_step_inv (cfg : config) (k : nat) (toState idx : nat) (value : string)
    (v v' : pathVars) (w w' : world) :
  enter_step cfg k toState idx value v w = Some (v', w') →
  ∃ path, path_of w toState = Some path
  ∧ ((value = "reactivate"
      ∧ ∃ state phase1 phase2 wa, path !! idx = Some state
          ∧ stateReactivatedSurrogatePhase1 cfg state w = Some (phase1, wa)
          ∧ stateReactivatedSurrogatePhase2 cfg k state wa = Some (phase2, w')
          ∧ v' = {| surrogateToPath := surrogateToPath v ++ [phase1];
                    surrogateFromPath := surrogateFromPath v ++ [phase1];
                    reactivated := reactivated v ++ [phase2];
                    terminalReactivatedState := Some state |})
     ∨ (value = "updateStateParams"
        ∧ ∃ state, path !! idx = Some state
            ∧ stateUpdateParamsSurrogate k state w = Some (state, w')
            ∧ v' = {| surrogateToPath := surrogateToPath v ++ [state];
                      surrogateFromPath := surrogateFromPath v;
                      reactivated := reactivated v;
                      terminalReactivatedState := Some state |})
     ∨ (value = "enter"
        ∧ ∃ state, path !! idx = Some state
            ∧ stateEnteredSurrogate k state w = Some (state, w')
            ∧ v' = push_to state v)
     ∨ (enter_kind value = false ∧ v' = v ∧ w' = w)).
Proof.
  unfold enter_step. intros H.
  mstep H as entering w1 He.
  apply path_elem_spec in He as (-> & path & Hpath & ->).
  exists path. split; [done|].
  destruct (String.eqb value "reactivate") eqn:E1.
  - apply String.eqb_eq in E1 as ->. left. split; [done|].
    mstep H as state w1 Hs. apply deref_Some in Hs as [Hs ->].
    mstep H as p1 wa Hb. mstep H as p2 wb Hp.
    unfold ret in H. injection H as <- <-. by exists state, p1, p2, wa.
  - destruct (String.eqb value "updateStateParams") eqn:E2.
    + apply String.eqb_eq in E2 as ->. right. left. split; [done|].
      mstep H as state w1 Hs. apply deref_Some in Hs as [Hs ->].
      mstep H as sur wa Hb.
      unfold ret in H. injection H as <- <-.
      destruct (stateUpdateParamsSurrogate_spec _ _ _ _ _ Hb) as [-> _].
      by exists state.
    + destruct (String.eqb value "enter") eqn:E3.
      * apply String.eqb_eq in E3 as ->. right. right. left. split; [done|].
        mstep H as state w1 Hs. apply deref_Some in Hs as [Hs ->].
        mstep H as sur wa Hb.
        unfold ret in H. injection H as <- <-.
        destruct (stateEnteredSurrogate_spec _ _ _ _ _ Hb) as [-> _].
        by exists state.
      * right. right. right. unfold ret in H. injection H as <- <-.
        unfold enter_kind. by rewrite E1, E2, E3.
Qed.

(** * From the loops to their trace *)

Lemma wraps_frame (sl : slot) (k state : nat) (h : hook → hook) (w w' : world) :
  wraps sl k state h w w' → frame k w w'.
Proof. by intros [? _]. Qed.

Lemma does_wframe (cfg : config) (k : nat) (b : bstep) (w w' : world) :
  does cfg k b w w' → wframe k w w'.
Proof.
  destruct b; simpl.
  - intros (wa & H1 & H2).
    destruct (stateReactivatedSurrogatePhase1_spec cfg k _ _ _ _ H1) as (F1 & _).
    destruct (stateReactivatedSurrogatePhase2_spec cfg k _ _ _ _ H2) as (F2 & _).
    apply frame_wframe. by eapply frame_trans.
  - intros H. apply stateUpdateParamsSurrogate_spec in H as [_ H].
    by apply wraps_frame, frame_wframe in H.
  - intros H. apply stateEnteredSurrogate_spec in H as [_ H].
    by apply wraps_frame, frame_wframe in H.
  - intros (wa & H1 & H2).
    destruct (stateInactivatedSurrogate_spec cfg k _ _ _ _ H1) as (F1 & _).
    apply wframe_push_exited in H2.
    eapply wframe_trans; [by apply frame_wframe|done].
  - intros (wa & H1 & H2).
    apply stateExitedSurrogate_spec in H1 as [_ H1].
    apply wframe_push_exited in H2.
    eapply wframe_trans; [by apply wraps_frame, frame_wframe in H1|done].
  - intros H. apply stateExitedSurrogate_spec in H as [_ H].
    by apply wraps_frame, frame_wframe in H.
  - apply wframe_push_exited.
Qed.

Lemma built_wframe (cfg : config) (k : nat) (bs : list bstep) (w w' : world) :
  built cfg k bs w w' → wframe k w w'.
Proof.
  induction 1 as [|b bs w w1 w2 Hd _ IH]; [apply wframe_refl|].
  eapply wframe_trans; [by eapply does_wframe|done].
Qed.

Lemma built_app (cfg : config) (k : nat) (bs1 bs2 : list bstep) (w w1 w2 : world) :
  built cfg k bs1 w w1 → built cfg k bs2 w1 w2 → built cfg k (bs1 ++ bs2) w w2.
Proof.
  induction 1 as [|b bs w wa wb Hd _ IH]; intros H2; [done|].
  simpl. econstructor; [done|]. by apply IH.
Qed.

Lemma path_of_wframe (k : nat) (w w' : world) (state : loc) (path : list loc) :
  wframe k w w' → path_of w state = Some path → path_of w' state = Some path.
Proof.
  intros [Hobjs Harr _ _ _ _ _ _ _ _]. unfold path_of.
  destruct (objs w !! state) as [o|] eqn:Ho; [|done].
  rewrite (lookup_weaken _ _ _ _ Ho Hobjs).
  destruct (st_path o); [|done]. by rewrite Harr.
Qed.

Lemma push_steps_cons (v : pathVars) (b : bstep) (bs : list bstep) :
  push_steps v (b :: bs) = push_steps (push_step v b) bs.
Proof. done. Qed.

Ltac solve_push :=
  rewrite push_steps_cons; f_equal; unfold push_step, push_to, push_from; simpl;
  rewrite ?app_nil_r; done.

Lemma enter_loop_built (cfg : config) (k toState : nat) (path : list loc)
    (plan : list (option string)) :
  ∀ (idx : nat) (v v' : pathVars) (w w' : world),
    forEachIdx (enter_step cfg k toState) idx plan v w = Some (v', w') →
    path_of w toState = Some path →
    ∃ bs, built cfg k bs w w' ∧ enter_steps path idx plan bs ∧ v' = push_steps v bs.
Proof.
  induction plan as [|x rest IH]; intros idx v v' w w' H Hpath; simpl in H.
  - unfold ret in H. injection H as <- <-. exists []. split_and!; by constructor.
  - mstep H as v1 w1 Hstep.
    destruct x as [value|].
    + apply enter_step_inv in Hstep as (path' & Hpath' & Hcases).
      assert (path' = path) as -> by congruence.
      destruct Hcases as [(-> & state & p1 & p2 & wa & Hidx & Hb1 & Hb2 & ->)
                         |[(-> & state & Hidx & Hb & ->)
                         |[(-> & state & Hidx & Hb & ->)
                         |(Hk & -> & ->)]]].
      * assert (Hd : does cfg k (BReactivate state p1 p2) w w1) by (by exists wa).
        destruct (IH _ _ _ _ _ H) as (bs & Hbs & Hsteps & ->).
        { eapply path_of_wframe; [by eapply does_wframe|done]. }
        exists (BReactivate state p1 p2 :: bs).
        split_and!; [by econstructor|by constructor|solve_push].
      * assert (Hd : does cfg k (BUpdateParams state) w w1) by done.
        destruct (IH _ _ _ _ _ H) as (bs & Hbs & Hsteps & ->).
        { eapply path_of_wframe; [by eapply does_wframe|done]. }
        exists (BUpdateParams state :: bs).
        split_and!; [by econstructor|by constructor|solve_push].
      * assert (Hd : does cfg k (BEnter state) w w1) by done.
        destruct (IH _ _ _ _ _ H) as (bs & Hbs & Hsteps & ->).
        { eapply path_of_wframe; [by eapply does_wframe|done]. }
        exists (BEnter state :: bs).
        split_and!; [by econstructor|by constructor|solve_push].
      * destruct (IH _ _ _ _ _ H Hpath) as (bs & Hbs & Hsteps & ->).
        exists bs. split_and!; [done| |done].
        apply enter_steps_skip; [|done]. intros ? [= <-]. done.
    + unfold ret in Hstep. injection Hstep as <- <-.
      destruct (IH _ _ _ _ _ H Hpath) as (bs & Hbs & Hsteps & ->).
      exists bs. split_and!; [done| |done].
      apply enter_steps_skip; [|done]. intros ? [=].
Qed.

Lemma exit_loop_built (cfg : config) (k fromState : nat) (path : list loc)
    (plan : list (option string)) :
  ∀ (idx : nat) (v v' : pathVars) (w w' : world),
    forEachIdx (exit_step cfg k fromState) idx plan v w = Some (v', w') →
    path_of w fromState = Some path →
    ∃ bs, built cfg k bs w w' ∧ exit_steps path idx plan bs ∧ v' = push_steps v bs.
Proof.
  induction plan as [|x rest IH]; intros idx v v' w w' H Hpath; simpl in H.
  - unfold ret in H. injection H as <- <-. exists []. split_and!; by constructor.
  - mstep H as v1 w1 Hstep.
    destruct x as [value|].
    + apply exit_step_inv in Hstep as (path' & Hpath' & Hcases).
      assert (path' = path) as -> by congruence.
      destruct Hcases as [(-> & state & sur & wa & Hidx & Hb1 & Hb2 & ->)
                         |[(-> & state & sur & wa & Hidx & Hb1 & Hb2 & ->)
                         |(Hk & -> & ->)]].
      * assert (Hd : does cfg k (BInactivate state sur) w w1) by (by exists wa).
        destruct (IH _ _ _ _ _ H) as (bs & Hbs & Hsteps & ->).
        { eapply path_of_wframe; [by eapply does_wframe|done]. }
        exists (BInactivate state sur :: bs).
        split_and!; [by econstructor|by constructor|solve_push].
      * destruct (stateExitedSurrogate_spec _ _ _ _ _ Hb1) as [-> _].
        assert (Hd : does cfg k (BExit state) w w1) by (by exists wa).
        destruct (IH _ _ _ _ _ H) as (bs & Hbs & Hsteps & ->).
        { eapply path_of_wframe; [by eapply does_wframe|done]. }
        exists (BExit state :: bs).
        split_and!; [by econstructor|by constructor|solve_push].
      * destruct (IH _ _ _ _ _ H Hpath) as (bs & Hbs & Hsteps & ->).
        exists bs. split_and!; [done| |done].
        apply exit_steps_skip; [|done]. intros ? [= <-]. done.
    + unfold ret in Hstep. injection Hstep as <- <-.
      destruct (IH _ _ _ _ _ H Hpath) as (bs & Hbs & Hsteps & ->).
      exists bs. split_and!; [done| |done].
      apply exit_steps_skip; [|done]. intros ? [=].
Qed.

Lemma state_name_pure (state : loc) (w w' : world) (n : string) :
  state_name state w = Some (n, w') → w' = w.
Proof.
  unfold state_name. intros H.
  mstep H as o w1 Ho. unfold read_obj in Ho. apply deref_Some in Ho as [Ho ->].
  mstep H as sf w1 Hsf. unfold read_self in Hsf. apply deref_Some in Hsf as [Hsf ->].
  by apply deref_Some in H as [_ ->].
Qed.

Lemma orphans_of_pure (prefix : string) (l : list loc) :
  ∀ (w w' : world) (r : list (string * loc)),
    orphans_of prefix l w = Some (r, w') → w' = w.
Proof.
  induction l as [|x l IH]; intros w w' r H; simpl in H.
  - unfold ret in H. by injection H as <- <-.
  - mstep H as n w1 Hn. apply state_name_pure in Hn as ->.
    mstep H as more w1 Hm. apply IH in Hm as ->.
    unfold ret in H. by injection H as <- <-.
Qed.

Lemma map_exited_built (cfg : config) (k : nat) (l : list loc) :
  ∀ (w w' : world) (ys : list loc),
    map_exited k l w = Some (ys, w') →
    ys = l ∧ built cfg k (BOrphan <$> l) w w'.
Proof.
  induction l as [|x l IH]; intros w w' ys H; simpl in H.
  - unfold ret in H. injection H as <- <-. split; [done|constructor].
  - mstep H as y w1 Hy. mstep H as ys' w2 Hys.
    unfold ret in H. injection H as <- <-.
    destruct (stateExitedSurrogate_spec _ _ _ _ _ Hy) as [-> _].
    destruct (IH _ _ _ Hys) as [-> Hb].
    split; [done|]. simpl. by econstructor.
Qed.

Lemma exit_orphans_built (cfg : config) (k toState : nat) (inactive : list loc)
    (v v' : pathVars) (w w' : world) :
  exit_orphans k toState inactive v w = Some (v', w') →
  (terminalReactivatedState v = Some toState
   ∧ ∃ o sf found,
       objs w !! toState = Some o ∧ selfs w !! st_self o = Some sf
       ∧ orphans_of (default "undefined" (self_name sf) ++ ".")%string inactive w
         = Some (found, w)
       ∧ built cfg k ((BOrphan <$> sorted_orphans found)
                      ++ [BPushExited (sorted_orphans found)]) w w'
       ∧ v' = push_orphans (sorted_orphans found) v)
  ∨ (terminalReactivatedState v ≠ Some toState ∧ v' = v ∧ w' = w).
Proof.
  unfold exit_orphans. intros H.
  destruct (decide (terminalReactivatedState v = Some toState)) as [Ht|Ht].
  - left. split; [done|].
    mstep H as o w1 Ho. unfold read_obj in Ho. apply deref_Some in Ho as [Ho ->].
    mstep H as sf w1 Hsf. unfold read_self in Hsf. apply deref_Some in Hsf as [Hsf ->].
    mstep H as found w1 Hf. pose proof (orphans_of_pure _ _ _ _ _ Hf) as ->.
    mstep H as surrogates w2 Hm. mstep H as [] w3 Hp.
    unfold ret in H. injection H as <- <-.
    destruct (map_exited_built cfg _ _ _ _ _ Hm) as [-> Hb].
    exists o, sf, found. split_and!; try done.
    eapply built_app; [exact Hb|]. econstructor; [exact Hp|constructor].
  - right. unfold ret in H. by injection H as <- <-.
Qed.

(** * The locals of the inactive pseudo-state *)

Lemma writes_only_refl (l : loc) (w : world) : writes_only l w w.
Proof. by unfold writes_only. Qed.

Lemma writes_only_trans (l : loc) (w1 w2 w3 : world) :
  writes_only l w1 w2 → writes_only l w2 w3 → writes_only l w1 w3.
Proof.
  unfold writes_only.
  intros (? & ? & ? & ? & ? & ? & ? & ? & Hp1) (? & ? & ? & ? & ? & ? & ? & ? & Hp2).
  split_and!; try congruence. intros l' Hl. by rewrite Hp2, Hp1.
Qed.

Lemma view_entries_lookup (m : gmap string val) (key : string) :
  view_entries m !! key = if has_at key then m !! key else None.
Proof.
  unfold view_entries. destruct (has_at key) eqn:E.
  - destruct (m !! key) as [x|] eqn:Hk.
    + apply map_lookup_filter_Some. by split.
    + apply map_lookup_filter_None. left. done.
  - apply map_lookup_filter_None. right. intros x _. simpl. congruence.
Qed.

Lemma clear_views_lookup (p : pobj) (key : string) :
  own (clear_views p) !! key = if has_at key then None else own p !! key.
Proof.
  unfold clear_views. simpl. destruct (has_at key) eqn:E.
  - apply map_lookup_filter_None. right. intros x _. simpl. congruence.
  - destruct (own p !! key) as [x|] eqn:Hk.
    + apply map_lookup_filter_Some. by split.
    + apply map_lookup_filter_None. left. done.
Qed.

Lemma clear_inactive_locals_spec (cfg : config) (w w' : world) (u : unit)
    (io : stateObj) (l : loc) :
  clear_inactive_locals cfg w = Some (u, w') →
  objs w !! inactivePseudoState cfg = Some io → st_locals io = Some l →
  writes_only l w w'
  ∧ ∃ p, pobjs w !! l = Some p ∧ pobjs w' !! l = Some (clear_views p).
Proof.
  unfold clear_inactive_locals. intros H Hio Hl. destruct u.
  mstep H as io' w1 Ho. unfold read_obj in Ho. apply deref_Some in Ho as [Ho ->].
  assert (io' = io) as -> by congruence. rewrite Hl in H.
  mstep H as p w1 Hp. unfold read_pobj in Hp. apply deref_Some in Hp as [Hp ->].
  unfold write_pobj, modify in H. injection H as <-.
  split.
  - unfold writes_only. simpl. repeat (split; [done|]).
    intros l' Hne. by rewrite lookup_insert_ne.
  - exists p. simpl. by rewrite lookup_insert_eq.
Qed.

Lemma load_inactive_locals_spec (cfg : config) (i : loc) (w w' : world) (u : unit)
    (io : stateObj) (l : loc) (p : pobj) :
  load_inactive_locals cfg i w = Some (u, w') →
  objs w !! inactivePseudoState cfg = Some io → st_locals io = Some l →
  pobjs w !! l = Some p →
  writes_only l w w'
  ∧ ∃ p', pobjs w' !! l = Some p'
          ∧ own p' = views_of w i ∪ own p ∧ proto p' = proto p.
Proof.
  unfold load_inactive_locals, views_of. intros H Hio Hl Hp. destruct u.
  mstep H as o w1 Ho. unfold read_obj in Ho. apply deref_Some in Ho as [Ho ->].
  rewrite Ho. destruct (st_locals o) as [il|].
  - mstep H as ip w1 Hip. unfold read_pobj in Hip. apply deref_Some in Hip as [Hip ->].
    rewrite Hip.
    destruct (decide (size (view_entries (own ip)) = 0)) as [Hz|Hz].
    + unfold ret in H. injection H as <-. split; [apply writes_only_refl|].
      exists p. split; [done|].
      apply map_size_empty_inv in Hz. by rewrite Hz, (left_id_L ∅ (∪)).
    + mstep H as io' w1 Ho'. unfold read_obj in Ho'.
      apply deref_Some in Ho' as [Ho' ->].
      assert (io' = io) as -> by congruence.
      mstep H as l' w1 Hl'. apply deref_Some in Hl' as [Hl' ->].
      assert (l' = l) as -> by congruence.
      mstep H as p0 w1 Hp0. unfold read_pobj in Hp0.
      apply deref_Some in Hp0 as [Hp0 ->].
      assert (p0 = p) as -> by congruence.
      unfold write_pobj, modify in H. injection H as <-.
      split.
      * unfold writes_only. simpl. repeat (split; [done|]).
        intros l'' Hne. by rewrite lookup_insert_ne.
      * eexists. simpl. rewrite lookup_insert_eq. split; [done|]. done.
  - unfold ret in H. injection H as <-. split; [apply writes_only_refl|].
    exists p. split; [done|]. by rewrite (left_id_L ∅ (∪)).
Qed.

Lemma views_of_writes_only (l : loc) (w w' : world) (i : loc) :
  writes_only l w w' →
  (∀ o, objs w !! i = Some o → st_locals o ≠ Some l) →
  views_of w' i = views_of w i.
Proof.
  intros (Ho & _ & _ & _ & _ & _ & _ & _ & Hp) Hi. unfold views_of. rewrite Ho.
  destruct (objs w !! i) as [o|] eqn:E; [|done].
  destruct (st_locals o) as [il|] eqn:El; [|done].
  rewrite Hp; [done|]. intros ->. by eapply Hi.
Qed.

Lemma fold_views_acc (g : loc → gmap string val) (l : list loc) :
  ∀ (A : gmap string val),
    foldl (λ acc i, g i ∪ acc) A l = foldl (λ acc i, g i ∪ acc) ∅ l ∪ A.
Proof.
  induction l as [|i l IH]; intros A; simpl.
  - by rewrite (left_id_L ∅ (∪)).
  - rewrite (IH (g i ∪ A)), (IH (g i ∪ ∅)).
    by rewrite (right_id_L ∅ (∪)), (assoc_L (∪)).
Qed.

Lemma views_of_only_views (w : world) (i : loc) (key : string) :
  has_at key = false → views_of w i !! key = None.
Proof.
  intros Hk. unfold views_of.
  destruct (objs w !! i) as [o|]; [|done].
  destruct (st_locals o) as [il|]; [|done].
  destruct (pobjs w !! il) as [p|]; [|done].
  by rewrite view_entries_lookup, Hk.
Qed.

Lemma load_loop_spec (cfg : config) (l : loc) (io : stateObj) (inactives : list loc) :
  ∀ (w w' : world) (p : pobj),
    forEach (load_inactive_locals cfg) inactives w = Some (tt, w') →
    objs w !! inactivePseudoState cfg = Some io → st_locals io = Some l →
    pobjs w !! l = Some p →
    locals_apart w l inactives →
    writes_only l w w'
    ∧ ∃ p', pobjs w' !! l = Some p'
            ∧ own p' = foldl (λ acc i, views_of w i ∪ acc) (own p) inactives
            ∧ proto p' = proto p.
Proof.
  induction inactives as [|i rest IH]; intros w w' p H Hio Hl Hp Hapart; simpl in H.
  - unfold ret in H. injection H as <-. split; [apply writes_only_refl|]. by exists p.
  - mstep H as [] w1 Hstep.
    apply Forall_cons in Hapart as [Hi Hrest].
    destruct (load_inactive_locals_spec _ _ _ _ _ _ _ _ Hstep Hio Hl Hp)
      as (W1 & p1 & Hp1 & Hown1 & Hproto1).
    assert (Hobjs : objs w1 = objs w) by (by destruct W1).
    assert (Hio1 : objs w1 !! inactivePseudoState cfg = Some io) by (by rewrite Hobjs).
    assert (Hapart1 : locals_apart w1 l rest).
    { unfold locals_apart. by rewrite Hobjs. }
    destruct (IH w1 w' p1 H Hio1 Hl Hp1 Hapart1) as (W2 & p' & Hp' & Hown' & Hproto').
    split; [by eapply writes_only_trans|].
    exists p'. split; [done|]. split; [|congruence].
    rewrite Hown', Hown1. simpl.
    clear -W1 Hrest.
    assert (G : ∀ A : gmap string val,
              foldl (λ acc i, views_of w1 i ∪ acc) A rest
              = foldl (λ acc i, views_of w i ∪ acc) A rest).
    { induction rest as [|j rest IH]; intros A; simpl; [done|].
      apply Forall_cons in Hrest as [Hj Hrest].
      rewrite (views_of_writes_only l w w1 j W1 Hj). by apply IH. }
    apply G.
Qed.

(** * The stages of a substitution *)

Lemma view_entries_insert_plain (key : string) (x : val) (m : gmap string val) :
  has_at key = false → view_entries (<[key := x]> m) = view_entries m.
Proof.
  intros Hk. apply map_eq. intros key'. rewrite !view_entries_lookup.
  destruct (has_at key') eqn:E; [|done].
  rewrite lookup_insert_ne; [done|]. intros ->. congruence.
Qed.

Lemma add_reload_param_spec (cfg : config) (req : request) (k : nat)
    (toParams r : loc) (w w' : world) (u : unit) :
  add_reload_param cfg req k toParams r w = Some (u, w') →
  objs w' = objs w ∧ selfs w' = selfs w ∧ arrays w' = arrays w
  ∧ pendingTransitions w' = pendingTransitions w
  ∧ pendingRestore w' = pendingRestore w ∧ trace w' = trace w
  ∧ same_views w w'
  ∧ ∃ c fn, closures w !! k = Some c ∧ is_reload_undo fn
            ∧ closures w' = <[k := push_fn fn c]> (closures w).
Proof.
  unfold add_reload_param. intros H. destruct u.
  mstep H as tp w1 Htp. unfold read_pobj in Htp. apply deref_Some in Htp as [Htp ->].
  mstep H as [] w1 Hw. unfold write_pobj, modify in Hw. injection Hw as <-.
  mstep H as rs w1 Hrs. unfold read_self in Hrs. apply deref_Some in Hrs as [Hrs ->].
  mstep H as state w1 Hst. apply deref_Some in Hst as [Hst ->].
  mstep H as o w1 Ho. unfold read_obj in Ho. apply deref_Some in Ho as [Ho ->].
  mstep H as params w1 Hpa. apply deref_Some in Hpa as [Hpa ->].
  mstep H as ownParams w1 Hop. apply deref_Some in Hop as [Hop ->].
  assert (Hviews : same_views w (set_pobjs
            <[toParams := {| own := <[reloadKey := VRef (random req)]> (own tp);
                             proto := proto tp |}]> w)).
  { intros l. simpl. destruct (decide (l = toParams)) as [->|Hne].
    - rewrite lookup_insert_eq, Htp. simpl. split; [|done].
      by apply view_entries_insert_plain.
    - rewrite lookup_insert_ne by congruence. by destruct (pobjs w !! l). }
  destruct (hasParamSet cfg).
  - mstep H as op w1 Hr1. unfold read_params in Hr1. apply deref_Some in Hr1 as [Hr1 ->].
    mstep H as [] w1 Hw1. unfold write_params, modify in Hw1. injection Hw1 as <-.
    mstep H as p w1 Hr2. unfold read_params in Hr2. apply deref_Some in Hr2 as [Hr2 ->].
    mstep H as [] w1 Hw2. unfold write_params, modify in Hw2. injection Hw2 as <-.
    unfold pushRestoreFunction, addRestoreFunction in H.
    mstep H as c w1 Hc. unfold read_closure in Hc. apply deref_Some in Hc as [Hc ->].
    unfold write_closure, modify in H. injection H as <-. simpl in *.
    split_and!; try done. by exists c, (UDeleteParam params ownParams).
  - mstep H as p w1 Hr1. unfold read_params in Hr1. apply deref_Some in Hr1 as [Hr1 ->].
    mstep H as [] w1 Hw1. unfold write_params, modify in Hw1. injection Hw1 as <-.
    mstep H as op w1 Hr2. unfold read_params in Hr2. apply deref_Some in Hr2 as [Hr2 ->].
    mstep H as [] w1 Hw2. unfold write_params, modify in Hw2. injection Hw2 as <-.
    unfold pushRestoreFunction, addRestoreFunction in H.
    mstep H as c w1 Hc. unfold read_closure in Hc. apply deref_Some in Hc as [Hc ->].
    unfold write_closure, modify in H. injection H as <-. simpl in *.
    split_and!; try done. by exists c, (UPopParam params ownParams).
Qed.

Lemma reloadStateTree_of_pure (cfg : config) (req : request) (saved : loc)
    (w w' : world) (r : option loc) :
  reloadStateTree_of cfg req saved w = Some (r, w') → w' = w.
Proof.
  unfold reloadStateTree_of. intros H. destruct (reload req).
  - unfold ret in H. by injection H as <- <-.
  - mstep H as a w1 Ha. unfold read_array in Ha. apply deref_Some in Ha as [Ha ->].
    mstep H as f w1 Hf. apply deref_Some in Hf as [Hf ->].
    mstep H as o w1 Ho. unfold read_obj in Ho. apply deref_Some in Ho as [Ho ->].
    unfold ret in H. by injection H as <- <-.
  - unfold ret in H. by injection H as <- <-.
Qed.

Lemma view_entries_delete_plain (key : string) (m : gmap string val) :
  has_at key = false → view_entries (delete key m) = view_entries m.
Proof.
  intros Hk. apply map_eq. intros key'. rewrite !view_entries_lookup.
  destruct (has_at key') eqn:E; [|done].
  rewrite lookup_delete_ne; [done|]. intros ->. congruence.
Qed.

(** [delete options.reload] writes the caller's object only, and only its
    [reload] property. *)
Lemma delete_options_reload_spec (req : request) (w w' : world) (u : unit) :
  delete_options_reload req w = Some (u, w') →
  (objs w' = objs w ∧ selfs w' = selfs w ∧ arrays w' = arrays w
   ∧ paramsH w' = paramsH w ∧ closures w' = closures w
   ∧ pendingTransitions w' = pendingTransitions w
   ∧ pendingRestore w' = pendingRestore w ∧ trace w' = trace w)
  ∧ same_views w w'
  ∧ (∀ l, options req ≠ Some l ∨ (∀ n, reload req ≠ ReloadState n) →
          pobjs w' !! l = pobjs w !! l)
  ∧ (∀ l p, pobjs w !! l = Some p →
            ∃ p', pobjs w' !! l = Some p' ∧ proto p' = proto p
                  ∧ ∀ key, key ≠ "reload" → own p' !! key = own p !! key).
Proof.
  unfold delete_options_reload. intros H. destruct u.
  assert (Hid : w' = w →
    (objs w' = objs w ∧ selfs w' = selfs w ∧ arrays w' = arrays w
     ∧ paramsH w' = paramsH w ∧ closures w' = closures w
     ∧ pendingTransitions w' = pendingTransitions w
     ∧ pendingRestore w' = pendingRestore w ∧ trace w' = trace w)
    ∧ same_views w w'
    ∧ (∀ l, options req ≠ Some l ∨ (∀ n, reload req ≠ ReloadState n) →
            pobjs w' !! l = pobjs w !! l)
    ∧ (∀ l p, pobjs w !! l = Some p →
              ∃ p', pobjs w' !! l = Some p' ∧ proto p' = proto p
                    ∧ ∀ key, key ≠ "reload" → own p' !! key = own p !! key)).
  { intros ->. split_and!; try done.
    - intros l. by destruct (pobjs w !! l).
    - intros l p Hl. by exists p. }
  destruct (options req) as [o|]; [|unfold ret in H; injection H as <-; by apply Hid].
  destruct (reload req) as [| |n];
    try (unfold ret in H; injection H as <-; by apply Hid).
  clear Hid.
  mstep H as p w1 Hp. unfold read_pobj in Hp. apply deref_Some in Hp as [Hp ->].
  unfold write_pobj, modify in H. injection H as <-. simpl.
  split_and!; try done.
  - intros l. simpl. destruct (decide (l = o)) as [->|Hne].
    + rewrite lookup_insert_eq, Hp. simpl. split; [|done].
      by apply view_entries_delete_plain.
    + rewrite lookup_insert_ne by congruence. by destruct (pobjs w !! l).
  - intros l [Hl|Hl]; [|by destruct (Hl n)].
    rewrite lookup_insert_ne; [done|]. intros ->. by destruct Hl.
  - intros l q Hl. destruct (decide (l = o)) as [->|Hne].
    + rewrite lookup_insert_eq. eexists. split; [done|]. simpl.
      assert (q = p) as -> by congruence. split; [done|].
      intros key Hk. by rewrite lookup_delete_ne.
    + rewrite lookup_insert_ne by congruence. by exists q.
Qed.

Lemma same_views_trans (w1 w2 w3 : world) :
  same_views w1 w2 → same_views w2 w3 → same_views w1 w3.
Proof.
  intros H1 H2 l. specialize (H1 l). specialize (H2 l).
  destruct (pobjs w1 !! l), (pobjs w2 !! l), (pobjs w3 !! l); try done.
  destruct H1 as [E1 E2], H2 as [E3 E4]. split; congruence.
Qed.

Lemma register_transition_spec (cfg : config) (req : request) (k toState toParams : nat)
    (w wr : world) (v0 : pathVars) :
  register_transition cfg req k toState toParams w = Some (v0, wr) →
  ∃ sTo sFrom toPath fromPath,
    registered req k toState toParams w wr sTo sFrom toPath fromPath
    ∧ v0 = sliced req toPath fromPath.
Proof.
  unfold register_transition. intros H.
  mstep H as tso w1 Ht. unfold read_obj in Ht. apply deref_Some in Ht as [Ht ->].
  mstep H as fso w1 Hf. unfold read_obj in Hf. apply deref_Some in Hf as [Hf ->].
  mstep H as sTo w1 Hst. apply deref_Some in Hst as [Hst ->].
  mstep H as sFrom w1 Hsf. apply deref_Some in Hsf as [Hsf ->].
  mstep H as c w1 Hc. unfold read_closure in Hc. apply deref_Some in Hc as [Hc ->].
  mstep H as [] w1 Hw. unfold write_closure, modify in Hw. injection Hw as <-.
  mstep H as rt w1 Hrt. apply reloadStateTree_of_pure in Hrt as ->.
  mstep H as [] wd Hdel.
  apply delete_options_reload_spec
    in Hdel as ((Hdo & Hds & Hda & _ & Hdc & Hdt & _) & Hdv & _).
  simpl in Hdo, Hds, Hda, Hdc, Hdt.
  mstep H as [] w1 Hp1. unfold modify in Hp1. injection Hp1 as <-.
  mstep H as [] w1 Hp2. unfold modify in Hp2. injection Hp2 as <-.
  mstep H as [] w2 Hre. mstep H as [] w3 Hdbg.
  mstep H as toPath w4 Hta. unfold read_array in Hta. apply deref_Some in Hta as [Hta ->].
  mstep H as fromPath w4 Hfa. unfold read_array in Hfa.
  apply deref_Some in Hfa as [Hfa ->].
  unfold ret in H. injection H as <- <-.
  exists sTo, sFrom, toPath, fromPath. split; [|done].
  assert (Hw3 : objs w3 = objs w2 ∧ selfs w3 = selfs w2 ∧ arrays w3 = arrays w2
                ∧ pobjs w3 = pobjs w2 ∧ closures w3 = closures w2
                ∧ pendingTransitions w3 = pendingTransitions w2
                ∧ pendingRestore w3 = pendingRestore w2).
  { destruct (DEBUG req); unfold modify, ret in Hdbg; by injection Hdbg as <-. }
  destruct Hw3 as (Ho3 & Hs3 & Ha3 & Hpo3 & Hc3 & Hpt3 & Hpr3).
  destruct rt as [r|].
  - apply add_reload_param_spec in Hre
      as (Ho2 & Hs2 & Ha2 & Hpt2 & Hpr2 & _ & Hv2 & c' & fn & Hc' & Hfn & Hcl2).
    simpl in *. rewrite Hdc in Hc', Hcl2. rewrite Hda in Ha2.
    rewrite Hdo in Ho2. rewrite Hds in Hs2. rewrite Hdt in Hpt2.
    rewrite lookup_insert_eq in Hc'. injection Hc' as <-.
    split.
    + exists tso. by rewrite Ht.
    + exists fso. by rewrite Hf.
    + by rewrite <- Ha2, <- Ha3.
    + by rewrite <- Ha2, <- Ha3.
    + by rewrite Ho3, Ho2.
    + by rewrite Hs3, Hs2.
    + by rewrite Ha3, Ha2.
    + apply (same_views_trans _ wd); [exact Hdv|].
      intros l. specialize (Hv2 l). simpl in Hv2. by rewrite Hpo3.
    + by rewrite Hpr3, Hpr2.
    + rewrite Hpt3, Hpt2. eauto.
    + intros j Hj. rewrite Hc3, Hcl2. by rewrite !lookup_insert_ne.
    + exists c, [fn]. split; [done|]. split; [by constructor|].
      rewrite Hc3, Hcl2. by rewrite lookup_insert_eq.
  - unfold ret in Hre. injection Hre as <-. simpl in *.
    split.
    + exists tso. by rewrite Ht.
    + exists fso. by rewrite Hf.
    + by rewrite <- Hda, <- Ha3.
    + by rewrite <- Hda, <- Ha3.
    + by rewrite Ho3.
    + by rewrite Hs3.
    + by rewrite Ha3.
    + intros l. specialize (Hdv l). simpl in Hdv. by rewrite Hpo3.
    + by rewrite Hpr3.
    + rewrite Hpt3, Hdt. eauto.
    + intros j Hj. rewrite Hc3, Hdc. by rewrite lookup_insert_ne.
    + exists c, []. split; [done|]. split; [by constructor|].
      rewrite Hc3, Hdc. by rewrite lookup_insert_eq.
Qed.

Lemma state_name_wframe (k : nat) (w w' : world) (state : loc) (n : string) :
  wframe k w w' → state_name state w = Some (n, w) → state_name state w' = Some (n, w').
Proof.
  intros [Hobjs _ Hselfs _ _ _ _ _ _ _]. unfold state_name. intros H.
  mstep H as o w1 Ho. unfold read_obj in Ho. apply deref_Some in Ho as [Ho ->].
  mstep H as sf w1 Hsf. unfold read_self in Hsf. apply deref_Some in Hsf as [Hsf ->].
  apply deref_Some in H as [Hn _].
  destruct (Hselfs _ _ Hsf) as (sf' & Hsf' & Hn' & _).
  apply bind_Some. exists o, w'. split.
  { unfold read_obj. by rewrite (lookup_weaken _ _ _ _ Ho Hobjs). }
  apply bind_Some. exists sf', w'. split.
  { unfold read_self. by rewrite Hsf'. }
  apply deref_Some. split; [congruence|done].
Qed.

Lemma names_kept_wframe (k : nat) (w w' : world) : wframe k w w' → names_kept w w'.
Proof. intros F state n. by apply (state_name_wframe k). Qed.

Lemma names_kept_trans (w1 w2 w3 : world) :
  names_kept w1 w2 → names_kept w2 w3 → names_kept w1 w3.
Proof. intros H1 H2 state n H. by apply H2, H1. Qed.

Lemma state_name_inv (state : loc) (w w' : world) (n : string) :
  state_name state w = Some (n, w') ↔
  w' = w ∧ ∃ o sf, objs w !! state = Some o ∧ selfs w !! st_self o = Some sf
                   ∧ self_name sf = Some n.
Proof.
  unfold state_name. split.
  - intros H.
    mstep H as o w1 Ho. unfold read_obj in Ho. apply deref_Some in Ho as [Ho ->].
    mstep H as sf w1 Hsf. unfold read_self in Hsf. apply deref_Some in Hsf as [Hsf ->].
    apply deref_Some in H as [Hn ->]. split; [done|]. by exists o, sf.
  - intros (-> & o & sf & Ho & Hsf & Hn).
    apply bind_Some. exists o, w. split; [unfold read_obj; by rewrite Ho|].
    apply bind_Some. exists sf, w. split; [unfold read_self; by rewrite Hsf|].
    by apply deref_Some.
Qed.

Lemma orphans_of_names_kept (w w' : world) (prefix : string) (l : list loc) :
  names_kept w w' →
  ∀ found, orphans_of prefix l w = Some (found, w) →
           orphans_of prefix l w' = Some (found, w').
Proof.
  intros F. induction l as [|x l IH]; intros found H; simpl in *.
  - unfold ret in *. by injection H as <-.
  - mstep H as n w1 Hn. pose proof (state_name_pure _ _ _ _ Hn) as ->.
    mstep H as more w1 Hm. pose proof (orphans_of_pure _ _ _ _ _ Hm) as ->.
    unfold ret in H. injection H as <-.
    apply bind_Some. exists n, w'. split; [by apply F|].
    apply bind_Some. exists more, w'. split; [by apply IH|]. done.
Qed.

Lemma orphans_of_wframe (k : nat) (w w' : world) (prefix : string) (l : list loc) :
  wframe k w w' →
  ∀ found, orphans_of prefix l w = Some (found, w) →
           orphans_of prefix l w' = Some (found, w').
Proof. intros F. by apply orphans_of_names_kept, (names_kept_wframe k). Qed.

Lemma names_kept_installed (req : request) (toState : nat) (v : pathVars)
    (w w' : world) (pto pfrom : loc) :
  installed req toState v w w' pto pfrom → names_kept w w'.
Proof.
  intros [_ _ _ _ (o1 & o2 & Ho1 & Ho2 & Hobjs) Hs _ _ _ _] state n H.
  apply state_name_inv in H as (_ & o & sf & Ho & Hsf & Hn).
  apply state_name_inv. split; [done|].
  rewrite Hs, Hobjs.
  destruct (decide (state = current req)) as [->|Hne1].
  - rewrite lookup_insert_eq. eexists _, sf. split; [done|]. simpl.
    destruct (decide (current req = toState)) as [Heq|Hne2].
    + rewrite <- Heq, lookup_insert_eq in Ho2. injection Ho2 as <-. simpl.
      rewrite Heq in Ho. assert (o1 = o) as -> by congruence. done.
    + rewrite lookup_insert_ne in Ho2 by congruence.
      assert (o2 = o) as -> by congruence. done.
  - rewrite lookup_insert_ne by congruence.
    destruct (decide (state = toState)) as [->|Hne2].
    + rewrite lookup_insert_eq. eexists _, sf. split; [done|]. simpl.
      assert (o1 = o) as -> by congruence. done.
    + rewrite lookup_insert_ne by congruence. by exists o, sf.
Qed.

Lemma names_kept_emit (e : event) (w : world) : names_kept w (emit e w).
Proof.
  intros state n H. apply state_name_inv in H as (_ & o & sf & Ho & Hsf & Hn).
  apply state_name_inv. split; [done|]. by exists o, sf.
Qed.

Lemma build_paths_spec (cfg : config) (req : request) (k toState : nat)
    (toPath fromPath : list loc) (v0 v : pathVars) (w w' : world) :
  build_paths cfg req k toState v0 w = Some (v, w') →
  path_of w toState = Some toPath →
  path_of w (current req) = Some fromPath →
  ∃ be bx bo, paths_built cfg req k toState toPath fromPath v0 v w w' be bx bo.
Proof.
  unfold build_paths. intros H Hto Hfrom.
  mstep H as v1 w1 He. mstep H as v2 w2 Hx.
  destruct (enter_loop_built _ _ _ _ _ _ _ _ _ _ He Hto) as (be & Hbe & Hse & ->).
  pose proof (built_wframe _ _ _ _ _ Hbe) as Fe.
  pose proof (path_of_wframe _ _ _ _ _ Fe Hfrom) as Hfrom1.
  destruct (exit_loop_built _ _ _ _ _ _ _ _ _ _ Hx Hfrom1) as (bx & Hbx & Hsx & ->).
  destruct (exit_orphans_built cfg _ _ _ _ _ _ _ H)
    as [(Ht & o & sf & found & Ho & Hsf & Hf & Hbo & ->)|(Ht & -> & ->)].
  - exists be, bx, ((BOrphan <$> sorted_orphans found) ++ [BPushExited (sorted_orphans found)]).
    pose proof (built_wframe _ _ _ _ _ Hbo) as Fo.
    split; [done|done| |].
    + eapply built_app; [exact Hbe|]. eapply built_app; [exact Hbx|exact Hbo].
    + left. split; [done|].
      destruct Fo as [Hobjs _ Hselfs _ _ _ _ _ _ _].
      destruct (Hselfs _ _ Hsf) as (sf' & Hsf' & Hn' & _).
      exists o, sf', found. rewrite Hn'.
      split; [by eapply lookup_weaken|]. split; [done|].
      split; [|done].
      eapply orphans_of_wframe; [|exact Hf]. by eapply built_wframe.
  - exists be, bx, []. split; [done|done| |].
    + rewrite app_nil_r. by eapply built_app.
    + right. done.
Qed.

Lemma install_paths_spec (req : request) (toState : nat) (v : pathVars)
    (w w' : world) (u : unit) :
  install_paths req toState v w = Some (u, w') →
  ∃ pto pfrom, installed req toState v w w' pto pfrom.
Proof.
  unfold install_paths. intros H. destruct u.
  mstep H as pto w1 Hn1. unfold new_array in Hn1. injection Hn1 as <- <-.
  mstep H as [] w2 Ha1. unfold assign_path in Ha1.
  mstep Ha1 as o1 wa Ho1. unfold read_obj in Ho1. apply deref_Some in Ho1 as [Ho1 ->].
  unfold write_obj, modify in Ha1. injection Ha1 as <-.
  mstep H as pfrom w3 Hn2. unfold new_array in Hn2. injection Hn2 as <- <-.
  mstep H as [] w4 Ha2. unfold assign_path in Ha2.
  mstep Ha2 as o2 wa Ho2. unfold read_obj in Ho2. apply deref_Some in Ho2 as [Ho2 ->].
  unfold write_obj, modify in Ha2. injection Ha2 as <-.
  simpl in *.
  assert (Hw : objs w' = <[current req := with_path (Some (fresh (dom
                  (<[fresh (dom (arrays w)) := surrogateToPath v]> (arrays w))))) o2]>
                  (<[toState := with_path (Some (fresh (dom (arrays w)))) o1]> (objs w))
               ∧ arrays w' = <[fresh (dom (<[fresh (dom (arrays w)) := surrogateToPath v]>
                                              (arrays w))) := surrogateFromPath v]>
                               (<[fresh (dom (arrays w)) := surrogateToPath v]> (arrays w))
               ∧ selfs w' = selfs w ∧ pobjs w' = pobjs w ∧ closures w' = closures w
               ∧ pendingTransitions w' = pendingTransitions w
               ∧ pendingRestore w' = pendingRestore w).
  { destruct (DEBUG req).
    - mstep H as [] w5 Hd. unfold modify in Hd, H. injection Hd as <-.
      by injection H as <-.
    - unfold ret in H. by injection H as <-. }
  destruct Hw as (Hobjs & Harr & Hs & Hp & Hc & Hpt & Hpr).
  set (pto := fresh (dom (arrays w))) in *.
  set (pfrom := fresh (dom (<[pto := surrogateToPath v]> (arrays w)))) in *.
  exists pto, pfrom.
  assert (Hfrom : (<[pto := surrogateToPath v]> (arrays w)) !! pfrom = None)
    by apply fresh_lookup_None.
  assert (Hne : pfrom ≠ pto).
  { intros Heq. rewrite Heq, lookup_insert_eq in Hfrom. discriminate. }
  split; try done.
  - apply fresh_lookup_None.
  - by rewrite lookup_insert_ne in Hfrom by congruence.
  - by exists o1, o2.
Qed.

Lemma substitute_inv (cfg : config) (req : request) (k toState toParams : nat)
    (w w' : world) (u : unit) :
  substitute cfg req k toState toParams w = Some (u, w') →
  ∃ v0 wr wl v wb,
    register_transition cfg req k toState toParams w = Some (v0, wr)
    ∧ refresh_inactive_locals cfg req wr = Some (tt, wl)
    ∧ build_paths cfg req k toState v0 wl = Some (v, wb)
    ∧ install_paths req toState v wb = Some (tt, w').
Proof.
  unfold substitute. intros H. destruct u.
  mstep H as v0 wr Hr. mstep H as [] wl Hl. mstep H as v wb Hb.
  by exists v0, wr, wl, v, wb.
Qed.

Lemma transitionTo_inv (cfg : config) (req : request) (w w' : world) (k : nat) :
  transitionTo cfg req w = Some (k, w') →
  ∃ toState toParams w0 w1,
    accept cfg req w = Some ((k, toState, toParams), w0)
    ∧ match toState with
      | Some t => substitute cfg req k t toParams w0 = Some (tt, w1)
      | None => w1 = w0
      end
    ∧ w' = emit (EvDelegate k) w1.
Proof.
  unfold transitionTo. intros H.
  mstep H as [[k' toState] toParams] w0 Ha. simpl in H.
  mstep H as [] w1 Hs. mstep H as [] w2 Hd.
  unfold modify in Hd. injection Hd as <-.
  unfold ret in H. injection H as <- <-.
  exists toState, toParams, w0, w1. split; [done|]. split; [|done].
  destruct toState; [done|]. unfold ret in Hs. by injection Hs as <-.
Qed.

Lemma accept_spec (cfg : config) (req : request) (w w0 : world) (k : nat)
    (toState : option loc) (toParams : loc) :
  accept cfg req w = Some ((k, toState, toParams), w0) →
  ∃ idx, closures w0 !! k = Some (new_invocation req idx toState).
Proof.
  unfold accept. intros H.
  mstep H as ips w1 Hi. mstep H as [] w2 Hl. mstep H as idx w3 Hx.
  mstep H as [] w4 Hp. mstep H as ts w5 Ht. mstep H as tp w6 Htp.
  mstep H as k' w7 Hk. unfold new_closure in Hk. injection Hk as <- <-.
  unfold ret in H. injection H as <- <- <- <-.
  exists idx. simpl. by rewrite lookup_insert_eq.
Qed.

Lemma only_pobjs_refl (w : world) : only_pobjs w w.
Proof. by unfold only_pobjs. Qed.

Lemma only_pobjs_trans (w1 w2 w3 : world) :
  only_pobjs w1 w2 → only_pobjs w2 w3 → only_pobjs w1 w3.
Proof.
  unfold only_pobjs.
  intros (? & ? & ? & ? & ? & ? & ? & ?) (? & ? & ? & ? & ? & ? & ? & ?).
  split_and!; congruence.
Qed.

Lemma clear_inactive_locals_only (cfg : config) (w w' : world) (u : unit) :
  clear_inactive_locals cfg w = Some (u, w') → only_pobjs w w'.
Proof.
  unfold clear_inactive_locals. intros H. destruct u.
  mstep H as io w1 Ho. unfold read_obj in Ho. apply deref_Some in Ho as [Ho ->].
  destruct (st_locals io).
  - mstep H as p w1 Hp. unfold read_pobj in Hp. apply deref_Some in Hp as [Hp ->].
    unfold write_pobj, modify in H. by injection H as <-.
  - unfold ret in H. injection H as <-. apply only_pobjs_refl.
Qed.

Lemma load_inactive_locals_only (cfg : config) (i : loc) (w w' : world) (u : unit) :
  load_inactive_locals cfg i w = Some (u, w') → only_pobjs w w'.
Proof.
  unfold load_inactive_locals. intros H. destruct u.
  mstep H as o w1 Ho. unfold read_obj in Ho. apply deref_Some in Ho as [Ho ->].
  destruct (st_locals o).
  - mstep H as ip w1 Hip. unfold read_pobj in Hip. apply deref_Some in Hip as [Hip ->].
    destruct (decide (size (view_entries (own ip)) = 0)).
    + unfold ret in H. injection H as <-. apply only_pobjs_refl.
    + mstep H as io w1 Hio. unfold read_obj in Hio. apply deref_Some in Hio as [Hio ->].
      mstep H as l w1 Hl. apply deref_Some in Hl as [Hl ->].
      mstep H as p w1 Hp. unfold read_pobj in Hp. apply deref_Some in Hp as [Hp ->].
      unfold write_pobj, modify in H. by injection H as <-.
  - unfold ret in H. injection H as <-. apply only_pobjs_refl.
Qed.

Lemma refresh_inactive_locals_only (cfg : config) (req : request) (w w' : world)
    (u : unit) :
  refresh_inactive_locals cfg req w = Some (u, w') → only_pobjs w w'.
Proof.
  unfold refresh_inactive_locals. intros H. destruct u.
  mstep H as [] w1 Hc. apply clear_inactive_locals_only in Hc.
  eapply only_pobjs_trans; [exact Hc|]. clear Hc.
  revert w1 H. induction (inactives (plan req)) as [|i l IH]; intros w1 H; simpl in H.
  - unfold ret in H. injection H as <-. apply only_pobjs_refl.
  - mstep H as [] w2 Hl. apply load_inactive_locals_only in Hl.
    eapply only_pobjs_trans; [exact Hl|]. by apply IH.
Qed.

(** A successful call that found its target went through the four stages. *)
Lemma transitionTo_substituted (cfg : config) (req : request) (w w' w0 : world)
    (k toState toParams : nat) :
  transitionTo cfg req w = Some (k, w') →
  accept cfg req w = Some ((k, Some toState, toParams), w0) →
  ∃ sTo sFrom toPath fromPath wl wb v be bx bo pto pfrom,
    substituted cfg req k toState toParams w0 w' sTo sFrom toPath fromPath
      wl wb v be bx bo pto pfrom.
Proof.
  intros H Ha.
  destruct (transitionTo_inv _ _ _ _ _ H) as (ts & tp & w0' & w1 & Ha' & Hs & ->).
  rewrite Ha in Ha'. injection Ha' as <- <- <-.
  destruct (substitute_inv _ _ _ _ _ _ _ _ Hs) as (v0 & wr & wl & v & wb & Hr & Hl & Hb & Hi).
  destruct (register_transition_spec _ _ _ _ _ _ _ _ Hr)
    as (sTo & sFrom & toPath & fromPath & Hreg & ->).
  pose proof (refresh_inactive_locals_only _ _ _ _ _ Hl)
    as (Ho & Hse & Har & _).
  pose proof Hreg as Hreg'.
  destruct Hreg as [(otr & Hot & Hpt) (ofr & Hof & Hpf) Hta Hfa Hro Hrs Hra Hrv Hsl Hpe Hcs Hc].
  assert (Hto : path_of wl toState = Some toPath).
  { unfold path_of. by rewrite Ho, Hro, Hot, Hpt, Har, Hra. }
  assert (Hfrom : path_of wl (current req) = Some fromPath).
  { unfold path_of. by rewrite Ho, Hro, Hof, Hpf, Har, Hra. }
  destruct (build_paths_spec _ _ _ _ _ _ _ _ _ _ Hb Hto Hfrom) as (be & bx & bo & Hpb).
  destruct (install_paths_spec _ _ _ _ _ _ Hi) as (pto & pfrom & Hin).
  exists sTo, sFrom, toPath, fromPath, wl, wb, v, be, bx, bo, pto, pfrom.
  split.
  - by eapply accept_spec.
  - by exists wr.
  - split_and!; congruence.
  - done.
  - by exists w1.
Qed.

(** * The rollback action *)

Lemma forEach_run_undo_closures (fns : list undo) (w w' : world) (u : unit) :
  forEach run_undo fns w = Some (u, w') →
  closures w' = closures w ∧ pendingRestore w' = pendingRestore w
  ∧ pendingTransitions w' = pendingTransitions w ∧ trace w' = trace w
  ∧ objs w' = objs w ∧ arrays w' = arrays w ∧ pobjs w' = pobjs w.
Proof.
  revert w u. induction fns as [|fn fns IH]; intros w u H; simpl in H.
  - by minv.
  - minv. apply IH in H as (-> & -> & -> & -> & -> & -> & ->).
    destruct fn; simpl in *; unfold assign_onEnter, assign_onExit in *; by minv.
Qed.

Lemma assign_path_closures (state p : loc) (w w' : world) (u : unit) :
  assign_path state p w = Some (u, w') →
  closures w' = closures w ∧ pendingRestore w' = pendingRestore w
  ∧ pendingTransitions w' = pendingTransitions w ∧ trace w' = trace w
  ∧ selfs w' = selfs w ∧ arrays w' = arrays w ∧ pobjs w' = pobjs w
  ∧ paramsH w' = paramsH w.
Proof. unfold assign_path. intros H. by minv. Qed.

(** Once its body has run, the variable [restore] of the invocation holds
    [noop], the slot [pendingRestore] is empty and both saved paths are
    dropped. *)
Lemma restore_body_latches (k : nat) (w w' : world) (u : unit) :
  restore_body k w = Some (u, w') →
  ∃ c, closures w !! k = Some c
       ∧ closures w' = <[k := closure_restored c]> (closures w)
       ∧ pendingRestore w' = None
       ∧ pendingTransitions w' = delete (c_idx c) (pendingTransitions w)
       ∧ trace w' = trace w.
Proof.
  unfold restore_body. intros H.
  apply bind_Some in H as (c & wa & Hc & H).
  unfold read_closure in Hc. apply deref_Some in Hc as [Hc ->].
  apply bind_Some in H as (? & wb & Hto & H).
  apply bind_Some in H as (? & wc & Hfrom & H).
  apply bind_Some in H as (? & wd & Hfns & H).
  minv. exists c. simpl.
  apply forEach_run_undo_closures in Hfns as (-> & _ & -> & -> & _).
  assert (closures wb = closures w ∧ pendingTransitions wb = pendingTransitions w
          ∧ trace wb = trace w) as (Hb1 & Hb2 & Hb3).
  { destruct (c_savedToStatePath c); minv; [|done].
    apply assign_path_closures in Hto as (? & ? & ? & ? & _). done. }
  assert (closures wc = closures wb ∧ pendingTransitions wc = pendingTransitions wb
          ∧ trace wc = trace wb) as (-> & -> & ->).
  { destruct (c_savedFromStatePath c); minv; [|done].
    apply assign_path_closures in Hfrom as (? & ? & ? & ? & _). done. }
  rewrite Hb1, Hb2, Hb3. done.
Qed.

(** C2. Calling a transition's [restore()] a second time changes nothing:
    whether the first call was made by a promise handler (through the
    variable [restore]) or by a later [transitionTo] (through the slot
    [pendingRestore]), every later call [restore()] returns at once and
    leaves the state tree, the hook slots, the pending-transition list and
    the pending-restore slot exactly as the first call left them. *)
Theorem restore_idempotent (k : nat) (w w1 : world) :
  call_restore k w = Some (tt, w1)
  ∨ (pendingRestore w = Some k ∧ call_pendingRestore false w = Some (tt, w1)) →
  call_restore k w1 = Some (tt, w1).
Proof.
  assert (Hlatched : ∀ c, closures w1 !! k = Some c → c_restoreIsNoop c = true →
                          call_restore k w1 = Some (tt, w1)).
  { intros c Hc Hn. unfold call_restore. apply bind_Some. exists c, w1.
    split; [unfold read_closure; by rewrite Hc | by rewrite Hn]. }
  intros [H | [Hp H]].
  - unfold call_restore in H.
    apply bind_Some in H as (c & wa & Hc & H).
    unfold read_closure in Hc. apply deref_Some in Hc as [Hc ->].
    destruct (c_restoreIsNoop c) eqn:Hn.
    + unfold ret in H. inversion H; subst. by apply (Hlatched c).
    + apply restore_body_latches in H as (c' & Hc1 & Hc' & _).
      apply (Hlatched (closure_restored c')); [|done].
      by rewrite Hc', lookup_insert_eq.
  - unfold call_pendingRestore in H.
    apply bind_Some in H as (pr & wa & Hpr & H).
    unfold gets in Hpr. inversion Hpr; subst. rewrite Hp in H.
    apply bind_Some in H as (? & wb & Hb & H).
    unfold ret in H. inversion H; subst.
    apply restore_body_latches in Hb as (c' & Hc1 & Hc' & _).
    apply (Hlatched (closure_restored c')); [|done].
    by rewrite Hc', lookup_insert_eq.
Qed.

Lemma restore_idempotent_witness :
  call_restore ex_k1 ex_w1 = Some (tt, ex_w1_restored)
  ∧ call_restore ex_k1 ex_w1_restored = Some (tt, ex_w1_restored).
Proof.
  assert (H : call_restore ex_k1 ex_w1 = Some (tt, ex_w1_restored))
    by (vm_compute; reflexivity).
  split; [exact H|].
  apply (restore_idempotent ex_k1 ex_w1). left. exact H.
Defined.

(** * The [exited] accumulator *)

Lemma wraps_closure (sl : slot) (k state : nat) (h : hook → hook) (w w' : world)
    (c : closure) :
  wraps sl k state h w w' → closures w !! k = Some c →
  ∃ fn, closures w' !! k = Some (push_fn fn c).
Proof.
  intros (_ & o & sf & c' & _ & _ & Hc & Hc' & _) Hk.
  assert (c' = c) as -> by congruence. eauto.
Qed.

Lemma does_exited (cfg : config) (k : nat) (b : bstep) (w w' : world) (c : closure) :
  does cfg k b w w' → closures w !! k = Some c →
  ∃ c', closures w' !! k = Some c' ∧ c_exited c' = c_exited c ++ exited_push b.
Proof.
  intros Hd Hc. destruct b; simpl in *.
  - destruct Hd as (wa & H1 & H2).
    destruct (stateReactivatedSurrogatePhase1_spec cfg k _ _ _ _ H1)
      as (_ & _ & Hcl & _).
    destruct (stateReactivatedSurrogatePhase2_spec cfg k _ _ _ _ H2)
      as (_ & _ & Hw & _).
    rewrite <- Hcl in Hc.
    destruct (wraps_closure _ _ _ _ _ _ _ Hw Hc) as (fn & ->).
    eexists. split; [done|]. simpl. by rewrite app_nil_r.
  - apply stateUpdateParamsSurrogate_spec in Hd as [_ Hw].
    destruct (wraps_closure _ _ _ _ _ _ _ Hw Hc) as (fn & ->).
    eexists. split; [done|]. simpl. by rewrite app_nil_r.
  - apply stateEnteredSurrogate_spec in Hd as [_ Hw].
    destruct (wraps_closure _ _ _ _ _ _ _ Hw Hc) as (fn & ->).
    eexists. split; [done|]. simpl. by rewrite app_nil_r.
  - destruct Hd as (wa & H1 & H2).
    destruct (stateInactivatedSurrogate_spec cfg k _ _ _ _ H1) as (_ & _ & Hw & _).
    destruct (wraps_closure _ _ _ _ _ _ _ Hw Hc) as (fn & Hc').
    apply push_exited_spec in H2 as (ca & Hca & ->).
    assert (ca = push_fn fn c) as -> by congruence.
    eexists. simpl. rewrite lookup_insert_eq. split; [done|]. done.
  - destruct Hd as (wa & H1 & H2).
    apply stateExitedSurrogate_spec in H1 as [_ Hw].
    destruct (wraps_closure _ _ _ _ _ _ _ Hw Hc) as (fn & Hc').
    apply push_exited_spec in H2 as (ca & Hca & ->).
    assert (ca = push_fn fn c) as -> by congruence.
    eexists. simpl. rewrite lookup_insert_eq. split; [done|]. done.
  - apply stateExitedSurrogate_spec in Hd as [_ Hw].
    destruct (wraps_closure _ _ _ _ _ _ _ Hw Hc) as (fn & ->).
    eexists. split; [done|]. simpl. by rewrite app_nil_r.
  - apply push_exited_spec in Hd as (ca & Hca & ->).
    assert (ca = c) as -> by congruence.
    eexists. simpl. rewrite lookup_insert_eq. split; [done|]. done.
Qed.

Lemma built_exited (cfg : config) (k : nat) (bs : list bstep) (w w' : world) :
  built cfg k bs w w' →
  ∀ c, closures w !! k = Some c →
    ∃ c', closures w' !! k = Some c'
          ∧ c_exited c' = c_exited c ++ concat (exited_push <$> bs).
Proof.
  induction 1 as [|b bs w w1 w2 Hd _ IH]; intros c Hc.
  - exists c. split; [done|]. simpl. by rewrite app_nil_r.
  - destruct (does_exited _ _ _ _ _ _ Hd Hc) as (c1 & Hc1 & He1).
    destruct (IH _ Hc1) as (c2 & Hc2 & He2).
    exists c2. split; [done|]. rewrite He2, He1. simpl. by rewrite app_assoc.
Qed.

Lemma enter_steps_exited (path : list loc) (idx : nat) (plan : list (option string))
    (bs : list bstep) :
  enter_steps path idx plan bs → concat (exited_push <$> bs) = [].
Proof. induction 1; simpl; done. Qed.

Lemma exit_steps_exited (path : list loc) (idx : nat) (plan : list (option string))
    (bs : list bstep) :
  exit_steps path idx plan bs →
  concat (exited_push <$> bs) = classified exit_kind path idx plan.
Proof.
  induction 1 as [idx|idx x rest bs Hx _ IH|idx rest bs state sur Hi _ IH
                 |idx rest bs state Hi _ IH].
  - done.
  - cbn [classified]. destruct x as [value|]; [rewrite (Hx value eq_refl)|]; exact IH.
  - rewrite fmap_cons. cbn [concat exited_push classified exit_kind].
    rewrite Hi. cbn. f_equal. exact IH.
  - rewrite fmap_cons. cbn [concat exited_push classified exit_kind].
    rewrite Hi. cbn. f_equal. exact IH.
Qed.

Lemma orphan_steps_exited (orphans : list loc) :
  concat (exited_push <$> ((BOrphan <$> orphans) ++ [BPushExited orphans])) = orphans.
Proof.
  rewrite fmap_app, concat_app. simpl. rewrite app_nil_r.
  assert (H : concat (exited_push <$> (BOrphan <$> orphans)) = []).
  { induction orphans; simpl; done. }
  by rewrite H.
Qed.

Lemma push_fns_fields (r : list undo) :
  ∀ c, let c' := foldl (λ c u, push_fn u c) c r in
       c_exited c' = c_exited c ∧ same_paths c c'
       ∧ c_restoreFunctions c' = c_restoreFunctions c ++ r.
Proof.
  induction r as [|u r IH]; intros c; simpl.
  - split; [done|]. split; [apply same_paths_refl|]. by rewrite app_nil_r.
  - destruct (IH (push_fn u c)) as (He & Hs & Hf). simpl in *.
    split; [done|]. split.
    + eapply same_paths_trans; [|exact Hs]. by unfold same_paths.
    + by rewrite Hf, <- app_assoc.
Qed.

Lemma registered_paths (req : request) (k toState toParams : nat) (w wr : world)
    (sTo sFrom : loc) (toPath fromPath : list loc) :
  registered req k toState toParams w wr sTo sFrom toPath fromPath →
  path_of w toState = Some toPath ∧ path_of w (current req) = Some fromPath.
Proof.
  intros [(o1 & Ho1 & Hp1) (o2 & Ho2 & Hp2) Ht Hf _ _ _ _ _ _ _ _].
  unfold path_of. by rewrite Ho1, Hp1, Ho2, Hp2.
Qed.

(** The closure of the invocation when the loops start. *)
Lemma substituted_closure_start (cfg : config) (req : request)
    (k toState toParams : nat) (w0 w' : world) (sTo sFrom : loc)
    (toPath fromPath : list loc) (wl wb : world) (v : pathVars)
    (be bx bo : list bstep) (pto pfrom : loc) :
  substituted cfg req k toState toParams w0 w' sTo sFrom toPath fromPath
    wl wb v be bx bo pto pfrom →
  ∃ c, closures wl !! k = Some c ∧ c_exited c = []
       ∧ c_savedToStatePath c = Some sTo ∧ c_savedFromStatePath c = Some sFrom
       ∧ c_toState c = Some toState ∧ c_fromState c = current req
       ∧ c_restoreIsNoop c = false
       ∧ Forall is_reload_undo (c_restoreFunctions c).
Proof.
  intros [(idx & Hc0) (wr & Hreg & Href) _ _ _].
  apply refresh_inactive_locals_only in Href as (_ & _ & _ & _ & Hcl & _).
  destruct Hreg as [_ _ _ _ _ _ _ _ _ _ _ (c & r & Hc & Hr & Hc')].
  assert (c = new_invocation req idx (Some toState)) as -> by congruence.
  eexists. split; [by rewrite Hcl|].
  destruct (push_fns_fields r (save_paths sTo sFrom (new_invocation req idx (Some toState))))
    as (He & (Hi & Ht & Hf & Hst & Hsf & Hn & Hd) & Hfn).
  simpl in *. rewrite He, Hst, Hsf, Ht, Hf, Hn, Hfn. by split_and!.
Qed.

Lemma push_steps_from (bs : list bstep) :
  ∀ v, surrogateFromPath (push_steps v bs)
       = surrogateFromPath v ++ concat (from_push <$> bs).
Proof.
  induction bs as [|b bs IH]; intros v.
  - simpl. by rewrite app_nil_r.
  - rewrite push_steps_cons, IH, fmap_cons. simpl. by rewrite app_assoc.
Qed.

Lemma push_steps_to (bs : list bstep) :
  ∀ v, surrogateToPath (push_steps v bs)
       = surrogateToPath v ++ concat (to_push <$> bs).
Proof.
  induction bs as [|b bs IH]; intros v.
  - simpl. by rewrite app_nil_r.
  - rewrite push_steps_cons, IH, fmap_cons. simpl. by rewrite app_assoc.
Qed.

Lemma push_steps_reactivated (bs : list bstep) :
  ∀ v, reactivated (push_steps v bs)
       = reactivated v ++ concat (react_push <$> bs).
Proof.
  induction bs as [|b bs IH]; intros v.
  - simpl. by rewrite app_nil_r.
  - rewrite push_steps_cons, IH, fmap_cons. simpl. by rewrite app_assoc.
Qed.

Lemma enter_steps_terminal (path : list loc) (idx : nat) (plan : list (option string))
    (be : list bstep) :
  enter_steps path idx plan be →
  ∀ v, terminalReactivatedState (push_steps v be)
       = last_terminal path idx plan (terminalReactivatedState v).
Proof.
  induction 1 as [idx|idx x rest bs Hx _ IH|idx rest bs state p1 p2 Hi _ IH
                 |idx rest bs state Hi _ IH|idx rest bs state Hi _ IH]; intros v.
  - done.
  - rewrite IH. cbn [last_terminal]. destruct x as [value|]; [|done].
    specialize (Hx value eq_refl). unfold enter_kind in Hx.
    destruct (String.eqb value "reactivate"), (String.eqb value "updateStateParams");
      simpl in *; done.
  - rewrite push_steps_cons, IH. cbn. by rewrite Hi.
  - rewrite push_steps_cons, IH. cbn. by rewrite Hi.
  - rewrite push_steps_cons, IH. done.
Qed.

Lemma exit_steps_terminal (path : list loc) (idx : nat) (plan : list (option string))
    (bx : list bstep) :
  exit_steps path idx plan bx →
  ∀ v, terminalReactivatedState (push_steps v bx) = terminalReactivatedState v.
Proof.
  induction 1 as [idx|idx x rest bs Hx _ IH|idx rest bs state sur Hi _ IH
                 |idx rest bs state Hi _ IH]; intros v.
  - done.
  - apply IH.
  - rewrite push_steps_cons, IH. done.
  - rewrite push_steps_cons, IH. done.
Qed.

(** The installed from-path and the final [exited], in terms of the
    trace. *)
Lemma substituted_exited (cfg : config) (req : request)
    (k toState toParams : nat) (w0 w' : world) (sTo sFrom : loc)
    (toPath fromPath : list loc) (wl wb : world) (v : pathVars)
    (be bx bo : list bstep) (pto pfrom : loc) :
  substituted cfg req k toState toParams w0 w' sTo sFrom toPath fromPath
    wl wb v be bx bo pto pfrom →
  ∃ c orphans,
    closures w' !! k = Some c
    ∧ c_exited c = classified exit_kind fromPath 0 (exit (plan req)) ++ orphans
    ∧ surrogateFromPath v
      = take (keep (plan req)) fromPath ++ concat (from_push <$> be)
        ++ concat (from_push <$> bx) ++ orphans
    ∧ ((last_terminal toPath 0 (enter (plan req)) None ≠ Some toState
        ∧ bo = [] ∧ orphans = [])
       ∨ (last_terminal toPath 0 (enter (plan req)) None = Some toState
          ∧ bo = (BOrphan <$> orphans) ++ [BPushExited orphans]
          ∧ is_orphan_list req toState w' orphans)).
Proof.
  intros Hs.
  edestruct substituted_closure_start as (c0 & Hc0 & He0 & _); [exact Hs|].
  destruct Hs as [_ _ _ [Hbe Hbx Hb Ho] (w1 & Hin & ->)].
  destruct (built_exited _ _ _ _ _ Hb _ Hc0) as (c & Hc & He).
  rewrite He0 in He. simpl in He.
  rewrite !fmap_app, !concat_app in He.
  rewrite (enter_steps_exited _ _ _ _ Hbe), (exit_steps_exited _ _ _ _ Hbx) in He.
  simpl in He, Ho.
  rewrite (exit_steps_terminal _ _ _ _ Hbx), (enter_steps_terminal _ _ _ _ Hbe) in Ho.
  simpl in Ho.
  assert (Hcl : closures (emit (EvDelegate k) w1) !! k = Some c).
  { simpl. destruct Hin. by rewrite in_closures0. }
  destruct Ho as [(Ht & o & sf & found & Hoo & Hsf & Hf & -> & ->)|(Ht & -> & ->)].
  - exists c, (sorted_orphans found). split; [done|].
    rewrite orphan_steps_exited in He. split; [done|]. split.
    + simpl. rewrite !push_steps_from. simpl. by rewrite <- !app_assoc.
    + right. split; [done|]. split; [done|].
      assert (Hk : names_kept wb (emit (EvDelegate k) w1)).
      { eapply names_kept_trans; [by eapply names_kept_installed|apply names_kept_emit]. }
      pose proof (orphans_of_names_kept _ _ _ _ Hk _ Hf) as Hf'.
      destruct (self_name sf) as [n|] eqn:En.
      * assert (Hn : state_name toState wb = Some (n, wb)).
        { apply state_name_inv. split; [done|]. by exists o, sf. }
        apply Hk in Hn. apply state_name_inv in Hn as (_ & o' & sf' & Ho' & Hsf' & Hn').
        exists o', sf', found. split; [done|]. split; [done|]. split; [|done].
        by rewrite Hn'.
      * (* a target without a name: the installation keeps its [self] *)
        destruct Hin as [_ _ _ _ (o1 & o2 & Ho1 & Ho2 & Hobjs) Hs' _ _ _ _].
        assert (o1 = o) as -> by congruence.
        assert (∃ o', objs w1 !! toState = Some o' ∧ st_self o' = st_self o) as (o' & Ho' & Hso').
        { rewrite Hobjs. destruct (decide (toState = current req)) as [Heq|Hne].
          - rewrite <- Heq. rewrite lookup_insert_eq.
            rewrite <- Heq, lookup_insert_eq in Ho2. injection Ho2 as <-. by eexists.
          - rewrite lookup_insert_ne by congruence. rewrite lookup_insert_eq. by eexists. }
        exists o', sf, found. simpl. split; [done|].
        split; [by rewrite Hso', Hs'|]. rewrite En. by split.
  - exists c, []. rewrite !app_nil_r in *. split; [done|]. split; [done|]. split.
    + simpl. rewrite !push_steps_from. simpl. by rewrite <- !app_assoc.
    + by left.
Qed.

(** * The default sort *)

Lemma units_leb_total (a : list N) :
  ∀ b, units_leb a b = true ∨ units_leb b a = true.
Proof.
  induction a as [|x a IH]; intros [|y b]; simpl; try (by left); try (by right).
  destruct (N.ltb_spec x y) as [L1|G1]; [by left|].
  destruct (N.ltb_spec y x) as [L2|G2]; [by right|].
  apply IH.
Qed.

Lemma units_leb_trans (a : list N) :
  ∀ b c, units_leb a b = true → units_leb b c = true → units_leb a c = true.
Proof.
  induction a as [|x a IH]; intros [|y b] [|z c]; simpl; try done.
  destruct (N.ltb_spec x y) as [L1|G1]; destruct (N.ltb_spec y x) as [L2|G2];
    destruct (N.ltb_spec y z) as [L3|G3]; destruct (N.ltb_spec z y) as [L4|G4];
    destruct (N.ltb_spec x z) as [L5|G5]; destruct (N.ltb_spec z x) as [L6|G6];
    try done; try lia.
  apply IH.
Qed.

Lemma js_leb_total (s1 s2 : string) : js_leb s1 s2 = true ∨ js_leb s2 s1 = true.
Proof. apply units_leb_total. Qed.

Lemma js_leb_trans (s1 s2 s3 : string) :
  js_leb s1 s2 = true → js_leb s2 s3 = true → js_leb s1 s3 = true.
Proof. apply units_leb_trans. Qed.

Lemma insert_sorted_perm (x : string * loc) (l : list (string * loc)) :
  insert_sorted x l ≡ₚ x :: l.
Proof.
  induction l as [|y l IH]; simpl; [done|].
  destruct (js_leb x.1 y.1); [done|].
  rewrite IH. apply Permutation_swap.
Qed.

Lemma js_sort_perm (l : list (string * loc)) : js_sort l ≡ₚ l.
Proof.
  induction l as [|x l IH]; simpl; [done|].
  unfold js_sort in *. simpl. rewrite insert_sorted_perm. by rewrite IH.
Qed.

Lemma insert_sorted_sorted (x : string * loc) (l : list (string * loc)) :
  StronglySorted key_le l → StronglySorted key_le (insert_sorted x l).
Proof.
  induction 1 as [|y l Hs IH Hy]; simpl.
  - repeat constructor.
  - destruct (js_leb x.1 y.1) eqn:E.
    + constructor; [by constructor|].
      constructor; [done|].
      eapply Forall_impl; [exact Hy|]. intros z Hz. unfold key_le in *.
      by eapply js_leb_trans.
    + constructor; [done|].
      rewrite insert_sorted_perm. constructor; [|done].
      unfold key_le. destruct (js_leb_total x.1 y.1); [congruence|done].
Qed.

Lemma js_sort_sorted (l : list (string * loc)) : StronglySorted key_le (js_sort l).
Proof.
  induction l as [|x l IH]; [constructor|].
  unfold js_sort in *. simpl. by apply insert_sorted_sorted.
Qed.

Lemma StronglySorted_lookup {A} (R : A → A → Prop) (l : list A) :
  StronglySorted R l →
  ∀ i j a b, l !! i = Some a → l !! j = Some b → i < j → R a b.
Proof.
  induction 1 as [|x l Hs IH Hx]; intros i j a b Hi Hj Hlt; [done|].
  destruct i as [|i], j as [|j]; simpl in *; try lia.
  - injection Hi as <-. rewrite Forall_forall in Hx. apply Hx.
    by eapply list_elem_of_lookup_2.
  - eapply IH; [done|done|lia].
Qed.

(** In the reversed sorted list, the element with the greater key comes
    first: [a] before [b] whenever [a <= b] fails. *)
Lemma sorted_descending (found : list (string * loc)) (i j : nat)
    (a b : string * loc) :
  reverse (js_sort found) !! i = Some a →
  reverse (js_sort found) !! j = Some b →
  js_leb a.1 b.1 = false →
  i < j.
Proof.
  intros Hi Hj Hlt.
  pose proof (lookup_lt_Some _ _ _ Hi) as Li.
  pose proof (lookup_lt_Some _ _ _ Hj) as Lj.
  rewrite length_reverse in Li, Lj.
  rewrite reverse_lookup in Hi by done.
  rewrite reverse_lookup in Hj by done.
  destruct (decide (i < j)) as [|Hge]; [done|]. exfalso.
  destruct (decide (i = j)) as [->|Hne].
  - assert (a = b) as -> by congruence.
    destruct (js_leb_total b.1 b.1); congruence.
  - assert (Hab : key_le a b).
    { eapply (StronglySorted_lookup _ _ (js_sort_sorted found)); [exact Hi|exact Hj|lia]. }
    unfold key_le in Hab. congruence.
Qed.

(** * The ledger accounts for the hooks *)

Lemma self_at_Some (w : world) (s : loc) (o : stateObj) :
  objs w !! s = Some o → self_at w s = st_self o.
Proof. intros H. unfold self_at, self_of. by rewrite H. Qed.

Lemma undo_target_of (w0 : world) (sl : slot) (state : loc) (old : hook) :
  undo_target w0 (undo_of sl state old) = Some (sl, self_at w0 state).
Proof. by destruct sl. Qed.

Lemma hooks_only_with_slot (sl : slot) (h : hook) (s : selfObj) :
  hooks_only s (with_slot sl h s).
Proof. by destruct sl. Qed.

(** A builder call on a slot that no undo action targets yet keeps the
    invariant. *)
Lemma hook_inv_wrap (w0 : world) (sl : slot) (k state : nat) (h : hook → hook)
    (w w' : world) (c : closure) :
  wraps sl k state h w w' →
  closures w !! k = Some c →
  hook_inv w0 (c_restoreFunctions c) w →
  valid_state w0 state →
  (sl, self_at w0 state) ∉ omap (undo_target w0) (c_restoreFunctions c) →
  ∃ c', closures w' !! k = Some c'
        ∧ omap (undo_target w0) (c_restoreFunctions c')
          = omap (undo_target w0) (c_restoreFunctions c) ++ [(sl, self_at w0 state)]
        ∧ hook_inv w0 (c_restoreFunctions c') w'.
Proof.
  intros (F & o & sf & c0 & Ho & Hsf & Hc0 & Hc' & Hsf' & Hother) Hc
         (Hobjs & Hselfs & Hok) (o0 & s0 & Ho0 & Hs0) Hfresh.
  assert (c0 = c) as -> by congruence.
  destruct (Hobjs _ _ Ho0) as (o' & Ho' & Hself).
  assert (o' = o) as -> by congruence.
  rewrite (self_at_Some _ _ _ Ho0) in *.
  set (l := st_self o0) in *. rewrite Hself in Hsf, Hsf', Hother.
  destruct (Hselfs _ _ Hs0) as (s & Hs & Hh & He & Hx).
  assert (s = sf) as -> by congruence.
  assert (Hold : slot_of sl sf = slot_of sl s0).
  { destruct sl; simpl.
    - destruct He as [He|He]; [done|]. by destruct Hfresh.
    - destruct Hx as [Hx|Hx]; [done|]. by destruct Hfresh. }
  eexists. split; [exact Hc'|].
  assert (Hfn : omap (undo_target w0)
                  (c_restoreFunctions (push_fn (undo_of sl state (slot_of sl sf)) c))
                = omap (undo_target w0) (c_restoreFunctions c) ++ [(sl, l)]).
  { simpl. rewrite omap_app. simpl. rewrite undo_target_of.
    by rewrite (self_at_Some _ _ _ Ho0). }
  split; [done|]. unfold hook_inv. rewrite Hfn.
  split; [|split].
  - intros s1 o1 Ho1. destruct (Hobjs _ _ Ho1) as (o1' & Ho1' & Hs1).
    exists o1'. split; [|done]. eapply lookup_weaken; [exact Ho1'|]. by destruct F.
  - intros l1 s1 Hl1. destruct (Hselfs _ _ Hl1) as (s1' & Hs1' & Hh1 & He1 & Hx1).
    destruct (decide (l1 = l)) as [->|Hne].
    + assert (s1 = s0) as -> by congruence.
      assert (s1' = sf) as -> by congruence.
      exists (with_slot sl (h (slot_of sl sf)) sf). split; [done|].
      split; [eapply hooks_only_trans; [exact Hh1|apply hooks_only_with_slot]|].
      destruct sl; simpl.
      * split; [right; apply elem_of_app; right; by left|].
        destruct Hx1 as [?|?]; [by left|right; apply elem_of_app; by left].
      * split; [|right; apply elem_of_app; right; by left].
        destruct He1 as [?|?]; [by left|right; apply elem_of_app; by left].
    + exists s1'. rewrite Hother; [|done|by eexists]. split; [done|]. split; [done|].
      split.
      * destruct He1 as [?|?]; [by left|right; apply elem_of_app; by left].
      * destruct Hx1 as [?|?]; [by left|right; apply elem_of_app; by left].
  - apply Forall_app. split; [done|]. constructor; [|constructor].
    destruct sl; simpl; exists o0, s0; split_and!; done.
Qed.

(** A step that writes no existing object and no existing [self] keeps the
    invariant. *)
Lemma hook_inv_keep (w0 : world) (fns : list undo) (w w' : world) :
  objs w ⊆ objs w' →
  (∀ l, is_Some (selfs w !! l) → selfs w' !! l = selfs w !! l) →
  hook_inv w0 fns w → hook_inv w0 fns w'.
Proof.
  intros Hsub Hsame (Hobjs & Hselfs & Hok). split; [|split]; [| |done].
  - intros s o Ho. destruct (Hobjs _ _ Ho) as (o' & Ho' & Hs).
    exists o'. split; [|done]. by eapply lookup_weaken.
  - intros l s0 Hl. destruct (Hselfs _ _ Hl) as (s & Hs & Hrest).
    exists s. split; [|done]. rewrite Hsame; [done|by eexists].
Qed.

Lemma hook_inv_push_exited (w0 : world) (k : nat) (l : list loc) (w w' : world)
    (c : closure) :
  push_exited k l w = Some (tt, w') →
  closures w !! k = Some c →
  hook_inv w0 (c_restoreFunctions c) w →
  ∃ c', closures w' !! k = Some c'
        ∧ c_restoreFunctions c' = c_restoreFunctions c
        ∧ hook_inv w0 (c_restoreFunctions c') w'.
Proof.
  intros H Hc Hinv. apply push_exited_spec in H as (c0 & Hc0 & ->).
  assert (c0 = c) as -> by congruence.
  exists (push_exits l c). split; [simpl; by rewrite lookup_insert_eq|].
  split; [done|]. simpl. by apply (hook_inv_keep w0 _ w).
Qed.

(** Each builder call keeps the invariant when the slot it replaces has no
    undo action yet. *)
Lemma hook_inv_does (w0 : world) (cfg : config) (k : nat) (b : bstep) (w w' : world)
    (c : closure) :
  does cfg k b w w' →
  closures w !! k = Some c →
  hook_inv w0 (c_restoreFunctions c) w →
  (∀ p, wrap_of b = Some p →
        valid_state w0 p.2
        ∧ wrap_target w0 p ∉ omap (undo_target w0) (c_restoreFunctions c)) →
  ∃ c', closures w' !! k = Some c'
        ∧ omap (undo_target w0) (c_restoreFunctions c')
          = omap (undo_target w0) (c_restoreFunctions c)
            ++ (wrap_target w0 <$> option_list (wrap_of b))
        ∧ hook_inv w0 (c_restoreFunctions c') w'.
Proof.
  intros Hd Hc Hinv Hp. destruct b; simpl in *.
  - destruct Hd as (wa & H1 & H2).
    destruct (stateReactivatedSurrogatePhase1_spec cfg k _ _ _ _ H1)
      as (F1 & _ & Hcl & Hs1 & _).
    destruct (stateReactivatedSurrogatePhase2_spec cfg k _ _ _ _ H2)
      as (_ & _ & Hw & _).
    destruct (Hp _ eq_refl) as [Hv Hf]. rewrite <- Hcl in Hc.
    eapply hook_inv_wrap; [exact Hw|exact Hc| |exact Hv|exact Hf].
    eapply hook_inv_keep; [|exact Hs1|exact Hinv]. by destruct F1.
  - apply stateUpdateParamsSurrogate_spec in Hd as [_ Hw].
    destruct (Hp _ eq_refl) as [Hv Hf]. by eapply hook_inv_wrap.
  - apply stateEnteredSurrogate_spec in Hd as [_ Hw].
    destruct (Hp _ eq_refl) as [Hv Hf]. by eapply hook_inv_wrap.
  - destruct Hd as (wa & H1 & H2).
    destruct (stateInactivatedSurrogate_spec cfg k _ _ _ _ H1) as (_ & _ & Hw & _).
    destruct (Hp _ eq_refl) as [Hv Hf].
    destruct (hook_inv_wrap _ _ _ _ _ _ _ _ Hw Hc Hinv Hv Hf) as (c1 & Hc1 & Ht & Hi).
    destruct (hook_inv_push_exited _ _ _ _ _ _ H2 Hc1 Hi) as (c2 & Hc2 & Hfn & Hi2).
    exists c2. rewrite Hfn in *. done.
  - destruct Hd as (wa & H1 & H2).
    apply stateExitedSurrogate_spec in H1 as [_ Hw].
    destruct (Hp _ eq_refl) as [Hv Hf].
    destruct (hook_inv_wrap _ _ _ _ _ _ _ _ Hw Hc Hinv Hv Hf) as (c1 & Hc1 & Ht & Hi).
    destruct (hook_inv_push_exited _ _ _ _ _ _ H2 Hc1 Hi) as (c2 & Hc2 & Hfn & Hi2).
    exists c2. rewrite Hfn in *. done.
  - apply stateExitedSurrogate_spec in Hd as [_ Hw].
    destruct (Hp _ eq_refl) as [Hv Hf]. by eapply hook_inv_wrap.
  - destruct (hook_inv_push_exited _ _ _ _ _ _ Hd Hc Hinv) as (c2 & Hc2 & Hfn & Hi2).
    exists c2. rewrite Hfn in *. by rewrite app_nil_r.
Qed.

Lemma hook_inv_built (w0 : world) (cfg : config) (k : nat) (bs : list bstep)
    (w w' : world) :
  built cfg k bs w w' →
  ∀ c, closures w !! k = Some c →
    hook_inv w0 (c_restoreFunctions c) w →
    Forall (λ p, valid_state w0 p.2) (omap wrap_of bs) →
    NoDup (omap (undo_target w0) (c_restoreFunctions c)
           ++ (wrap_target w0 <$> omap wrap_of bs)) →
    ∃ c', closures w' !! k = Some c'
          ∧ hook_inv w0 (c_restoreFunctions c') w'.
Proof.
  induction 1 as [w|b bs w w1 w2 Hd Hb IH]; intros c Hc Hinv Hv Hnd.
  - eauto.
  - destruct (hook_inv_does w0 _ _ _ _ _ _ Hd Hc Hinv) as (c1 & Hc1 & Ht & Hi).
    { intros p Hp. simpl in Hv, Hnd. rewrite Hp in Hv, Hnd.
      apply Forall_cons in Hv as [Hv _]. split; [done|].
      simpl in Hnd. apply NoDup_app in Hnd as (_ & Hdis & _).
      intros Hin. apply (Hdis _ Hin). by left. }
    apply (IH c1 Hc1 Hi).
    + simpl in Hv. destruct (wrap_of b); [by apply Forall_cons in Hv as [_ Hv]|done].
    + rewrite Ht. simpl in Hnd. destruct (wrap_of b); simpl in *.
      * by rewrite <- app_assoc.
      * by rewrite app_nil_r.
Qed.

Lemma assign_slot_inv (sl : slot) (state : loc) (old : hook) (w w1 : world) :
  run_undo (undo_of sl state old) w = Some (tt, w1) →
  ∃ o s, objs w !! state = Some o ∧ selfs w !! st_self o = Some s
         ∧ w1 = set_selfs <[st_self o := with_slot sl old s]> w.
Proof.
  intros H. destruct sl; simpl in H.
  - unfold assign_onEnter in H.
    mstep H as o wa Ho. unfold read_obj in Ho. apply deref_Some in Ho as [Ho ->].
    mstep H as s wa Hs. unfold read_self in Hs. apply deref_Some in Hs as [Hs ->].
    unfold write_self, modify in H. injection H as <-. eauto.
  - unfold assign_onExit in H.
    mstep H as o wa Ho. unfold read_obj in Ho. apply deref_Some in Ho as [Ho ->].
    mstep H as s wa Hs. unfold read_self in Hs. apply deref_Some in Hs as [Hs ->].
    unfold write_self, modify in H. injection H as <-. eauto.
Qed.

(** Running a hook undo action discharges it from the ledger. *)
Lemma hook_inv_undo_hook (w0 : world) (sl : slot) (state : loc) (old : hook)
    (fns : list undo) (w w1 : world) :
  run_undo (undo_of sl state old) w = Some (tt, w1) →
  hook_inv w0 (undo_of sl state old :: fns) w →
  objs w1 = objs w ∧ arrays w1 = arrays w ∧ hook_inv w0 fns w1.
Proof.
  intros H (Hobjs & Hselfs & Hok).
  apply assign_slot_inv in H as (o & s & Ho & Hs & ->).
  split; [done|]. split; [done|].
  apply Forall_cons in Hok as [Hu Hok].
  assert (Hu' : ∃ o0 s0, objs w0 !! state = Some o0 ∧ selfs w0 !! st_self o0 = Some s0
                         ∧ old = slot_of sl s0).
  { destruct sl; exact Hu. }
  destruct Hu' as (o0 & s0 & Ho0 & Hs0 & ->).
  destruct (Hobjs _ _ Ho0) as (o' & Ho' & Hself).
  assert (o' = o) as -> by congruence.
  assert (Ht : omap (undo_target w0) (undo_of sl state (slot_of sl s0) :: fns)
               = (sl, st_self o) :: omap (undo_target w0) fns).
  { simpl. rewrite undo_target_of. by rewrite (self_at_Some _ _ _ Ho0), Hself. }
  rewrite Ht in Hselfs. clear Ht.
  split; [done|]. split; [|done].
  intros l1 s1 Hl1. destruct (Hselfs _ _ Hl1) as (s1' & Hs1' & Hh1 & He1 & Hx1).
  simpl. destruct (decide (l1 = st_self o)) as [->|Hne].
  - rewrite lookup_insert_eq. rewrite Hself in Hl1.
    assert (s1 = s0) as -> by congruence.
    assert (s1' = s) as -> by congruence.
    eexists. split; [done|].
    split; [eapply hooks_only_trans; [exact Hh1|apply hooks_only_with_slot]|].
    destruct sl; simpl.
    + split; [by left|]. destruct Hx1 as [?|Hin]; [by left|right].
      apply elem_of_cons in Hin as [?|?]; [discriminate|done].
    + split; [|by left]. destruct He1 as [?|Hin]; [by left|right].
      apply elem_of_cons in Hin as [?|?]; [discriminate|done].
  - rewrite lookup_insert_ne by done. exists s1'. split; [done|]. split; [done|].
    split.
    + destruct He1 as [?|Hin]; [by left|right].
      apply elem_of_cons in Hin as [Heq|?]; [|done]. injection Heq as _ ?. done.
    + destruct Hx1 as [?|Hin]; [by left|right].
      apply elem_of_cons in Hin as [Heq|?]; [|done]. injection Heq as _ ?. done.
Qed.

Lemma hook_inv_undo (w0 : world) (u : undo) (fns : list undo) (w w1 : world) :
  run_undo u w = Some (tt, w1) →
  hook_inv w0 (u :: fns) w →
  objs w1 = objs w ∧ arrays w1 = arrays w ∧ hook_inv w0 fns w1.
Proof.
  intros H Hinv. destruct u as [state old|state old|p op|p op].
  - by apply (hook_inv_undo_hook w0 OnEnter state old).
  - by apply (hook_inv_undo_hook w0 OnExit state old).
  - destruct Hinv as (Hobjs & Hselfs & Hok). apply Forall_cons in Hok as [_ Hok].
    simpl in H. minv. simpl. done.
  - destruct Hinv as (Hobjs & Hselfs & Hok). apply Forall_cons in Hok as [_ Hok].
    simpl in H. minv. simpl. done.
Qed.

Lemma hook_inv_undos (w0 : world) (fns : list undo) :
  ∀ w w1, forEach run_undo fns w = Some (tt, w1) →
          hook_inv w0 fns w →
          objs w1 = objs w ∧ arrays w1 = arrays w ∧ hook_inv w0 [] w1.
Proof.
  induction fns as [|u fns IH]; intros w w1 H Hinv.
  - simpl in H. unfold ret in H. injection H as <-. done.
  - simpl in H. mstep H as [] wa Hu.
    destruct (hook_inv_undo _ _ _ _ _ Hu Hinv) as (Ho & Ha & Hi).
    destruct (IH _ _ H Hi) as (Ho' & Ha' & Hi'). split_and!; [congruence..|done].
Qed.

(** With an empty ledger the hooks are those of [w0]. *)
Lemma hook_inv_nil (w0 w : world) :
  hook_inv w0 [] w → selfs w0 ⊆ selfs w.
Proof.
  intros (_ & Hselfs & _). apply map_subseteq_spec. intros l s0 Hl.
  destruct (Hselfs _ _ Hl) as (s & Hs & (Hn & Hst & Hstate) & He & Hx).
  destruct He as [He|He]; [|by apply elem_of_nil in He].
  destruct Hx as [Hx|Hx]; [|by apply elem_of_nil in Hx].
  rewrite Hs. f_equal. destruct s, s0; simpl in *; congruence.
Qed.

(** * From the plan to the slots that are replaced *)

Lemma submseteq_NoDup_l {A} (l k : list A) : l ⊆+ k → NoDup k → NoDup l.
Proof.
  intros Hsub Hnd. apply submseteq_Permutation in Hsub as (k' & Hk).
  rewrite Hk in Hnd. by apply NoDup_app in Hnd as (? & _).
Qed.

Lemma enter_steps_wraps (path : list loc) (idx : nat) (pl : list (option string))
    (bs : list bstep) :
  enter_steps path idx pl bs →
  ∃ es, omap wrap_of bs = pair OnEnter <$> es ∧ es `sublist_of` drop idx path.
Proof.
  induction 1 as [idx|idx x rest bs Hx _ (es & He & Hs)
                 |idx rest bs state p1 p2 Hl _ (es & He & Hs)
                 |idx rest bs state Hl _ (es & He & Hs)
                 |idx rest bs state Hl _ (es & He & Hs)].
  - exists []. split; [done|]. apply sublist_nil_l.
  - exists es. split; [done|]. etrans; [exact Hs|].
    replace (drop (S idx) path) with (drop 1 (drop idx path))
      by (rewrite drop_drop; f_equal; lia).
    apply sublist_drop.
  - exists (state :: es). split; [simpl; f_equal; exact He|].
    rewrite (drop_S _ _ _ Hl). by apply sublist_skip.
  - exists (state :: es). split; [simpl; f_equal; exact He|].
    rewrite (drop_S _ _ _ Hl). by apply sublist_skip.
  - exists (state :: es). split; [simpl; f_equal; exact He|].
    rewrite (drop_S _ _ _ Hl). by apply sublist_skip.
Qed.

Lemma exit_steps_wraps (path : list loc) (idx : nat) (pl : list (option string))
    (bs : list bstep) :
  exit_steps path idx pl bs →
  ∃ xs, omap wrap_of bs = pair OnExit <$> xs ∧ xs `sublist_of` drop idx path.
Proof.
  induction 1 as [idx|idx x rest bs Hx _ (es & He & Hs)
                 |idx rest bs state sur Hl _ (es & He & Hs)
                 |idx rest bs state Hl _ (es & He & Hs)].
  - exists []. split; [done|]. apply sublist_nil_l.
  - exists es. split; [done|]. etrans; [exact Hs|].
    replace (drop (S idx) path) with (drop 1 (drop idx path))
      by (rewrite drop_drop; f_equal; lia).
    apply sublist_drop.
  - exists (state :: es). split; [simpl; f_equal; exact He|].
    rewrite (drop_S _ _ _ Hl). by apply sublist_skip.
  - exists (state :: es). split; [simpl; f_equal; exact He|].
    rewrite (drop_S _ _ _ Hl). by apply sublist_skip.
Qed.

Lemma orphans_of_sublist (prefix : string) (l : list loc) :
  ∀ w found w', orphans_of prefix l w = Some (found, w') →
                found.*2 `sublist_of` l.
Proof.
  induction l as [|s l IH]; intros w found w' H; simpl in H.
  - unfold ret in H. injection H as <- <-. done.
  - mstep H as n wa Hn. mstep H as more wb Hm.
    unfold ret in H. injection H as <- <-.
    specialize (IH _ _ _ Hm).
    destruct (starts_with prefix n); simpl.
    + by apply sublist_skip.
    + by apply sublist_cons.
Qed.

Lemma sorted_orphans_perm (found : list (string * loc)) :
  sorted_orphans found ≡ₚ found.*2.
Proof.
  unfold sorted_orphans. by rewrite reverse_Permutation, js_sort_perm.
Qed.

Lemma orphan_steps_wraps (so : list loc) :
  omap wrap_of ((BOrphan <$> so) ++ [BPushExited so]) = pair OnExit <$> so.
Proof.
  rewrite omap_app. simpl. rewrite app_nil_r.
  induction so as [|s so IH]; [done|]. simpl. f_equal. exact IH.
Qed.

Lemma reload_undos_no_target (w0 : world) (r : list undo) :
  Forall is_reload_undo r →
  omap (undo_target w0) r = [] ∧ Forall (undo_ok w0) r.
Proof.
  induction 1 as [|u r Hu _ [IH1 IH2]]; [done|].
  destruct u; simpl in *; try done; by split; [|constructor].
Qed.

(** * What [restore] writes *)

Lemma with_path_same (p q : option loc) (o : stateObj) :
  st_path o = p → with_path p (with_path q o) = o.
Proof. intros <-. by destruct o. Qed.

Lemma assign_path_inv (state p : loc) (w w1 : world) :
  assign_path state p w = Some (tt, w1) →
  ∃ o, objs w !! state = Some o
       ∧ w1 = set_objs <[state := with_path (Some p) o]> w.
Proof.
  unfold assign_path. intros H.
  mstep H as o wa Ho. unfold read_obj in Ho. apply deref_Some in Ho as [Ho ->].
  unfold write_obj, modify in H. injection H as <-. eauto.
Qed.

Lemma call_restore_inv (k : nat) (w w2 : world) (c : closure) (toState sTo sFrom : loc) :
  call_restore k w = Some (tt, w2) →
  closures w !! k = Some c →
  c_restoreIsNoop c = false →
  c_toState c = Some toState →
  c_savedToStatePath c = Some sTo →
  c_savedFromStatePath c = Some sFrom →
  ∃ oA oB wC,
    objs w !! toState = Some oA
    ∧ <[toState := with_path (Some sTo) oA]> (objs w) !! c_fromState c = Some oB
    ∧ forEach run_undo (c_restoreFunctions c)
        (set_objs <[c_fromState c := with_path (Some sFrom) oB]>
           (set_objs <[toState := with_path (Some sTo) oA]> w)) = Some (tt, wC)
    ∧ objs w2 = objs wC ∧ arrays w2 = arrays wC ∧ selfs w2 = selfs wC.
Proof.
  intros H Hc Hnoop Hto HsTo HsFrom. unfold call_restore in H.
  mstep H as c0 wa Hc0. unfold read_closure in Hc0.
  apply deref_Some in Hc0 as [Hc0 ->]. assert (c0 = c) as -> by congruence.
  rewrite Hnoop in H. unfold restore_body in H.
  mstep H as c1 wa Hc1. unfold read_closure in Hc1.
  apply deref_Some in Hc1 as [Hc1 ->]. assert (c1 = c) as -> by congruence.
  rewrite HsTo, HsFrom, Hnoop in H.
  mstep H as [] wA HA. mstep HA as ts wa Hts. apply deref_Some in Hts as [Hts ->].
  assert (ts = toState) as -> by congruence.
  apply assign_path_inv in HA as (oA & HoA & ->).
  mstep H as [] wB HB. apply assign_path_inv in HB as (oB & HoB & ->).
  mstep H as [] wC HC.
  mstep H as [] wD HD. unfold write_closure, modify in HD. injection HD as <-.
  mstep H as [] wE HE. unfold modify in HE. injection HE as <-.
  unfold modify in H. injection H as <-.
  exists oA, oB, wC. split_and!; done.
Qed.

Lemma hook_inv_objs (w0 : world) (fns : list undo) (w w' : world) :
  (∀ s o, objs w !! s = Some o →
          ∃ o', objs w' !! s = Some o' ∧ st_self o' = st_self o) →
  selfs w' = selfs w →
  hook_inv w0 fns w → hook_inv w0 fns w'.
Proof.
  intros Ho Hs (Hobjs & Hselfs & Hok). split; [|split]; [| |done].
  - intros s o H0. destruct (Hobjs _ _ H0) as (o1 & H1 & He1).
    destruct (Ho _ _ H1) as (o2 & H2 & He2). exists o2. split; [done|congruence].
  - by rewrite Hs.
Qed.

(** Assigning the saved arrays after the substitute arrays gives back the
    state objects as they were. *)
Lemma restore_objs (m : gmap loc stateObj) (t f : loc) (o1 oF o2 oA oB : stateObj)
    (sTo sFrom pto pfrom : loc) :
  m !! t = Some o1 → st_path o1 = Some sTo →
  m !! f = Some oF → st_path oF = Some sFrom →
  <[t := with_path (Some pto) o1]> m !! f = Some o2 →
  <[f := with_path (Some pfrom) o2]> (<[t := with_path (Some pto) o1]> m) !! t = Some oA →
  <[t := with_path (Some sTo) oA]>
    (<[f := with_path (Some pfrom) o2]> (<[t := with_path (Some pto) o1]> m)) !! f
    = Some oB →
  <[f := with_path (Some sFrom) oB]>
    (<[t := with_path (Some sTo) oA]>
       (<[f := with_path (Some pfrom) o2]> (<[t := with_path (Some pto) o1]> m))) = m.
Proof.
  intros Ht Hp1 Hf HpF H2 HA HB. apply map_eq. intros s.
  destruct (decide (f = t)) as [->|Hne].
  - assert (oF = o1) as -> by congruence.
    rewrite lookup_insert_eq in H2, HA, HB.
    injection H2 as <-. injection HA as <-. injection HB as <-.
    destruct (decide (s = t)) as [->|Hs].
    + rewrite lookup_insert_eq, Ht. f_equal.
      destruct o1; unfold with_path; simpl in *. by rewrite HpF.
    + by rewrite !lookup_insert_ne.
  - rewrite lookup_insert_ne in H2 by done.
    rewrite lookup_insert_ne, lookup_insert_eq in HA by done.
    rewrite lookup_insert_ne, lookup_insert_eq in HB by done.
    assert (o2 = oF) as -> by congruence.
    injection HA as <-. injection HB as <-.
    destruct (decide (s = f)) as [->|Hsf].
    + rewrite lookup_insert_eq, Hf. f_equal. by apply with_path_same.
    + rewrite lookup_insert_ne by done.
      destruct (decide (s = t)) as [->|Hst].
      * rewrite lookup_insert_eq, Ht. f_equal. by apply with_path_same.
      * by rewrite !lookup_insert_ne.
Qed.

Lemma wrap_targets_NoDup (w0 : world) (sl : slot) (l k : list loc) :
  l ⊆+ k → NoDup (self_at w0 <$> k) →
  NoDup (wrap_target w0 <$> (pair sl <$> l)).
Proof.
  intros Hsub Hnd. rewrite <- list_fmap_compose.
  replace (wrap_target w0 ∘ pair sl) with (pair sl ∘ self_at w0) by done.
  rewrite list_fmap_compose. apply NoDup_fmap_2; [by intros ?? [= ->]|].
  eapply submseteq_NoDup_l; [|exact Hnd]. by apply fmap_submseteq.
Qed.

Lemma wrap_targets_slot (w0 : world) (sl : slot) (l : list loc) (x : slot * loc) :
  x ∈ wrap_target w0 <$> (pair sl <$> l) → x.1 = sl.
Proof.
  intros H. apply list_elem_of_fmap in H as (y & -> & H).
  apply list_elem_of_fmap in H as (z & -> & _). done.
Qed.

(** * Settlement of the delegated call *)

Lemma call_restore_latched (k : nat) (w w1 : world) (u : unit) :
  call_restore k w = Some (u, w1) →
  ∃ c, closures w1 !! k = Some c ∧ c_restoreIsNoop c = true.
Proof.
  unfold call_restore. intros H.
  apply bind_Some in H as (c & wa & Hc & H).
  unfold read_closure in Hc. apply deref_Some in Hc as [Hc ->].
  destruct (c_restoreIsNoop c) eqn:Hn.
  - unfold ret in H. inversion H; subst. eauto.
  - apply restore_body_latches in H as (c' & _ & Hc' & _).
    exists (closure_restored c'). by rewrite Hc', lookup_insert_eq.
Qed.

(** Whenever a promise handler returns, it has first run [restore()],
    which leaves the invocation's [restore] the no-op, and it hands on what
    the engine settled with: the resolved state on success, the very
    rejection reason on failure.  The three sentinel messages only decide
    whether the failure is logged in debug mode. *)
Theorem settle_passes_outcome (k : nat) (s : settlement) (w w' : world) (o : outcome) :
  settle k s w = Some (o, w') →
  o = engine_outcome s
  ∧ ∃ w1 c, call_restore k w = Some (tt, w1)
            ∧ closures w1 !! k = Some c ∧ c_restoreIsNoop c = true
            ∧ after_restore s c w1 w'.
Proof.
  intros H. destruct s as [state | err]; simpl in H.
  - unfold transitionSuccess in H.
    apply bind_Some in H as ([] & w1 & Hr & H).
    apply bind_Some in H as (c & wa & Hc & H).
    unfold read_closure in Hc. apply deref_Some in Hc as [Hc ->].
    apply bind_Some in H as ([] & wb & Hdbg & H).
    apply bind_Some in H as (sf & wc & Hsf & H).
    unfold read_self in Hsf. apply deref_Some in Hsf as [Hsf ->].
    apply bind_Some in H as ([] & wd & Hw & H).
    unfold ret in H. inversion H; subst. split; [done|].
    destruct (call_restore_latched _ _ _ _ Hr) as (c' & Hc' & Hn).
    assert (c' = c) as -> by congruence.
    exists w1, c. split_and!; try done. simpl.
    unfold write_self, modify in Hw. inversion Hw; subst.
    destruct (c_DEBUG c); unfold modify, ret in Hdbg; inversion Hdbg; subst; eauto.
  - unfold transitionFailed in H.
    apply bind_Some in H as ([] & w1 & Hr & H).
    apply bind_Some in H as (c & wa & Hc & H).
    unfold read_closure in Hc. apply deref_Some in Hc as [Hc ->].
    apply bind_Some in H as ([] & wb & Hdbg & H).
    unfold ret in H. inversion H; subst. split; [done|].
    destruct (call_restore_latched _ _ _ _ Hr) as (c' & Hc' & Hn).
    assert (c' = c) as -> by congruence.
    exists w1, c. split_and!; try done. simpl.
    destruct err as [e|], (c_DEBUG c); simpl in *.
    + apply bind_Some in Hdbg as (e' & we & He & Hdbg).
      apply deref_Some in He as [[= <-] ->].
      destruct (negb (is_sentinel (message e))); unfold modify, ret in Hdbg;
        by inversion Hdbg.
    + unfold ret in Hdbg. by inversion Hdbg.
    + by apply bind_Some in Hdbg as (e' & we & He & _).
    + unfold ret in Hdbg. by inversion Hdbg.
Qed.

Lemma settle_passes_outcome_witness :
  settle ex_k1 (Failed (Some ex_superseded)) ex_w1
  = Some (Rejected (Some ex_superseded), ex_w1_restored)
  ∧ Rejected (Some ex_superseded) = engine_outcome (Failed (Some ex_superseded))
  ∧ ∃ w1 c, call_restore ex_k1 ex_w1 = Some (tt, w1)
            ∧ closures w1 !! ex_k1 = Some c ∧ c_restoreIsNoop c = true
            ∧ after_restore (Failed (Some ex_superseded)) c w1 ex_w1_restored.
Proof.
  assert (H : settle ex_k1 (Failed (Some ex_superseded)) ex_w1
              = Some (Rejected (Some ex_superseded), ex_w1_restored))
    by (vm_compute; reflexivity).
  split; [exact H|].
  exact (settle_passes_outcome _ _ _ _ _ H).
Defined.

(** When the failure handler returns and when it throws.  Once [restore()]
    has returned, the handler re-rejects with the reason it was given,
    having logged it exactly when debug mode is on and the message is none
    of the three sentinels; but in debug mode a reason that is [null] or
    [undefined] makes the read of [err.message] throw, and the handler
    returns nothing. *)
Theorem failure_handler_returns_or_throws (k : nat) (err : reason) (w w1 : world)
    (c : closure) :
  call_restore k w = Some (tt, w1) →
  closures w1 !! k = Some c →
  match err with
  | Some e =>
      settle k (Failed err) w
      = Some (Rejected err,
              if c_DEBUG c && negb (is_sentinel (message e))
              then emit (EvLogTransitionFailed (err_id e)) w1 else w1)
  | None =>
      settle k (Failed err) w
      = if c_DEBUG c then None else Some (Rejected err, w1)
  end.
Proof.
  intros Hr Hc. simpl. unfold transitionFailed, bind. rewrite Hr.
  unfold read_closure, deref. rewrite Hc.
  destruct err as [e|], (c_DEBUG c); simpl; try done.
  by destruct (negb (is_sentinel (message e))).
Qed.

Lemma failure_handler_returns_or_throws_witness :
  settle ex_dbg_k (Failed None) ex_dbg_w = None.
Proof.
  assert (H1 : call_restore ex_dbg_k ex_dbg_w = Some (tt, ex_dbg_restored))
    by (vm_compute; reflexivity).
  assert (H2 : closures ex_dbg_restored !! ex_dbg_k = Some ex_dbg_c)
    by (vm_compute; reflexivity).
  pose proof (failure_handler_returns_or_throws ex_dbg_k None _ _ _ H1 H2) as H.
  assert (E : c_DEBUG ex_dbg_c = true) by (vm_compute; reflexivity).
  rewrite E in H. exact H.
Defined.

(** C4. In debug mode the failure handler does not re-surface a rejection
    reason that is [null] or [undefined].  A request made in debug mode is
    in flight; its promise is rejected without a reason.  The handler runs
    [restore()], which returns, and then throws on [err.message]: the caller
    gets the [TypeError], not the engine's reason.  With a reason that has
    properties the same handler re-rejects with it unchanged, and so does
    the handler of a request made without debug mode for the missing
    reason. *)
Theorem failed_without_reason_throws_in_debug :
  ex_dbg = Some (ex_dbg_k, ex_dbg_w)
  ∧ (c_DEBUG <$> closures ex_dbg_w !! ex_dbg_k) = Some true
  ∧ call_restore ex_dbg_k ex_dbg_w = Some (tt, ex_dbg_restored)
  ∧ settle ex_dbg_k (Failed None) ex_dbg_w = None
  ∧ settle ex_dbg_k (Failed (Some ex_aborted)) ex_dbg_w
    = Some (Rejected (Some ex_aborted), ex_dbg_restored)
  ∧ (c_DEBUG <$> closures ex_ov_wa !! ex_ov_ka) = Some false
  ∧ (fst <$> settle ex_ov_ka (Failed None) ex_ov_wa) = Some (Rejected None).
Proof. vm_compute. split_and!; reflexivity. Qed.

(** * The surrogates of a reactivated state *)

Lemma is_reactivate_enter_kind (value : string) :
  enter_kind value = false → is_reactivate value = false.
Proof.
  unfold enter_kind, is_reactivate. intros H.
  apply orb_false_iff in H as [H _]. by apply orb_false_iff in H as [H _].
Qed.

(** The calls of the enter loop up to a [reactivate] entry, the call for
    that entry, and the calls after it. *)
Lemma enter_steps_at (path : list loc) (idx : nat) (pl : list (option string))
    (be : list bstep) :
  enter_steps path idx pl be →
  ∀ j, pl !! j = Some (Some "reactivate") →
    ∃ state phase1 phase2 pre post,
      path !! (idx + j) = Some state
      ∧ be = pre ++ BReactivate state phase1 phase2 :: post
      ∧ enter_steps path idx (take j pl) pre
      ∧ enter_steps path (idx + S j) (drop (S j) pl) post.
Proof.
  induction 1 as [idx|idx x rest bs Hx Hrest IH
                 |idx rest bs state p1 p2 Hl Hrest IH
                 |idx rest bs state Hl Hrest IH
                 |idx rest bs state Hl Hrest IH]; intros j Hj.
  - by rewrite lookup_nil in Hj.
  - destruct j as [|j]; simpl in Hj.
    + injection Hj as ->. by specialize (Hx _ eq_refl).
    + destruct (IH _ Hj) as (st & q1 & q2 & pre & post & Hp & -> & Hpre & Hpost).
      exists st, q1, q2, pre, post.
      replace (idx + S j) with (S idx + j) by lia.
      replace (idx + S (S j)) with (S idx + S j) by lia.
      split_and!; [done|done| |done]. simpl. by constructor.
  - destruct j as [|j]; simpl in Hj.
    + exists state, p1, p2, [], bs. rewrite Nat.add_0_r.
      replace (idx + 1) with (S idx) by lia.
      split_and!; [done|done|constructor|done].
    + destruct (IH _ Hj) as (st & q1 & q2 & pre & post & Hp & -> & Hpre & Hpost).
      exists st, q1, q2, (BReactivate state p1 p2 :: pre), post.
      replace (idx + S j) with (S idx + j) by lia.
      replace (idx + S (S j)) with (S idx + S j) by lia.
      split_and!; [done|done| |done]. simpl. by constructor.
  - destruct j as [|j]; simpl in Hj; [discriminate|].
    destruct (IH _ Hj) as (st & q1 & q2 & pre & post & Hp & -> & Hpre & Hpost).
    exists st, q1, q2, (BUpdateParams state :: pre), post.
    replace (idx + S j) with (S idx + j) by lia.
    replace (idx + S (S j)) with (S idx + S j) by lia.
    split_and!; [done|done| |done]. simpl. by constructor.
  - destruct j as [|j]; simpl in Hj; [discriminate|].
    destruct (IH _ Hj) as (st & q1 & q2 & pre & post & Hp & -> & Hpre & Hpost).
    exists st, q1, q2, (BEnter state :: pre), post.
    replace (idx + S j) with (S idx + j) by lia.
    replace (idx + S (S j)) with (S idx + S j) by lia.
    split_and!; [done|done| |done]. simpl. by constructor.
Qed.

(** Every classified entry pushes one element on the to-path; the
    [reactivate] entries, and only they, push one on the from-path and one
    on [reactivated]. *)
Lemma enter_steps_counts (path : list loc) (idx : nat) (pl : list (option string))
    (be : list bstep) :
  enter_steps path idx pl be →
  length (concat (to_push <$> be)) = count_kind enter_kind pl
  ∧ length (concat (from_push <$> be)) = count_kind is_reactivate pl
  ∧ length (concat (react_push <$> be)) = count_kind is_reactivate pl.
Proof.
  induction 1 as [idx|idx x rest bs Hx Hrest (IH1 & IH2 & IH3)
                 |idx rest bs state p1 p2 Hl Hrest (IH1 & IH2 & IH3)
                 |idx rest bs state Hl Hrest (IH1 & IH2 & IH3)
                 |idx rest bs state Hl Hrest (IH1 & IH2 & IH3)].
  - done.
  - destruct x as [value|]; cbn [count_kind]; [|done].
    rewrite (Hx _ eq_refl), (is_reactivate_enter_kind _ (Hx _ eq_refl)). done.
  - rewrite !fmap_cons.
    cbn [concat to_push from_push react_push app length count_kind].
    rewrite IH1, IH2, IH3. done.
  - rewrite !fmap_cons.
    cbn [concat to_push from_push react_push app length count_kind].
    rewrite IH1, IH2, IH3. done.
  - rewrite !fmap_cons.
    cbn [concat to_push from_push react_push app length count_kind].
    rewrite IH1, IH2, IH3. done.
Qed.

Lemma exit_steps_no_to (path : list loc) (idx : nat) (pl : list (option string))
    (bx : list bstep) :
  exit_steps path idx pl bx →
  concat (to_push <$> bx) = [] ∧ concat (react_push <$> bx) = [].
Proof. induction 1; simpl; done. Qed.

Lemma orphan_steps_from (so : list loc) :
  concat (from_push <$> ((BOrphan <$> so) ++ [BPushExited so])) = so.
Proof.
  rewrite fmap_app, concat_app. simpl. rewrite app_nil_r.
  induction so as [|s so IH]; [done|]. simpl. f_equal. exact IH.
Qed.

(** The substitute paths, by the calls that built them. *)
Lemma paths_built_paths (cfg : config) (req : request) (k toState : nat)
    (toPath fromPath : list loc) (v : pathVars) (w w' : world)
    (be bx bo : list bstep) :
  paths_built cfg req k toState toPath fromPath (sliced req toPath fromPath) v w w'
    be bx bo →
  surrogateToPath v
  = take (keep (plan req)) toPath ++ concat (to_push <$> be) ++ concat (react_push <$> be)
  ∧ surrogateFromPath v
    = take (keep (plan req)) fromPath ++ concat (from_push <$> (be ++ bx ++ bo)).
Proof.
  intros [Hen Hex _ Ho]. simpl in Ho.
  destruct (exit_steps_no_to _ _ _ _ Hex) as [Hx1 Hx2].
  assert (Hto : surrogateToPath
                  (append_reactivated
                     (push_steps (push_steps (sliced req toPath fromPath) be) bx))
                = take (keep (plan req)) toPath ++ concat (to_push <$> be)
                  ++ concat (react_push <$> be)).
  { simpl. rewrite !push_steps_to, !push_steps_reactivated, Hx1, Hx2. simpl.
    by rewrite !app_nil_r, <- app_assoc. }
  assert (Hfrom : surrogateFromPath
                    (append_reactivated
                       (push_steps (push_steps (sliced req toPath fromPath) be) bx))
                  = take (keep (plan req)) fromPath ++ concat (from_push <$> be)
                    ++ concat (from_push <$> bx)).
  { simpl. rewrite !push_steps_from. simpl. by rewrite <- app_assoc. }
  destruct Ho as [(_ & o & sf & found & _ & _ & _ & -> & ->)|(_ & -> & ->)].
  - split; [exact Hto|].
    rewrite (fmap_app _ be), concat_app, (fmap_app _ bx), concat_app, orphan_steps_from.
    unfold push_orphans. cbn [surrogateFromPath]. rewrite Hfrom.
    rewrite <- (assoc_L (++)). f_equal. by rewrite <- (assoc_L (++)).
  - split; [exact Hto|]. rewrite Hfrom. by rewrite app_nil_r, fmap_app, concat_app.
Qed.

(** The two surrogates that one [reactivate] entry creates. *)
Lemma does_reactivate_spec (cfg : config) (k : nat) (state phase1 phase2 : loc)
    (w w1 : world) :
  does cfg k (BReactivate state phase1 phase2) w w1 →
  ∃ o sf so1 so2 r vw,
    objs w !! state = Some o ∧ selfs w !! st_self o = Some sf
    ∧ objs w !! phase1 = None ∧ objs w !! phase2 = None ∧ phase1 ≠ phase2
    ∧ objs w1 !! phase1 = Some so1 ∧ st_locals so1 = st_locals o
    ∧ st_surrogateType so1 = Some "reactivate_phase1"
    ∧ objs w1 !! phase2 = Some so2 ∧ st_self so2 = st_self o
    ∧ st_locals so2 = st_locals o
    ∧ st_resolve so2 = Some r ∧ st_views so2 = Some vw
    ∧ pobjs w !! r = None ∧ pobjs w !! vw = None
    ∧ pobjs w1 !! r = Some empty_pobj ∧ pobjs w1 !! vw = Some empty_pobj
    ∧ selfs w1 !! st_self o = Some (with_onEnter (HReactivated phase2 state) sf).
Proof.
  intros (wa & H1 & H2).
  destruct (stateReactivatedSurrogatePhase1_spec cfg k _ _ _ _ H1)
    as (F1 & Hn1 & _ & Hs1 & o & sf & so1 & Ho & Hsf & Hso1 & Hl1 & Ht1 & _).
  destruct (stateReactivatedSurrogatePhase2_spec cfg k _ _ _ _ H2)
    as (F2 & Hn2 & (_ & o' & sf' & c & Ho' & Hsf' & _ & _ & Hw & _)
        & o2 & so2 & r & vw & Ho2 & Hso2 & Hself & Hl2 & _ & Hr & Hv & Hnr & Hnv
        & Hr1 & Hv1 & _).
  pose proof (lookup_weaken _ _ _ _ Ho (fr_objs _ _ _ _ F1)) as Hoa.
  assert (o' = o) as -> by congruence. assert (o2 = o) as -> by congruence.
  rewrite (Hs1 _ (mk_is_Some _ _ Hsf)) in Hsf'.
  assert (sf' = sf) as -> by congruence.
  exists o, sf, so1, so2, r, vw. split_and!; try done.
  - destruct (objs w !! phase2) as [x|] eqn:E; [|done].
    by rewrite (lookup_weaken _ _ _ _ E (fr_objs _ _ _ _ F1)) in Hn2.
  - intros ->. congruence.
  - exact (lookup_weaken _ _ _ _ Hso1 (fr_objs _ _ _ _ F2)).
  - destruct (pobjs w !! r) as [x|] eqn:E; [|done].
    by rewrite (lookup_weaken _ _ _ _ E (fr_pobjs _ _ _ _ F1)) in Hnr.
  - destruct (pobjs w !! vw) as [x|] eqn:E; [|done].
    by rewrite (lookup_weaken _ _ _ _ E (fr_pobjs _ _ _ _ F1)) in Hnv.
Qed.

Lemma objs_None_mono (w w' : world) (x : loc) :
  objs w ⊆ objs w' → objs w' !! x = None → objs w !! x = None.
Proof.
  intros Hsub Hn. destruct (objs w !! x) as [o|] eqn:E; [|done].
  by rewrite (lookup_weaken _ _ _ _ E Hsub) in Hn.
Qed.

Lemma objs_Some_mono (w w' : world) (x : loc) :
  objs w ⊆ objs w' → is_Some (objs w !! x) → is_Some (objs w' !! x).
Proof. intros Hsub [o Ho]. exists o. by eapply lookup_weaken. Qed.

Lemma push_exited_objs (k : nat) (l : list loc) (w w' : world) :
  push_exited k l w = Some (tt, w') → objs w' = objs w.
Proof. intros H. by apply push_exited_spec in H as (c & _ & ->). Qed.

(** What a call pushes on the from-path exists afterwards, and is either a
    state pushed as it is or an object that did not exist before. *)
Lemma does_from_push (cfg : config) (k : nat) (b : bstep) (w w1 : world) (y : loc) :
  does cfg k b w w1 → y ∈ from_push b →
  is_Some (objs w1 !! y) ∧ (objs w !! y = None ∨ y ∈ olds_from b).
Proof.
  intros Hd Hy. destruct b; simpl in Hy; try by apply elem_of_nil in Hy.
  - apply list_elem_of_singleton in Hy as ->.
    destruct (does_reactivate_spec _ _ _ _ _ _ _ Hd)
      as (o & sf & so1 & so2 & r & vw & _ & _ & Hn & _ & _ & Hs & _).
    split; [by eexists|by left].
  - apply list_elem_of_singleton in Hy as ->. destruct Hd as (wa & H1 & H2).
    destruct (stateInactivatedSurrogate_spec cfg k _ _ _ _ H1)
      as (_ & Hn & _ & o & so & _ & Hso & _).
    rewrite (push_exited_objs _ _ _ _ H2). split; [by eexists|by left].
  - apply list_elem_of_singleton in Hy as ->. destruct Hd as (wa & H1 & H2).
    apply stateExitedSurrogate_spec in H1 as [_ (F & o & sf & c & Ho & _)].
    rewrite (push_exited_objs _ _ _ _ H2). split; [|right; by left].
    eexists. exact (lookup_weaken _ _ _ _ Ho (fr_objs _ _ _ _ F)).
  - apply list_elem_of_singleton in Hy as ->.
    apply stateExitedSurrogate_spec in Hd as [_ (F & o & sf & c & Ho & _)].
    split; [|right; by left].
    eexists. exact (lookup_weaken _ _ _ _ Ho (fr_objs _ _ _ _ F)).
Qed.

Lemma built_from_push (cfg : config) (k : nat) (bs : list bstep) (w w' : world) :
  built cfg k bs w w' →
  ∀ y, y ∈ concat (from_push <$> bs) →
       objs w !! y = None ∨ y ∈ concat (olds_from <$> bs).
Proof.
  induction 1 as [w|b bs w w1 w2 Hd Hb IH]; intros y Hy.
  - by apply elem_of_nil in Hy.
  - rewrite fmap_cons in Hy. cbn [concat] in Hy.
    rewrite fmap_cons. cbn [concat].
    pose proof (fr_objs _ _ _ _ (does_wframe _ _ _ _ _ Hd)) as Hsub.
    apply elem_of_app in Hy as [Hy|Hy].
    + destruct (does_from_push _ _ _ _ _ _ Hd Hy) as [_ [?|?]]; [by left|].
      right. apply elem_of_app. by left.
    + destruct (IH _ Hy) as [Hn|Ho].
      * left. by eapply objs_None_mono.
      * right. apply elem_of_app. by right.
Qed.

(** A phase-2 surrogate is a new object, and it is not on the from-path. *)
Lemma built_react_not_from (cfg : config) (k : nat) (bs : list bstep) (w w' : world) :
  built cfg k bs w w' →
  (∀ y, y ∈ concat (olds_from <$> bs) → is_Some (objs w !! y)) →
  ∀ x, x ∈ concat (react_push <$> bs) →
       objs w !! x = None ∧ x ∉ concat (from_push <$> bs).
Proof.
  induction 1 as [w|b bs w w1 w2 Hd Hb IH]; intros Hold x Hx.
  - by apply elem_of_nil in Hx.
  - rewrite fmap_cons in Hx. cbn [concat] in Hx.
    rewrite fmap_cons. cbn [concat].
    pose proof (fr_objs _ _ _ _ (does_wframe _ _ _ _ _ Hd)) as Hsub.
    assert (Hold1 : ∀ y, y ∈ concat (olds_from <$> bs) → is_Some (objs w1 !! y)).
    { intros y Hy. eapply objs_Some_mono; [exact Hsub|]. apply Hold.
      rewrite fmap_cons. cbn [concat]. apply elem_of_app. by right. }
    apply elem_of_app in Hx as [Hx|Hx].
    + destruct b; simpl in Hx; try by apply elem_of_nil in Hx.
      apply list_elem_of_singleton in Hx as ->.
      destruct (does_reactivate_spec _ _ _ _ _ _ _ Hd)
        as (o & sf & so1 & so2 & r & vw & _ & _ & Hn1 & Hn2 & Hne & _ & _ & _ & Hs2 & _).
      split; [done|]. intros Hin. apply elem_of_app in Hin as [Hin|Hin].
      * simpl in Hin. apply list_elem_of_singleton in Hin. congruence.
      * destruct (built_from_push _ _ _ _ _ Hb _ Hin) as [Hn|Ho]; [congruence|].
        assert (Hsome : is_Some (objs w !! phase2)).
        { apply Hold. rewrite fmap_cons. cbn [concat]. apply elem_of_app. by right. }
        destruct Hsome as [? ?]. congruence.
    + destruct (IH Hold1 _ Hx) as [Hn Hnot].
      split; [by eapply objs_None_mono|].
      intros Hin. apply elem_of_app in Hin as [Hin|Hin]; [|done].
      destruct (does_from_push _ _ _ _ _ _ Hd Hin) as [[? ?] _]. congruence.
Qed.

(** The slots that the exit loop and the orphan branch replace. *)
Lemma exit_orphan_wraps (cfg : config) (req : request) (k toState : nat)
    (toPath fromPath : list loc) (v0 v : pathVars) (w w' : world)
    (be bx bo : list bstep) :
  paths_built cfg req k toState toPath fromPath v0 v w w' be bx bo →
  ∃ xos, omap wrap_of (bx ++ bo) = pair OnExit <$> xos
         ∧ xos ⊆+ fromPath ++ inactiveStates req.
Proof.
  intros [_ Hex _ Horph].
  destruct (exit_steps_wraps _ _ _ _ Hex) as (xs & Hxs & Hsubx).
  rewrite drop_0 in Hsubx. simpl in Horph.
  destruct Horph as [(_ & o & sf & found & _ & _ & Hfound & -> & _)|(_ & -> & _)].
  - exists (xs ++ sorted_orphans found).
    rewrite omap_app, Hxs, orphan_steps_wraps, fmap_app. split; [done|].
    apply submseteq_app; [by apply sublist_submseteq|].
    rewrite sorted_orphans_perm. apply sublist_submseteq.
    by eapply orphans_of_sublist.
  - exists xs. rewrite app_nil_r. split; [done|].
    etrans; [by apply sublist_submseteq|]. apply submseteq_inserts_r. done.
Qed.

Lemma olds_from_wrap (bs : list bstep) (y : loc) :
  y ∈ concat (olds_from <$> bs) → (OnExit, y) ∈ omap wrap_of bs.
Proof.
  induction bs as [|b bs IH]; intros Hy; [by apply elem_of_nil in Hy|].
  rewrite fmap_cons in Hy. cbn [concat] in Hy.
  apply elem_of_app in Hy as [Hy|Hy].
  - destruct b; simpl in Hy; try by apply elem_of_nil in Hy.
    + apply list_elem_of_singleton in Hy as ->. simpl. by left.
    + apply list_elem_of_singleton in Hy as ->. simpl. by left.
  - specialize (IH Hy). simpl. destruct (wrap_of b); [by right|done].
Qed.

(** * A slot that later calls leave alone *)

Lemma slot_with_other (sl sl' : slot) (h : hook) (s : selfObj) :
  sl' ≠ sl → slot_of sl' (with_slot sl h s) = slot_of sl' s.
Proof. by destruct sl, sl'. Qed.

Lemma wraps_slot_other (sl : slot) (k state : nat) (h : hook → hook) (w w' : world)
    (sl' : slot) (l : loc) (s : selfObj) :
  wraps sl k state h w w' →
  selfs w !! l = Some s →
  (sl', l) ≠ (sl, self_at w state) →
  ∃ s', selfs w' !! l = Some s' ∧ slot_of sl' s' = slot_of sl' s.
Proof.
  intros (_ & o & sf & c & Ho & Hsf & _ & _ & Hnew & Hother) Hs Hne.
  rewrite (self_at_Some _ _ _ Ho) in Hne.
  destruct (decide (l = st_self o)) as [->|Hl].
  - assert (s = sf) as -> by congruence. eexists. split; [exact Hnew|].
    apply slot_with_other. intros ->. done.
  - exists s. rewrite Hother; [done|done|by eexists].
Qed.

Lemma does_slot_other (cfg : config) (k : nat) (b : bstep) (w w' : world)
    (sl' : slot) (l : loc) (s : selfObj) :
  does cfg k b w w' →
  selfs w !! l = Some s →
  (∀ p, wrap_of b = Some p → (sl', l) ≠ wrap_target w p) →
  ∃ s', selfs w' !! l = Some s' ∧ slot_of sl' s' = slot_of sl' s.
Proof.
  intros Hd Hs Hp. destruct b; simpl in *.
  - destruct Hd as (wa & H1 & H2).
    destruct (stateReactivatedSurrogatePhase1_spec cfg k _ _ _ _ H1)
      as (F1 & _ & _ & Hs1 & o & _ & _ & Ho & _).
    destruct (stateReactivatedSurrogatePhase2_spec cfg k _ _ _ _ H2)
      as (_ & _ & Hw & _).
    eapply wraps_slot_other; [exact Hw| |].
    + rewrite Hs1; [done|by eexists].
    + pose proof (lookup_weaken _ _ _ _ Ho (fr_objs _ _ _ _ F1)) as Hoa.
      rewrite (self_at_Some _ _ _ Hoa), <- (self_at_Some _ _ _ Ho).
      exact (Hp _ eq_refl).
  - apply stateUpdateParamsSurrogate_spec in Hd as [_ Hw].
    eapply wraps_slot_other; [exact Hw|done|]. exact (Hp _ eq_refl).
  - apply stateEnteredSurrogate_spec in Hd as [_ Hw].
    eapply wraps_slot_other; [exact Hw|done|]. exact (Hp _ eq_refl).
  - destruct Hd as (wa & H1 & H2).
    destruct (stateInactivatedSurrogate_spec cfg k _ _ _ _ H1) as (_ & _ & Hw & _).
    apply push_exited_spec in H2 as (c & _ & ->). simpl.
    eapply wraps_slot_other; [exact Hw|done|]. exact (Hp _ eq_refl).
  - destruct Hd as (wa & H1 & H2).
    apply stateExitedSurrogate_spec in H1 as [_ Hw].
    apply push_exited_spec in H2 as (c & _ & ->). simpl.
    eapply wraps_slot_other; [exact Hw|done|]. exact (Hp _ eq_refl).
  - apply stateExitedSurrogate_spec in Hd as [_ Hw].
    eapply wraps_slot_other; [exact Hw|done|]. exact (Hp _ eq_refl).
  - apply push_exited_spec in Hd as (c & _ & ->). simpl. eauto.
Qed.

Lemma built_slot_other (w0 : world) (cfg : config) (k : nat) (bs : list bstep)
    (w w' : world) (sl' : slot) (l : loc) :
  built cfg k bs w w' →
  objs w0 ⊆ objs w →
  Forall (λ p, is_Some (objs w0 !! p.2) ∧ (sl', l) ≠ wrap_target w0 p)
         (omap wrap_of bs) →
  ∀ s, selfs w !! l = Some s →
       ∃ s', selfs w' !! l = Some s' ∧ slot_of sl' s' = slot_of sl' s.
Proof.
  induction 1 as [w|b bs w w1 w2 Hd Hb IH]; intros Hsub Hall s Hs.
  - eauto.
  - destruct (does_slot_other _ _ _ _ _ sl' l s Hd Hs) as (s1 & Hs1 & Hsl1).
    { intros p Hp. simpl in Hall. rewrite Hp in Hall.
      apply Forall_cons in Hall as [[[o Ho] Hne] _].
      unfold wrap_target in *.
      rewrite (self_at_Some _ _ _ (lookup_weaken _ _ _ _ Ho Hsub)).
      by rewrite (self_at_Some _ _ _ Ho) in Hne. }
    destruct (IH) with (s := s1) as (s2 & Hs2 & Hsl2); [| |done|].
    + etrans; [exact Hsub|]. exact (fr_objs _ _ _ _ (does_wframe _ _ _ _ _ Hd)).
    + simpl in Hall. destruct (wrap_of b); [by apply Forall_cons in Hall as [_ ?]|done].
    + exists s2. split; [done|congruence].
Qed.

(** What the hook of a phase-2 surrogate does when it is called. *)
Lemma run_reactivated_hook (phase2 state : loc) (w : world) (st so : stateObj) :
  objs w !! state = Some st → objs w !! phase2 = Some so →
  run_hook (HReactivated phase2 state) w
  = Some (tt, emit (EvStateReactivated state)
                (set_objs <[phase2 := with_locals (st_locals st) so]> w)).
Proof.
  intros Hst Hso. unfold run_hook, bind, read_obj, deref. by rewrite Hst, Hso.
Qed.

Lemma insert_with_path_locals (m : gmap loc stateObj) (state : loc) (o : stateObj)
    (p : option loc) :
  m !! state = Some o →
  ∀ s o1, m !! s = Some o1 →
          ∃ o', <[state := with_path p o]> m !! s = Some o'
                ∧ st_locals o' = st_locals o1.
Proof.
  intros Hm s o1 Hs. destruct (decide (s = state)) as [->|Hne].
  - rewrite lookup_insert_eq. assert (o1 = o) as -> by congruence.
    eexists. split; [done|]. done.
  - rewrite lookup_insert_ne by done. eauto.
Qed.

Lemma NoDup_fmap_lookup_after {A B} (f : A → B) (l : list A) (i : nat) (x y : A) :
  NoDup (f <$> l) → l !! i = Some x → y ∈ drop (S i) l → f y ≠ f x.
Proof.
  intros Hnd Hx Hy. rewrite <- (take_drop_middle _ _ _ Hx) in Hnd.
  rewrite fmap_app, fmap_cons in Hnd.
  apply NoDup_app in Hnd as (_ & _ & Hnd). apply NoDup_cons in Hnd as [Hnot _].
  intros Heq. apply Hnot. rewrite <- Heq. apply list_elem_of_fmap. eauto.
Qed.

(** * The pending list and the pending-restore slot *)

(** C9. Two overlapping requests: the second request is pushed on the
    pending list and its restore step runs when its promise is fulfilled,
    yet its record is still on the list afterwards.  The index [idx] was
    read before the pending restore of the first request shortened the
    list, so [splice(idx, 1)] misses the record. *)
Theorem overlapping_request_stays_listed :
  ex_ov_x = Some (ex_ov_kx, ex_ov_wx)
  ∧ tr_id <$> pendingTransitions ex_ov_wx = [ex_ov_kx]
  ∧ settle ex_ov_kx (Fulfilled 15) ex_ov_w3 = Some (Resolved 15, ex_ov_w4)
  ∧ (c_restoreIsNoop <$> closures ex_ov_w4 !! ex_ov_kx) = Some true
  ∧ tr_id <$> pendingTransitions ex_ov_w4 = [ex_ov_kx].
Proof. vm_compute. done. Qed.

(** C3. A request whose target does not resolve substitutes nothing, but
    its failure handler still runs [restore]: the slot [pendingRestore] of
    the transition to [A] that is then in flight is emptied.  The next
    request is therefore planned without rolling [A] back: the substitute
    path of [A] stays installed while [A.B] receives its own, and the
    from-path saved by the new request is the substitute of the old one. *)
Theorem unresolved_request_unpends_restore :
  pendingRestore ex_gh_wa = Some ex_gh_ka
  ∧ settle ex_gh_kg (Failed (Some ex_aborted)) ex_gh_wa
    = Some (Rejected (Some ex_aborted), ex_gh_w3)
  ∧ pendingRestore ex_gh_w3 = None
  ∧ ex_gh_x = Some (ex_gh_kx, ex_gh_wx)
  ∧ (c_savedToStatePath <$> closures ex_gh_wx !! ex_gh_ka) = Some (Some 31)
  ∧ (c_savedToStatePath <$> closures ex_gh_wx !! ex_gh_kx) = Some (Some 32)
  ∧ (st_path <$> objs ex_gh_wx !! 2) = (st_path <$> objs ex_gh_wa !! 2)
  ∧ (st_path <$> objs ex_gh_wx !! 2) ≠ Some (Some 31)
  ∧ (st_path <$> objs ex_gh_wx !! 3) ≠ Some (Some 32)
  ∧ (c_savedFromStatePath <$> closures ex_gh_wx !! ex_gh_kx)
    = (st_path <$> objs ex_gh_wa !! 5).
Proof. vm_compute. split_and!; by try discriminate. Qed.

(** * Inactivated states *)

(** C7 (as the code has it). For a state classified [inactivate], the
    surrogate pushed on the substitute from-path shares the node's [self];
    the [onExit] slot of that [self] is replaced by a hook that only tells
    the registry that the state was inactivated (the node's own [onExit] is
    not called); exactly one undo action is registered for it, and running
    that action puts the original [onExit] reference back. *)
Theorem inactivate_replaces_onExit (cfg : config) (k fromState idx : nat)
    (v v' : pathVars) (w w' : world) (path : list loc) (state : loc) :
  exit_step cfg k fromState idx "inactivate" v w = Some (v', w') →
  path_of w fromState = Some path →
  path !! idx = Some state →
  ∃ sur o sf c so,
    objs w !! state = Some o ∧ selfs w !! st_self o = Some sf
    ∧ closures w !! k = Some c
    ∧ v' = push_from sur v
    ∧ objs w !! sur = None ∧ objs w' !! sur = Some so
    ∧ st_self so = st_self o ∧ st_surrogateType so = Some "inactivate"
    ∧ selfs w' !! st_self o = Some (with_onExit (HInactivated state) sf)
    ∧ (∀ w1, run_hook (HInactivated state) w1
             = Some (tt, emit (EvStateInactivated state) w1))
    ∧ closures w' !! k
      = Some (push_exits [state] (push_fn (URestoreOnExit state (self_onExit sf)) c))
    ∧ ∃ w2, run_undo (URestoreOnExit state (self_onExit sf)) w' = Some (tt, w2)
            ∧ selfs w2 !! st_self o = Some sf.
Proof.
  intros H Hpath Hidx.
  apply exit_step_inv in H as (path' & Hpath' & [H | [H | H]]).
  2: { destruct H as [H _]. discriminate. }
  2: { destruct H as [H _]. discriminate. }
  destruct H as (_ & state' & sur & wa & Hidx' & Hb & Hp & ->).
  assert (path' = path) as -> by congruence.
  assert (state' = state) as -> by congruence.
  destruct (stateInactivatedSurrogate_spec _ _ _ _ _ _ Hb) as (F & Hfresh & Hspec).
  destruct Hspec as ((_ & o & sf & c & Ho & Hsf & Hc & Hc' & Hsf' & _)
                              & o' & so & Ho' & Hso & Hself & Htype).
  assert (o' = o) as -> by congruence.
  cbn [undo_of slot_of with_slot] in Hc', Hsf'.
  apply push_exited_spec in Hp as (ca & Hca & ->).
  assert (ca = push_fn (URestoreOnExit state (self_onExit sf)) c) as -> by congruence.
  exists sur, o, sf, c, so. simpl. rewrite lookup_insert_eq.
  split_and!; try done.
  assert (Ho2 : objs wa !! state = Some o).
  { eapply lookup_weaken; [exact Ho|]. by destruct F. }
  eexists. split.
  - unfold assign_onExit. apply bind_Some. eexists _, _.
    split; [unfold read_obj; simpl; by rewrite Ho2|].
    apply bind_Some. eexists _, _.
    split; [unfold read_self; simpl; by rewrite Hsf'|]. done.
  - simpl. rewrite lookup_insert_eq. f_equal. apply with_onExit_undo.
Qed.

Lemma inactivate_replaces_onExit_witness :
  ∃ sur,
    result_of ex_v0 ex_exit_X = push_from sur ex_v0
    ∧ selfs (world_of ex_wc ex_exit_X) !! 15
      = Some (with_onExit (HInactivated 5) (ex_self "X" 5 110))
    ∧ (c_restoreFunctions <$> closures (world_of ex_wc ex_exit_X) !! 0)
      = Some [URestoreOnExit 5 (HUser 111)].
Proof.
  destruct (inactivate_replaces_onExit ex_cfg 0 5 1 ex_v0 (result_of ex_v0 ex_exit_X)
              ex_wc (world_of ex_wc ex_exit_X) [1; 5] 5)
    as (sur & o & sf & c & so & Ho & Hsf & Hc & Hv & _ & _ & _ & _ & Hsf' & _ & Hc' & _).
  - vm_compute. reflexivity.
  - vm_compute. reflexivity.
  - reflexivity.
  - exists sur.
    assert (o = ex_state 15 34 25) as ->.
    { assert (E : objs ex_wc !! 5 = Some (ex_state 15 34 25)) by (vm_compute; reflexivity).
      congruence. }
    assert (sf = ex_self "X" 5 110) as ->.
    { assert (E : selfs ex_wc !! 15 = Some (ex_self "X" 5 110)) by (vm_compute; reflexivity).
      simpl in Hsf. congruence. }
    assert (c_restoreFunctions c = []).
    { assert (E : c_restoreFunctions <$> closures ex_wc !! 0 = Some [])
        by (vm_compute; reflexivity).
      rewrite Hc in E. simpl in E. congruence. }
    split; [exact Hv|]. split; [exact Hsf'|].
    rewrite Hc'. simpl. by rewrite H.
Defined.

(** C7, as stated, fails: the hook installed for an inactivated state does
    not fire the node's own [onExit] before it notifies the registry.  In the
    first example request [X] is inactivated; its [onExit] was the
    application's function 111, and the hook that replaces it only makes the
    registry call. *)
Lemma inactivate_hook_skips_onExit :
  (self_onExit <$> selfs ex_world !! 15) = Some (HUser 111)
  ∧ (self_onExit <$> selfs ex_w1 !! 15) = Some (HInactivated 5)
  ∧ ¬ fires_then (HUser 111) (EvStateInactivated 5) (HInactivated 5).
Proof.
  split; [vm_compute; reflexivity|]. split; [vm_compute; reflexivity|].
  intros H.
  destruct (H ex_world (emit (EvStateInactivated 5) ex_world) eq_refl) as (w1 & Hr & He).
  simpl in Hr. unfold modify in Hr. injection Hr as <-.
  apply (f_equal trace) in He. simpl in He. discriminate.
Qed.
(** C10. The [exited] array of a transition receives, in path order, every
    state of the from-path that the plan classifies [inactivate] as well as
    every state it classifies [exit]: it holds inactivated nodes too, not
    only those that are exited for good.  The same array then receives the
    orphaned inactive descendants of the target: exactly when the target is
    the last state that the plan reactivates or updates, the inactive states
    whose name starts with the target's name and a dot follow, sorted by
    name descending; otherwise nothing follows. *)
Theorem exited_holds_inactivated_too (cfg : config) (req : request)
    (w w' w0 : world) (k toState toParams : nat) (toPath fromPath : list loc) :
  transitionTo cfg req w = Some (k, w') →
  accept cfg req w = Some ((k, Some toState, toParams), w0) →
  path_of w0 toState = Some toPath →
  path_of w0 (current req) = Some fromPath →
  ∃ c orphans,
    closures w' !! k = Some c
    ∧ c_exited c = classified exit_kind fromPath 0 (exit (plan req)) ++ orphans
    ∧ ((last_terminal toPath 0 (enter (plan req)) None ≠ Some toState
        ∧ orphans = [])
       ∨ (last_terminal toPath 0 (enter (plan req)) None = Some toState
          ∧ is_orphan_list req toState w' orphans)).
Proof.
  intros H Ha Hto Hfrom.
  destruct (transitionTo_substituted _ _ _ _ _ _ _ _ H Ha)
    as (sTo & sFrom & toPath' & fromPath' & wl & wb & v & be & bx & bo & pto & pfrom & Hs).
  assert (toPath' = toPath ∧ fromPath' = fromPath) as [-> ->].
  { destruct Hs as [_ (wr & Hreg & _) _ _ _].
    apply registered_paths in Hreg as [Ht Hf]. split; congruence. }
  edestruct substituted_exited as (c & orphans & Hc & He & _ & Ho); [exact Hs|].
  exists c, orphans. split; [done|]. split; [done|].
  destruct Ho as [(? & _ & ->)|(? & _ & Ho)]; [by left|by right].
Qed.

Lemma exited_holds_inactivated_too_witness :
  (∃ c orphans,
      closures ex_w1 !! ex_k1 = Some c
      ∧ c_exited c = classified exit_kind [1; 5] 0 [None; Some "inactivate"] ++ orphans
      ∧ ((last_terminal [1; 2] 0 (enter (plan ex_reactivate_A)) None ≠ Some 2
          ∧ orphans = [])
         ∨ (last_terminal [1; 2] 0 (enter (plan ex_reactivate_A)) None = Some 2
            ∧ is_orphan_list ex_reactivate_A 2 ex_w1 orphans)))
  ∧ (c_exited <$> closures ex_w1 !! ex_k1) = Some [5; 4; 3]
  ∧ classified exit_kind [1; 5] 0 [None; Some "inactivate"] = [5].
Proof.
  assert (H1 : transitionTo ex_cfg ex_reactivate_A ex_world = Some (ex_k1, ex_w1))
    by (vm_compute; reflexivity).
  assert (H2 : accept ex_cfg ex_reactivate_A ex_world = Some ((ex_k1, Some 2, 26), ex_wc))
    by (vm_compute; reflexivity).
  assert (H3 : path_of ex_wc 2 = Some [1; 2]) by (vm_compute; reflexivity).
  assert (H4 : path_of ex_wc 5 = Some [1; 5]) by (vm_compute; reflexivity).
  split.
  - exact (exited_holds_inactivated_too ex_cfg ex_reactivate_A ex_world ex_w1 ex_wc
             ex_k1 2 26 [1; 2] [1; 5] H1 H2 H3 H4).
  - vm_compute. split; reflexivity.
Defined.

(** * Orphaned inactive descendants *)

Lemma orphans_of_spec (prefix : string) (l : list loc) (w : world) :
  ∀ found, orphans_of prefix l w = Some (found, w) →
    ∀ n s, (n, s) ∈ found ↔
           s ∈ l ∧ state_name s w = Some (n, w) ∧ starts_with prefix n = true.
Proof.
  induction l as [|x l IH]; intros found H n s; simpl in H.
  - unfold ret in H. injection H as <-. split.
    + intros Hin. by apply elem_of_nil in Hin.
    + intros (Hin & _). by apply elem_of_nil in Hin.
  - mstep H as nx w1 Hn. pose proof (state_name_pure _ _ _ _ Hn) as ->.
    mstep H as more w1 Hm. pose proof (orphans_of_pure _ _ _ _ _ Hm) as ->.
    unfold ret in H. injection H as <-.
    specialize (IH more Hm n s).
    destruct (starts_with prefix nx) eqn:E.
    + rewrite elem_of_cons, IH, elem_of_cons. split.
      * intros [[= -> ->]|(? & ? & ?)]; [by split_and!; [left| |]|by split_and!; [right| |]].
      * intros ([->|Hin] & Hs & Hp).
        -- left. congruence.
        -- right. done.
    + rewrite IH, elem_of_cons. split.
      * intros (? & ? & ?). by split_and!; [right| |].
      * intros ([->|Hin] & Hs & Hp); [|done].
        assert (n = nx) as -> by congruence. congruence.
Qed.

Lemma exit_wrapped_orphan_step (k t : nat) (w w' : world) (r : loc) :
  stateExitedSurrogate k t w = Some (r, w') →
  exit_wrapped k w' t ∧ ∀ s, exit_wrapped k w s → exit_wrapped k w' s.
Proof.
  intros H. apply stateExitedSurrogate_spec in H as [_ (F & o & sf & c & Ho & Hsf & _ & _ & Hsf' & Hother)].
  assert (Hobjs : objs w ⊆ objs w') by (by destruct F).
  split.
  - exists o, (with_onExit (HExiting t k (self_onExit sf)) sf), t, (self_onExit sf).
    split; [by eapply lookup_weaken|]. split; [exact Hsf'|done].
  - intros s (os & sfs & s' & old & Hos & Hsfs & Hh).
    destruct (decide (st_self os = st_self o)) as [Heq|Hne].
    + exists os, (with_onExit (HExiting t k (self_onExit sf)) sf), t, (self_onExit sf).
      split; [by eapply lookup_weaken|]. split; [by rewrite Heq|done].
    + exists os, sfs, s', old. split; [by eapply lookup_weaken|].
      split; [|done]. rewrite Hother; [done|done|by eexists].
Qed.

Lemma exit_wrapped_orphans (cfg : config) (k : nat) (orphans : list loc) :
  ∀ w w', built cfg k (BOrphan <$> orphans) w w' →
    (∀ s, s ∈ orphans → exit_wrapped k w' s)
    ∧ ∀ s, exit_wrapped k w s → exit_wrapped k w' s.
Proof.
  induction orphans as [|t rest IH]; intros w w' H; simpl in H.
  - inversion H; subst. split; [|done]. intros s Hs. by apply elem_of_nil in Hs.
  - inversion H as [|b bs wa w1 wb Hd Hb]; subst. simpl in Hd.
    destruct (exit_wrapped_orphan_step _ _ _ _ _ Hd) as [Ht Hk].
    destruct (IH _ _ Hb) as [Hrest Hkeep].
    split.
    + intros s Hs. apply elem_of_cons in Hs as [->|Hs]; [by apply Hkeep|by apply Hrest].
    + intros s Hs. by apply Hkeep, Hk.
Qed.

Lemma exit_wrapped_same_selfs (k : nat) (w w' : world) (s : loc) :
  selfs w' = selfs w →
  (∀ o, objs w !! s = Some o → ∃ o', objs w' !! s = Some o' ∧ st_self o' = st_self o) →
  exit_wrapped k w s → exit_wrapped k w' s.
Proof.
  intros Hs Ho (o & sf & s' & old & Hos & Hsf & Hh).
  destruct (Ho _ Hos) as (o' & Ho' & Heq).
  exists o', sf, s', old. split; [done|]. split; [by rewrite Hs, Heq|done].
Qed.

Lemma installed_self_kept (req : request) (toState : nat) (v : pathVars)
    (w w' : world) (pto pfrom : loc) (s : loc) (o : stateObj) :
  installed req toState v w w' pto pfrom →
  objs w !! s = Some o →
  ∃ o', objs w' !! s = Some o' ∧ st_self o' = st_self o
        ∧ st_locals o' = st_locals o.
Proof.
  intros [_ _ _ _ (o1 & o2 & Ho1 & Ho2 & Hobjs) _ _ _ _ _] Ho. rewrite Hobjs.
  destruct (decide (s = current req)) as [->|Hne1].
  - rewrite lookup_insert_eq. eexists. split; [done|]. simpl.
    destruct (decide (current req = toState)) as [Heq|Hne2].
    + rewrite <- Heq, lookup_insert_eq in Ho2. injection Ho2 as <-. simpl.
      rewrite Heq in Ho. assert (o1 = o) as -> by congruence. done.
    + rewrite lookup_insert_ne in Ho2 by congruence.
      assert (o2 = o) as -> by congruence. done.
  - rewrite lookup_insert_ne by congruence.
    destruct (decide (s = toState)) as [->|Hne2].
    + rewrite lookup_insert_eq. eexists. split; [done|]. simpl.
      assert (o1 = o) as -> by congruence. done.
    + rewrite lookup_insert_ne by congruence. by exists o.
Qed.

Lemma built_split (cfg : config) (k : nat) (bs1 bs2 : list bstep) :
  ∀ w w', built cfg k (bs1 ++ bs2) w w' →
          ∃ w1, built cfg k bs1 w w1 ∧ built cfg k bs2 w1 w'.
Proof.
  induction bs1 as [|b bs1 IH]; intros w w' H; simpl in H.
  - exists w. split; [constructor|done].
  - inversion H as [|b' bs wa w1 wb Hd Hb]; subst.
    destruct (IH _ _ Hb) as (w2 & H1 & H2).
    exists w2. split; [by econstructor|done].
Qed.

(** The orphans and their order in the from-path (l.401-417).  When the
    target of the transition is the terminal reactivated state, the inactive
    states whose name starts with the target's name followed by "." are
    exactly the orphans; each of them is handled as an exited state (its
    [onExit] slot holds an exit wrapper of the transition), and they are
    appended to the substitute from-path sorted by name descending: of two
    orphans, the one with the greater name comes first, so [A.B.C] comes
    before [A.B]. *)
Theorem orphans_appended_descending (cfg : config) (req : request)
    (w w' w0 : world) (k toState toParams : nat) (toPath : list loc) :
  transitionTo cfg req w = Some (k, w') →
  accept cfg req w = Some ((k, Some toState, toParams), w0) →
  path_of w0 toState = Some toPath →
  last_terminal toPath 0 (enter (plan req)) None = Some toState →
  ∃ o sf found front fo pfrom,
    objs w' !! toState = Some o ∧ selfs w' !! st_self o = Some sf
    ∧ orphans_of (default "undefined" (self_name sf) ++ ".")%string
        (inactiveStates req) w' = Some (found, w')
    ∧ (∀ n s, (n, s) ∈ found ↔
              s ∈ inactiveStates req ∧ state_name s w' = Some (n, w')
              ∧ starts_with (default "undefined" (self_name sf) ++ ".")%string n = true)
    ∧ (∀ s, s ∈ sorted_orphans found → exit_wrapped k w' s)
    ∧ objs w' !! current req = Some fo ∧ st_path fo = Some pfrom
    ∧ arrays w' !! pfrom = Some (front ++ sorted_orphans found)
    ∧ (∀ i j a b, reverse (js_sort found) !! i = Some a →
                  reverse (js_sort found) !! j = Some b →
                  js_leb a.1 b.1 = false → i < j).
Proof.
  intros H Ha Hto Hterm.
  destruct (transitionTo_substituted _ _ _ _ _ _ _ _ H Ha)
    as (sTo & sFrom & toPath' & fromPath & wl & wb & v & be & bx & bo & pto & pfrom & Hs).
  assert (toPath' = toPath) as ->.
  { destruct Hs as [_ (wr & Hreg & _) _ _ _].
    apply registered_paths in Hreg as [Ht _]. congruence. }
  edestruct substituted_exited as (c & orphans & Hc & He & Hfrom & Ho); [exact Hs|].
  destruct Ho as [(Hne & _)|(_ & -> & o & sf & found & Hoo & Hsf & Hf & ->)]; [done|].
  destruct Hs as [_ _ _ [_ _ Hb _] (w1 & Hin & ->)].
  exists o, sf, found,
    (take (keep (plan req)) fromPath ++ concat (from_push <$> be)
     ++ concat (from_push <$> bx)).
  pose proof Hin as Hin'.
  destruct Hin as [_ _ _ Harr (o1 & o2 & Ho1 & Ho2 & Hobjs) Hselfs _ _ _ _].
  exists (with_path (Some pfrom) o2), pfrom.
  split; [done|]. split; [done|]. split; [done|].
  split; [by apply orphans_of_spec|].
  split.
  - intros s Hs.
    rewrite app_assoc in Hb.
    apply built_split in Hb as (wx & _ & Hbo).
    apply built_split in Hbo as (wy & Horph & Hpush).
    destruct (exit_wrapped_orphans _ _ _ _ _ Horph) as [Hw _].
    specialize (Hw s Hs).
    inversion Hpush as [|b bs wa wz wc Hd Hrest]; subst.
    inversion Hrest; subst. simpl in Hd.
    apply push_exited_spec in Hd as (cx & _ & ->).
    apply (exit_wrapped_same_selfs k w1); [done|by eauto|].
    apply (exit_wrapped_same_selfs k (set_closures <[k := push_exits (sorted_orphans found) cx]> wy)).
    + done.
    + intros os Hos. destruct (installed_self_kept _ _ _ _ _ _ _ _ _ Hin' Hos) as (o' & ? & ? & _).
      by exists o'.
    + apply (exit_wrapped_same_selfs k wy); [done|by eauto|done].
  - split; [simpl; by rewrite Hobjs, lookup_insert_eq|].
    split; [done|]. split.
    + simpl. rewrite Harr, lookup_insert_eq, Hfrom. by rewrite <- !app_assoc.
    + intros i j a b. apply sorted_descending.
Qed.

Lemma orphans_appended_descending_witness :
  transitionTo ex_cfg ex_reactivate_A ex_world = Some (ex_k1, ex_w1)
  ∧ accept ex_cfg ex_reactivate_A ex_world = Some ((ex_k1, Some 2, 26), ex_wc)
  ∧ path_of ex_wc 2 = Some [1; 2]
  ∧ last_terminal [1; 2] 0 (enter (plan ex_reactivate_A)) None = Some 2
  ∧ ∃ found front pfrom,
      (∀ s, s ∈ sorted_orphans found → exit_wrapped ex_k1 ex_w1 s)
      ∧ arrays ex_w1 !! pfrom = Some (front ++ sorted_orphans found)
      ∧ (∀ n s, (n, s) ∈ found → s ∈ inactiveStates ex_reactivate_A).
Proof.
  assert (H1 : transitionTo ex_cfg ex_reactivate_A ex_world = Some (ex_k1, ex_w1))
    by (vm_compute; reflexivity).
  assert (H2 : accept ex_cfg ex_reactivate_A ex_world = Some ((ex_k1, Some 2, 26), ex_wc))
    by (vm_compute; reflexivity).
  assert (H3 : path_of ex_wc 2 = Some [1; 2]) by (vm_compute; reflexivity).
  assert (H4 : last_terminal [1; 2] 0 (enter (plan ex_reactivate_A)) None = Some 2)
    by (vm_compute; reflexivity).
  split; [exact H1|]. split; [exact H2|]. split; [exact H3|]. split; [exact H4|].
  destruct (orphans_appended_descending ex_cfg ex_reactivate_A ex_world ex_w1 ex_wc
              ex_k1 2 26 [1; 2] H1 H2 H3 H4)
    as (o & sf & found & front & fo & pfrom & _ & _ & _ & Hmem & Hwrap & _ & _ & Harr & _).
  exists found, front, pfrom. split; [exact Hwrap|]. split; [exact Harr|].
  intros n s Hin. by apply Hmem in Hin as [? _].
Defined.

(** C6. The orphans are not exited deeper first.  In the first example
    request the inactive [A] is reactivated while its descendants [A.B]
    (state 3) and [A.B.C] (state 4) are inactive; [sort()] followed by
    [reverse()] (l.410-411) appends them to the from-path in the order
    [A.B.C], [A.B].  The engine exits the from-path from its end, so [A.B]
    is exited before [A.B.C], the parent before its child. *)
Theorem orphan_parent_exits_first :
  path_of ex_w1 2 = Some [1; 6; 7]
  ∧ path_of ex_w1 5 = Some [1; 6; 8; 4; 3]
  ∧ state_name 3 ex_w1 = Some ("A.B", ex_w1)
  ∧ state_name 4 ex_w1 = Some ("A.B.C", ex_w1)
  ∧ engine_exits [1; 6; 7] [1; 6; 8; 4; 3] = [3; 4; 8]
  ∧ ¬ exits_before (engine_exits [1; 6; 7] [1; 6; 8; 4; 3]) 4 3.
Proof.
  split; [vm_compute; reflexivity|]. split; [vm_compute; reflexivity|].
  split; [vm_compute; reflexivity|]. split; [vm_compute; reflexivity|].
  split; [vm_compute; reflexivity|].
  assert (E : engine_exits [1; 6; 7] [1; 6; 8; 4; 3] = [3; 4; 8])
    by (vm_compute; reflexivity).
  rewrite E. intros (i & j & Hi & Hj & Hlt).
  destruct i as [|[|[|i]]], j as [|[|[|j]]]; simpl in *; try discriminate; lia.
Qed.

(** * The refresh of the inactive pseudo-state's locals *)

Lemma views_of_same_views (w w' : world) (i : loc) :
  objs w' = objs w → same_views w w' → views_of w' i = views_of w i.
Proof.
  intros Ho Hv. unfold views_of. rewrite Ho.
  destruct (objs w !! i) as [o|]; [|done].
  destruct (st_locals o) as [il|]; [|done].
  specialize (Hv il).
  destruct (pobjs w !! il), (pobjs w' !! il); try done. by destruct Hv.
Qed.

Lemma fold_views_ext (g1 g2 : loc → gmap string val) (l : list loc) :
  (∀ i, i ∈ l → g1 i = g2 i) →
  ∀ A : gmap string val,
    foldl (λ acc i, g1 i ∪ acc) A l = foldl (λ acc i, g2 i ∪ acc) A l.
Proof.
  induction l as [|i l IH]; intros Hg A; simpl; [done|].
  rewrite (Hg i) by (by left). apply IH. intros j Hj. apply Hg. by right.
Qed.

Lemma expected_views_Some (w : world) (l : list loc) (key : string) (v : val) :
  expected_views w l !! key = Some v → ∃ i, i ∈ l ∧ views_of w i !! key = Some v.
Proof.
  unfold expected_views.
  assert (H : ∀ A : gmap string val,
              foldl (λ acc i, views_of w i ∪ acc) A l !! key = Some v →
              A !! key = Some v ∨ ∃ i, i ∈ l ∧ views_of w i !! key = Some v).
  { induction l as [|i l IH]; intros A HA; simpl in HA; [by left|].
    destruct (IH _ HA) as [Hu|(j & Hj & Hv)].
    - apply lookup_union_Some_raw in Hu as [Hu|[_ Hu]].
      + right. exists i. split; [by left|done].
      + by left.
    - right. exists j. split; [by right|done]. }
  intros Hk. destruct (H _ Hk) as [He|Hi]; [|done].
  by rewrite lookup_empty in He.
Qed.

Lemma expected_views_is_Some (w : world) (l : list loc) (i : loc) (key : string)
    (v : val) :
  i ∈ l → views_of w i !! key = Some v → is_Some (expected_views w l !! key).
Proof.
  unfold expected_views.
  assert (H : ∀ A : gmap string val,
              (is_Some (A !! key) ∨ (i ∈ l ∧ views_of w i !! key = Some v)) →
              is_Some (foldl (λ acc i, views_of w i ∪ acc) A l !! key)).
  { induction l as [|j l IH]; intros A HA; simpl.
    - destruct HA as [HA|[Hi _]]; [done|]. by apply elem_of_nil in Hi.
    - apply IH. destruct HA as [HA|[Hi Hv]].
      + left. destruct HA as [x Hx].
        destruct (views_of w j !! key) as [y|] eqn:E.
        * exists y. by apply lookup_union_Some_l.
        * exists x. rewrite lookup_union_r; done.
      + apply elem_of_cons in Hi as [->|Hi].
        * left. exists v. by apply lookup_union_Some_l.
        * right. done. }
  intros Hi Hv. apply H. right. done.
Qed.

(** C8. When a transition substitutes paths, the locals of the inactive
    pseudo-state are first cleared of every view entry (every key with an
    "@") and then loaded with the own view entries of the states that will
    be inactive, a later state overriding an earlier one; what they hold when
    the call returns is exactly that: no view entry of an earlier transition
    survives, and nothing else is a view entry. *)
Theorem inactive_locals_refreshed (cfg : config) (req : request)
    (w w' w0 : world) (k toState toParams : nat) (io : stateObj) (l : loc) :
  transitionTo cfg req w = Some (k, w') →
  accept cfg req w = Some ((k, Some toState, toParams), w0) →
  objs w0 !! inactivePseudoState cfg = Some io →
  st_locals io = Some l →
  locals_apart w0 l (inactives (plan req)) →
  ∃ p', pobjs w' !! l = Some p'
    ∧ (∀ key, has_at key = true →
              own p' !! key = expected_views w0 (inactives (plan req)) !! key)
    ∧ (∀ key v, has_at key = true → own p' !! key = Some v →
                ∃ i, i ∈ inactives (plan req) ∧ views_of w0 i !! key = Some v)
    ∧ (∀ i key v, i ∈ inactives (plan req) → views_of w0 i !! key = Some v →
                  is_Some (own p' !! key)).
Proof.
  intros H Ha Hio Hl Hapart.
  destruct (transitionTo_substituted _ _ _ _ _ _ _ _ H Ha)
    as (sTo & sFrom & toPath & fromPath & wl & wb & v & be & bx & bo & pto & pfrom & Hs).
  destruct Hs as [_ (wr & Hreg & Href) _ [_ _ Hb _] (w1 & Hin & ->)].
  destruct Hreg as [_ _ _ _ Hro _ _ Hrv _ _ _ _].
  unfold refresh_inactive_locals in Href.
  mstep Href as [] wc Hclear.
  assert (Hio' : objs wr !! inactivePseudoState cfg = Some io) by (by rewrite Hro).
  destruct (clear_inactive_locals_spec _ _ _ _ _ _ Hclear Hio' Hl)
    as (Wc & pr & Hpr & Hpc).
  assert (Hoc : objs wc = objs wr) by (by destruct Wc).
  assert (Hio'' : objs wc !! inactivePseudoState cfg = Some io) by (by rewrite Hoc).
  assert (Hapart' : locals_apart wc l (inactives (plan req))).
  { unfold locals_apart. by rewrite Hoc, Hro. }
  destruct (load_loop_spec _ _ _ _ _ _ _ Href Hio'' Hl Hpc Hapart')
    as (Wl & p' & Hp' & Hown & _).
  assert (Hviews : ∀ i, i ∈ inactives (plan req) → views_of wc i = views_of w0 i).
  { intros i Hi. rewrite (views_of_writes_only l wr wc i Wc).
    - by apply views_of_same_views.
    - unfold locals_apart in Hapart. rewrite Forall_forall in Hapart.
      rewrite Hro. by apply Hapart. }
  assert (Hfinal : pobjs (emit (EvDelegate k) w1) !! l = Some p').
  { simpl. destruct Hin. rewrite in_pobjs0.
    apply built_wframe in Hb. destruct Hb. by eapply lookup_weaken. }
  assert (Hkey : ∀ key, has_at key = true →
            own p' !! key = expected_views w0 (inactives (plan req)) !! key).
  { intros key Hk. rewrite Hown, fold_views_acc.
    rewrite lookup_union_l by (by rewrite clear_views_lookup, Hk).
    unfold expected_views. by rewrite (fold_views_ext _ _ _ Hviews). }
  exists p'. split; [done|]. split; [done|]. split.
  - intros key x Hk Hx. rewrite Hkey in Hx by done. by apply expected_views_Some.
  - intros i key x Hi Hx.
    assert (Hk : has_at key = true).
    { destruct (has_at key) eqn:E; [done|].
      by rewrite views_of_only_views in Hx. }
    rewrite Hkey by done. by eapply expected_views_is_Some.
Qed.

Lemma inactive_locals_refreshed_witness :
  transitionTo ex_cfg ex_reactivate_A ex_world = Some (ex_k1, ex_w1)
  ∧ accept ex_cfg ex_reactivate_A ex_world = Some ((ex_k1, Some 2, 26), ex_wc)
  ∧ objs ex_wc !! inactivePseudoState ex_cfg = Some ex_inactives
  ∧ locals_apart ex_wc 20 (inactives (plan ex_reactivate_A))
  ∧ ∃ p', pobjs ex_w1 !! 20 = Some p'
      ∧ (∀ key, has_at key = true →
                own p' !! key
                = expected_views ex_wc (inactives (plan ex_reactivate_A)) !! key).
Proof.
  assert (H1 : transitionTo ex_cfg ex_reactivate_A ex_world = Some (ex_k1, ex_w1))
    by (vm_compute; reflexivity).
  assert (H2 : accept ex_cfg ex_reactivate_A ex_world = Some ((ex_k1, Some 2, 26), ex_wc))
    by (vm_compute; reflexivity).
  assert (H3 : objs ex_wc !! inactivePseudoState ex_cfg = Some ex_inactives)
    by (vm_compute; reflexivity).
  assert (H4 : st_locals ex_inactives = Some 20) by reflexivity.
  assert (H5 : locals_apart ex_wc 20 (inactives (plan ex_reactivate_A))).
  { unfold locals_apart. simpl. repeat constructor; intros o Ho Hl.
    - assert (E : st_locals <$> objs ex_wc !! 5 = Some (Some 25))
        by (vm_compute; reflexivity).
      rewrite Ho in E. simpl in E. congruence.
    - assert (E : st_locals <$> objs ex_wc !! 3 = Some (Some 23))
        by (vm_compute; reflexivity).
      rewrite Ho in E. simpl in E. congruence. }
  split; [exact H1|]. split; [exact H2|]. split; [exact H3|]. split; [exact H5|].
  destruct (inactive_locals_refreshed ex_cfg ex_reactivate_A ex_world ex_w1 ex_wc
              ex_k1 2 26 ex_inactives 20 H1 H2 H3 H4 H5) as (p' & Hp & Hk & _).
  exists p'. split; [exact Hp|exact Hk].
Defined.

(** * Restoring gives back the paths and the hooks *)

(** Restoring gives back the world in which the request was accepted
    (l.151-173, l.270-271).  When the decorated [transitionTo] substituted
    paths, the closure of the invocation holds the very arrays that
    [toState.path] and [fromState.path] referred to when the request was
    accepted, with their contents untouched, while the two state objects
    refer to arrays that did not exist then.  Running [restore] assigns the
    saved arrays back and runs the undo actions; afterwards every state
    object, every path array and every [self] object (so every [onEnter] and
    [onExit] hook) that existed when the request was accepted is as it was
    then, and so is the path of every state.  The states of the to-path have
    pairwise distinct [self] objects, and so have the states of the
    from-path together with the inactive states. *)
Theorem restore_reinstates_paths_and_hooks (cfg : config) (req : request)
    (w w0 w' w2 : world) (k toState toParams : nat) (toPath fromPath : list loc) :
  transitionTo cfg req w = Some (k, w') →
  accept cfg req w = Some ((k, Some toState, toParams), w0) →
  path_of w0 toState = Some toPath →
  path_of w0 (current req) = Some fromPath →
  distinct_selfs w0 toPath →
  distinct_selfs w0 (fromPath ++ inactiveStates req) →
  call_restore k w' = Some (tt, w2) →
  (∃ c sTo sFrom pTo pFrom,
      closures w' !! k = Some c
      ∧ c_savedToStatePath c = Some sTo ∧ c_savedFromStatePath c = Some sFrom
      ∧ st_path <$> objs w0 !! toState = Some (Some sTo)
      ∧ st_path <$> objs w0 !! current req = Some (Some sFrom)
      ∧ arrays w' !! sTo = Some toPath ∧ arrays w' !! sFrom = Some fromPath
      ∧ st_path <$> objs w' !! toState = Some (Some pTo)
      ∧ st_path <$> objs w' !! current req = Some (Some pFrom)
      ∧ arrays w0 !! pTo = None ∧ arrays w0 !! pFrom = None
      ∧ st_path <$> objs w2 !! toState = Some (Some sTo)
      ∧ st_path <$> objs w2 !! current req = Some (Some sFrom))
  ∧ objs w0 ⊆ objs w2 ∧ arrays w0 ⊆ arrays w2 ∧ selfs w0 ⊆ selfs w2
  ∧ ∀ state path, path_of w0 state = Some path → path_of w2 state = Some path.
Proof.
  intros Ht Ha Hto Hfrom [Hvt Hnt] [Hvf Hnf] Hr.
  destruct (transitionTo_substituted _ _ _ _ _ _ _ _ Ht Ha)
    as (sTo & sFrom & toPath' & fromPath' & wl & wb & v & be & bx & bo & pto & pfrom & Hs).
  destruct (substituted_closure_start _ _ _ _ _ _ _ _ _ _ _ _ _ _ _ _ _ _ _ Hs)
    as (c0 & Hc0 & _ & HsTo & HsFrom & HtoS & HfromS & Hnoop & Hrl).
  destruct Hs as [_ (wr & Hreg & _) (Hol & Hsl & Hal) Hpb (w1 & Hin & ->)].
  destruct (registered_paths _ _ _ _ _ _ _ _ _ _ Hreg) as [Hto' Hfrom'].
  assert (toPath' = toPath) as -> by congruence.
  assert (fromPath' = fromPath) as -> by congruence.
  destruct Hreg as [(oT & HoT & HpT) (oF & HoF & HpF) HaT HaF _ _ _ _ _ _ _ _].
  destruct (reload_undos_no_target w0 _ Hrl) as [Hnt0 Hok0].
  assert (Hinv0 : hook_inv w0 (c_restoreFunctions c0) wl).
  { split; [|split]; [| |done].
    - rewrite Hol. eauto.
    - rewrite Hsl, Hnt0. intros l s0 H. exists s0. split; [done|].
      split; [apply hooks_only_refl|]. split; by left. }
  destruct Hpb as [Hen Hex Hb Horph].
  destruct (enter_steps_wraps _ _ _ _ Hen) as (es & Hes & Hsube).
  destruct (exit_steps_wraps _ _ _ _ Hex) as (xs & Hxs & Hsubx).
  rewrite drop_0 in Hsube, Hsubx.
  assert (Hos : ∃ os, omap wrap_of bo = pair OnExit <$> os
                      ∧ os ⊆+ inactiveStates req).
  { simpl in Horph. destruct Horph as [(_ & o & sf & found & _ & _ & Hfound & -> & _)
                                      |(_ & -> & _)].
    - exists (sorted_orphans found). split; [apply orphan_steps_wraps|].
      rewrite sorted_orphans_perm. apply sublist_submseteq.
      by eapply orphans_of_sublist.
    - exists []. split; [done|]. apply submseteq_nil_l. }
  destruct Hos as (os & Hos & Hsubo).
  assert (Hwr : omap wrap_of (be ++ bx ++ bo)
                = (pair OnEnter <$> es) ++ (pair OnExit <$> (xs ++ os))).
  { by rewrite !omap_app, Hes, Hxs, Hos, fmap_app. }
  assert (Hxo : xs ++ os ⊆+ fromPath ++ inactiveStates req).
  { apply submseteq_app; [by apply sublist_submseteq|done]. }
  destruct (hook_inv_built w0 _ _ _ _ _ Hb _ Hc0 Hinv0) as (c1 & Hc1 & Hinv1).
  { rewrite Hwr. apply Forall_app. split; apply Forall_fmap, Forall_forall.
    - intros s Hs. rewrite Forall_forall in Hvt. apply Hvt.
      eapply elem_of_submseteq; [exact Hs|by apply sublist_submseteq].
    - intros s Hs. rewrite Forall_forall in Hvf. apply Hvf.
      eapply elem_of_submseteq; [exact Hs|done]. }
  { rewrite Hnt0, Hwr, fmap_app. simpl. apply NoDup_app. split; [|split].
    - eapply wrap_targets_NoDup; [|exact Hnt]. by apply sublist_submseteq.
    - intros x H1 H2. apply wrap_targets_slot in H1, H2. congruence.
    - by eapply wrap_targets_NoDup. }
  pose proof (built_wframe _ _ _ _ _ Hb) as F.
  destruct (fr_closure _ _ _ _ F _ Hc0) as (c1' & Hc1' & Hsp).
  assert (c1' = c1) as -> by congruence.
  destruct Hsp as (_ & HtoS1 & HfromS1 & HsTo1 & HsFrom1 & Hnoop1 & _).
  rewrite HtoS in HtoS1. rewrite HfromS in HfromS1.
  rewrite HsTo in HsTo1. rewrite HsFrom in HsFrom1. rewrite Hnoop in Hnoop1.
  pose proof (fr_objs _ _ _ _ F) as Hsubobjs. rewrite Hol in Hsubobjs.
  pose proof (fr_arrays _ _ _ _ F) as Harrb. rewrite Hal in Harrb.
  destruct Hin as [Hfto Hffrom Hdist Harr (o1 & o2 & Ho1 & Ho2 & Hobjs1) Hselfs1 _ Hcl1 _ _].
  assert (Hc1w : closures (emit (EvDelegate k) w1) !! k = Some c1).
  { simpl. by rewrite Hcl1. }
  destruct (call_restore_inv _ _ _ _ _ _ _ Hr Hc1w Hnoop1 HtoS1 HsTo1 HsFrom1)
    as (oA & oB & wC & HoA & HoB & Hrun & Hobjs2 & Harr2 & Hselfs2).
  simpl in HoA, HoB. rewrite HfromS1 in HoB, Hrun.
  assert (Ho1' : objs wb !! toState = Some oT) by (by eapply lookup_weaken).
  assert (HoF' : objs wb !! current req = Some oF) by (by eapply lookup_weaken).
  assert (o1 = oT) as -> by congruence.
  rewrite Hobjs1 in HoA, HoB.
  pose proof (restore_objs _ _ _ _ _ _ _ _ _ _ _ _ Ho1 HpT HoF' HpF Ho2 HoA HoB) as Hback.
  assert (Hinv2 : hook_inv w0 (c_restoreFunctions c1)
            (set_objs <[current req := with_path (Some sFrom) oB]>
               (set_objs <[toState := with_path (Some sTo) oA]>
                  (emit (EvDelegate k) w1)))).
  { eapply hook_inv_objs; [| |exact Hinv1]; [|simpl; done].
    simpl. rewrite Hobjs1, Hback. eauto. }
  destruct (hook_inv_undos _ _ _ _ Hrun Hinv2) as (HoC & HaC & HinvC).
  simpl in HoC, HaC. rewrite Hobjs1, Hback in HoC. rewrite Harr, Harrb in HaC.
  assert (Hsub_o : objs w0 ⊆ objs w2) by (by rewrite Hobjs2, HoC).
  assert (Hsub_a : arrays w0 ⊆ arrays w2).
  { rewrite Harr2, HaC. rewrite Harrb in Hfto, Hffrom.
    apply insert_subseteq_r; [done|]. by apply insert_subseteq. }
  assert (Hsub_s : selfs w0 ⊆ selfs w2).
  { rewrite Hselfs2. by apply hook_inv_nil. }
  split; [|split_and!; try done].
  - exists c1, sTo, sFrom,
      (if decide (current req = toState) then pfrom else pto), pfrom.
    simpl. rewrite Hobjs1, Harr, Harrb. rewrite Harrb in Hfto, Hffrom.
    split_and!; try done.
    + by rewrite HoT; simpl; rewrite HpT.
    + by rewrite HoF; simpl; rewrite HpF.
    + rewrite lookup_insert_ne, lookup_insert_ne; [done| |]; intros ->; congruence.
    + rewrite lookup_insert_ne, lookup_insert_ne; [done| |]; intros ->; congruence.
    + destruct (decide (current req = toState)) as [e|n].
      * rewrite e, lookup_insert_eq. done.
      * rewrite lookup_insert_ne, lookup_insert_eq by done. done.
    + by rewrite lookup_insert_eq.
    + by destruct (decide (current req = toState)).
    + rewrite (lookup_weaken _ _ _ _ HoT Hsub_o). simpl. by rewrite HpT.
    + rewrite (lookup_weaken _ _ _ _ HoF Hsub_o). simpl. by rewrite HpF.
  - intros state path Hp. unfold path_of in *.
    destruct (objs w0 !! state) as [o|] eqn:Ho; [|done].
    rewrite (lookup_weaken _ _ _ _ Ho Hsub_o).
    destruct (st_path o) as [p|]; [|done].
    by rewrite (lookup_weaken _ _ _ _ Hp Hsub_a).
Qed.

Lemma restore_reinstates_paths_and_hooks_witness :
  transitionTo ex_cfg ex_reactivate_A ex_world = Some (ex_k1, ex_w1)
  ∧ call_restore ex_k1 ex_w1 = Some (tt, ex_w1_restored)
  ∧ objs ex_wc ⊆ objs ex_w1_restored
  ∧ arrays ex_wc ⊆ arrays ex_w1_restored
  ∧ selfs ex_wc ⊆ selfs ex_w1_restored
  ∧ ∀ state path, path_of ex_wc state = Some path →
                  path_of ex_w1_restored state = Some path.
Proof.
  assert (H1 : transitionTo ex_cfg ex_reactivate_A ex_world = Some (ex_k1, ex_w1))
    by (vm_compute; reflexivity).
  assert (H2 : accept ex_cfg ex_reactivate_A ex_world = Some ((ex_k1, Some 2, 26), ex_wc))
    by (vm_compute; reflexivity).
  assert (H3 : path_of ex_wc 2 = Some [1; 2]) by (vm_compute; reflexivity).
  assert (H4 : path_of ex_wc (current ex_reactivate_A) = Some [1; 5])
    by (vm_compute; reflexivity).
  assert (H5 : distinct_selfs ex_wc [1; 2]).
  { split.
    - repeat constructor; eexists _, _; split; vm_compute; reflexivity.
    - apply (bool_decide_unpack _). vm_compute. reflexivity. }
  assert (H6 : distinct_selfs ex_wc ([1; 5] ++ inactiveStates ex_reactivate_A)).
  { split.
    - repeat constructor; eexists _, _; split; vm_compute; reflexivity.
    - apply (bool_decide_unpack _). vm_compute. reflexivity. }
  assert (H7 : call_restore ex_k1 ex_w1 = Some (tt, ex_w1_restored))
    by (vm_compute; reflexivity).
  split; [exact H1|]. split; [exact H7|].
  exact (proj2 (restore_reinstates_paths_and_hooks _ _ _ _ _ _ _ _ _ _ _
                  H1 H2 H3 H4 H5 H6 H7)).
Defined.

(** C5. [restore] can reinstate a substitute path.  In the scenario of the
    unknown target, the request for [A.B] is accepted while the substitute
    paths of the request for [A] are still installed, so what it saves as
    the original from-path is that substitute.  Its [restore], run at once,
    leaves [X.path] holding the phase-1 surrogate of [A] (object 6) and the
    inactivate surrogate of [X] (object 8), [A.path] holding both surrogates
    of [A], and the [onExit] of [X] holding the wrapper instead of the hook
    of the application.  The same is left when every promise has settled and
    every [restore] has run: [X.path] still holds the two surrogates and the
    [onEnter] of [A] is still the phase-2 wrapper. *)
Theorem restore_reinstates_a_substitute_path :
  path_of ex_world 5 = Some [1; 5]
  ∧ (self_onExit <$> selfs ex_world !! 15) = Some (HUser 111)
  ∧ (self_onEnter <$> selfs ex_world !! 12) = Some (HUser 104)
  ∧ ex_gh_x = Some (ex_gh_kx, ex_gh_wx)
  ∧ (c_savedFromStatePath <$> closures ex_gh_wx !! ex_gh_kx)
    = (st_path <$> objs ex_gh_wa !! 5)
  ∧ call_restore ex_gh_kx ex_gh_wx = Some (tt, ex_gh_w5)
  ∧ pendingRestore ex_gh_w5 = None
  ∧ path_of ex_gh_w5 5 = Some [1; 6; 8; 4; 3]
  ∧ path_of ex_gh_w5 2 = Some [1; 6; 7]
  ∧ (st_surrogateType <$> objs ex_gh_w5 !! 6) = Some (Some "reactivate_phase1")
  ∧ (st_surrogateType <$> objs ex_gh_w5 !! 7) = Some (Some "reactivate_phase2")
  ∧ (st_surrogateType <$> objs ex_gh_w5 !! 8) = Some (Some "inactivate")
  ∧ (self_onExit <$> selfs ex_gh_w5 !! 15) = Some (HInactivated 5)
  ∧ settle ex_gh_ka (Failed (Some ex_superseded)) ex_gh_wx
    = Some (Rejected (Some ex_superseded), ex_gh_w6)
  ∧ settle ex_gh_kx (Fulfilled 13) ex_gh_w6 = Some (Resolved 13, ex_gh_w7)
  ∧ (c_restoreIsNoop <$> closures ex_gh_w7 !! ex_gh_kg) = Some true
  ∧ (c_restoreIsNoop <$> closures ex_gh_w7 !! ex_gh_ka) = Some true
  ∧ (c_restoreIsNoop <$> closures ex_gh_w7 !! ex_gh_kx) = Some true
  ∧ path_of ex_gh_w7 5 = Some [1; 6; 8; 4; 3]
  ∧ (st_surrogateType <$> objs ex_gh_w7 !! 6) = Some (Some "reactivate_phase1")
  ∧ (st_surrogateType <$> objs ex_gh_w7 !! 8) = Some (Some "inactivate")
  ∧ (self_onEnter <$> selfs ex_gh_w7 !! 12) = Some (HReactivated 7 2).
Proof. vm_compute. split_and!; reflexivity. Qed.

(** * Reactivated states *)

(** The two surrogates of a reactivated state (l.191-213, l.355-366,
    l.393-397).  When the decorated [transitionTo] substituted paths and the
    plan classifies the state at index [i] of the to-path as [reactivate],
    two new surrogates exist for it.  The phase-1 surrogate is on both
    substitute paths: on the to-path it follows the kept prefix and one
    element for every classified entry before [i], on the from-path it
    follows the kept prefix and one element for every [reactivate] entry
    before [i]; so the two indices are equal when the kept prefixes have the
    same length and every classified entry before [i] is [reactivate].  The
    phase-2 surrogate is in the last block of the to-path and not on the
    from-path; its [resolve] and [views] are empty objects, it shares the
    [self] and the [locals] of the state, and the [onEnter] hook assigns
    [state.locals] to it and then calls [stateReactivated]. *)
Theorem reactivate_two_surrogates (cfg : config) (req : request)
    (w w0 w' : world) (k toState toParams : nat) (toPath fromPath : list loc)
    (i : nat) (state : loc) :
  transitionTo cfg req w = Some (k, w') →
  accept cfg req w = Some ((k, Some toState, toParams), w0) →
  path_of w0 toState = Some toPath →
  path_of w0 (current req) = Some fromPath →
  distinct_selfs w0 toPath →
  Forall (valid_state w0) (fromPath ++ inactiveStates req) →
  enter (plan req) !! i = Some (Some "reactivate") →
  toPath !! i = Some state →
  two_surrogates req w0 w' toState toPath fromPath i state.
Proof.
  intros Ht Ha Hto Hfrom [Hvt Hnt] Hvf Hi Hstate. unfold two_surrogates.
  destruct (transitionTo_substituted _ _ _ _ _ _ _ _ Ht Ha)
    as (sTo & sFrom & toPath' & fromPath' & wl & wb & v & be & bx & bo & pto & pfrom & Hs).
  destruct Hs as [_ (wr & Hreg & _) (Hol & Hsl & Hal) Hpb (w1 & Hin & ->)].
  destruct (registered_paths _ _ _ _ _ _ _ _ _ _ Hreg) as [Hto' Hfrom'].
  assert (toPath' = toPath) as -> by congruence.
  assert (fromPath' = fromPath) as -> by congruence.
  destruct Hreg as [(oT & HoT & HpT) (oF & HoF & HpF) HaT HaF _ _ _ _ _ _ _ _].
  destruct (paths_built_paths _ _ _ _ _ _ _ _ _ _ _ _ Hpb) as [HPT HPF].
  destruct (exit_orphan_wraps _ _ _ _ _ _ _ _ _ _ _ _ _ Hpb) as (xos & Hxos & Hsubxo).
  destruct Hpb as [Hen Hex Hb _].
  destruct (enter_steps_at _ _ _ _ Hen _ Hi)
    as (state' & phase1 & phase2 & pre & post & Hst' & Hbe & Hpre & Hpost).
  simpl in Hst', Hpost. assert (state' = state) as -> by congruence.
  destruct (enter_steps_counts _ _ _ _ Hen) as (Hc1 & Hc2 & Hc3).
  destruct (enter_steps_counts _ _ _ _ Hpre) as (Hp1 & Hp2 & Hp3).
  destruct (enter_steps_wraps _ _ _ _ Hen) as (es & Hes & _).
  destruct (enter_steps_wraps _ _ _ _ Hpost) as (es' & Hes' & Hsube').
  pose proof (fr_arrays _ _ _ _ (built_wframe _ _ _ _ _ Hb)) as Harrb.
  assert (Hsub_all : objs w0 ⊆ objs wb).
  { rewrite <- Hol. exact (fr_objs _ _ _ _ (built_wframe _ _ _ _ _ Hb)). }
  assert (Holds : ∀ y, y ∈ concat (olds_from <$> (be ++ bx ++ bo)) →
                       is_Some (objs wl !! y)).
  { intros y Hy. apply olds_from_wrap in Hy.
    rewrite omap_app, Hes, Hxos in Hy. apply elem_of_app in Hy as [Hy|Hy].
    - apply list_elem_of_fmap in Hy as (z & [=] & _).
    - apply list_elem_of_fmap in Hy as (z & [= <-] & Hz).
      rewrite Forall_forall in Hvf.
      destruct (Hvf y) as (oy & _ & Hoy & _);
        [by eapply elem_of_submseteq|]. rewrite Hol. by eexists. }
  pose proof (built_react_not_from _ _ _ _ _ Hb Holds) as Hreact.
  clear Hes Holds. subst be.
  (* the worlds around the call *)
  assert (Hb' : built cfg k (pre ++ BReactivate state phase1 phase2 :: post ++ bx ++ bo)
                  wl wb).
  { by rewrite <- app_assoc in Hb. }
  destruct (built_split _ _ _ _ _ _ Hb') as (wp & Hbpre & Hbrest).
  inversion Hbrest as [|b bs wA wq wB Hd Hbpost]; subst.
  pose proof (fr_objs _ _ _ _ (built_wframe _ _ _ _ _ Hbpre)) as Hsub_pre.
  pose proof (built_wframe _ _ _ _ _ Hbpost) as Fpost.
  rewrite Hol in Hsub_pre.
  destruct (does_reactivate_spec _ _ _ _ _ _ _ Hd)
    as (o & sf & so1 & so2 & r & vw & Ho & Hsf & Hn1 & Hn2 & Hne & Hso1 & Hl1 & Ht1
        & Hso2 & Hself2 & Hl2 & Hr & Hv & _ & _ & Hr1 & Hv1 & Hhook).
  assert (Hvalid : valid_state w0 state).
  { rewrite Forall_forall in Hvt. apply Hvt. by eapply list_elem_of_lookup_2. }
  destruct Hvalid as (o0 & sf0 & Ho0 & Hsf0).
  assert (o = o0) as -> by (pose proof (lookup_weaken _ _ _ _ Ho0 Hsub_pre); congruence).
  pose proof (objs_None_mono _ _ _ Hsub_pre Hn1) as Hf1.
  pose proof (objs_None_mono _ _ _ Hsub_pre Hn2) as Hf2.
  destruct Hin as [Hfto Hffrom Hdist Harr (o1 & o2 & Ho1 & Ho2 & Hobjs1) Hselfs1 Hpobjs1 _ _ _].
  rewrite Hal in Harrb. rewrite Harrb in Hfto, Hffrom, Harr.
  assert (Hkeep : ∀ x, objs w0 !! x = None →
            objs (emit (EvDelegate k) w1) !! x = objs wb !! x).
  { intros x Hx. simpl. rewrite Hobjs1.
    rewrite !lookup_insert_ne; [done| |]; intros <-; congruence. }
  exists phase1, phase2, so1, so2, o0, r, vw, pto, pfrom,
    (surrogateToPath v), (surrogateFromPath v).
  split; [|split; [|split; [|split; [|split]]]].
  - split_and!; try done.
    + rewrite (Hkeep _ Hf1). exact (lookup_weaken _ _ _ _ Hso1 (fr_objs _ _ _ _ Fpost)).
    + rewrite (Hkeep _ Hf2). exact (lookup_weaken _ _ _ _ Hso2 (fr_objs _ _ _ _ Fpost)).
  - simpl. rewrite Harr, Hobjs1. split_and!; try done.
    + by rewrite lookup_insert_ne, lookup_insert_eq.
    + by rewrite lookup_insert_eq.
    + intros Hneq. rewrite lookup_insert_ne, lookup_insert_eq by done. done.
    + by rewrite lookup_insert_eq.
  - rewrite HPT, HPF. split_and!.
    + rewrite fmap_app, concat_app, fmap_cons. cbn [concat to_push app].
      rewrite <- !app_assoc. rewrite app_assoc. cbn [app].
      apply list_lookup_middle. rewrite length_app. by rewrite Hp1.
    + rewrite !fmap_app, !concat_app, fmap_cons. cbn [concat from_push app].
      rewrite <- !app_assoc. rewrite app_assoc. cbn [app].
      apply list_lookup_middle. rewrite length_app. by rewrite Hp2.
    + rewrite (fmap_app react_push), (concat_app (react_push <$> pre)), fmap_cons.
      cbn [concat react_push app].
      rewrite !app_assoc.
      apply list_lookup_middle. rewrite !length_app, Hp3, Hc1. lia.
    + rewrite !length_app, Hc1, Hc3. lia.
    + intros Hin. apply elem_of_app in Hin as [Hin|Hin].
      * apply elem_of_take in Hin as (n & Hn & _).
        rewrite Forall_forall in Hvf.
        destruct (Hvf phase2) as (ox & _ & Hox & _).
        { apply elem_of_app. left. by eapply list_elem_of_lookup_2. }
        congruence.
      * destruct (Hreact phase2) as [_ Hnot]; [|done].
        rewrite !fmap_app, !concat_app, fmap_cons. cbn [concat react_push].
        apply elem_of_app. left. apply elem_of_app. right. by left.
    + intros E1 E2.
      exists (length (take (keep (plan req)) toPath)
              + count_kind enter_kind (take i (enter (plan req)))).
      split.
      * rewrite fmap_app, concat_app, fmap_cons. cbn [concat to_push app].
        rewrite <- !app_assoc. rewrite app_assoc. cbn [app].
        apply list_lookup_middle. rewrite length_app. by rewrite Hp1.
      * rewrite E1, E2.
        rewrite !fmap_app, !concat_app, fmap_cons. cbn [concat from_push app].
        rewrite <- !app_assoc. rewrite app_assoc. cbn [app].
        apply list_lookup_middle. rewrite length_app. by rewrite Hp2.
  - pose proof (lookup_weaken _ _ _ _ Ho0 Hsub_all) as Hob.
    destruct (insert_with_path_locals _ _ _ (Some pto) Ho1 _ _ Hob) as (oa & Hoa & Hla).
    destruct (insert_with_path_locals _ _ _ (Some pfrom) Ho2 _ _ Hoa) as (ob & Hob' & Hlb).
    split_and!; try done.
    + simpl. rewrite Hobjs1, Hob'. simpl. congruence.
    + simpl. rewrite Hpobjs1. exact (lookup_weaken _ _ _ _ Hr1 (fr_pobjs _ _ _ _ Fpost)).
    + simpl. rewrite Hpobjs1. exact (lookup_weaken _ _ _ _ Hv1 (fr_pobjs _ _ _ _ Fpost)).
  - destruct (built_slot_other w0 _ _ _ _ _ OnEnter (st_self o0) Hbpost)
      with (s := with_onEnter (HReactivated phase2 state) sf) as (s' & Hs' & Hslot).
    + etrans; [exact Hsub_pre|]. exact (fr_objs _ _ _ _ (does_wframe _ _ _ _ _ Hd)).
    + rewrite omap_app, Hes', Hxos. apply Forall_app.
      split; apply Forall_fmap, Forall_forall.
      * intros y Hy. simpl.
        assert (Hyd : y ∈ drop (S i) toPath).
        { eapply elem_of_submseteq; [exact Hy|by apply sublist_submseteq]. }
        split.
        -- rewrite Forall_forall in Hvt. destruct (Hvt y) as (oy & _ & Hoy & _).
           { eapply elem_of_submseteq; [exact Hyd|].
             apply sublist_submseteq, sublist_drop. }
           by eexists.
        -- unfold wrap_target. simpl. intros [= Heq].
           apply (NoDup_fmap_lookup_after (self_at w0) _ _ _ _ Hnt Hstate Hyd).
           by rewrite (self_at_Some _ _ _ Ho0).
      * intros y Hy. simpl. split; [|by intros [=]].
        rewrite Forall_forall in Hvf. destruct (Hvf y) as (oy & _ & Hoy & _).
        { by eapply elem_of_submseteq. }
        by eexists.
    + exact Hhook.
    + exists s'. simpl. rewrite Hselfs1. split; [done|]. exact Hslot.
  - intros w3 st3 so3. apply run_reactivated_hook.
Qed.

Lemma reactivate_two_surrogates_witness :
  transitionTo ex_cfg ex_reactivate_A ex_world = Some (ex_k1, ex_w1)
  ∧ enter (plan ex_reactivate_A) !! 1 = Some (Some "reactivate")
  ∧ two_surrogates ex_reactivate_A ex_wc ex_w1 2 [1; 2] [1; 5] 1 2.
Proof.
  assert (H1 : transitionTo ex_cfg ex_reactivate_A ex_world = Some (ex_k1, ex_w1))
    by (vm_compute; reflexivity).
  assert (H2 : accept ex_cfg ex_reactivate_A ex_world = Some ((ex_k1, Some 2, 26), ex_wc))
    by (vm_compute; reflexivity).
  assert (H3 : path_of ex_wc 2 = Some [1; 2]) by (vm_compute; reflexivity).
  assert (H4 : path_of ex_wc (current ex_reactivate_A) = Some [1; 5])
    by (vm_compute; reflexivity).
  assert (H5 : distinct_selfs ex_wc [1; 2]).
  { split.
    - repeat constructor; eexists _, _; split; vm_compute; reflexivity.
    - apply (bool_decide_unpack _). vm_compute. reflexivity. }
  assert (H6 : Forall (valid_state ex_wc) ([1; 5] ++ inactiveStates ex_reactivate_A)).
  { repeat constructor; eexists _, _; split; vm_compute; reflexivity. }
  assert (H7 : enter (plan ex_reactivate_A) !! 1 = Some (Some "reactivate"))
    by reflexivity.
  assert (H8 : [1; 2] !! 1 = Some 2) by reflexivity.
  split; [exact H1|]. split; [exact H7|].
  exact (reactivate_two_surrogates _ _ _ _ _ _ _ _ _ _ _ _ H1 H2 H3 H4 H5 H6 H7 H8).
Defined.

(** C1. The phase-1 surrogate is not always at the same index of both
    substitute paths.  [A] is classified [updateStateParams] and [A.B] is
    classified [reactivate]: the surrogate of [A] is pushed on the to-path
    only (l.369-370), so the phase-1 surrogate of [A.B] (object 6), pushed on
    both paths in one iteration "so toPath[i] === fromPath[i]" (l.360-361),
    is at index 2 of the substitute to-path and at index 1 of the substitute
    from-path: there is no index at which both paths hold it. *)
Theorem reactivate_after_update_misaligned :
  transitionTo ex_cfg ex_update_then_reactivate ex_world = Some (0, ex_w_ur)
  ∧ path_of ex_world 3 = Some [1; 2; 3]
  ∧ enter (plan ex_update_then_reactivate) !! 2 = Some (Some "reactivate")
  ∧ path_of ex_w_ur 3 = Some [1; 2; 6; 7]
  ∧ path_of ex_w_ur 5 = Some [1; 6; 8; 4]
  ∧ st_surrogateType <$> objs ex_w_ur !! 6 = Some (Some "reactivate_phase1")
  ∧ st_surrogateType <$> objs ex_w_ur !! 7 = Some (Some "reactivate_phase2")
  ∧ ¬ ∃ n toP fromP, path_of ex_w_ur 3 = Some toP ∧ path_of ex_w_ur 5 = Some fromP
                     ∧ toP !! n = Some 6 ∧ fromP !! n = Some 6.
Proof.
  assert (Hto : path_of ex_w_ur 3 = Some [1; 2; 6; 7]) by (vm_compute; reflexivity).
  assert (Hfrom : path_of ex_w_ur 5 = Some [1; 6; 8; 4]) by (vm_compute; reflexivity).
  split_and!; try (vm_compute; reflexivity).
  intros (n & toP & fromP & H1 & H2 & H3 & H4).
  rewrite Hto in H1. rewrite Hfrom in H2. injection H1 as <-. injection H2 as <-.
  destruct n as [|[|[|[|n]]]]; simpl in *; try congruence.
  by rewrite lookup_nil in H3.
Qed.

(** * The value of a replaced slot *)

Lemma slot_of_with_slot (sl : slot) (h : hook) (s : selfObj) :
  slot_of sl (with_slot sl h s) = h.
Proof. by destruct sl. Qed.

Lemma selfs_kept_wframe (k : nat) (w w' : world) : wframe k w w' → selfs_kept w w'.
Proof.
  intros F l [s Hs]. destruct (fr_selfs _ _ _ _ F _ _ Hs) as (s' & Hs' & _). by eexists.
Qed.

Lemma selfs_kept_trans (w1 w2 w3 : world) :
  selfs_kept w1 w2 → selfs_kept w2 w3 → selfs_kept w1 w3.
Proof. intros H1 H2 l Hl. by apply H2, H1. Qed.

(** A builder call puts its wrapper around what the slot held. *)
Lemma does_wrap_value (cfg : config) (k : nat) (b : bstep) (w w1 : world)
    (sl : slot) (state : loc) :
  does cfg k b w w1 → wrap_of b = Some (sl, state) →
  ∃ o sf, objs w !! state = Some o ∧ selfs w !! st_self o = Some sf
          ∧ selfs w1 !! st_self o
            = Some (with_slot sl (wrapper_of k b (slot_of sl sf)) sf).
Proof.
  intros Hd Hw. destruct b; simpl in Hw; try discriminate; injection Hw as <- <-.
  - destruct Hd as (wa & H1 & H2).
    destruct (stateReactivatedSurrogatePhase1_spec cfg k _ _ _ _ H1)
      as (F1 & _ & _ & Hs1 & o & sf & _ & Ho & Hsf & _).
    destruct (stateReactivatedSurrogatePhase2_spec cfg k _ _ _ _ H2)
      as (_ & _ & (_ & o' & sf' & c & Ho' & Hsf' & _ & _ & Hnew & _) & _).
    pose proof (lookup_weaken _ _ _ _ Ho (fr_objs _ _ _ _ F1)) as Hoa.
    assert (o' = o) as -> by congruence.
    rewrite (Hs1 _ (mk_is_Some _ _ Hsf)) in Hsf'.
    assert (sf' = sf) as -> by congruence. eauto.
  - apply stateUpdateParamsSurrogate_spec in Hd
      as [_ (_ & o & sf & c & Ho & Hsf & _ & _ & Hnew & _)]. eauto.
  - apply stateEnteredSurrogate_spec in Hd
      as [_ (_ & o & sf & c & Ho & Hsf & _ & _ & Hnew & _)]. eauto.
  - destruct Hd as (wa & H1 & H2).
    destruct (stateInactivatedSurrogate_spec cfg k _ _ _ _ H1)
      as (_ & _ & (_ & o & sf & c & Ho & Hsf & _ & _ & Hnew & _) & _).
    apply push_exited_spec in H2 as (c' & _ & ->). eauto.
  - destruct Hd as (wa & H1 & H2).
    apply stateExitedSurrogate_spec in H1
      as [_ (_ & o & sf & c & Ho & Hsf & _ & _ & Hnew & _)].
    apply push_exited_spec in H2 as (c' & _ & ->). eauto.
  - apply stateExitedSurrogate_spec in Hd
      as [_ (_ & o & sf & c & Ho & Hsf & _ & _ & Hnew & _)]. eauto.
Qed.

Lemma wrap_of_elem (bs : list bstep) (b : bstep) (p : slot * loc) :
  b ∈ bs → wrap_of b = Some p → p ∈ omap wrap_of bs.
Proof.
  intros Hb Hp. apply list_elem_of_omap. eauto.
Qed.

(** When no two calls replace the same slot, the slot that a call replaced
    holds, at the end, the wrapper of that call around what it held at the
    start. *)
Lemma built_wrap_value (w0 : world) (cfg : config) (k : nat) (bs : list bstep)
    (w w' : world) :
  built cfg k bs w w' →
  objs w0 ⊆ objs w → selfs_kept w0 w →
  Forall (λ p, valid_state w0 p.2) (omap wrap_of bs) →
  NoDup (wrap_target w0 <$> omap wrap_of bs) →
  ∀ b sl state, b ∈ bs → wrap_of b = Some (sl, state) →
    ∃ o sf sf', objs w0 !! state = Some o
                ∧ selfs w !! st_self o = Some sf
                ∧ selfs w' !! st_self o = Some sf'
                ∧ slot_of sl sf' = wrapper_of k b (slot_of sl sf).
Proof.
  induction 1 as [w|b0 bs w w1 w2 Hd Hb IH]; intros Hsub Hkept Hv Hnd b sl state Hin Hw.
  - by apply elem_of_nil in Hin.
  - pose proof (does_wframe _ _ _ _ _ Hd) as F.
    assert (Hsub1 : objs w0 ⊆ objs w1) by (etrans; [exact Hsub|exact (fr_objs _ _ _ _ F)]).
    assert (Hkept1 : selfs_kept w0 w1).
    { eapply selfs_kept_trans; [exact Hkept|]. by eapply selfs_kept_wframe. }
    assert (Hvrest : Forall (λ p, valid_state w0 p.2) (omap wrap_of bs)).
    { simpl in Hv. destruct (wrap_of b0); [by apply Forall_cons in Hv as [_ ?]|done]. }
    assert (Hndrest : NoDup (wrap_target w0 <$> omap wrap_of bs)).
    { simpl in Hnd. destruct (wrap_of b0); [|done].
      rewrite fmap_cons in Hnd. by apply NoDup_cons in Hnd as [_ ?]. }
    apply elem_of_cons in Hin as [->|Hin].
    + destruct (does_wrap_value _ _ _ _ _ _ _ Hd Hw) as (o & sf & Ho & Hsf & Hnew).
      simpl in Hv, Hnd. rewrite Hw in Hv, Hnd.
      apply Forall_cons in Hv as [(o0 & s0 & Ho0 & Hs0) _]. simpl in Ho0, Hs0.
      assert (o = o0) as -> by (pose proof (lookup_weaken _ _ _ _ Ho0 Hsub); congruence).
      rewrite fmap_cons in Hnd. apply NoDup_cons in Hnd as [Hnot _].
      destruct (built_slot_other w0 _ _ _ _ _ sl (st_self o0) Hb Hsub1)
        with (s := with_slot sl (wrapper_of k b0 (slot_of sl sf)) sf)
        as (s' & Hs' & Hslot); [|done|].
      { apply Forall_forall. intros p Hp. split.
        - rewrite Forall_forall in Hvrest. destruct (Hvrest _ Hp) as (op & _ & Hop & _).
          by eexists.
        - intros Heq. apply Hnot. unfold wrap_target at 1. simpl.
          rewrite (self_at_Some _ _ _ Ho0), Heq. apply list_elem_of_fmap. eauto. }
      exists o0, sf, s'. split_and!; [done|done|done|].
      by rewrite Hslot, slot_of_with_slot.
    + destruct (IH Hsub1 Hkept1 Hvrest Hndrest _ _ _ Hin Hw)
        as (o & sf1 & sf' & Ho & Hsf1 & Hsf' & Hslot).
      rewrite Forall_forall in Hvrest.
      destruct (Hvrest _ (wrap_of_elem _ _ _ Hin Hw)) as (o' & s0 & Ho' & Hs0).
      simpl in Ho', Hs0. assert (o' = o) as -> by congruence.
      destruct (Hkept (st_self o)) as [sf Hsf]; [by eexists|].
      destruct (does_slot_other _ _ _ _ _ sl (st_self o) sf Hd Hsf) as (s1 & Hs1 & Hsl1).
      { intros p Hp. simpl in Hv, Hnd. rewrite Hp in Hv, Hnd.
        apply Forall_cons in Hv as [(op & sp & Hop & _) _].
        rewrite fmap_cons in Hnd. apply NoDup_cons in Hnd as [Hnot _].
        intros Heq. apply Hnot.
        assert (Ht : wrap_target w p = wrap_target w0 p).
        { unfold wrap_target.
          by rewrite (self_at_Some _ _ _ (lookup_weaken _ _ _ _ Hop Hsub)),
                     (self_at_Some _ _ _ Hop). }
        rewrite <- Ht, <- Heq.
        replace (sl, st_self o) with (wrap_target w0 (sl, state)).
        - apply list_elem_of_fmap. exists (sl, state). split; [done|].
          by eapply wrap_of_elem.
        - unfold wrap_target. simpl. by rewrite (self_at_Some _ _ _ Ho). }
      assert (s1 = sf1) as -> by congruence.
      exists o, sf, sf'. split_and!; [done|done|done|]. by rewrite Hslot, Hsl1.
Qed.

(** * The calls that a plan makes *)

Lemma classified_sublist (kind : string → bool) (path : list loc)
    (pl : list (option string)) :
  ∀ idx, classified kind path idx pl `sublist_of` drop idx path.
Proof.
  induction pl as [|x pl IH]; intros idx; cbn [classified]; [apply sublist_nil_l|].
  assert (Hrest : classified kind path (S idx) pl `sublist_of` drop idx path).
  { etrans; [apply IH|].
    replace (drop (S idx) path) with (drop 1 (drop idx path))
      by (rewrite drop_drop; f_equal; lia).
    apply sublist_drop. }
  destruct x as [value|]; [|exact Hrest].
  destruct (kind value); [|exact Hrest].
  destruct (path !! idx) as [state|] eqn:E; [|exact Hrest].
  rewrite (drop_S _ _ _ E). cbn [app]. apply sublist_skip, IH.
Qed.

(** The enter loop replaces the [onEnter] of the classified states of the
    to-path, in path order. *)
Lemma enter_steps_wraps_classified (path : list loc) (idx : nat)
    (pl : list (option string)) (be : list bstep) :
  enter_steps path idx pl be →
  omap wrap_of be = pair OnEnter <$> classified enter_kind path idx pl.
Proof.
  induction 1 as [idx|idx x rest bs Hx _ IH
                 |idx rest bs state p1 p2 Hl _ IH
                 |idx rest bs state Hl _ IH
                 |idx rest bs state Hl _ IH].
  - done.
  - cbn [classified]. destruct x as [value|]; [rewrite (Hx value eq_refl)|]; exact IH.
  - cbn [classified]. change (enter_kind "reactivate") with true. cbv iota.
    rewrite Hl. cbn [app fmap list_fmap omap list_omap wrap_of]. f_equal. exact IH.
  - cbn [classified]. change (enter_kind "updateStateParams") with true. cbv iota.
    rewrite Hl. cbn [app fmap list_fmap omap list_omap wrap_of]. f_equal. exact IH.
  - cbn [classified]. change (enter_kind "enter") with true. cbv iota.
    rewrite Hl. cbn [app fmap list_fmap omap list_omap wrap_of]. f_equal. exact IH.
Qed.

(** The exit loop replaces the [onExit] of the states it pushes on
    [exited]. *)
Lemma exit_steps_wraps_exited (path : list loc) (idx : nat)
    (pl : list (option string)) (bx : list bstep) :
  exit_steps path idx pl bx →
  omap wrap_of bx = pair OnExit <$> concat (exited_push <$> bx).
Proof.
  induction 1 as [idx|idx x rest bs Hx _ IH|idx rest bs state sur Hl _ IH
                 |idx rest bs state Hl _ IH].
  - done.
  - exact IH.
  - rewrite fmap_cons.
    cbn [concat exited_push app fmap list_fmap omap list_omap wrap_of]. f_equal. exact IH.
  - rewrite fmap_cons.
    cbn [concat exited_push app fmap list_fmap omap list_omap wrap_of]. f_equal. exact IH.
Qed.

(** The call for a classified entry of the enter plan, with the calls
    before it and after it. *)
Lemma enter_steps_at_kind (path : list loc) (idx : nat) (pl : list (option string))
    (be : list bstep) :
  enter_steps path idx pl be →
  ∀ j v, pl !! j = Some (Some v) → enter_kind v = true →
    ∃ state b pre post,
      path !! (idx + j) = Some state
      ∧ be = pre ++ b :: post
      ∧ enter_call v state b
      ∧ enter_steps path idx (take j pl) pre.
Proof.
  induction 1 as [idx|idx x rest bs Hx Hrest IH
                 |idx rest bs state p1 p2 Hl Hrest IH
                 |idx rest bs state Hl Hrest IH
                 |idx rest bs state Hl Hrest IH]; intros j v Hj Hk.
  - by rewrite lookup_nil in Hj.
  - destruct j as [|j]; simpl in Hj.
    + injection Hj as ->. rewrite (Hx _ eq_refl) in Hk. discriminate.
    + destruct (IH _ _ Hj Hk) as (st & b & pre & post & Hp & -> & Hc & Hpre).
      exists st, b, pre, post. replace (idx + S j) with (S idx + j) by lia.
      split_and!; [done|done|done|]. simpl. by constructor.
  - destruct j as [|j]; simpl in Hj.
    + injection Hj as <-. exists state, (BReactivate state p1 p2), [], bs.
      rewrite Nat.add_0_r. split_and!; [done|done| |constructor].
      left. split; [done|]. eauto.
    + destruct (IH _ _ Hj Hk) as (st & b & pre & post & Hp & -> & Hc & Hpre).
      exists st, b, (BReactivate state p1 p2 :: pre), post.
      replace (idx + S j) with (S idx + j) by lia.
      split_and!; [done|done|done|]. simpl. by constructor.
  - destruct j as [|j]; simpl in Hj.
    + injection Hj as <-. exists state, (BUpdateParams state), [], bs.
      rewrite Nat.add_0_r. split_and!; [done|done| |constructor].
      right. left. done.
    + destruct (IH _ _ Hj Hk) as (st & b & pre & post & Hp & -> & Hc & Hpre).
      exists st, b, (BUpdateParams state :: pre), post.
      replace (idx + S j) with (S idx + j) by lia.
      split_and!; [done|done|done|]. simpl. by constructor.
  - destruct j as [|j]; simpl in Hj.
    + injection Hj as <-. exists state, (BEnter state), [], bs.
      rewrite Nat.add_0_r. split_and!; [done|done| |constructor].
      right. right. done.
    + destruct (IH _ _ Hj Hk) as (st & b & pre & post & Hp & -> & Hc & Hpre).
      exists st, b, (BEnter state :: pre), post.
      replace (idx + S j) with (S idx + j) by lia.
      split_and!; [done|done|done|]. simpl. by constructor.
Qed.

Lemma exit_steps_at_kind (path : list loc) (idx : nat) (pl : list (option string))
    (bx : list bstep) :
  exit_steps path idx pl bx →
  ∀ j v, pl !! j = Some (Some v) → exit_kind v = true →
    ∃ state b pre post,
      path !! (idx + j) = Some state
      ∧ bx = pre ++ b :: post
      ∧ exit_call v state b
      ∧ exit_steps path idx (take j pl) pre.
Proof.
  induction 1 as [idx|idx x rest bs Hx Hrest IH
                 |idx rest bs state sur Hl Hrest IH
                 |idx rest bs state Hl Hrest IH]; intros j v Hj Hk.
  - by rewrite lookup_nil in Hj.
  - destruct j as [|j]; simpl in Hj.
    + injection Hj as ->. rewrite (Hx _ eq_refl) in Hk. discriminate.
    + destruct (IH _ _ Hj Hk) as (st & b & pre & post & Hp & -> & Hc & Hpre).
      exists st, b, pre, post. replace (idx + S j) with (S idx + j) by lia.
      split_and!; [done|done|done|]. simpl. by constructor.
  - destruct j as [|j]; simpl in Hj.
    + injection Hj as <-. exists state, (BInactivate state sur), [], bs.
      rewrite Nat.add_0_r. split_and!; [done|done| |constructor].
      left. split; [done|]. eauto.
    + destruct (IH _ _ Hj Hk) as (st & b & pre & post & Hp & -> & Hc & Hpre).
      exists st, b, (BInactivate state sur :: pre), post.
      replace (idx + S j) with (S idx + j) by lia.
      split_and!; [done|done|done|]. simpl. by constructor.
  - destruct j as [|j]; simpl in Hj.
    + injection Hj as <-. exists state, (BExit state), [], bs.
      rewrite Nat.add_0_r. split_and!; [done|done| |constructor].
      right. done.
    + destruct (IH _ _ Hj Hk) as (st & b & pre & post & Hp & -> & Hc & Hpre).
      exists st, b, (BExit state :: pre), post.
      replace (idx + S j) with (S idx + j) by lia.
      split_and!; [done|done|done|]. simpl. by constructor.
Qed.

(** Every classified entry of the exit plan pushes one element on the
    from-path and none on the to-path. *)
Lemma exit_steps_counts (path : list loc) (idx : nat) (pl : list (option string))
    (bx : list bstep) :
  exit_steps path idx pl bx →
  length (concat (from_push <$> bx)) = count_kind exit_kind pl.
Proof.
  induction 1 as [idx|idx x rest bs Hx _ IH|idx rest bs state sur Hl _ IH
                 |idx rest bs state Hl _ IH].
  - done.
  - destruct x as [value|]; cbn [count_kind]; [|done]. by rewrite (Hx _ eq_refl).
  - rewrite fmap_cons. cbn [concat from_push app length count_kind]. by rewrite IH.
  - rewrite fmap_cons. cbn [concat from_push app length count_kind]. by rewrite IH.
Qed.

Lemma pair_fmap_inj {A B} (a : A) (l1 l2 : list B) :
  pair a <$> l1 = pair a <$> l2 → l1 = l2.
Proof.
  revert l2. induction l1 as [|x l1 IH]; intros [|y l2] H; simpl in H;
    try discriminate; [done|].
  injection H as -> H. f_equal. by apply IH.
Qed.

(** The slots replaced by a substitution: the [onEnter] of the classified
    states of the to-path and the [onExit] of the states on [exited]. *)
Lemma substituted_hooks (cfg : config) (req : request)
    (k toState toParams : nat) (w0 w' : world) (sTo sFrom : loc)
    (toPath fromPath : list loc) (wl wb : world) (v : pathVars)
    (be bx bo : list bstep) (pto pfrom : loc) :
  substituted cfg req k toState toParams w0 w' sTo sFrom toPath fromPath
    wl wb v be bx bo pto pfrom →
  ∃ c, closures w' !! k = Some c
       ∧ c_exited c = concat (exited_push <$> (be ++ bx ++ bo))
       ∧ omap wrap_of (be ++ bx ++ bo)
         = (pair OnEnter <$> classified enter_kind toPath 0 (enter (plan req)))
           ++ (pair OnExit <$> c_exited c)
       ∧ classified enter_kind toPath 0 (enter (plan req)) `sublist_of` toPath
       ∧ c_exited c ⊆+ fromPath ++ inactiveStates req.
Proof.
  intros Hs.
  destruct (substituted_closure_start _ _ _ _ _ _ _ _ _ _ _ _ _ _ _ _ _ _ _ Hs)
    as (c0 & Hc0 & He0 & _).
  destruct Hs as [_ _ _ Hpb (w1 & Hin & ->)].
  destruct (exit_orphan_wraps _ _ _ _ _ _ _ _ _ _ _ _ _ Hpb) as (xos & Hxos & Hsubxo).
  pose proof Hpb as [Hen Hex Hb Horph].
  destruct (built_exited _ _ _ _ _ Hb _ Hc0) as (c & Hc & He).
  rewrite He0 in He. simpl in He.
  exists c. split; [simpl; by rewrite (in_closures _ _ _ _ _ _ _ Hin)|].
  split; [done|].
  assert (Hbe : concat (exited_push <$> be) = []) by (by eapply enter_steps_exited).
  assert (Hx : omap wrap_of (bx ++ bo)
               = pair OnExit <$> concat (exited_push <$> (bx ++ bo))).
  { rewrite omap_app, fmap_app, concat_app, fmap_app.
    rewrite (exit_steps_wraps_exited _ _ _ _ Hex). f_equal.
    simpl in Horph.
    destruct Horph as [(_ & o & sf & found & _ & _ & _ & -> & _)|(_ & -> & _)]; [|done].
    by rewrite orphan_steps_wraps, orphan_steps_exited. }
  assert (Hexo : c_exited c = concat (exited_push <$> (bx ++ bo))).
  { rewrite He, (fmap_app _ be), concat_app, Hbe. done. }
  split_and!.
  - rewrite omap_app, (enter_steps_wraps_classified _ _ _ _ Hen), Hx, Hexo. done.
  - pose proof (classified_sublist enter_kind toPath (enter (plan req)) 0) as H.
    by rewrite drop_0 in H.
  - rewrite Hexo. rewrite Hx in Hxos. apply pair_fmap_inj in Hxos. by rewrite Hxos.
Qed.

Lemma insert_with_path_upto (m : gmap loc stateObj) (state : loc) (o : stateObj)
    (p : option loc) (s : loc) (o1 : stateObj) :
  m !! state = Some o → m !! s = Some o1 →
  ∃ o', <[state := with_path p o]> m !! s = Some o'
        ∧ with_path None o' = with_path None o1
        ∧ (s ≠ state → o' = o1).
Proof.
  intros Hm Hs. destruct (decide (s = state)) as [->|Hne].
  - rewrite lookup_insert_eq. assert (o1 = o) as -> by congruence.
    eexists. split; [done|]. split; [done|]. done.
  - rewrite lookup_insert_ne by done. eauto.
Qed.

(** With pairwise distinct [self] objects no slot is replaced twice. *)
Lemma wrap_targets_ok (w0 : world) (E X toPath rest : list loc) :
  E `sublist_of` toPath → X ⊆+ rest →
  distinct_selfs w0 toPath → distinct_selfs w0 rest →
  Forall (λ p, valid_state w0 p.2) ((pair OnEnter <$> E) ++ (pair OnExit <$> X))
  ∧ NoDup (wrap_target w0 <$> ((pair OnEnter <$> E) ++ (pair OnExit <$> X))).
Proof.
  intros HE HX [Hvt Hnt] [Hvf Hnf]. split.
  - apply Forall_app. split; apply Forall_fmap, Forall_forall; intros s Hs; simpl.
    + rewrite Forall_forall in Hvt. apply Hvt.
      eapply elem_of_submseteq; [exact Hs|by apply sublist_submseteq].
    + rewrite Forall_forall in Hvf. apply Hvf. by eapply elem_of_submseteq.
  - rewrite fmap_app. apply NoDup_app. split; [|split].
    + eapply wrap_targets_NoDup; [|exact Hnt]. by apply sublist_submseteq.
    + intros x H1 H2. apply wrap_targets_slot in H1, H2. congruence.
    + by eapply wrap_targets_NoDup.
Qed.

(** * Accepting a request *)

(** The steps of the opening of the decorated [transitionTo]. *)
Lemma accept_inv (cfg : config) (req : request) (w w0 : world) (k : nat)
    (toState : option loc) (toParams : loc) :
  accept cfg req w = Some ((k, toState, toParams), w0) →
  ∃ wl wr wp,
    locals_linked cfg w wl
    ∧ call_pendingRestore (DEBUG req) wl = Some (tt, wr)
    ∧ toState = resolve_target cfg req wr
    ∧ toParams_given req toParams wr wp
    ∧ k = fresh (dom (closures wp))
    ∧ w0 = set_closures
             <[k := new_invocation req (length (pendingTransitions wl)) toState]> wp.
Proof.
  unfold accept. intros H.
  mstep H as ips w1 Hi. unfold read_obj in Hi. apply deref_Some in Hi as [Hi ->].
  mstep H as [] wl Hl. mstep H as idx w3 Hx. unfold gets in Hx. injection Hx as <- <-.
  mstep H as [] wr Hp. mstep H as ts w5 Ht. unfold gets in Ht. injection Ht as <- <-.
  mstep H as tp wp Htp.
  mstep H as k' w7 Hk. unfold new_closure in Hk. injection Hk as <- <-.
  unfold ret in H. injection H as <- <- <-.
  exists wl, wr, wp. split_and!; try done.
  - exists ips. split; [done|]. destruct (st_locals ips).
    + unfold ret in Hl. by injection Hl as <-.
    + mstep Hl as r w2 Hr. unfold read_obj in Hr. apply deref_Some in Hr as [Hr ->].
      unfold write_obj, modify in Hl. injection Hl as <-. eauto.
  - unfold toParams_given. destruct (toParams req).
    + unfold ret in Htp. by injection Htp as <- <-.
    + unfold new_pobj in Htp. by injection Htp as <- <-.
Qed.

Lemma call_pendingRestore_idle (debug : bool) (w : world) :
  pendingRestore w = None → call_pendingRestore debug w = Some (tt, w).
Proof. intros H. unfold call_pendingRestore, bind, gets. by rewrite H. Qed.

(** The bookkeeping of a substitution: the record is the last of the
    pending list, the slot names the invocation, and the closure still has
    the index read when the request was accepted. *)
Lemma substituted_bookkeeping (cfg : config) (req : request)
    (k toState toParams : nat) (w0 w' : world) (sTo sFrom : loc)
    (toPath fromPath : list loc) (wl wb : world) (v : pathVars)
    (be bx bo : list bstep) (pto pfrom : loc) (idx : nat) :
  substituted cfg req k toState toParams w0 w' sTo sFrom toPath fromPath
    wl wb v be bx bo pto pfrom →
  closures w0 !! k = Some (new_invocation req idx (Some toState)) →
  ∃ c rt, closures w' !! k = Some c ∧ c_idx c = idx
          ∧ c_restoreIsNoop c = false
          ∧ pendingTransitions w'
            = pendingTransitions w0
              ++ [{| tr_id := k; tr_toState := toState; tr_toParams := toParams;
                     tr_fromState := current req; tr_reloadStateTree := rt |}]
          ∧ pendingRestore w' = Some k.
Proof.
  intros Hs Hk0.
  destruct (substituted_closure_start _ _ _ _ _ _ _ _ _ _ _ _ _ _ _ _ _ _ _ Hs)
    as (c0 & Hc0 & _ & _ & _ & _ & _ & Hnoop & _).
  destruct Hs as [_ (wr & Hreg & Href) _ Hpb (w1 & Hin & ->)].
  apply refresh_inactive_locals_only in Href as (_ & _ & _ & _ & Hcl & Hpend & Hslot & _).
  destruct Hreg as [_ _ _ _ _ _ _ _ Hrslot (rt & Hrpend) _ (c & r & Hc & Hr & Hc')].
  assert (c = new_invocation req idx (Some toState)) as -> by congruence.
  destruct (push_fns_fields r (save_paths sTo sFrom (new_invocation req idx (Some toState))))
    as (_ & (Hi & _) & _).
  pose proof Hc0 as Hc0'. rewrite Hcl, Hc' in Hc0'. injection Hc0' as <-.
  destruct Hpb as [_ _ Hb _].
  pose proof (built_wframe _ _ _ _ _ Hb) as F.
  destruct (fr_closure _ _ _ _ F _ Hc0) as (c1 & Hc1 & (Hi1 & _ & _ & _ & _ & Hn1 & _)).
  exists c1, rt. simpl.
  rewrite (in_closures _ _ _ _ _ _ _ Hin), (in_pending _ _ _ _ _ _ _ Hin),
          (in_slot _ _ _ _ _ _ _ Hin), (fr_pending _ _ _ _ F), (fr_slot _ _ _ _ F),
          Hpend, Hslot, Hrpend, Hrslot.
  split_and!; [done|by rewrite Hi1, Hi|by rewrite Hn1, Hnoop|done|done].
Qed.

(** * Restoring after a substitution *)


(** * The reload parameter *)

Lemma elem_of_set_key (k : string) (l : list string) : k ∈ set_key k l.
Proof.
  unfold set_key. case_bool_decide; [done|]. apply elem_of_app. right. by left.
Qed.

Lemma delete_key_absent (k : string) (l : list string) : k ∉ l → delete_key k l = l.
Proof.
  intros H. unfold delete_key. induction l as [|x l IH]; [done|].
  apply not_elem_of_cons in H as [Hx Hl].
  rewrite filter_cons_True by done. by rewrite IH.
Qed.

Lemma delete_key_not_elem (k : string) (l : list string) : k ∉ delete_key k l.
Proof. unfold delete_key. intros H. apply list_elem_of_filter in H as [H _]. done. Qed.

Lemma delete_set_key (k : string) (l : list string) :
  k ∉ l → delete_key k (set_key k l) = l.
Proof.
  intros H. unfold set_key. rewrite bool_decide_eq_false_2 by done.
  unfold delete_key. rewrite filter_app, filter_cons_False, filter_nil, app_nil_r by (by intros ?).
  by apply delete_key_absent.
Qed.

Lemma pop_length_push (l : list string) (x : string) : pop_length (l ++ [x]) = Some l.
Proof.
  unfold pop_length. destruct (l ++ [x]) as [|y t] eqn:E.
  - by destruct l.
  - rewrite <- E. by rewrite removelast_last.
Qed.

Lemma set_key_idem (k : string) (l : list string) :
  set_key k (set_key k l) = set_key k l.
Proof.
  unfold set_key at 1. rewrite bool_decide_eq_true_2; [done|apply elem_of_set_key].
Qed.

(** * The plain objects that a substitution writes *)

Lemma add_reload_param_pobjs (cfg : config) (req : request) (k : nat)
    (tp r : loc) (w w' : world) (u : unit) :
  add_reload_param cfg req k tp r w = Some (u, w') →
  (∀ l', l' ≠ tp → pobjs w' !! l' = pobjs w !! l')
  ∧ (∀ l p, pobjs w !! l = Some p →
            ∃ p', pobjs w' !! l = Some p' ∧ proto p' = proto p
                  ∧ ∀ key, key ≠ reloadKey → own p' !! key = own p !! key).
Proof.
  unfold add_reload_param. intros H. destruct u.
  mstep H as tpo w1 Htp. unfold read_pobj in Htp. apply deref_Some in Htp as [Htp ->].
  mstep H as [] w1 Hw. unfold write_pobj, modify in Hw. injection Hw as <-.
  mstep H as rs w1 Hrs. unfold read_self in Hrs. apply deref_Some in Hrs as [Hrs ->].
  mstep H as state w1 Hst. apply deref_Some in Hst as [Hst ->].
  mstep H as o w1 Ho. unfold read_obj in Ho. apply deref_Some in Ho as [Ho ->].
  mstep H as params w1 Hpa. apply deref_Some in Hpa as [Hpa ->].
  mstep H as ownParams w1 Hop. apply deref_Some in Hop as [Hop ->].
  assert (Hp : pobjs w' = <[tp := {| own := <[reloadKey := VRef (random req)]> (own tpo);
                                      proto := proto tpo |}]> (pobjs w)).
  { destruct (hasParamSet cfg).
    - mstep H as op w1 Hr1. unfold read_params in Hr1. apply deref_Some in Hr1 as [Hr1 ->].
      mstep H as [] w1 Hw1. unfold write_params, modify in Hw1. injection Hw1 as <-.
      mstep H as p w1 Hr2. unfold read_params in Hr2. apply deref_Some in Hr2 as [Hr2 ->].
      mstep H as [] w1 Hw2. unfold write_params, modify in Hw2. injection Hw2 as <-.
      unfold pushRestoreFunction, addRestoreFunction in H.
      mstep H as c w1 Hc. unfold read_closure in Hc. apply deref_Some in Hc as [Hc ->].
      unfold write_closure, modify in H. by injection H as <-.
    - mstep H as p w1 Hr1. unfold read_params in Hr1. apply deref_Some in Hr1 as [Hr1 ->].
      mstep H as [] w1 Hw1. unfold write_params, modify in Hw1. injection Hw1 as <-.
      mstep H as op w1 Hr2. unfold read_params in Hr2. apply deref_Some in Hr2 as [Hr2 ->].
      mstep H as [] w1 Hw2. unfold write_params, modify in Hw2. injection Hw2 as <-.
      unfold pushRestoreFunction, addRestoreFunction in H.
      mstep H as c w1 Hc. unfold read_closure in Hc. apply deref_Some in Hc as [Hc ->].
      unfold write_closure, modify in H. by injection H as <-. }
  rewrite Hp. split.
  - intros l' Hne. by rewrite lookup_insert_ne.
  - intros l p Hl. destruct (decide (l = tp)) as [->|Hne].
    + rewrite lookup_insert_eq. eexists. split; [done|]. simpl.
      assert (p = tpo) as -> by congruence. split; [done|].
      intros key Hk. by rewrite lookup_insert_ne.
    + rewrite lookup_insert_ne by done. by exists p.
Qed.

(** Registering a transition writes no plain object but [toParams], for
    the reload marker, and the caller's [options], whose [reload] property
    it deletes when that names a state. *)
Lemma register_transition_pobjs (cfg : config) (req : request) (k toState tp : nat)
    (w wr : world) (v0 : pathVars) :
  register_transition cfg req k toState tp w = Some (v0, wr) →
  (∀ l', l' ≠ tp → options req ≠ Some l' ∨ (∀ n, reload req ≠ ReloadState n) →
         pobjs wr !! l' = pobjs w !! l')
  ∧ (reload req = ReloadFalse → pobjs wr = pobjs w)
  ∧ (∀ l p, pobjs w !! l = Some p →
            ∃ p', pobjs wr !! l = Some p' ∧ proto p' = proto p
                  ∧ ∀ key, key ≠ "reload" → key ≠ reloadKey →
                           own p' !! key = own p !! key).
Proof.
  unfold register_transition. intros H.
  mstep H as tso w1 Ht. unfold read_obj in Ht. apply deref_Some in Ht as [Ht ->].
  mstep H as fso w1 Hf. unfold read_obj in Hf. apply deref_Some in Hf as [Hf ->].
  mstep H as sTo w1 Hst. apply deref_Some in Hst as [Hst ->].
  mstep H as sFrom w1 Hsf. apply deref_Some in Hsf as [Hsf ->].
  mstep H as c w1 Hc. unfold read_closure in Hc. apply deref_Some in Hc as [Hc ->].
  mstep H as [] w1 Hw. unfold write_closure, modify in Hw. injection Hw as <-.
  mstep H as rt w1 Hrt. pose proof (reloadStateTree_of_pure _ _ _ _ _ _ Hrt) as ->.
  mstep H as [] wd Hdel.
  pose proof (delete_options_reload_spec _ _ _ _ Hdel) as (_ & _ & Hdo & Hdk).
  simpl in Hdo, Hdk.
  mstep H as [] w1 Hp1. unfold modify in Hp1. injection Hp1 as <-.
  mstep H as [] w1 Hp2. unfold modify in Hp2. injection Hp2 as <-.
  mstep H as [] w2 Hre. mstep H as [] w3 Hdbg.
  mstep H as toPath w4 Hta. unfold read_array in Hta. apply deref_Some in Hta as [Hta ->].
  mstep H as fromPath w4 Hfa. unfold read_array in Hfa.
  apply deref_Some in Hfa as [Hfa ->].
  unfold ret in H. injection H as <- <-.
  assert (Hd : pobjs w3 = pobjs w2).
  { destruct (DEBUG req); unfold modify, ret in Hdbg; by injection Hdbg as <-. }
  rewrite Hd. split; [|split].
  - intros l' Hne Hopt. rewrite <- (Hdo l' Hopt). destruct rt as [r|].
    + destruct (add_reload_param_pobjs _ _ _ _ _ _ _ _ Hre) as [Hother _].
      by rewrite (Hother l' Hne).
    + unfold ret in Hre. by injection Hre as <-.
  - intros Hrl. unfold reloadStateTree_of in Hrt. rewrite Hrl in Hrt.
    unfold ret in Hrt. injection Hrt as <-.
    unfold ret in Hre. injection Hre as <-. simpl.
    apply map_eq. intros l'. apply Hdo. right. intros n. by rewrite Hrl.
  - intros l p Hl. destruct (Hdk _ _ Hl) as (p1 & Hp1 & Hproto1 & Hk1).
    destruct rt as [r|].
    + destruct (add_reload_param_pobjs _ _ _ _ _ _ _ _ Hre) as [_ Hkeys].
      destruct (Hkeys l p1) as (p2 & Hp2 & Hproto2 & Hk2); [done|].
      exists p2. split; [done|]. split; [congruence|].
      intros key Hn1 Hn2. by rewrite (Hk2 key Hn2), (Hk1 key Hn1).
    + unfold ret in Hre. injection Hre as <-. simpl.
      exists p1. split; [done|]. split; [done|].
      intros key Hn1 _. by apply Hk1.
Qed.

(** The refresh writes the locals of the inactive pseudo-state only, and of
    them only the view entries. *)
Lemma load_loop_plain (cfg : config) (l : loc) (io : stateObj) (inactives : list loc) :
  ∀ (w w' : world) (p : pobj),
    forEach (load_inactive_locals cfg) inactives w = Some (tt, w') →
    objs w !! inactivePseudoState cfg = Some io → st_locals io = Some l →
    pobjs w !! l = Some p →
    writes_only l w w'
    ∧ ∃ p', pobjs w' !! l = Some p' ∧ proto p' = proto p
            ∧ ∀ key, has_at key = false → own p' !! key = own p !! key.
Proof.
  induction inactives as [|i rest IH]; intros w w' p H Hio Hl Hp.
  - simpl in H. unfold ret in H. injection H as <-.
    split; [apply writes_only_refl|]. eauto.
  - simpl in H. mstep H as [] w1 Hi.
    destruct (load_inactive_locals_spec _ _ _ _ _ _ _ _ Hi Hio Hl Hp)
      as (W1 & p1 & Hp1 & Hown & Hproto).
    assert (Hio1 : objs w1 !! inactivePseudoState cfg = Some io).
    { destruct W1 as (-> & _). done. }
    destruct (IH _ _ _ H Hio1 Hl Hp1) as (W2 & p2 & Hp2 & Hproto2 & Hkeys).
    split; [by eapply writes_only_trans|].
    exists p2. split; [done|]. split; [congruence|].
    intros key Hk. rewrite (Hkeys key Hk), Hown.
    apply lookup_union_r. by apply views_of_only_views.
Qed.

Lemma refresh_inactive_locals_plain (cfg : config) (req : request) (w w' : world)
    (io : stateObj) (l : loc) :
  refresh_inactive_locals cfg req w = Some (tt, w') →
  objs w !! inactivePseudoState cfg = Some io → st_locals io = Some l →
  writes_only l w w'
  ∧ ∃ p p', pobjs w !! l = Some p ∧ pobjs w' !! l = Some p'
            ∧ proto p' = proto p
            ∧ ∀ key, has_at key = false → own p' !! key = own p !! key.
Proof.
  unfold refresh_inactive_locals. intros H Hio Hl.
  mstep H as [] w1 Hc.
  destruct (clear_inactive_locals_spec _ _ _ _ _ _ Hc Hio Hl) as (W1 & p & Hp & Hp1).
  assert (Hio1 : objs w1 !! inactivePseudoState cfg = Some io).
  { destruct W1 as (-> & _). done. }
  destruct (load_loop_plain _ _ _ _ _ _ _ H Hio1 Hl Hp1) as (W2 & p2 & Hp2 & Hproto & Hkeys).
  split; [by eapply writes_only_trans|].
  exists p, p2. split_and!; [done|done|by rewrite Hproto|].
  intros key Hk. rewrite (Hkeys key Hk), clear_views_lookup, Hk. done.
Qed.

(** * What the decorated function announces *)

Lemma register_transition_trace (cfg : config) (req : request) (k toState tp : nat)
    (w wr : world) (v0 : pathVars) :
  register_transition cfg req k toState tp w = Some (v0, wr) →
  trace wr = trace w ++ (if DEBUG req then [EvDebugTransition k] else []).
Proof.
  unfold register_transition. intros H.
  mstep H as tso w1 Ht. unfold read_obj in Ht. apply deref_Some in Ht as [Ht ->].
  mstep H as fso w1 Hf. unfold read_obj in Hf. apply deref_Some in Hf as [Hf ->].
  mstep H as sTo w1 Hst. apply deref_Some in Hst as [Hst ->].
  mstep H as sFrom w1 Hsf. apply deref_Some in Hsf as [Hsf ->].
  mstep H as c w1 Hc. unfold read_closure in Hc. apply deref_Some in Hc as [Hc ->].
  mstep H as [] w1 Hw. unfold write_closure, modify in Hw. injection Hw as <-.
  mstep H as rt w1 Hrt. apply reloadStateTree_of_pure in Hrt as ->.
  mstep H as [] wd Hdel.
  apply delete_options_reload_spec
    in Hdel as ((_ & _ & _ & _ & _ & _ & _ & Hdt) & _).
  simpl in Hdt.
  mstep H as [] w1 Hp1. unfold modify in Hp1. injection Hp1 as <-.
  mstep H as [] w1 Hp2. unfold modify in Hp2. injection Hp2 as <-.
  mstep H as [] w2 Hre. mstep H as [] w3 Hdbg.
  mstep H as toPath w4 Hta. unfold read_array in Hta. apply deref_Some in Hta as [Hta ->].
  mstep H as fromPath w4 Hfa. unfold read_array in Hfa.
  apply deref_Some in Hfa as [Hfa ->].
  unfold ret in H. injection H as <- <-.
  assert (Hw2 : trace w2 = trace w).
  { rewrite <- Hdt. destruct rt as [r|].
    - by apply add_reload_param_spec in Hre as (_ & _ & _ & _ & _ & -> & _).
    - unfold ret in Hre. by injection Hre as <-. }
  destruct (DEBUG req); unfold modify, ret in Hdbg; injection Hdbg as <-; simpl.
  - by rewrite Hw2.
  - by rewrite Hw2, app_nil_r.
Qed.

Lemma install_paths_trace (req : request) (toState : nat) (v : pathVars)
    (w w' : world) (u : unit) :
  install_paths req toState v w = Some (u, w') →
  trace w' = trace w
             ++ (if DEBUG req
                 then [EvLogDebug "SurrogateFromPath: "; EvLogDebug "SurrogateToPath:   "]
                 else []).
Proof.
  unfold install_paths. intros H. destruct u.
  mstep H as pto w1 Hn1. unfold new_array in Hn1. injection Hn1 as <- <-.
  mstep H as [] w2 Ha1. apply assign_path_closures in Ha1 as (_ & _ & _ & Ht1 & _).
  mstep H as pfrom w3 Hn2. unfold new_array in Hn2. injection Hn2 as <- <-.
  mstep H as [] w4 Ha2. apply assign_path_closures in Ha2 as (_ & _ & _ & Ht2 & _).
  simpl in *. destruct (DEBUG req).
  - mstep H as [] w5 Hd. unfold modify in Hd, H. injection Hd as <-.
    injection H as <-. simpl. rewrite Ht2, Ht1, <- app_assoc. done.
  - unfold ret in H. injection H as <-. by rewrite Ht2, Ht1, app_nil_r.
Qed.

Lemma call_pendingRestore_trace (debug : bool) (w w' : world) (u : unit) :
  call_pendingRestore debug w = Some (u, w') →
  trace w' = trace w
             ++ (if debug
                 then match pendingRestore w with
                      | Some _ => [EvLogDebug "Restored paths from pending transition"]
                      | None => []
                      end
                 else []).
Proof.
  unfold call_pendingRestore. intros H. destruct u.
  mstep H as pr w1 Hpr. unfold gets in Hpr. injection Hpr as <- <-.
  destruct (pendingRestore w) as [j|].
  - mstep H as [] w2 Hb. apply restore_body_latches in Hb as (c & _ & _ & _ & _ & Ht).
    destruct debug; unfold modify, ret in H; injection H as <-; simpl.
    + by rewrite Ht.
    + by rewrite Ht, app_nil_r.
  - unfold ret in H. injection H as <-. destruct debug; by rewrite app_nil_r.
Qed.

(** * The parameter lists across a substitution and its rollback *)

(** The builders only add hook undo actions, behind the ones that are
    there. *)
Lemma wraps_undos (sl : slot) (k state : nat) (h : hook → hook) (w w' : world)
    (c : closure) :
  wraps sl k state h w w' →
  closures w !! k = Some c →
  ∃ c' hs, closures w' !! k = Some c'
           ∧ c_restoreFunctions c' = c_restoreFunctions c ++ hs
           ∧ Forall (λ u, ¬ is_reload_undo u) hs.
Proof.
  intros (_ & o & sf & c0 & _ & _ & Hc0 & Hc' & _) Hc.
  assert (c0 = c) as -> by congruence.
  eexists _, [_]. split; [exact Hc'|]. split; [done|].
  constructor; [|constructor]. destruct sl; simpl; by intros ?.
Qed.

Lemma push_exited_undos (k : nat) (l : list loc) (w w' : world) (c : closure) :
  push_exited k l w = Some (tt, w') →
  closures w !! k = Some c →
  ∃ c', closures w' !! k = Some c' ∧ c_restoreFunctions c' = c_restoreFunctions c.
Proof.
  intros H Hc. apply push_exited_spec in H as (c0 & Hc0 & ->).
  assert (c0 = c) as -> by congruence.
  exists (push_exits l c). split; [simpl; by rewrite lookup_insert_eq|done].
Qed.

Lemma does_undos (cfg : config) (k : nat) (b : bstep) (w w' : world) (c : closure) :
  does cfg k b w w' →
  closures w !! k = Some c →
  ∃ c' hs, closures w' !! k = Some c'
           ∧ c_restoreFunctions c' = c_restoreFunctions c ++ hs
           ∧ Forall (λ u, ¬ is_reload_undo u) hs.
Proof.
  intros Hd Hc. destruct b; simpl in *.
  - destruct Hd as (wa & H1 & H2).
    destruct (stateReactivatedSurrogatePhase1_spec cfg k _ _ _ _ H1)
      as (_ & _ & Hcl & _).
    destruct (stateReactivatedSurrogatePhase2_spec cfg k _ _ _ _ H2)
      as (_ & _ & Hw & _).
    rewrite <- Hcl in Hc. by eapply wraps_undos.
  - apply stateUpdateParamsSurrogate_spec in Hd as [_ Hw]. by eapply wraps_undos.
  - apply stateEnteredSurrogate_spec in Hd as [_ Hw]. by eapply wraps_undos.
  - destruct Hd as (wa & H1 & H2).
    destruct (stateInactivatedSurrogate_spec cfg k _ _ _ _ H1) as (_ & _ & Hw & _).
    destruct (wraps_undos _ _ _ _ _ _ _ Hw Hc) as (c1 & hs & Hc1 & Hfn & Hhs).
    destruct (push_exited_undos _ _ _ _ _ H2 Hc1) as (c2 & Hc2 & Hfn2).
    exists c2, hs. by rewrite Hfn2.
  - destruct Hd as (wa & H1 & H2).
    apply stateExitedSurrogate_spec in H1 as [_ Hw].
    destruct (wraps_undos _ _ _ _ _ _ _ Hw Hc) as (c1 & hs & Hc1 & Hfn & Hhs).
    destruct (push_exited_undos _ _ _ _ _ H2 Hc1) as (c2 & Hc2 & Hfn2).
    exists c2, hs. by rewrite Hfn2.
  - apply stateExitedSurrogate_spec in Hd as [_ Hw]. by eapply wraps_undos.
  - destruct (push_exited_undos _ _ _ _ _ Hd Hc) as (c2 & Hc2 & Hfn2).
    exists c2, []. by rewrite Hfn2, app_nil_r.
Qed.

Lemma built_undos (cfg : config) (k : nat) (bs : list bstep) (w w' : world) :
  built cfg k bs w w' →
  ∀ c, closures w !! k = Some c →
    ∃ c' hs, closures w' !! k = Some c'
             ∧ c_restoreFunctions c' = c_restoreFunctions c ++ hs
             ∧ Forall (λ u, ¬ is_reload_undo u) hs.
Proof.
  induction 1 as [w|b bs w w1 w2 Hd Hb IH]; intros c Hc.
  - exists c, []. by rewrite app_nil_r.
  - destruct (does_undos _ _ _ _ _ _ Hd Hc) as (c1 & hs1 & Hc1 & Hfn1 & Hhs1).
    destruct (IH _ Hc1) as (c2 & hs2 & Hc2 & Hfn2 & Hhs2).
    exists c2, (hs1 ++ hs2). split; [done|].
    split; [by rewrite Hfn2, Hfn1, app_assoc|]. by apply Forall_app.
Qed.

(** The undo actions of the hooks never touch a parameter list. *)
Lemma hook_undos_params (hs : list undo) (w w' : world) (u : unit) :
  Forall (λ u, ¬ is_reload_undo u) hs →
  forEach run_undo hs w = Some (u, w') →
  paramsH w' = paramsH w.
Proof.
  revert w u. induction hs as [|fn hs IH]; intros w u Hhs H; simpl in H.
  - by minv.
  - apply Forall_cons in Hhs as [Hfn Hhs]. minv. rewrite (IH _ _ Hhs H).
    destruct fn; simpl in *; try (by destruct Hfn);
      unfold assign_onEnter, assign_onExit in *; by minv.
Qed.

Lemma install_paths_params (req : request) (toState : nat) (v : pathVars)
    (w w' : world) (u : unit) :
  install_paths req toState v w = Some (u, w') →
  paramsH w' = paramsH w ∧ closures w' = closures w.
Proof.
  unfold install_paths. intros H. destruct u.
  mstep H as pto w1 Hn1. unfold new_array in Hn1. injection Hn1 as <- <-.
  mstep H as [] w2 Ha1. apply assign_path_closures in Ha1 as (Hc1 & _ & _ & _ & _ & _ & _ & Hp1).
  mstep H as pfrom w3 Hn2. unfold new_array in Hn2. injection Hn2 as <- <-.
  mstep H as [] w4 Ha2. apply assign_path_closures in Ha2 as (Hc2 & _ & _ & _ & _ & _ & _ & Hp2).
  simpl in *. destruct (DEBUG req).
  - mstep H as [] w5 Hd. unfold modify in Hd, H. injection Hd as <-.
    injection H as <-. simpl. by rewrite Hp2, Hp1, Hc2, Hc1.
  - unfold ret in H. injection H as <-. by rewrite Hp2, Hp1, Hc2, Hc1.
Qed.

(** The rollback changes the parameter lists only by running the undo
    actions. *)
Lemma call_restore_params (k : nat) (w w2 : world) (c : closure) :
  call_restore k w = Some (tt, w2) →
  closures w !! k = Some c →
  c_restoreIsNoop c = false →
  ∃ wA wC, paramsH wA = paramsH w
           ∧ forEach run_undo (c_restoreFunctions c) wA = Some (tt, wC)
           ∧ paramsH w2 = paramsH wC.
Proof.
  intros H Hc Hnoop. unfold call_restore in H.
  mstep H as c0 wa Hc0. unfold read_closure in Hc0.
  apply deref_Some in Hc0 as [Hc0 ->]. assert (c0 = c) as -> by congruence.
  rewrite Hnoop in H. unfold restore_body in H.
  mstep H as c1 wa Hc1. unfold read_closure in Hc1.
  apply deref_Some in Hc1 as [Hc1 ->]. assert (c1 = c) as -> by congruence.
  rewrite Hnoop in H.
  mstep H as [] wA HA. mstep H as [] wB HB. mstep H as [] wC HC.
  mstep H as [] wD HD. unfold write_closure, modify in HD. injection HD as <-.
  mstep H as [] wE HE. unfold modify in HE. injection HE as <-.
  unfold modify in H. injection H as <-.
  exists wB, wC. split; [|done].
  assert (HpA : paramsH wA = paramsH w).
  { destruct (c_savedToStatePath c); [|unfold ret in HA; by injection HA as <-].
    mstep HA as ts wa Hts. apply deref_Some in Hts as [Hts ->].
    by apply assign_path_closures in HA as (_ & _ & _ & _ & _ & _ & _ & ?). }
  rewrite <- HpA.
  destruct (c_savedFromStatePath c); [|unfold ret in HB; by injection HB as <-].
  by apply assign_path_closures in HB as (_ & _ & _ & _ & _ & _ & _ & ?).
Qed.

(** The undo action of the reload block puts the lists of the reloaded
    tree back also when it runs later, in a store that has grown. *)
Lemma reload_undo_back (cfg : config) (req : request) (k : nat) (tp r : loc)
    (w w1 : world) (c : closure) :
  add_reload_param cfg req k tp r w = Some (tt, w1) →
  closures w !! k = Some c →
  hasParamSet cfg = false ∨ (∀ l p, paramsH w !! l = Some p → reloadKey ∉ p) →
  ∃ u, closures w1 = <[k := push_fn u c]> (closures w) ∧ is_reload_undo u
       ∧ ∀ wx, paramsH w1 ⊆ paramsH wx →
           ∃ wy, run_undo u wx = Some (tt, wy) ∧ paramsH w ⊆ paramsH wy.
Proof.
  unfold add_reload_param. intros H Hk Hcase.
  mstep H as tpo wa Htp. unfold read_pobj in Htp. apply deref_Some in Htp as [Htp ->].
  mstep H as [] wa Hw. unfold write_pobj, modify in Hw. injection Hw as <-.
  mstep H as rs wa Hrs. unfold read_self in Hrs. apply deref_Some in Hrs as [Hrs ->].
  mstep H as state wa Hst. apply deref_Some in Hst as [Hst ->].
  mstep H as o wa Ho. unfold read_obj in Ho. apply deref_Some in Ho as [Ho ->].
  mstep H as params wa Hpa. apply deref_Some in Hpa as [Hpa ->].
  mstep H as ownParams wa Hop. apply deref_Some in Hop as [Hop ->].
  simpl in Hrs, Ho.
  destruct (hasParamSet cfg) eqn:Hset.
  - destruct Hcase as [?|Habs]; [done|].
    mstep H as op wa Hr1. unfold read_params in Hr1. apply deref_Some in Hr1 as [Hr1 ->].
    mstep H as [] wa Hw1. unfold write_params, modify in Hw1. injection Hw1 as <-.
    mstep H as p1 wa Hr2. unfold read_params in Hr2. apply deref_Some in Hr2 as [Hr2 ->].
    mstep H as [] wa Hw2. unfold write_params, modify in Hw2. injection Hw2 as <-.
    unfold pushRestoreFunction, addRestoreFunction in H.
    mstep H as c' wa Hc. unfold read_closure in Hc. apply deref_Some in Hc as [Hc ->].
    unfold write_closure, modify in H. injection H as <-. simpl in *.
    assert (c' = c) as -> by congruence.
    pose proof (Habs _ _ Hr1) as Hnop.
    exists (UDeleteParam params ownParams). split; [done|]. split; [done|].
    intros wx Hsub.
    destruct (decide (params = ownParams)) as [->|Hne].
    + rewrite lookup_insert_eq in Hr2. injection Hr2 as <-.
      assert (Hx : paramsH wx !! ownParams
                   = Some (set_key reloadKey (set_key reloadKey op))).
      { eapply lookup_weaken; [|exact Hsub]. by rewrite lookup_insert_eq. }
      eexists. split.
      { simpl. unfold bind, read_params, write_params, modify, deref. simpl.
        rewrite Hx. simpl. rewrite lookup_insert_eq. reflexivity. }
      simpl. apply map_subseteq_spec. intros i x Hi.
      destruct (decide (i = ownParams)) as [->|Hi1].
      * rewrite lookup_insert_eq.
        rewrite set_key_idem, (delete_set_key _ _ Hnop), (delete_key_absent _ _ Hnop).
        congruence.
      * rewrite !lookup_insert_ne by done.
        eapply lookup_weaken; [|exact Hsub]. by rewrite !lookup_insert_ne.
    + rewrite lookup_insert_ne in Hr2 by done.
      pose proof (Habs _ _ Hr2) as Hnp.
      assert (Hx1 : paramsH wx !! params = Some (set_key reloadKey p1)).
      { eapply lookup_weaken; [|exact Hsub]. by rewrite lookup_insert_eq. }
      assert (Hx2 : paramsH wx !! ownParams = Some (set_key reloadKey op)).
      { eapply lookup_weaken; [|exact Hsub].
        by rewrite lookup_insert_ne, lookup_insert_eq. }
      eexists. split.
      { simpl. unfold bind, read_params, write_params, modify, deref. simpl.
        rewrite Hx1. simpl. rewrite lookup_insert_ne, Hx2 by done. reflexivity. }
      simpl. apply map_subseteq_spec. intros i x Hi.
      destruct (decide (i = ownParams)) as [->|Hi1].
      * rewrite lookup_insert_eq, (delete_set_key _ _ Hnop). congruence.
      * rewrite lookup_insert_ne by done.
        destruct (decide (i = params)) as [->|Hi2].
        -- rewrite lookup_insert_eq, (delete_set_key _ _ Hnp). congruence.
        -- rewrite lookup_insert_ne by done.
           eapply lookup_weaken; [|exact Hsub]. by rewrite !lookup_insert_ne.
  - mstep H as p wa Hr1. unfold read_params in Hr1. apply deref_Some in Hr1 as [Hr1 ->].
    mstep H as [] wa Hw1. unfold write_params, modify in Hw1. injection Hw1 as <-.
    mstep H as op1 wa Hr2. unfold read_params in Hr2. apply deref_Some in Hr2 as [Hr2 ->].
    mstep H as [] wa Hw2. unfold write_params, modify in Hw2. injection Hw2 as <-.
    unfold pushRestoreFunction, addRestoreFunction in H.
    mstep H as c' wa Hc. unfold read_closure in Hc. apply deref_Some in Hc as [Hc ->].
    unfold write_closure, modify in H. injection H as <-. simpl in *.
    assert (c' = c) as -> by congruence.
    exists (UPopParam params ownParams). split; [done|]. split; [done|].
    intros wx Hsub.
    destruct (decide (params = ownParams)) as [->|Hne].
    + rewrite lookup_insert_eq in Hr2. injection Hr2 as <-.
      assert (Hx : paramsH wx !! ownParams = Some ((p ++ [reloadKey]) ++ [reloadKey])).
      { eapply lookup_weaken; [|exact Hsub]. by rewrite lookup_insert_eq. }
      eexists. split.
      { simpl. unfold bind, read_params, write_params, modify, deref. simpl.
        rewrite Hx. rewrite pop_length_push. simpl.
        rewrite lookup_insert_eq. rewrite pop_length_push. reflexivity. }
      simpl. apply map_subseteq_spec. intros i x Hi.
      destruct (decide (i = ownParams)) as [->|Hi1].
      * rewrite lookup_insert_eq. congruence.
      * rewrite !lookup_insert_ne by done.
        eapply lookup_weaken; [|exact Hsub]. by rewrite !lookup_insert_ne.
    + rewrite lookup_insert_ne in Hr2 by done.
      assert (Hx1 : paramsH wx !! params = Some (p ++ [reloadKey])).
      { eapply lookup_weaken; [|exact Hsub].
        by rewrite lookup_insert_ne, lookup_insert_eq. }
      assert (Hx2 : paramsH wx !! ownParams = Some (op1 ++ [reloadKey])).
      { eapply lookup_weaken; [|exact Hsub]. by rewrite lookup_insert_eq. }
      eexists. split.
      { simpl. unfold bind, read_params, write_params, modify, deref. simpl.
        rewrite Hx1. rewrite pop_length_push. simpl.
        rewrite lookup_insert_ne, Hx2 by done. rewrite pop_length_push. reflexivity. }
      simpl. apply map_subseteq_spec. intros i x Hi.
      destruct (decide (i = ownParams)) as [->|Hi1].
      * rewrite lookup_insert_eq. congruence.
      * rewrite lookup_insert_ne by done.
        destruct (decide (i = params)) as [->|Hi2].
        -- rewrite lookup_insert_eq. congruence.
        -- rewrite lookup_insert_ne by done.
           eapply lookup_weaken; [|exact Hsub]. by rewrite !lookup_insert_ne.
Qed.

(** [register_transition] changes parameter lists in the reload block
    only. *)
Lemma register_transition_reload (cfg : config) (req : request) (k toState tp : nat)
    (w wr : world) (v0 : pathVars) (c : closure) :
  register_transition cfg req k toState tp w = Some (v0, wr) →
  closures w !! k = Some c →
  ∃ sTo sFrom,
    (paramsH wr = paramsH w
     ∧ closures wr !! k = Some (save_paths sTo sFrom c))
    ∨ (∃ r wa wb, add_reload_param cfg req k tp r wa = Some (tt, wb)
         ∧ paramsH wa = paramsH w
         ∧ closures wa !! k = Some (save_paths sTo sFrom c)
         ∧ paramsH wr = paramsH wb ∧ closures wr = closures wb).
Proof.
  unfold register_transition. intros H Hk.
  mstep H as tso w1 Ht. unfold read_obj in Ht. apply deref_Some in Ht as [Ht ->].
  mstep H as fso w1 Hf. unfold read_obj in Hf. apply deref_Some in Hf as [Hf ->].
  mstep H as sTo w1 Hst. apply deref_Some in Hst as [Hst ->].
  mstep H as sFrom w1 Hsf. apply deref_Some in Hsf as [Hsf ->].
  mstep H as c' w1 Hc. unfold read_closure in Hc. apply deref_Some in Hc as [Hc ->].
  assert (c' = c) as -> by congruence.
  mstep H as [] w1 Hw. unfold write_closure, modify in Hw. injection Hw as <-.
  mstep H as rt w1 Hrt. apply reloadStateTree_of_pure in Hrt as ->.
  mstep H as [] wd Hdel.
  apply delete_options_reload_spec
    in Hdel as ((_ & _ & _ & Hdp & Hdc & _) & _).
  simpl in Hdp, Hdc.
  mstep H as [] w1 Hp1. unfold modify in Hp1. injection Hp1 as <-.
  mstep H as [] w1 Hp2. unfold modify in Hp2. injection Hp2 as <-.
  mstep H as [] w2 Hre. mstep H as [] w3 Hdbg.
  mstep H as toPath w4 Hta. unfold read_array in Hta. apply deref_Some in Hta as [Hta ->].
  mstep H as fromPath w4 Hfa. unfold read_array in Hfa.
  apply deref_Some in Hfa as [Hfa ->].
  unfold ret in H. injection H as <- <-.
  assert (Hw3 : paramsH w3 = paramsH w2 ∧ closures w3 = closures w2).
  { destruct (DEBUG req); unfold modify, ret in Hdbg; by injection Hdbg as <-. }
  destruct Hw3 as [Hp3 Hc3].
  exists sTo, sFrom. destruct rt as [r|].
  - right. eexists r, _, w2. split; [exact Hre|]. simpl.
    split; [done|]. split; [by rewrite Hdc, lookup_insert_eq|]. done.
  - left. unfold ret in Hre. injection Hre as <-. rewrite Hp3, Hc3. simpl.
    split; [done|]. by rewrite Hdc, lookup_insert_eq.
Qed.

(** * The footprint of a call *)

(** With nothing pending and the pseudo-state's locals in place, accepting
    a request only creates the variables of the invocation and, when none
    were given, the [toParams] object. *)
Lemma accept_idle (cfg : config) (req : request) (w w0 : world) (k : nat)
    (ts : option loc) (tp : loc) (io : stateObj) (l : loc) :
  accept cfg req w = Some ((k, ts, tp), w0) →
  pendingRestore w = None →
  objs w !! inactivePseudoState cfg = Some io → st_locals io = Some l →
  ts = resolve_target cfg req w
  ∧ objs w0 = objs w ∧ selfs w0 = selfs w ∧ arrays w0 = arrays w
  ∧ paramsH w0 = paramsH w ∧ pendingTransitions w0 = pendingTransitions w
  ∧ pendingRestore w0 = None ∧ trace w0 = trace w.
Proof.
  intros Ha Hidle Hio Hl.
  destruct (accept_inv _ _ _ _ _ _ _ Ha) as (wl & wr & wp & Hlink & Hpr & Hts & Htp & _ & ->).
  destruct Hlink as (ips & Hips & Hlk).
  assert (ips = io) as -> by congruence. rewrite Hl in Hlk. subst wl.
  rewrite (call_pendingRestore_idle _ _ Hidle) in Hpr. injection Hpr as <-.
  unfold toParams_given in Htp. simpl.
  destruct (toParams req); destruct Htp as [_ ->]; simpl; by split_and!.
Qed.

(** What a substitution leaves alone, measured from the world in which the
    request was accepted. *)
Lemma footprint_from_acceptance (cfg : config) (req : request)
    (w w0 w' : world) (k toState tp : nat) (toPath fromPath : list loc) :
  transitionTo cfg req w = Some (k, w') →
  accept cfg req w = Some ((k, Some toState, tp), w0) →
  path_of w0 toState = Some toPath →
  path_of w0 (current req) = Some fromPath →
  Forall (valid_state w0) toPath →
  Forall (valid_state w0) (fromPath ++ inactiveStates req) →
  ∃ c, closures w' !! k = Some c
    ∧ arrays w0 ⊆ arrays w'
    ∧ (∀ st o, objs w0 !! st = Some o →
         ∃ o', objs w' !! st = Some o'
               ∧ with_path None o' = with_path None o
               ∧ (st ≠ toState → st ≠ current req → o' = o))
    ∧ (∀ l s0, selfs w0 !! l = Some s0 →
         ∃ s, selfs w' !! l = Some s ∧ hooks_only s0 s
              ∧ ((∀ st, st ∈ classified enter_kind toPath 0 (enter (plan req)) →
                        self_at w0 st ≠ l) →
                 self_onEnter s = self_onEnter s0)
              ∧ ((∀ st, st ∈ c_exited c → self_at w0 st ≠ l) →
                 self_onExit s = self_onExit s0)).
Proof.
  intros Ht Ha Hto Hfrom Hvt Hvf.
  destruct (transitionTo_substituted _ _ _ _ _ _ _ _ Ht Ha)
    as (sTo & sFrom & toPath' & fromPath' & wl & wb & v & be & bx & bo & pto & pfrom & Hs).
  destruct (substituted_hooks _ _ _ _ _ _ _ _ _ _ _ _ _ _ _ _ _ _ _ Hs)
    as (c & Hc & Hex & Hwr & HsubE & HsubX).
  destruct Hs as [_ (wr & Hreg & _) (Hol & Hsl & Hal) Hpb (w1 & Hin & ->)].
  destruct (registered_paths _ _ _ _ _ _ _ _ _ _ Hreg) as [Hto' Hfrom'].
  assert (toPath' = toPath) as -> by congruence.
  assert (fromPath' = fromPath) as -> by congruence.
  destruct Hpb as [_ _ Hb _].
  pose proof (built_wframe _ _ _ _ _ Hb) as F.
  destruct Hin as [Hfto Hffrom Hdist Harr (o1 & o2 & Ho1 & Ho2 & Hobjs1) Hselfs1 _ _ _ _].
  assert (Hvalid : Forall (λ p, is_Some (objs w0 !! p.2)) (omap wrap_of (be ++ bx ++ bo))).
  { rewrite Hwr. apply Forall_app. split; apply Forall_fmap, Forall_forall; intros s Hs; simpl.
    - rewrite Forall_forall in Hvt. destruct (Hvt s) as (o & _ & Ho & _); [|by eexists].
      eapply elem_of_submseteq; [exact Hs|by apply sublist_submseteq].
    - rewrite Forall_forall in Hvf. destruct (Hvf s) as (o & _ & Ho & _); [|by eexists].
      by eapply elem_of_submseteq. }
  exists c. split; [done|]. split_and!.
  - simpl. rewrite Harr, (fr_arrays _ _ _ _ F), Hal.
    rewrite (fr_arrays _ _ _ _ F), Hal in Hfto, Hffrom.
    apply insert_subseteq_r; [done|]. by apply insert_subseteq.
  - intros st o Ho. simpl. rewrite Hobjs1.
    assert (Hob : objs wb !! st = Some o).
    { eapply lookup_weaken; [|exact (fr_objs _ _ _ _ F)]. by rewrite Hol. }
    destruct (insert_with_path_upto _ _ _ (Some pto) _ _ Ho1 Hob) as (oa & Hoa & Ha1 & Ha2).
    destruct (insert_with_path_upto _ _ _ (Some pfrom) _ _ Ho2 Hoa) as (ob & Hob' & Hb1 & Hb2).
    exists ob. split; [done|]. split; [congruence|].
    intros Hn1 Hn2. rewrite Hb2, Ha2; done.
  - intros l s0 Hl. rewrite <- Hsl in Hl.
    destruct (fr_selfs _ _ _ _ F _ _ Hl) as (s & Hs & Hh).
    exists s. simpl. rewrite Hselfs1. split; [done|]. split; [done|].
    assert (Hsub0 : objs w0 ⊆ objs wl) by (by rewrite Hol).
    split; intros Hnot.
    + destruct (built_slot_other w0 _ _ _ _ _ OnEnter l Hb Hsub0) with (s := s0)
        as (s' & Hs' & Hslot); [|done|].
      { rewrite Hwr. rewrite Hwr in Hvalid. apply Forall_app in Hvalid as [V1 V2].
        apply Forall_app. split.
        - apply Forall_fmap, Forall_forall. intros st Hst. simpl. split.
          + rewrite Forall_fmap, Forall_forall in V1. by apply V1.
          + unfold wrap_target. simpl. intros [= Heq]. by apply (Hnot st).
        - apply Forall_fmap, Forall_forall. intros st Hst. simpl. split; [|by intros [=]].
          rewrite Forall_fmap, Forall_forall in V2. by apply V2. }
      assert (s' = s) as -> by congruence. exact Hslot.
    + destruct (built_slot_other w0 _ _ _ _ _ OnExit l Hb Hsub0) with (s := s0)
        as (s' & Hs' & Hslot); [|done|].
      { rewrite Hwr. rewrite Hwr in Hvalid. apply Forall_app in Hvalid as [V1 V2].
        apply Forall_app. split.
        - apply Forall_fmap, Forall_forall. intros st Hst. simpl. split; [|by intros [=]].
          rewrite Forall_fmap, Forall_forall in V1. by apply V1.
        - apply Forall_fmap, Forall_forall. intros st Hst. simpl. split.
          + rewrite Forall_fmap, Forall_forall in V2. by apply V2.
          + unfold wrap_target. simpl. intros [= Heq]. by apply (Hnot st). }
      assert (s' = s) as -> by congruence. exact Hslot.
Qed.


(** Accepting a request writes no plain object: at most it creates the
    [toParams] object. *)
Lemma accept_pobjs (cfg : config) (req : request) (w w0 : world) (k : nat)
    (ts : option loc) (tp : loc) :
  accept cfg req w = Some ((k, ts, tp), w0) → pobjs w ⊆ pobjs w0.
Proof.
  intros Ha.
  destruct (accept_inv _ _ _ _ _ _ _ Ha) as (wl & wr & wp & Hlink & Hpr & _ & Htp & _ & ->).
  assert (Hl : pobjs wl = pobjs w).
  { destruct Hlink as (ips & _ & Hlk). destruct (st_locals ips); [by subst|].
    destruct Hlk as (r & _ & ->). done. }
  assert (Hr : pobjs wr = pobjs wl).
  { unfold call_pendingRestore in Hpr.
    mstep Hpr as pr w1 Hg. unfold gets in Hg. injection Hg as <- <-.
    destruct (pendingRestore wl) as [j|]; [|unfold ret in Hpr; by injection Hpr as <-].
    mstep Hpr as [] w2 Hb.
    assert (Hb2 : pobjs w2 = pobjs wl).
    { unfold restore_body in Hb.
      mstep Hb as c wa Hc. unfold read_closure in Hc. apply deref_Some in Hc as [Hc ->].
      mstep Hb as [] wA HA. mstep Hb as [] wB HB. mstep Hb as [] wC HC.
      mstep Hb as [] wD HD. unfold write_closure, modify in HD. injection HD as <-.
      mstep Hb as [] wE HE. unfold modify in HE. injection HE as <-.
      unfold modify in Hb. injection Hb as <-. simpl.
      apply forEach_run_undo_closures in HC as (_ & _ & _ & _ & _ & _ & ->).
      assert (HpA : pobjs wA = pobjs wl).
      { destruct (c_savedToStatePath c); [|unfold ret in HA; by injection HA as <-].
        mstep HA as ts' wa Hts. apply deref_Some in Hts as [Hts ->].
        by apply assign_path_closures in HA as (_ & _ & _ & _ & _ & _ & ? & _). }
      rewrite <- HpA.
      destruct (c_savedFromStatePath c); [|unfold ret in HB; by injection HB as <-].
      by apply assign_path_closures in HB as (_ & _ & _ & _ & _ & _ & ? & _). }
    destruct (DEBUG req); unfold modify, ret in Hpr; injection Hpr as <-; by simpl. }
  simpl. rewrite <- Hl, <- Hr. unfold toParams_given in Htp.
  destruct (toParams req); destruct Htp as [-> ->]; [done|].
  simpl. apply insert_fresh_subseteq.
Qed.

(** * Further properties of the decorator *)

(** [SurrogateState] (l.70-82) always returns, with a new state object whose
    [self], [locals], [resolve], [views], [params] and [ownParams] are all
    newly allocated and pairwise distinct: no container is shared with a
    state that existed before or between the fields.  The object has no path,
    its [self] is empty, [ownParams] has the [$$equals] key exactly when
    parameter sets are in use, and [locals.globals] is the root's own
    [locals.globals] when it has one ([undefined] when the root has no
    locals).
    Paths, invocations, pending transitions and the event trace are left
    alone. *)
Theorem SurrogateState_builds_fresh_containers (cfg : config) (type : string) (w : world) :
  ∃ sur w' sl ls rs vs ps ops g,
    SurrogateState cfg type w = Some (sur, w')
    ∧ (objs w !! sur = None
       ∧ objs w'
         = <[sur := {| st_self := sl; st_path := None; st_locals := Some ls;
                       st_resolve := Some rs; st_views := Some vs;
                       st_params := Some ps; st_ownParams := Some ops;
                       st_surrogateType := Some type |}]> (objs w))
    ∧ (selfs w !! sl = None ∧ selfs w' = <[sl := empty_self]> (selfs w))
    ∧ (pobjs w !! rs = None ∧ pobjs w !! ls = None ∧ pobjs w !! vs = None
       ∧ rs ≠ ls ∧ ls ≠ vs ∧ rs ≠ vs
       ∧ pobjs w'
         = <[vs := empty_pobj]>
             (<[ls := {| own := {[ "globals" := g ]}; proto := None |}]>
                (<[rs := empty_pobj]> (pobjs w))))
    ∧ (paramsH w !! ps = None ∧ paramsH w !! ops = None ∧ ps ≠ ops
       ∧ paramsH w'
         = <[ops := if hasParamSet cfg then ["$$equals"] else []]>
             (<[ps := []]> (paramsH w)))
    ∧ ((∀ r, objs w !! root cfg = Some r → st_locals r = None) → g = VUndefined)
    ∧ (∀ r l p v, objs w !! root cfg = Some r → st_locals r = Some l →
                  pobjs w !! l = Some p → own p !! "globals" = Some v → g = v)
    ∧ arrays w' = arrays w ∧ closures w' = closures w
    ∧ pendingTransitions w' = pendingTransitions w
    ∧ pendingRestore w' = pendingRestore w ∧ trace w' = trace w.
Proof.
  set (rs := fresh (dom (pobjs w))).
  set (m1 := <[rs := empty_pobj]> (pobjs w)).
  set (g := root_globals cfg (set_pobjs (λ _, m1) w)).
  set (ls := fresh (dom m1)).
  set (m2 := <[ls := {| own := {[ "globals" := g ]}; proto := None |}]> m1).
  set (vs := fresh (dom m2)).
  set (sl := fresh (dom (selfs w))).
  set (ps := fresh (dom (paramsH w))).
  set (ops := fresh (dom (<[ps := []]> (paramsH w)))).
  exists (fresh (dom (objs w))), (set_objs <[fresh (dom (objs w)) :=
      {| st_self := sl; st_path := None; st_locals := Some ls;
         st_resolve := Some rs; st_views := Some vs;
         st_params := Some ps; st_ownParams := Some ops;
         st_surrogateType := Some type |}]>
    (set_paramsH (λ _, <[ops := if hasParamSet cfg then ["$$equals"] else []]>
                         (<[ps := []]> (paramsH w)))
       (set_selfs <[sl := empty_self]>
          (set_pobjs (λ _, <[vs := empty_pobj]> m2) w)))),
    sl, ls, rs, vs, ps, ops, g.
  assert (Hrs : pobjs w !! rs = None) by apply fresh_lookup_None.
  assert (Hls : m1 !! ls = None) by apply fresh_lookup_None.
  assert (Hvs : m2 !! vs = None) by apply fresh_lookup_None.
  assert (Hops : <[ps := []]> (paramsH w) !! ops = None) by apply fresh_lookup_None.
  assert (Hne1 : rs ≠ ls).
  { intros E. unfold m1 in Hls. rewrite <- E, lookup_insert_eq in Hls. done. }
  assert (Hne2 : ls ≠ vs).
  { intros E. unfold m2 in Hvs. rewrite <- E, lookup_insert_eq in Hvs. done. }
  assert (Hne3 : rs ≠ vs).
  { intros E. unfold m2, m1 in Hvs.
    rewrite <- E, lookup_insert_ne, lookup_insert_eq in Hvs by done. done. }
  assert (Hne4 : ps ≠ ops).
  { intros E. rewrite <- E, lookup_insert_eq in Hops. done. }
  split; [reflexivity|]. simpl.
  split_and!; try done.
  - apply fresh_lookup_None.
  - apply fresh_lookup_None.
  - unfold m1 in Hls. by rewrite lookup_insert_ne in Hls.
  - unfold m2, m1 in Hvs. by rewrite !lookup_insert_ne in Hvs.
  - apply fresh_lookup_None.
  - by rewrite lookup_insert_ne in Hops.
  - intros Hroot. unfold g, root_globals. simpl.
    destruct (objs w !! root cfg) as [r|] eqn:E; [|done]. by rewrite (Hroot r eq_refl).
  - intros r l p v Hr Hl Hp Hv. unfold g, root_globals. simpl. rewrite Hr, Hl.
    assert (l ≠ rs) by (intros ->; congruence).
    unfold pget. simpl. unfold m1. rewrite lookup_insert_ne by done.
    by rewrite Hp, Hv.
Qed.

(** What a successful call of the decorated [transitionTo] (l.124-432) with a
    resolved target leaves alone when no restore is pending at the start of
    the call (and the pseudo-state has its locals, as it has from the first
    call on).  Every path array is kept as it was (the substitute paths are
    new arrays); every state object keeps all its fields but [path], and
    only the target and the current state can differ at all; every [self]
    keeps its name, status and state, its [onEnter] unless it belongs to a
    state of the to-path that the plan classifies [reactivate],
    [updateStateParams] or [enter], and its [onExit] unless it belongs to a
    state of the [exited] list of the invocation.  A call that finds a
    restore pending runs it first, and that restore does write paths and
    hooks. *)
Theorem transitionTo_footprint (cfg : config) (req : request)
    (w w' : world) (k toState : nat) (toPath fromPath : list loc)
    (io : stateObj) (l : loc) :
  transitionTo cfg req w = Some (k, w') →
  pendingRestore w = None →
  objs w !! inactivePseudoState cfg = Some io → st_locals io = Some l →
  resolve_target cfg req w = Some toState →
  path_of w toState = Some toPath →
  path_of w (current req) = Some fromPath →
  Forall (valid_state w) toPath →
  Forall (valid_state w) (fromPath ++ inactiveStates req) →
  ∃ c, closures w' !! k = Some c
    ∧ arrays w ⊆ arrays w'
    ∧ (∀ st o, objs w !! st = Some o →
         ∃ o', objs w' !! st = Some o'
               ∧ with_path None o' = with_path None o
               ∧ (st ≠ toState → st ≠ current req → o' = o))
    ∧ (∀ l s0, selfs w !! l = Some s0 →
         ∃ s, selfs w' !! l = Some s ∧ hooks_only s0 s
              ∧ ((∀ st, st ∈ classified enter_kind toPath 0 (enter (plan req)) →
                        self_at w st ≠ l) →
                 self_onEnter s = self_onEnter s0)
              ∧ ((∀ st, st ∈ c_exited c → self_at w st ≠ l) →
                 self_onExit s = self_onExit s0)).
Proof.
  intros Ht Hidle Hio Hl Hres Hto Hfrom Hvt Hvf.
  destruct (transitionTo_inv _ _ _ _ _ Ht) as (ts & tp & w0 & w1 & Ha & _ & _).
  destruct (accept_idle _ _ _ _ _ _ _ _ _ Ha Hidle Hio Hl)
    as (Hts & Ho & Hs & Har & _).
  rewrite Hres in Hts. subst ts.
  assert (Hp : ∀ st, path_of w0 st = path_of w st).
  { intros st. unfold path_of. by rewrite Ho, Har. }
  assert (Hv : ∀ st, valid_state w st → valid_state w0 st).
  { intros st. unfold valid_state. by rewrite Ho, Hs. }
  assert (Hsa : ∀ st, self_at w0 st = self_at w st).
  { intros st. unfold self_at, self_of. by rewrite Ho. }
  destruct (footprint_from_acceptance cfg req w w0 w' k toState tp toPath fromPath
              Ht Ha) as (c & Hc & Harr & Hobjs & Hselfs).
  { by rewrite Hp. }
  { by rewrite Hp. }
  { eapply Forall_impl; [exact Hvt|]. apply Hv. }
  { eapply Forall_impl; [exact Hvf|]. apply Hv. }
  exists c. split; [done|]. rewrite Har in Harr. split; [done|]. split.
  - intros st o Hst. apply Hobjs. by rewrite Ho.
  - intros l' s0 Hl'. destruct (Hselfs l' s0) as (s & Hs' & Hh & He & Hx).
    { by rewrite Hs. }
    exists s. split; [done|]. split; [done|]. split.
    + intros Hn. apply He. intros st Hst. rewrite Hsa. by apply Hn.
    + intros Hn. apply Hx. intros st Hst. rewrite Hsa. by apply Hn.
Qed.

Lemma transitionTo_footprint_witness :
  ∃ c, closures ex_w1 !! ex_k1 = Some c
    ∧ arrays ex_world ⊆ arrays ex_w1
    ∧ (∀ st o, objs ex_world !! st = Some o →
         ∃ o', objs ex_w1 !! st = Some o'
               ∧ with_path None o' = with_path None o
               ∧ (st ≠ 2 → st ≠ current ex_reactivate_A → o' = o))
    ∧ (∀ l s0, selfs ex_world !! l = Some s0 →
         ∃ s, selfs ex_w1 !! l = Some s ∧ hooks_only s0 s
              ∧ ((∀ st, st ∈ classified enter_kind [1; 2] 0
                                (enter (plan ex_reactivate_A)) →
                        self_at ex_world st ≠ l) →
                 self_onEnter s = self_onEnter s0)
              ∧ ((∀ st, st ∈ c_exited c → self_at ex_world st ≠ l) →
                 self_onExit s = self_onExit s0)).
Proof.
  assert (H1 : transitionTo ex_cfg ex_reactivate_A ex_world = Some (ex_k1, ex_w1))
    by (vm_compute; reflexivity).
  assert (H2 : pendingRestore ex_world = None) by reflexivity.
  assert (H3 : objs ex_world !! inactivePseudoState ex_cfg = Some ex_inactives)
    by (vm_compute; reflexivity).
  assert (H4 : st_locals ex_inactives = Some 20) by reflexivity.
  assert (H5 : resolve_target ex_cfg ex_reactivate_A ex_world = Some 2)
    by (vm_compute; reflexivity).
  assert (H6 : path_of ex_world 2 = Some [1; 2]) by (vm_compute; reflexivity).
  assert (H7 : path_of ex_world (current ex_reactivate_A) = Some [1; 5])
    by (vm_compute; reflexivity).
  assert (H8 : Forall (valid_state ex_world) [1; 2])
    by (repeat constructor; eexists _, _; split; vm_compute; reflexivity).
  assert (H9 : Forall (valid_state ex_world) ([1; 5] ++ inactiveStates ex_reactivate_A))
    by (repeat constructor; eexists _, _; split; vm_compute; reflexivity).
  exact (transitionTo_footprint _ _ _ _ _ _ _ _ _ _ H1 H2 H3 H4 H5 H6 H7 H8 H9).
Defined.

(** [stateEnteredSurrogate] and [stateUpdateParamsSurrogate] (l.228-251), as
    the enter loop calls them (l.367-375).  When the plan classifies index
    [i] of the to-path [enter] or [updateStateParams] and the states involved
    have their own [self] each, then after the call the state at [i] still
    has the [self] object it had, whose [onEnter] is now the wrapper around
    the hook it held when the request was accepted; calling the wrapper
    announces [stateEntering] with that original hook and with the
    [paramsUpdated] flag set exactly for [updateStateParams].  The state
    itself, not a copy, is in the substitute to-path, a new array, at the
    position that counts the kept prefix and the classified entries before
    [i]. *)
Theorem entered_state_wrapped_in_place (cfg : config) (req : request)
    (w w0 w' : world) (k toState tp : nat) (toPath fromPath : list loc)
    (i : nat) (v : string) (state : loc) :
  transitionTo cfg req w = Some (k, w') →
  accept cfg req w = Some ((k, Some toState, tp), w0) →
  path_of w0 toState = Some toPath →
  path_of w0 (current req) = Some fromPath →
  distinct_selfs w0 toPath →
  distinct_selfs w0 (fromPath ++ inactiveStates req) →
  enter (plan req) !! i = Some (Some v) →
  v = "enter" ∨ v = "updateStateParams" →
  toPath !! i = Some state →
  ∃ o sf0 sf pto PT,
    objs w0 !! state = Some o ∧ selfs w0 !! st_self o = Some sf0
    ∧ selfs w' !! st_self o = Some sf
    ∧ self_onEnter sf
      = HEntering state (self_onEnter sf0) (String.eqb v "updateStateParams")
    ∧ run_hook (self_onEnter sf) w'
      = Some (tt, emit (EvStateEntering state (self_onEnter sf0)
                          (String.eqb v "updateStateParams")) w')
    ∧ arrays w0 !! pto = None ∧ arrays w' !! pto = Some PT
    ∧ (current req ≠ toState → st_path <$> objs w' !! toState = Some (Some pto))
    ∧ PT !! (length (take (keep (plan req)) toPath)
             + count_kind enter_kind (take i (enter (plan req)))) = Some state.
Proof.
  intros Ht Ha Hto Hfrom Hdt Hdf Hi Hv Hstate.
  destruct (transitionTo_substituted _ _ _ _ _ _ _ _ Ht Ha)
    as (sTo & sFrom & toPath' & fromPath' & wl & wb & v' & be & bx & bo & pto & pfrom & Hs).
  destruct (substituted_hooks _ _ _ _ _ _ _ _ _ _ _ _ _ _ _ _ _ _ _ Hs)
    as (c & Hc & Hex & Hwr & HsubE & HsubX).
  destruct Hs as [_ (wr & Hreg & _) (Hol & Hsl & Hal) Hpb (w1 & Hin & ->)].
  destruct (registered_paths _ _ _ _ _ _ _ _ _ _ Hreg) as [Hto' Hfrom'].
  assert (toPath' = toPath) as -> by congruence.
  assert (fromPath' = fromPath) as -> by congruence.
  destruct (paths_built_paths _ _ _ _ _ _ _ _ _ _ _ _ Hpb) as [HPT _].
  destruct Hpb as [Hen _ Hb _].
  assert (Hk : enter_kind v = true) by (by destruct Hv as [->| ->]).
  destruct (enter_steps_at_kind _ _ _ _ Hen _ _ Hi Hk)
    as (state' & b & pre & post & Hst' & Hbe & Hcall & Hpre).
  simpl in Hst'. assert (state' = state) as -> by congruence.
  destruct (enter_steps_counts _ _ _ _ Hpre) as (Hp1 & _ & _).
  destruct (wrap_targets_ok w0 _ _ _ _ HsubE HsubX Hdt Hdf) as [Hvalid Hnd].
  rewrite <- Hwr in Hvalid, Hnd.
  assert (Hb_in : b ∈ be ++ bx ++ bo).
  { rewrite Hbe. apply elem_of_app. left. apply elem_of_app. right. by left. }
  assert (Hwb : wrap_of b = Some (OnEnter, state)
                ∧ to_push b = [state]
                ∧ ∀ old, wrapper_of k b old
                         = HEntering state old (String.eqb v "updateStateParams")).
  { destruct Hcall as [[-> _]|[[-> ->]|[-> ->]]]; [by destruct Hv|done..]. }
  destruct Hwb as (Hwrap & Hpush & Hwrapper).
  destruct (built_wrap_value w0 _ _ _ _ _ Hb) with (b := b) (sl := OnEnter) (state := state)
    as (o & sf0 & sf & Ho & Hsf0 & Hsf & Hslot); try done.
  { by rewrite Hol. }
  { intros l Hl. by rewrite Hsl. }
  rewrite Hsl in Hsf0.
  destruct Hin as [Hfto Hffrom Hdist Harr (o1 & o2 & Ho1 & Ho2 & Hobjs1) Hselfs1 _ _ _ _].
  pose proof (fr_arrays _ _ _ _ (built_wframe _ _ _ _ _ Hb)) as Harrb.
  rewrite Hal in Harrb. rewrite Harrb in Hfto, Hffrom, Harr.
  simpl in Hslot. rewrite Hwrapper in Hslot.
  exists o, sf0, sf, pto, (surrogateToPath v').
  split_and!; try done.
  - simpl. by rewrite Hselfs1.
  - by rewrite Hslot.
  - simpl. rewrite Harr. by rewrite lookup_insert_ne, lookup_insert_eq.
  - intros Hneq. simpl. rewrite Hobjs1.
    rewrite lookup_insert_ne, lookup_insert_eq by done. done.
  - rewrite HPT, Hbe, fmap_app, concat_app, fmap_cons. cbn [concat]. rewrite Hpush.
    cbn [app]. rewrite <- !app_assoc. rewrite app_assoc. cbn [app].
    apply list_lookup_middle. rewrite length_app. by rewrite Hp1.
Qed.

Lemma entered_state_wrapped_in_place_witness :
  ∃ o sf0 sf pto PT,
    objs ex_wc_AB !! 3 = Some o ∧ selfs ex_wc_AB !! st_self o = Some sf0
    ∧ selfs ex_w_AB !! st_self o = Some sf
    ∧ self_onEnter sf
      = HEntering 3 (self_onEnter sf0) (String.eqb "enter" "updateStateParams")
    ∧ run_hook (self_onEnter sf) ex_w_AB
      = Some (tt, emit (EvStateEntering 3 (self_onEnter sf0)
                          (String.eqb "enter" "updateStateParams")) ex_w_AB)
    ∧ arrays ex_wc_AB !! pto = None ∧ arrays ex_w_AB !! pto = Some PT
    ∧ (current ex_enter_AB ≠ 3 → st_path <$> objs ex_w_AB !! 3 = Some (Some pto))
    ∧ PT !! (length (take (keep (plan ex_enter_AB)) [1; 2; 3])
             + count_kind enter_kind (take 2 (enter (plan ex_enter_AB)))) = Some 3.
Proof.
  assert (H1 : transitionTo ex_cfg ex_enter_AB ex_world = Some (ex_k_AB, ex_w_AB))
    by (vm_compute; reflexivity).
  assert (H2 : accept ex_cfg ex_enter_AB ex_world = Some ((ex_k_AB, Some 3, 26), ex_wc_AB))
    by (vm_compute; reflexivity).
  assert (H3 : path_of ex_wc_AB 3 = Some [1; 2; 3]) by (vm_compute; reflexivity).
  assert (H4 : path_of ex_wc_AB (current ex_enter_AB) = Some [1; 5])
    by (vm_compute; reflexivity).
  assert (H5 : distinct_selfs ex_wc_AB [1; 2; 3]).
  { split.
    - repeat constructor; eexists _, _; split; vm_compute; reflexivity.
    - apply (bool_decide_unpack _). vm_compute. reflexivity. }
  assert (H6 : distinct_selfs ex_wc_AB ([1; 5] ++ inactiveStates ex_enter_AB)).
  { split.
    - repeat constructor; eexists _, _; split; vm_compute; reflexivity.
    - apply (bool_decide_unpack _). vm_compute. reflexivity. }
  assert (H7 : enter (plan ex_enter_AB) !! 2 = Some (Some "enter")) by reflexivity.
  assert (H8 : [1; 2; 3] !! 2 = Some 3) by reflexivity.
  exact (entered_state_wrapped_in_place _ _ _ _ _ _ _ _ _ _ 2 "enter" 3
           H1 H2 H3 H4 H5 H6 H7 (or_introl eq_refl) H8).
Defined.

(** [stateExitedSurrogate] (l.253-263), as the exit loop calls it
    (l.385-388).  When the plan classifies index [i] of the from-path [exit]
    and the states involved have their own [self] each, then after the call
    the state at [i] still has the [self] object it had, whose [onExit] is
    now the wrapper around the hook it held when the request was accepted.
    Calling the wrapper announces [stateExiting] with that original hook and
    with the [exited] list as it is at the time of the call, whatever the
    position of the state in it: every state of the from-path that the plan
    classifies [exit] or [inactivate], followed, exactly when the target is
    the last state that the plan reactivates or updates (l.401), by the
    inactive states below the target, by name descending (l.416).  The
    state itself is in the substitute from-path, a new array, behind the
    kept prefix, the phase-1 surrogates of the reactivated states and the
    entries classified before [i]. *)
Theorem exited_state_wrapped_in_place (cfg : config) (req : request)
    (w w0 w' : world) (k toState tp : nat) (toPath fromPath : list loc)
    (i : nat) (state : loc) :
  transitionTo cfg req w = Some (k, w') →
  accept cfg req w = Some ((k, Some toState, tp), w0) →
  path_of w0 toState = Some toPath →
  path_of w0 (current req) = Some fromPath →
  distinct_selfs w0 toPath →
  distinct_selfs w0 (fromPath ++ inactiveStates req) →
  exit (plan req) !! i = Some (Some "exit") →
  fromPath !! i = Some state →
  ∃ o sf0 sf pfrom PF orphans,
    objs w0 !! state = Some o ∧ selfs w0 !! st_self o = Some sf0
    ∧ selfs w' !! st_self o = Some sf
    ∧ self_onExit sf = HExiting state k (self_onExit sf0)
    ∧ run_hook (self_onExit sf) w'
      = Some (tt, emit (EvStateExiting state
                          (classified exit_kind fromPath 0 (exit (plan req)) ++ orphans)
                          (self_onExit sf0)) w')
    ∧ ((last_terminal toPath 0 (enter (plan req)) None ≠ Some toState
        ∧ orphans = [])
       ∨ (last_terminal toPath 0 (enter (plan req)) None = Some toState
          ∧ is_orphan_list req toState w' orphans))
    ∧ arrays w0 !! pfrom = None ∧ arrays w' !! pfrom = Some PF
    ∧ st_path <$> objs w' !! current req = Some (Some pfrom)
    ∧ PF !! (length (take (keep (plan req)) fromPath)
             + count_kind is_reactivate (enter (plan req))
             + count_kind exit_kind (take i (exit (plan req)))) = Some state.
Proof.
  intros Ht Ha Hto Hfrom Hdt Hdf Hi Hstate.
  destruct (transitionTo_substituted _ _ _ _ _ _ _ _ Ht Ha)
    as (sTo & sFrom & toPath' & fromPath' & wl & wb & v' & be & bx & bo & pto & pfrom & Hs).
  destruct (substituted_hooks _ _ _ _ _ _ _ _ _ _ _ _ _ _ _ _ _ _ _ Hs)
    as (c & Hc & Hex & Hwr & HsubE & HsubX).
  destruct (substituted_exited _ _ _ _ _ _ _ _ _ _ _ _ _ _ _ _ _ _ _ Hs)
    as (c' & orphans & Hc' & Hexc & _ & Horph).
  assert (c' = c) as -> by congruence.
  destruct Hs as [_ (wr & Hreg & _) (Hol & Hsl & Hal) Hpb (w1 & Hin & ->)].
  destruct (registered_paths _ _ _ _ _ _ _ _ _ _ Hreg) as [Hto' Hfrom'].
  assert (toPath' = toPath) as -> by congruence.
  assert (fromPath' = fromPath) as -> by congruence.
  destruct (paths_built_paths _ _ _ _ _ _ _ _ _ _ _ _ Hpb) as [_ HPF].
  destruct Hpb as [Hen Hexs Hb _].
  destruct (exit_steps_at_kind _ _ _ _ Hexs _ _ Hi eq_refl)
    as (state' & b & pre & post & Hst' & Hbx & Hcall & Hpre).
  simpl in Hst'. assert (state' = state) as -> by congruence.
  destruct (enter_steps_counts _ _ _ _ Hen) as (_ & He2 & _).
  pose proof (exit_steps_counts _ _ _ _ Hpre) as Hp1.
  destruct (wrap_targets_ok w0 _ _ _ _ HsubE HsubX Hdt Hdf) as [Hvalid Hnd].
  rewrite <- Hwr in Hvalid, Hnd.
  assert (b = BExit state) as ->.
  { destruct Hcall as [[[=] _]|[_ ->]]. done. }
  assert (Hb_in : BExit state ∈ be ++ bx ++ bo).
  { rewrite Hbx. apply elem_of_app. right. apply elem_of_app. left.
    apply elem_of_app. right. by left. }
  destruct (built_wrap_value w0 _ _ _ _ _ Hb) with (b := BExit state) (sl := OnExit)
    (state := state) as (o & sf0 & sf & Ho & Hsf0 & Hsf & Hslot); try done.
  { by rewrite Hol. }
  { intros l Hl. by rewrite Hsl. }
  rewrite Hsl in Hsf0.
  destruct Hin as [Hfto Hffrom Hdist Harr (o1 & o2 & Ho1 & Ho2 & Hobjs1) Hselfs1 _ Hcl1 _ _].
  pose proof (fr_arrays _ _ _ _ (built_wframe _ _ _ _ _ Hb)) as Harrb.
  rewrite Hal in Harrb. rewrite Harrb in Hfto, Hffrom, Harr.
  simpl in Hslot.
  exists o, sf0, sf, pfrom, (surrogateFromPath v'), orphans.
  split_and!; try done.
  - simpl. by rewrite Hselfs1.
  - rewrite Hslot. unfold run_hook, bind, read_closure, deref. rewrite Hc.
    unfold modify. by rewrite Hexc.
  - destruct Horph as [(? & _ & ->)|(? & _ & ?)]; [by left|by right].
  - simpl. rewrite Harr. by rewrite lookup_insert_eq.
  - simpl. rewrite Hobjs1. by rewrite lookup_insert_eq.
  - rewrite HPF, Hbx. rewrite !fmap_app, !concat_app, fmap_cons. cbn [concat from_push app].
    rewrite <- !app_assoc. rewrite (app_assoc (take _ _)), (app_assoc (_ ++ _)).
    apply list_lookup_middle. rewrite !length_app, He2, Hp1. lia.
Qed.

Lemma exited_state_wrapped_in_place_witness :
  (∃ o sf0 sf pfrom PF orphans,
    objs ex_wc_ax !! 5 = Some o ∧ selfs ex_wc_ax !! st_self o = Some sf0
    ∧ selfs ex_w_ax !! st_self o = Some sf
    ∧ self_onExit sf = HExiting 5 ex_k_ax (self_onExit sf0)
    ∧ run_hook (self_onExit sf) ex_w_ax
      = Some (tt, emit (EvStateExiting 5
                          (classified exit_kind [1; 5] 0
                             (exit (plan ex_reactivate_A_exit_X)) ++ orphans)
                          (self_onExit sf0)) ex_w_ax)
    ∧ ((last_terminal [1; 2] 0 (enter (plan ex_reactivate_A_exit_X)) None ≠ Some 2
        ∧ orphans = [])
       ∨ (last_terminal [1; 2] 0 (enter (plan ex_reactivate_A_exit_X)) None = Some 2
          ∧ is_orphan_list ex_reactivate_A_exit_X 2 ex_w_ax orphans))
    ∧ arrays ex_wc_ax !! pfrom = None ∧ arrays ex_w_ax !! pfrom = Some PF
    ∧ st_path <$> objs ex_w_ax !! current ex_reactivate_A_exit_X = Some (Some pfrom)
    ∧ PF !! (length (take (keep (plan ex_reactivate_A_exit_X)) [1; 5])
             + count_kind is_reactivate (enter (plan ex_reactivate_A_exit_X))
             + count_kind exit_kind (take 1 (exit (plan ex_reactivate_A_exit_X))))
      = Some 5)
  ∧ run_hook (HExiting 5 ex_k_ax (HUser 111)) ex_w_ax
    = Some (tt, emit (EvStateExiting 5 [5; 4; 3] (HUser 111)) ex_w_ax).
Proof.
  assert (H1 : transitionTo ex_cfg ex_reactivate_A_exit_X ex_world
               = Some (ex_k_ax, ex_w_ax))
    by (vm_compute; reflexivity).
  assert (H2 : accept ex_cfg ex_reactivate_A_exit_X ex_world
               = Some ((ex_k_ax, Some 2, 26), ex_wc_ax))
    by (vm_compute; reflexivity).
  assert (H3 : path_of ex_wc_ax 2 = Some [1; 2]) by (vm_compute; reflexivity).
  assert (H4 : path_of ex_wc_ax (current ex_reactivate_A_exit_X) = Some [1; 5])
    by (vm_compute; reflexivity).
  assert (H5 : distinct_selfs ex_wc_ax [1; 2]).
  { split.
    - repeat constructor; eexists _, _; split; vm_compute; reflexivity.
    - apply (bool_decide_unpack _). vm_compute. reflexivity. }
  assert (H6 : distinct_selfs ex_wc_ax ([1; 5] ++ inactiveStates ex_reactivate_A_exit_X)).
  { split.
    - repeat constructor; eexists _, _; split; vm_compute; reflexivity.
    - apply (bool_decide_unpack _). vm_compute. reflexivity. }
  assert (H7 : exit (plan ex_reactivate_A_exit_X) !! 1 = Some (Some "exit"))
    by reflexivity.
  assert (H8 : [1; 5] !! 1 = Some 5) by reflexivity.
  split.
  - exact (exited_state_wrapped_in_place _ _ _ _ _ _ _ _ _ _ 1 5
             H1 H2 H3 H4 H5 H6 H7 H8).
  - vm_compute. reflexivity.
Defined.

(** The record of pending transitions (l.131, l.291-292, l.171-172).  When
    no transition is pending, a successful call with a resolved target
    appends exactly one record to [pendingTransitions], holding the target,
    the parameters and the current state, and makes its [restore] the pending
    one; calling that [restore] then takes the record off again and clears
    the pending slot, so the list is what it was before the call. *)
Theorem pending_record_round_trip (cfg : config) (req : request)
    (w w0 w' w2 : world) (k toState tp : nat) :
  pendingRestore w = None →
  transitionTo cfg req w = Some (k, w') →
  accept cfg req w = Some ((k, Some toState, tp), w0) →
  call_restore k w' = Some (tt, w2) →
  (∃ rt, pendingTransitions w'
         = pendingTransitions w
           ++ [{| tr_id := k; tr_toState := toState; tr_toParams := tp;
                  tr_fromState := current req; tr_reloadStateTree := rt |}])
  ∧ pendingRestore w' = Some k
  ∧ pendingTransitions w2 = pendingTransitions w
  ∧ pendingRestore w2 = None.
Proof.
  intros Hidle Ht Ha Hr.
  destruct (transitionTo_substituted _ _ _ _ _ _ _ _ Ht Ha)
    as (sTo & sFrom & toPath & fromPath & wl & wb & v & be & bx & bo & pto & pfrom & Hs).
  destruct (accept_inv _ _ _ _ _ _ _ Ha) as (wk & wr & wp & Hlink & Hpr & _ & Htp & Hk & Hw0).
  assert (Hwk : pendingTransitions wk = pendingTransitions w ∧ pendingRestore wk = None).
  { destruct Hlink as (ips & _ & Hl). destruct (st_locals ips).
    - by subst.
    - destruct Hl as (r & _ & ->). done. }
  destruct Hwk as [Hp1 Hp2].
  rewrite (call_pendingRestore_idle _ _ Hp2) in Hpr. injection Hpr as <-.
  assert (Hp0 : pendingTransitions w0 = pendingTransitions w).
  { rewrite Hw0. simpl. unfold toParams_given in Htp.
    destruct (toParams req); destruct Htp as [_ ->]; done. }
  assert (Hc0 : closures w0 !! k
                = Some (new_invocation req (length (pendingTransitions w)) (Some toState))).
  { rewrite Hw0. simpl. by rewrite lookup_insert_eq, Hp1. }
  destruct (substituted_bookkeeping _ _ _ _ _ _ _ _ _ _ _ _ _ _ _ _ _ _ _ _ Hs Hc0)
    as (c & rt & Hc & Hidx & Hnoop & Hpend & Hslot).
  rewrite Hp0 in Hpend.
  split; [by exists rt|]. split; [done|].
  unfold call_restore in Hr. apply bind_Some in Hr as (c' & wa & Hc' & Hr).
  unfold read_closure in Hc'. apply deref_Some in Hc' as [Hc' ->].
  assert (c' = c) as -> by congruence. rewrite Hnoop in Hr.
  apply restore_body_latches in Hr as (c' & Hc'' & _ & Hs2 & Hp2' & _).
  assert (c' = c) as -> by congruence.
  split; [|done]. rewrite Hp2', Hidx, Hpend. by rewrite delete_middle, app_nil_r.
Qed.

Lemma pending_record_round_trip_witness :
  (∃ rt, pendingTransitions ex_w1
         = pendingTransitions ex_world
           ++ [{| tr_id := ex_k1; tr_toState := 2; tr_toParams := 26;
                  tr_fromState := current ex_reactivate_A;
                  tr_reloadStateTree := rt |}])
  ∧ pendingRestore ex_w1 = Some ex_k1
  ∧ pendingTransitions ex_w1_restored = pendingTransitions ex_world
  ∧ pendingRestore ex_w1_restored = None.
Proof.
  assert (H0 : pendingRestore ex_world = None) by reflexivity.
  assert (H1 : transitionTo ex_cfg ex_reactivate_A ex_world = Some (ex_k1, ex_w1))
    by (vm_compute; reflexivity).
  assert (H2 : accept ex_cfg ex_reactivate_A ex_world = Some ((ex_k1, Some 2, 26), ex_wc))
    by (vm_compute; reflexivity).
  assert (H3 : call_restore ex_k1 ex_w1 = Some (tt, ex_w1_restored))
    by (vm_compute; reflexivity).
  exact (pending_record_round_trip _ _ _ _ _ _ _ _ _ H0 H1 H2 H3).
Defined.



(** The temporary reload parameter (l.297-316).  When the block succeeds for
    the tree below [reloadStateTree], it has pushed exactly one restore
    function, the transition's [toParams] carry the random marker under
    [$$uirouterextrasreload], and the key is in both the [params] and the
    [ownParams] of the tree's state.  Running the restore function right
    away never throws and leaves [toParams] marked.  With parameter arrays
    it puts every parameter list back as it was, also when [params] and
    [ownParams] are one array; with parameter sets it deletes the key from
    both, which puts the sets back as they were when neither held the key
    before. *)
Theorem reload_param_round_trip (cfg : config) (req : request) (k : nat)
    (tp r : loc) (w w1 : world) (c : closure) :
  add_reload_param cfg req k tp r w = Some (tt, w1) →
  closures w !! k = Some c →
  ∃ u sf state o params ownParams p op,
    closures w1 !! k = Some (push_fn u c)
    ∧ (selfs w !! r = Some sf ∧ self_state sf = Some state
       ∧ objs w !! state = Some o
       ∧ st_params o = Some params ∧ st_ownParams o = Some ownParams
       ∧ paramsH w !! params = Some p ∧ paramsH w !! ownParams = Some op)
    ∧ (∃ tpo, pobjs w1 !! tp = Some tpo
              ∧ own tpo !! reloadKey = Some (VRef (random req)))
    ∧ (∃ p1 op1, paramsH w1 !! params = Some p1 ∧ reloadKey ∈ p1
                 ∧ paramsH w1 !! ownParams = Some op1 ∧ reloadKey ∈ op1)
    ∧ ∃ w2, run_undo u w1 = Some (tt, w2)
            ∧ pobjs w2 = pobjs w1
            ∧ (hasParamSet cfg = false ∨ ((reloadKey ∉ p) ∧ (reloadKey ∉ op)) →
               paramsH w2 = paramsH w)
            ∧ (hasParamSet cfg = true →
               ∃ p2 op2, paramsH w2 !! params = Some p2 ∧ (reloadKey ∉ p2)
                         ∧ paramsH w2 !! ownParams = Some op2 ∧ (reloadKey ∉ op2)).
Proof.
  unfold add_reload_param. intros H Hk.
  mstep H as tpo wa Htp. unfold read_pobj in Htp. apply deref_Some in Htp as [Htp ->].
  mstep H as [] wa Hw. unfold write_pobj, modify in Hw. injection Hw as <-.
  mstep H as rs wa Hrs. unfold read_self in Hrs. apply deref_Some in Hrs as [Hrs ->].
  mstep H as state wa Hst. apply deref_Some in Hst as [Hst ->].
  mstep H as o wa Ho. unfold read_obj in Ho. apply deref_Some in Ho as [Ho ->].
  mstep H as params wa Hpa. apply deref_Some in Hpa as [Hpa ->].
  mstep H as ownParams wa Hop. apply deref_Some in Hop as [Hop ->].
  simpl in Hrs, Ho.
  destruct (hasParamSet cfg) eqn:Hset.
  - mstep H as op wa Hr1. unfold read_params in Hr1. apply deref_Some in Hr1 as [Hr1 ->].
    mstep H as [] wa Hw1. unfold write_params, modify in Hw1. injection Hw1 as <-.
    mstep H as p1 wa Hr2. unfold read_params in Hr2. apply deref_Some in Hr2 as [Hr2 ->].
    mstep H as [] wa Hw2. unfold write_params, modify in Hw2. injection Hw2 as <-.
    unfold pushRestoreFunction, addRestoreFunction in H.
    mstep H as c' wa Hc. unfold read_closure in Hc. apply deref_Some in Hc as [Hc ->].
    unfold write_closure, modify in H. injection H as <-. simpl in *.
    assert (c' = c) as -> by congruence.
    destruct (decide (params = ownParams)) as [->|Hne].
    + rewrite lookup_insert_eq in Hr2. injection Hr2 as <-.
      exists (UDeleteParam ownParams ownParams), rs, state, o, ownParams, ownParams, op, op.
      split; [by rewrite lookup_insert_eq|]. split; [done|].
      split; [eexists; split; [by rewrite lookup_insert_eq|by simpl; rewrite lookup_insert_eq]|].
      split.
      { exists (set_key reloadKey (set_key reloadKey op)),
               (set_key reloadKey (set_key reloadKey op)).
        rewrite lookup_insert_eq. split_and!; [done|apply elem_of_set_key|done|apply elem_of_set_key]. }
      eexists. split.
      { simpl. unfold bind, read_params, write_params, modify, deref. simpl.
        rewrite lookup_insert_eq. simpl. rewrite lookup_insert_eq. reflexivity. }
      simpl. split; [done|]. split.
      * intros [?|[Hn _]]; [done|]. rewrite !insert_insert_eq.
        rewrite set_key_idem, (delete_set_key _ _ Hn), (delete_key_absent _ _ Hn).
        by apply insert_id.
      * intros _. eexists _, _. rewrite lookup_insert_eq.
        split_and!; [done|apply delete_key_not_elem|done|apply delete_key_not_elem].
    + rewrite lookup_insert_ne in Hr2 by done.
      exists (UDeleteParam params ownParams), rs, state, o, params, ownParams, p1, op.
      split; [by rewrite lookup_insert_eq|]. split; [done|].
      split; [eexists; split; [by rewrite lookup_insert_eq|by simpl; rewrite lookup_insert_eq]|].
      split.
      { exists (set_key reloadKey p1), (set_key reloadKey op).
        rewrite lookup_insert_eq, lookup_insert_ne, lookup_insert_eq by done.
        split_and!; [done|apply elem_of_set_key|done|apply elem_of_set_key]. }
      eexists. split.
      { simpl. unfold bind, read_params, write_params, modify, deref. simpl.
        rewrite lookup_insert_eq. simpl.
        rewrite lookup_insert_ne, lookup_insert_ne, lookup_insert_eq by done. reflexivity. }
      simpl. split; [done|]. split.
      * intros [?|[Hn1 Hn2]]; [done|].
        rewrite !delete_set_key by done. apply map_eq. intros i.
        destruct (decide (i = ownParams)) as [->|Hi1]; [by simplify_map_eq|].
        destruct (decide (i = params)) as [->|Hi2]; by simplify_map_eq.
      * intros _. eexists _, _.
        rewrite lookup_insert_ne, lookup_insert_eq, lookup_insert_eq by done.
        split_and!; [done|apply delete_key_not_elem|done|apply delete_key_not_elem].
  - mstep H as p wa Hr1. unfold read_params in Hr1. apply deref_Some in Hr1 as [Hr1 ->].
    mstep H as [] wa Hw1. unfold write_params, modify in Hw1. injection Hw1 as <-.
    mstep H as op1 wa Hr2. unfold read_params in Hr2. apply deref_Some in Hr2 as [Hr2 ->].
    mstep H as [] wa Hw2. unfold write_params, modify in Hw2. injection Hw2 as <-.
    unfold pushRestoreFunction, addRestoreFunction in H.
    mstep H as c' wa Hc. unfold read_closure in Hc. apply deref_Some in Hc as [Hc ->].
    unfold write_closure, modify in H. injection H as <-. simpl in *.
    assert (c' = c) as -> by congruence.
    destruct (decide (params = ownParams)) as [->|Hne].
    + rewrite lookup_insert_eq in Hr2. injection Hr2 as <-.
      exists (UPopParam ownParams ownParams), rs, state, o, ownParams, ownParams, p, p.
      split; [by rewrite lookup_insert_eq|]. split; [done|].
      split; [eexists; split; [by rewrite lookup_insert_eq|by simpl; rewrite lookup_insert_eq]|].
      split.
      { exists ((p ++ [reloadKey]) ++ [reloadKey]), ((p ++ [reloadKey]) ++ [reloadKey]).
        rewrite lookup_insert_eq.
        split_and!; [done| |done|]; apply elem_of_app; right; by left. }
      eexists. split.
      { simpl. unfold bind, read_params, write_params, modify, deref. simpl.
        rewrite lookup_insert_eq. rewrite pop_length_push. simpl.
        rewrite lookup_insert_eq. rewrite pop_length_push. reflexivity. }
      simpl. split; [done|]. split; [|done].
      intros _. rewrite !insert_insert_eq. by apply insert_id.
    + rewrite lookup_insert_ne in Hr2 by done.
      exists (UPopParam params ownParams), rs, state, o, params, ownParams, p, op1.
      split; [by rewrite lookup_insert_eq|]. split; [done|].
      split; [eexists; split; [by rewrite lookup_insert_eq|by simpl; rewrite lookup_insert_eq]|].
      split.
      { exists (p ++ [reloadKey]), (op1 ++ [reloadKey]).
        rewrite lookup_insert_ne, lookup_insert_eq, lookup_insert_eq by done.
        split_and!; [done| |done|]; apply elem_of_app; right; by left. }
      eexists. split.
      { simpl. unfold bind, read_params, write_params, modify, deref. simpl.
        rewrite lookup_insert_ne, lookup_insert_eq by done. rewrite pop_length_push. simpl.
        rewrite lookup_insert_ne, lookup_insert_eq by done. rewrite pop_length_push.
        reflexivity. }
      simpl. split; [done|]. split; [|done].
      intros _. apply map_eq. intros i.
      destruct (decide (i = ownParams)) as [->|Hi1]; [by simplify_map_eq|].
      destruct (decide (i = params)) as [->|Hi2]; by simplify_map_eq.
Qed.

Lemma reload_param_round_trip_witness :
  ∃ u sf state o params ownParams p op,
    closures ex_w_marked !! ex_k1 = Some (push_fn u ex_c1)
    ∧ (selfs ex_wc !! 12 = Some sf ∧ self_state sf = Some state
       ∧ objs ex_wc !! state = Some o
       ∧ st_params o = Some params ∧ st_ownParams o = Some ownParams
       ∧ paramsH ex_wc !! params = Some p ∧ paramsH ex_wc !! ownParams = Some op)
    ∧ (∃ tpo, pobjs ex_w_marked !! 26 = Some tpo
              ∧ own tpo !! reloadKey = Some (VRef (random ex_reactivate_A)))
    ∧ (∃ p1 op1, paramsH ex_w_marked !! params = Some p1 ∧ reloadKey ∈ p1
                 ∧ paramsH ex_w_marked !! ownParams = Some op1 ∧ reloadKey ∈ op1)
    ∧ ∃ w2, run_undo u ex_w_marked = Some (tt, w2)
            ∧ pobjs w2 = pobjs ex_w_marked
            ∧ (hasParamSet ex_cfg = false ∨ ((reloadKey ∉ p) ∧ (reloadKey ∉ op)) →
               paramsH w2 = paramsH ex_wc)
            ∧ (hasParamSet ex_cfg = true →
               ∃ p2 op2, paramsH w2 !! params = Some p2 ∧ (reloadKey ∉ p2)
                         ∧ paramsH w2 !! ownParams = Some op2 ∧ (reloadKey ∉ op2)).
Proof.
  assert (H1 : add_reload_param ex_cfg ex_reactivate_A ex_k1 26 12 ex_wc
               = Some (tt, ex_w_marked))
    by (vm_compute; reflexivity).
  assert (H2 : closures ex_wc !! ex_k1 = Some ex_c1) by (vm_compute; reflexivity).
  exact (reload_param_round_trip _ _ _ _ _ _ _ _ H1 H2).
Defined.

(** The loops over the plan read [toState.path[idx]] and [fromState.path[idx]]
    without a bounds check (l.354, l.381).  When the plan classifies an index
    that the to-path does not have as [reactivate], [updateStateParams] or
    [enter], or an index that the from-path does not have as [inactivate] or
    [exit], the surrogate factory dereferences [undefined] and the decorated
    [transitionTo] throws: it returns no promise and the stock function is
    never reached. *)
Theorem classified_index_outside_path_throws (cfg : config) (req : request)
    (w w0 : world) (k toState tp : nat) (toPath fromPath : list loc) :
  accept cfg req w = Some ((k, Some toState, tp), w0) →
  path_of w0 toState = Some toPath →
  path_of w0 (current req) = Some fromPath →
  (∃ i v, enter (plan req) !! i = Some (Some v) ∧ enter_kind v = true
          ∧ toPath !! i = None)
  ∨ (∃ i v, exit (plan req) !! i = Some (Some v) ∧ exit_kind v = true
            ∧ fromPath !! i = None) →
  transitionTo cfg req w = None.
Proof.
  intros Ha Hto Hfrom Hout.
  destruct (transitionTo cfg req w) as [[k' w']|] eqn:Ht; [exfalso|done].
  destruct (transitionTo_inv _ _ _ _ _ Ht) as (ts & tp' & w0' & w1 & Ha' & _ & _).
  rewrite Ha in Ha'. injection Ha' as <- <- <- <-.
  destruct (transitionTo_substituted _ _ _ _ _ _ _ _ Ht Ha)
    as (sTo & sFrom & toPath' & fromPath' & wl & wb & v' & be & bx & bo & pto & pfrom & Hs).
  destruct Hs as [_ (wr & Hreg & _) _ [Hen Hex _ _] _].
  destruct (registered_paths _ _ _ _ _ _ _ _ _ _ Hreg) as [Hto' Hfrom'].
  assert (toPath' = toPath) as -> by congruence.
  assert (fromPath' = fromPath) as -> by congruence.
  destruct Hout as [(i & v & Hi & Hk & Hnone)|(i & v & Hi & Hk & Hnone)].
  - destruct (enter_steps_at_kind _ _ _ _ Hen _ _ Hi Hk) as (st & _ & _ & _ & Hst & _).
    simpl in Hst. congruence.
  - destruct (exit_steps_at_kind _ _ _ _ Hex _ _ Hi Hk) as (st & _ & _ & _ & Hst & _).
    simpl in Hst. congruence.
Qed.

Lemma classified_index_outside_path_throws_witness :
  transitionTo ex_cfg ex_long_plan ex_world = None.
Proof.
  assert (H1 : accept ex_cfg ex_long_plan ex_world = Some ((0, Some 5, 26), ex_wc_long))
    by (vm_compute; reflexivity).
  assert (H2 : path_of ex_wc_long 5 = Some [1; 5]) by (vm_compute; reflexivity).
  assert (H3 : path_of ex_wc_long (current ex_long_plan) = Some [1])
    by (vm_compute; reflexivity).
  assert (H4 : ∃ i v, enter (plan ex_long_plan) !! i = Some (Some v)
                      ∧ enter_kind v = true ∧ [1; 5] !! i = None)
    by (exists 2, "enter"; split_and!; reflexivity).
  exact (classified_index_outside_path_throws _ _ _ _ _ _ _ _ _ H1 H2 H3 (or_introl H4)).
Defined.

(** A target that does not resolve to an internal state (l.141,
    l.267-268, l.432).  When no restore is pending and the pseudo-state has
    its locals, the decorated [transitionTo] skips the whole substitution: it
    returns, and all it has done is create the variables of a new invocation
    (nothing saved, no restore function, nothing exited), default [toParams]
    to a new empty object when none were given, and call the stock
    [transitionTo].  State objects, [self] objects and their hooks, path
    arrays, parameter lists and the list of pending transitions are what
    they were, and no restore is pending afterwards. *)
Theorem unresolved_target_only_delegates (cfg : config) (req : request) (w : world)
    (io : stateObj) (l : loc) :
  objs w !! inactivePseudoState cfg = Some io → st_locals io = Some l →
  pendingRestore w = None →
  resolve_target cfg req w = None →
  ∃ k w', transitionTo cfg req w = Some (k, w')
    ∧ closures w !! k = None
    ∧ closures w'
      = <[k := new_invocation req (length (pendingTransitions w)) None]> (closures w)
    ∧ objs w' = objs w ∧ selfs w' = selfs w ∧ arrays w' = arrays w
    ∧ paramsH w' = paramsH w
    ∧ pendingTransitions w' = pendingTransitions w ∧ pendingRestore w' = None
    ∧ trace w' = trace w ++ [EvDelegate k]
    ∧ match toParams req with
      | Some _ => pobjs w' = pobjs w
      | None => pobjs w' = <[fresh (dom (pobjs w)) := empty_pobj]> (pobjs w)
      end.
Proof.
  intros Hio Hl Hidle Hres.
  unfold transitionTo, accept.
  unfold bind at 1. unfold bind at 1. unfold read_obj at 1, deref. rewrite Hio, Hl.
  unfold bind at 1. unfold ret at 1. unfold bind at 1. unfold gets at 1.
  unfold bind at 1. rewrite (call_pendingRestore_idle _ _ Hidle).
  unfold bind at 1. unfold gets at 1. rewrite Hres.
  destruct (toParams req) as [p|].
  - unfold bind, ret, new_closure, modify. simpl.
    eexists _, _. split; [reflexivity|]. simpl.
    split_and!; try done. apply fresh_lookup_None.
  - unfold bind, ret, new_pobj, new_closure, modify. simpl.
    eexists _, _. split; [reflexivity|]. simpl.
    split_and!; try done. apply fresh_lookup_None.
Qed.

Lemma unresolved_target_only_delegates_witness :
  ∃ k w', transitionTo ex_cfg ex_ghost ex_world = Some (k, w')
    ∧ closures ex_world !! k = None
    ∧ closures w'
      = <[k := new_invocation ex_ghost (length (pendingTransitions ex_world)) None]>
          (closures ex_world)
    ∧ objs w' = objs ex_world ∧ selfs w' = selfs ex_world
    ∧ arrays w' = arrays ex_world
    ∧ paramsH w' = paramsH ex_world
    ∧ pendingTransitions w' = pendingTransitions ex_world
    ∧ pendingRestore w' = None
    ∧ trace w' = trace ex_world ++ [EvDelegate k]
    ∧ match toParams ex_ghost with
      | Some _ => pobjs w' = pobjs ex_world
      | None => pobjs w' = <[fresh (dom (pobjs ex_world)) := empty_pobj]> (pobjs ex_world)
      end.
Proof.
  assert (H1 : objs ex_world !! inactivePseudoState ex_cfg = Some ex_inactives)
    by (vm_compute; reflexivity).
  assert (H2 : st_locals ex_inactives = Some 20) by reflexivity.
  assert (H3 : pendingRestore ex_world = None) by reflexivity.
  assert (H4 : resolve_target ex_cfg ex_ghost ex_world = None)
    by (vm_compute; reflexivity).
  exact (unresolved_target_only_delegates _ _ _ _ _ H1 H2 H3 H4).
Defined.

(** The plain objects that a call writes (l.279-280, l.298, l.333-348).  A
    successful call with a resolved target leaves every plain object that
    existed when it was made as it was, except at most three: the
    pseudo-state's locals, the transition's [toParams] and the caller's
    [options], the last only when [options.reload] names a state.  Whatever
    the object, its prototype is kept and so is every property except the
    view entries (names with an [@]), [reload] and
    [$$uirouterextrasreload].  The locals of the states listed as inactive
    are only read.  Without a reload, nothing but the pseudo-state's locals
    is written. *)
Theorem only_three_plain_objects_written (cfg : config) (req : request)
    (w w0 w' : world) (k toState tp : nat) (io : stateObj) (l : loc) :
  transitionTo cfg req w = Some (k, w') →
  accept cfg req w = Some ((k, Some toState, tp), w0) →
  objs w0 !! inactivePseudoState cfg = Some io →
  st_locals io = Some l →
  (∀ l' p, pobjs w !! l' = Some p → l' ≠ l → l' ≠ tp →
           options req ≠ Some l' ∨ (∀ n, reload req ≠ ReloadState n) →
           pobjs w' !! l' = Some p)
  ∧ (∀ l' p, pobjs w !! l' = Some p →
       ∃ p', pobjs w' !! l' = Some p' ∧ proto p' = proto p
             ∧ ∀ key, has_at key = false → key ≠ "reload" → key ≠ reloadKey →
                      own p' !! key = own p !! key)
  ∧ (reload req = ReloadFalse →
     ∀ l' p, pobjs w !! l' = Some p → l' ≠ l → pobjs w' !! l' = Some p).
Proof.
  intros Ht Ha Hio Hl.
  pose proof (accept_pobjs _ _ _ _ _ _ _ Ha) as Hacc.
  destruct (transitionTo_inv _ _ _ _ _ Ht) as (ts & tp' & w0' & w1 & Ha' & Hsub & ->).
  rewrite Ha in Ha'. injection Ha' as <- <- <-.
  destruct (substitute_inv _ _ _ _ _ _ _ _ Hsub) as (v0 & wr & wl & v & wb & Hr & Hf & Hb & Hi).
  destruct (register_transition_pobjs _ _ _ _ _ _ _ _ Hr) as (Hrp & Hrf & Hrk).
  destruct (register_transition_spec _ _ _ _ _ _ _ _ Hr)
    as (sTo & sFrom & toPath & fromPath & Hreg & ->).
  destruct (registered_paths _ _ _ _ _ _ _ _ _ _ Hreg) as [Hto Hfrom].
  assert (Hior : objs wr !! inactivePseudoState cfg = Some io).
  { by rewrite (rg_objs _ _ _ _ _ _ _ _ _ _ Hreg). }
  destruct (refresh_inactive_locals_plain _ _ _ _ _ _ Hf Hior Hl)
    as ((Eo & _ & Ea & _ & _ & _ & _ & _ & Hother) & p & p' & Hp & Hp' & Hproto & Hkeys).
  assert (Htol : path_of wl toState = Some toPath).
  { unfold path_of in *. by rewrite Eo, Ea, (rg_objs _ _ _ _ _ _ _ _ _ _ Hreg),
      (rg_arrays _ _ _ _ _ _ _ _ _ _ Hreg). }
  assert (Hfroml : path_of wl (current req) = Some fromPath).
  { unfold path_of in *. by rewrite Eo, Ea, (rg_objs _ _ _ _ _ _ _ _ _ _ Hreg),
      (rg_arrays _ _ _ _ _ _ _ _ _ _ Hreg). }
  destruct (build_paths_spec _ _ _ _ _ _ _ _ _ _ Hb Htol Hfroml) as (be & bx & bo & [_ _ Hbuilt _]).
  pose proof (fr_pobjs _ _ _ _ (built_wframe _ _ _ _ _ Hbuilt)) as Hsubp.
  destruct (install_paths_spec _ _ _ _ _ _ Hi) as (pto & pfrom & Hin).
  pose proof (in_pobjs _ _ _ _ _ _ _ Hin) as Hpi.
  split; [|split].
  - intros l' q Hq Hn1 Hn2 Hn3. simpl. rewrite Hpi.
    apply (lookup_weaken _ _ _ _ Hq) in Hacc as Hq0.
    eapply lookup_weaken; [|exact Hsubp].
    by rewrite (Hother l' Hn1), (Hrp l' Hn2 Hn3).
  - intros l' q Hq. apply (lookup_weaken _ _ _ _ Hq) in Hacc as Hq0.
    destruct (Hrk _ _ Hq0) as (q1 & Hq1 & Hproto1 & Hk1).
    simpl. rewrite Hpi. destruct (decide (l' = l)) as [->|Hne].
    + assert (q1 = p) as -> by congruence.
      exists p'. split; [by eapply lookup_weaken|]. split; [congruence|].
      intros key Ha1 Ha2 Ha3. by rewrite (Hkeys key Ha1), (Hk1 key Ha2 Ha3).
    + exists q1. split.
      * eapply lookup_weaken; [|exact Hsubp]. by rewrite (Hother l' Hne).
      * split; [done|]. intros key _ Ha2 Ha3. by apply Hk1.
  - intros Hrl l' q Hq Hne. simpl. rewrite Hpi.
    apply (lookup_weaken _ _ _ _ Hq) in Hacc as Hq0.
    eapply lookup_weaken; [|exact Hsubp].
    by rewrite (Hother l' Hne), (Hrf Hrl).
Qed.

Lemma only_three_plain_objects_written_witness :
  ((∀ l' p, pobjs ex_world_opts !! l' = Some p → l' ≠ 20 → l' ≠ 26 →
           options ex_reload_A ≠ Some l' ∨ (∀ n, reload ex_reload_A ≠ ReloadState n) →
           pobjs ex_w_rl !! l' = Some p)
  ∧ (∀ l' p, pobjs ex_world_opts !! l' = Some p →
       ∃ p', pobjs ex_w_rl !! l' = Some p' ∧ proto p' = proto p
             ∧ ∀ key, has_at key = false → key ≠ "reload" → key ≠ reloadKey →
                      own p' !! key = own p !! key)
  ∧ (reload ex_reload_A = ReloadFalse →
     ∀ l' p, pobjs ex_world_opts !! l' = Some p → l' ≠ 20 →
             pobjs ex_w_rl !! l' = Some p))
  ∧ options ex_reload_A = Some 19
  ∧ (own <$> pobjs ex_world_opts !! 19) = Some {[ "reload" := VRef 12 ]}
  ∧ (own <$> pobjs ex_w_rl !! 19) = Some ∅.
Proof.
  assert (H1 : transitionTo ex_cfg ex_reload_A ex_world_opts = Some (ex_k_rl, ex_w_rl))
    by (vm_compute; reflexivity).
  assert (H2 : accept ex_cfg ex_reload_A ex_world_opts
               = Some ((ex_k_rl, Some 2, 26), ex_wc_rl))
    by (vm_compute; reflexivity).
  assert (H3 : objs ex_wc_rl !! inactivePseudoState ex_cfg = Some ex_inactives)
    by (vm_compute; reflexivity).
  assert (H4 : st_locals ex_inactives = Some 20) by reflexivity.
  split.
  - exact (only_three_plain_objects_written _ _ _ _ _ _ _ _ _ _ H1 H2 H3 H4).
  - vm_compute. split_and!; reflexivity.
Defined.

(** Orphans are only looked for when the target is itself the last state
    that the plan reactivates or updates (l.401).  In every other successful
    call the [exited] list of the invocation is exactly the states of the
    from-path that the plan classifies [inactivate] or [exit], in path order,
    whatever states are inactive, and the substitute from-path ends with
    their surrogates: it has the kept prefix, one phase-1 surrogate for each
    reactivated state and one entry for each classified exit, and nothing
    else. *)
Theorem no_orphans_unless_target_is_terminal (cfg : config) (req : request)
    (w w0 w' : world) (k toState tp : nat) (toPath fromPath : list loc) :
  transitionTo cfg req w = Some (k, w') →
  accept cfg req w = Some ((k, Some toState, tp), w0) →
  path_of w0 toState = Some toPath →
  path_of w0 (current req) = Some fromPath →
  last_terminal toPath 0 (enter (plan req)) None ≠ Some toState →
  ∃ c pfrom PF,
    closures w' !! k = Some c
    ∧ c_exited c = classified exit_kind fromPath 0 (exit (plan req))
    ∧ st_path <$> objs w' !! current req = Some (Some pfrom)
    ∧ arrays w' !! pfrom = Some PF
    ∧ length PF = length (take (keep (plan req)) fromPath)
                  + count_kind is_reactivate (enter (plan req))
                  + count_kind exit_kind (exit (plan req)).
Proof.
  intros Ht Ha Hto Hfrom Hterm.
  destruct (transitionTo_substituted _ _ _ _ _ _ _ _ Ht Ha)
    as (sTo & sFrom & toPath' & fromPath' & wl & wb & v & be & bx & bo & pto & pfrom & Hs).
  destruct (substituted_exited _ _ _ _ _ _ _ _ _ _ _ _ _ _ _ _ _ _ _ Hs)
    as (c & orphans & Hc & Hexc & HPF & Horph).
  destruct Hs as [_ (wr & Hreg & _) _ [Hen Hex _ _] (w1 & Hin & ->)].
  destruct (registered_paths _ _ _ _ _ _ _ _ _ _ Hreg) as [Hto' Hfrom'].
  assert (toPath' = toPath) as -> by congruence.
  assert (fromPath' = fromPath) as -> by congruence.
  destruct Horph as [(_ & _ & ->)|(Hyes & _)]; [|done].
  rewrite app_nil_r in Hexc, HPF.
  destruct Hin as [_ _ _ Harr (o1 & o2 & _ & _ & Hobjs1) _ _ _ _ _].
  destruct (enter_steps_counts _ _ _ _ Hen) as (_ & He2 & _).
  pose proof (exit_steps_counts _ _ _ _ Hex) as Hx.
  exists c, pfrom, (surrogateFromPath v). simpl. rewrite Hobjs1, Harr.
  split_and!; try done.
  - by rewrite lookup_insert_eq.
  - by rewrite lookup_insert_eq.
  - rewrite HPF, !length_app, He2, Hx. lia.
Qed.

Lemma no_orphans_unless_target_is_terminal_witness :
  ∃ c pfrom PF,
    closures ex_w_AB !! ex_k_AB = Some c
    ∧ c_exited c = classified exit_kind [1; 5] 0 (exit (plan ex_enter_AB))
    ∧ st_path <$> objs ex_w_AB !! current ex_enter_AB = Some (Some pfrom)
    ∧ arrays ex_w_AB !! pfrom = Some PF
    ∧ length PF = length (take (keep (plan ex_enter_AB)) [1; 5])
                  + count_kind is_reactivate (enter (plan ex_enter_AB))
                  + count_kind exit_kind (exit (plan ex_enter_AB)).
Proof.
  assert (H1 : transitionTo ex_cfg ex_enter_AB ex_world = Some (ex_k_AB, ex_w_AB))
    by (vm_compute; reflexivity).
  assert (H2 : accept ex_cfg ex_enter_AB ex_world = Some ((ex_k_AB, Some 3, 26), ex_wc_AB))
    by (vm_compute; reflexivity).
  assert (H3 : path_of ex_wc_AB 3 = Some [1; 2; 3]) by (vm_compute; reflexivity).
  assert (H4 : path_of ex_wc_AB (current ex_enter_AB) = Some [1; 5])
    by (vm_compute; reflexivity).
  assert (H5 : last_terminal [1; 2; 3] 0 (enter (plan ex_enter_AB)) None ≠ Some 3)
    by (vm_compute; congruence).
  exact (no_orphans_unless_target_is_terminal _ _ _ _ _ _ _ _ _ _ H1 H2 H3 H4 H5).
Defined.

(** The decorated [transitionTo] never runs a hook and never calls back into
    [StickyState] itself: the wrappers it installs only run later, when
    ui-router calls them.  From the request to the returned promise, all it
    announces is the call of the stock [transitionTo], made once and last,
    preceded when debug mode is on, and only then, by the note that a
    pending restore was run (l.135), the dump of the plan (l.327) and the
    two substitute paths (l.426-427), the last three only for a resolved
    target. *)
Theorem transitionTo_calls_out_once (cfg : config) (req : request)
    (w w0 w' : world) (k : nat) (ts : option loc) (tp : loc) :
  transitionTo cfg req w = Some (k, w') →
  accept cfg req w = Some ((k, ts, tp), w0) →
  trace w'
  = trace w
    ++ (if DEBUG req
        then match pendingRestore w with
             | Some _ => [EvLogDebug "Restored paths from pending transition"]
             | None => []
             end
             ++ match ts with
                | Some _ => [EvDebugTransition k; EvLogDebug "SurrogateFromPath: ";
                             EvLogDebug "SurrogateToPath:   "]
                | None => []
                end
        else [])
    ++ [EvDelegate k].
Proof.
  intros H Ha.
  destruct (transitionTo_inv _ _ _ _ _ H) as (ts' & tp' & w0' & w1 & Ha' & Hs & ->).
  rewrite Ha in Ha'. injection Ha' as <- <- <-.
  assert (Hacc : trace w0 = trace w
            ++ (if DEBUG req
                then match pendingRestore w with
                     | Some _ => [EvLogDebug "Restored paths from pending transition"]
                     | None => []
                     end
                else [])).
  { clear H Hs. unfold accept in Ha.
    mstep Ha as ips w1' Hi. unfold read_obj in Hi. apply deref_Some in Hi as [Hi ->].
    mstep Ha as [] w2 Hl. mstep Ha as idx w3 Hx. unfold gets in Hx. injection Hx as <- <-.
    mstep Ha as [] w4 Hp. apply call_pendingRestore_trace in Hp.
    mstep Ha as ts' w5 Ht. unfold gets in Ht. injection Ht as <- <-.
    mstep Ha as tp' w6 Htp. mstep Ha as k' w7 Hk.
    unfold new_closure in Hk. injection Hk as <- <-.
    unfold ret in Ha. injection Ha as <- <- <- <-. simpl.
    assert (Hw2 : trace w2 = trace w ∧ pendingRestore w2 = pendingRestore w).
    { destruct (st_locals ips).
      - unfold ret in Hl. by injection Hl as <-.
      - mstep Hl as r w8 Hr. unfold read_obj in Hr. apply deref_Some in Hr as [Hr ->].
        unfold write_obj, modify in Hl. by injection Hl as <-. }
    destruct Hw2 as [Hw2 Hpr]. rewrite Hpr, Hw2 in Hp.
    destruct (toParams req).
    - unfold ret in Htp. by injection Htp as <- <-.
    - unfold new_pobj in Htp. by injection Htp as <- <-. }
  simpl. destruct ts as [toState|].
  - destruct (substitute_inv _ _ _ _ _ _ _ _ Hs)
      as (v0 & wr & wl & v & wb & Hr & Hl & Hb & Hi).
    pose proof (register_transition_trace _ _ _ _ _ _ _ _ Hr) as Htr.
    destruct (register_transition_spec _ _ _ _ _ _ _ _ Hr)
      as (sTo & sFrom & toPath & fromPath & Hreg & ->).
    pose proof (refresh_inactive_locals_only _ _ _ _ _ Hl)
      as (Ho & Hse & Har & _ & _ & _ & _ & Htl).
    destruct Hreg as [(otr & Hot & Hpt) (ofr & Hof & Hpf) Hta Hfa Hro Hrs Hra _ _ _ _ _].
    assert (Hto : path_of wl toState = Some toPath).
    { unfold path_of. by rewrite Ho, Hro, Hot, Hpt, Har, Hra. }
    assert (Hfrom : path_of wl (current req) = Some fromPath).
    { unfold path_of. by rewrite Ho, Hro, Hof, Hpf, Har, Hra. }
    destruct (build_paths_spec _ _ _ _ _ _ _ _ _ _ Hb Hto Hfrom)
      as (be & bx & bo & [_ _ Hbuilt _]).
    pose proof (fr_trace _ _ _ _ (built_wframe _ _ _ _ _ Hbuilt)) as Htb.
    pose proof (install_paths_trace _ _ _ _ _ _ Hi) as Hti.
    rewrite Hti, Htb, Htl, Htr, Hacc.
    destruct (DEBUG req); [|by rewrite !app_nil_r].
    by rewrite <- !app_assoc.
  - subst w1. rewrite Hacc. destruct (DEBUG req); by rewrite ?app_nil_r, <- ?app_assoc.
Qed.

Lemma transitionTo_calls_out_once_witness :
  trace ex_ov_wx
  = trace ex_ov_wa
    ++ (if DEBUG ex_enter_X
        then match pendingRestore ex_ov_wa with
             | Some _ => [EvLogDebug "Restored paths from pending transition"]
             | None => []
             end
             ++ [EvDebugTransition ex_ov_kx; EvLogDebug "SurrogateFromPath: ";
                 EvLogDebug "SurrogateToPath:   "]
        else [])
    ++ [EvDelegate ex_ov_kx].
Proof.
  assert (H1 : transitionTo ex_cfg ex_enter_X ex_ov_wa = Some (ex_ov_kx, ex_ov_wx))
    by (vm_compute; reflexivity).
  assert (H2 : accept ex_cfg ex_enter_X ex_ov_wa
               = Some ((ex_ov_kx, Some 5, 27), ex_ov_wcx))
    by (vm_compute; reflexivity).
  exact (transitionTo_calls_out_once _ _ _ _ _ _ _ _ H1 H2).
Defined.

(** The rollback also covers the parameter lists (l.297-316 with [restore],
    l.151-173).  After a successful call with a resolved target, with or
    without a reload, calling the invocation's [restore] leaves every
    parameter list that existed when the request was accepted exactly as it
    was then: the temporary [$$uirouterextrasreload] entries are gone again,
    although the loops have created surrogates and pushed further restore
    functions in between.  With parameter sets this needs that no set held
    the key beforehand, since the rollback deletes it. *)
Theorem restore_reinstates_parameter_lists (cfg : config) (req : request)
    (w w0 w' w2 : world) (k toState tp : nat) :
  transitionTo cfg req w = Some (k, w') →
  accept cfg req w = Some ((k, Some toState, tp), w0) →
  hasParamSet cfg = false ∨ (∀ l p, paramsH w0 !! l = Some p → reloadKey ∉ p) →
  call_restore k w' = Some (tt, w2) →
  paramsH w0 ⊆ paramsH w2.
Proof.
  intros H Ha Hcase Hres.
  destruct (transitionTo_inv _ _ _ _ _ H) as (ts' & tp' & w0' & w1 & Ha' & Hs & ->).
  rewrite Ha in Ha'. injection Ha' as <- <- <-.
  destruct (accept_spec _ _ _ _ _ _ _ Ha) as (idx & Hc0).
  destruct (substitute_inv _ _ _ _ _ _ _ _ Hs) as (v0 & wr & wl & v & wb & Hr & Hl & Hb & Hi).
  destruct (register_transition_reload _ _ _ _ _ _ _ _ _ Hr Hc0) as (sTo' & sFrom' & Hrel).
  destruct (register_transition_spec _ _ _ _ _ _ _ _ Hr)
    as (sTo & sFrom & toPath & fromPath & Hreg & ->).
  pose proof (refresh_inactive_locals_only _ _ _ _ _ Hl)
    as (Ho & Hse & Har & Hpl & Hcl & _).
  destruct Hreg as [(otr & Hot & Hpt) (ofr & Hof & Hpf) Hta Hfa Hro Hrs Hra _ _ _ _ _].
  assert (Hto : path_of wl toState = Some toPath).
  { unfold path_of. by rewrite Ho, Hro, Hot, Hpt, Har, Hra. }
  assert (Hfrom : path_of wl (current req) = Some fromPath).
  { unfold path_of. by rewrite Ho, Hro, Hof, Hpf, Har, Hra. }
  destruct (build_paths_spec _ _ _ _ _ _ _ _ _ _ Hb Hto Hfrom)
    as (be & bx & bo & [_ _ Hbuilt _]).
  pose proof (built_wframe _ _ _ _ _ Hbuilt) as F.
  pose proof (fr_params _ _ _ _ F) as Hpb.
  destruct (install_paths_params _ _ _ _ _ _ Hi) as [Hp1 Hc1].
  assert (Hstart : ∃ cl r, closures wl !! k = Some cl ∧ c_restoreIsNoop cl = false
            ∧ c_restoreFunctions cl = r
            ∧ ∀ hs wA wC, Forall (λ u, ¬ is_reload_undo u) hs →
                paramsH wl ⊆ paramsH wA →
                forEach run_undo (r ++ hs) wA = Some (tt, wC) →
                paramsH w0 ⊆ paramsH wC).
  { destruct Hrel as [[Hpr Hcr]|(r & wa & wb' & Hadd & Hpa & Hca & Hpr & Hcr)].
    - eexists _, []. rewrite Hcl. split; [exact Hcr|]. split; [done|]. split; [done|].
      intros hs wA wC Hhs Hsub Hrun. simpl in Hrun.
      rewrite (hook_undos_params _ _ _ _ Hhs Hrun). by rewrite <- Hpr, <- Hpl.
    - destruct (reload_undo_back _ _ _ _ _ _ _ _ Hadd Hca) as (u & Hcb & _ & Hback).
      { destruct Hcase as [?|Habs]; [by left|right]. intros l p. rewrite Hpa. apply Habs. }
      eexists _, [u]. rewrite Hcl, Hcr, Hcb, lookup_insert_eq.
      split; [done|]. split; [done|]. split; [done|].
      intros hs wA wC Hhs Hsub Hrun. simpl in Hrun.
      mstep Hrun as [] wy Hu.
      destruct (Hback wA) as (wy' & Hu' & Hsuby).
      { by rewrite <- Hpr, <- Hpl. }
      assert (wy' = wy) as -> by congruence.
      rewrite (hook_undos_params _ _ _ _ Hhs Hrun). by rewrite <- Hpa. }
  destruct Hstart as (cl & r & Hcl0 & Hnoop & Hfns & Hall).
  destruct (built_undos _ _ _ _ _ Hbuilt _ Hcl0) as (c1 & hs & Hcw & Hfn1 & Hhs).
  destruct (fr_closure _ _ _ _ F _ Hcl0) as (c1' & Hc1' & Hsp).
  assert (c1' = c1) as -> by congruence.
  destruct Hsp as (_ & _ & _ & _ & _ & Hnoop1 & _). rewrite Hnoop in Hnoop1.
  assert (Hcw' : closures (emit (EvDelegate k) w1) !! k = Some c1).
  { simpl. by rewrite Hc1. }
  destruct (call_restore_params _ _ _ _ Hres Hcw' Hnoop1) as (wA & wC & HpA & Hrun & Hp2).
  rewrite Hp2. rewrite Hfn1, Hfns in Hrun.
  apply (Hall hs wA wC Hhs); [|done].
  rewrite HpA. simpl. by rewrite Hp1.
Qed.

Lemma restore_reinstates_parameter_lists_witness :
  paramsH ex_wc_rl ⊆ paramsH ex_w_rl_restored.
Proof.
  assert (H1 : transitionTo ex_cfg ex_reload_A ex_world_opts = Some (ex_k_rl, ex_w_rl))
    by (vm_compute; reflexivity).
  assert (H2 : accept ex_cfg ex_reload_A ex_world_opts
               = Some ((ex_k_rl, Some 2, 26), ex_wc_rl))
    by (vm_compute; reflexivity).
  assert (H3 : call_restore ex_k_rl ex_w_rl = Some (tt, ex_w_rl_restored))
    by (vm_compute; reflexivity).
  exact (restore_reinstates_parameter_lists ex_cfg _ _ _ _ _ _ _ _
           H1 H2 (or_introl eq_refl) H3).
Defined.
